(** * Red/black SOR Poisson solvers of psi_sor.c

    A shallow embedding of [psi_sor_poisson] and [psi_sor_vare_poisson]
    (src/psi_sor.c) together with the parts of the coordinate system and
    of the field halo exchange they rely on.

    Conventions of the embedding.
    - C [int] values are integers of [Z]; the extents and loop counters
      involved stay far below the range of [int].  The C remainder
      operator [%] is [Z.rem].
    - C [double] values are real numbers of [R] and the arithmetic is the
      exact one; rounding is not modelled.
    - [obj->psi] and the other site-indexed arrays are functions from the
      linear address to the stored value; an assignment to one element is
      a pointwise update ([upd]).
    - The program is SPMD.  All ranks of the Cartesian communicator run
      the same control flow in lock step, so a run is modelled on all the
      ranks together: site data are indexed by rank ([fields]), the
      scalar control data are shared, and [MPI_Allreduce] with [MPI_SUM]
      is a sum over the ranks.
    - A run that does not return ends with a [failure]: an [assert] that
      is false ([AssertionFailure]), the remainder [its % obj->nfreq] taken
      with [nfreq] equal to zero, or a site array read outside the
      [nsites] elements it has. *)

From Stdlib Require Import Reals ZArith List Bool Lia Lra Psatz Permutation
  FunctionalExtensionality.
Import ListNotations.

Open Scope Z_scope.

(* ===================================================================== *)
(** ** Coordinate system (coords.h) *)
(* ===================================================================== *)

(** What the accessors of [cs_t] used by the solvers return: [cs_ltot],
    [cs_nlocal] and [cs_nhalo].  The three components are in the order
    X, Y, Z. *)
Record cs_t := mk_cs {
  ltot   : R * R * R;     (* cs_ltot: global extents, as doubles *)
  nlocal : Z * Z * Z;     (* cs_nlocal: local (owned) extents *)
  nhalo  : Z              (* cs_nhalo: width of the halo region *)
}.

Definition nlocalX (cs : cs_t) : Z := fst (fst (nlocal cs)).
Definition nlocalY (cs : cs_t) : Z := snd (fst (nlocal cs)).
Definition nlocalZ (cs : cs_t) : Z := snd (nlocal cs).

Definition ltotX (cs : cs_t) : R := fst (fst (ltot cs)).
Definition ltotY (cs : cs_t) : R := snd (fst (ltot cs)).
Definition ltotZ (cs : cs_t) : R := snd (ltot cs).

(** Modelled from the spec: [cs_strides] and [cs_nsites] are declared in
    coords.h and defined in coords.c, which is not part of the sources.
    The spec describes memory strides of a plane-major addressing scheme
    over the local extents plus the halo on both sides; Z runs fastest. *)
Definition zs (cs : cs_t) : Z := 1.
Definition ys (cs : cs_t) : Z := nlocalZ cs + 2 * nhalo cs.
Definition xs (cs : cs_t) : Z := (nlocalY cs + 2 * nhalo cs) * ys cs.
Definition nsites (cs : cs_t) : Z := (nlocalX cs + 2 * nhalo cs) * xs cs.

(** Modelled from the spec: [cs_index] (coords.c) maps local coordinates,
    halo included, to the linear address consistent with the strides; the
    first halo site along each axis has coordinate [1 - nhalo]. *)
Definition cs_index (cs : cs_t) (ic jc kc : Z) : Z :=
  xs cs * (nhalo cs + ic - 1) + ys cs * (nhalo cs + jc - 1)
  + zs cs * (nhalo cs + kc - 1).

(** Modelled from the spec: [addr_rank0] (memory.h, not part of the
    sources) is the address of a scalar quantity at a site. *)
Definition addr_rank0 (nsites index : Z) : Z := index.

(** A site owned by the rank: [1 <= ic <= nlocal[X]] and so on. *)
Definition interior (cs : cs_t) (c : Z * Z * Z) : Prop :=
  let '(ic, jc, kc) := c in
  1 <= ic <= nlocalX cs /\ 1 <= jc <= nlocalY cs /\ 1 <= kc <= nlocalZ cs.

(** A site of the allocated box: the owned sites and [nhalo] layers around. *)
Definition allocated (cs : cs_t) (c : Z * Z * Z) : Prop :=
  let '(ic, jc, kc) := c in
  1 - nhalo cs <= ic <= nlocalX cs + nhalo cs /\
  1 - nhalo cs <= jc <= nlocalY cs + nhalo cs /\
  1 - nhalo cs <= kc <= nlocalZ cs + nhalo cs.

Definition index_of (cs : cs_t) (c : Z * Z * Z) : Z :=
  let '(ic, jc, kc) := c in cs_index cs ic jc kc.

(* ===================================================================== *)
(** ** Loops *)
(* ===================================================================== *)

(** The successive values of the loop variable of
    [for (i = lo; i <= hi; i += step)]; [fuel] bounds the number of
    iterations. *)
Fixpoint for_values (fuel : nat) (i hi step : Z) : list Z :=
  match fuel with
  | O => []
  | S fuel' =>
      if i <=? hi then i :: for_values fuel' (i + step) hi step else []
  end.

(** [for (i = 1; i <= n; i++)] *)
Definition for_1_to (n : Z) : list Z := for_values (Z.to_nat n) 1 n 1.

(** [kst = 1 + (ic + jc + pass) % 2] *)
Definition kst (ic jc pass : Z) : Z := 1 + Z.rem (ic + jc + pass) 2.

(** [for (kc = kst; kc <= nlocal[Z]; kc += 2)] *)
Definition for_kc (ic jc pass nz : Z) : list Z :=
  for_values (Z.to_nat nz) (kst ic jc pass) nz 2.

(** The sites visited by the full triple loop, in the order of the visit. *)
Definition all_coords (cs : cs_t) : list (Z * Z * Z) :=
  flat_map (fun ic =>
    flat_map (fun jc =>
      map (fun kc => (ic, jc, kc)) (for_1_to (nlocalZ cs)))
      (for_1_to (nlocalY cs)))
    (for_1_to (nlocalX cs)).

(** The sites visited by the red/black triple loop of one pass. *)
Definition pass_coords (cs : cs_t) (pass : Z) : list (Z * Z * Z) :=
  flat_map (fun ic =>
    flat_map (fun jc =>
      map (fun kc => (ic, jc, kc)) (for_kc ic jc pass (nlocalZ cs)))
      (for_1_to (nlocalY cs)))
    (for_1_to (nlocalX cs)).

(** Checkerboard colour of a site. *)
Definition colour (c : Z * Z * Z) : Z :=
  let '(ic, jc, kc) := c in (ic + jc + kc) mod 2.

(** The assertions on the local extents at the entry of both solvers. *)
Definition nlocal_even (cs : cs_t) : bool :=
  (Z.rem (nlocalX cs) 2 =? 0) && (Z.rem (nlocalY cs) 2 =? 0)
  && (Z.rem (nlocalZ cs) 2 =? 0).

(* ===================================================================== *)
(** ** Site data, the psi object and the communicator *)
(* ===================================================================== *)

Open Scope R_scope.

(** A site-indexed array of doubles on one rank, by linear address. *)
Definition field := Z -> R.

(** One such array per rank of the Cartesian communicator. *)
Definition fields := nat -> field.

(** [a[index] = v] *)
Definition upd (a : field) (index : Z) (v : R) : field :=
  fun i => if (i =? index)%Z then v else a i.

(** The scalar part of [psi_t] read by the solvers through [psi_epsilon],
    [psi_reltol], [psi_abstol], [psi_maxits], [psi_beta],
    [psi_unit_charge], and the members [cs] and [nfreq].  It is the same
    on every rank. *)
Record psi_t := mk_psi {
  psi_cs          : cs_t;
  psi_epsilon     : R;
  psi_reltol      : R;
  psi_abstol      : R;
  psi_maxits      : Z;
  psi_beta        : R;
  psi_unit_charge : R;
  psi_nfreq       : Z
}.

(** The communication the solvers rely on.  [psi_halo_psi] and
    [psi_halo_psijump] (psi.c, not part of the sources) rewrite the
    potential on all ranks; the solvers make no assumption on them. *)
Record comm_t := mk_comm {
  nranks           : nat;
  psi_halo_psi     : fields -> fields;
  psi_halo_psijump : fields -> fields
}.

(** [MPI_Allreduce(..., MPI_SUM, comm)] of one double per rank. *)
Fixpoint sum_ranks (n : nat) (local : nat -> R) : R :=
  match n with
  | O => 0
  | S k => sum_ranks k local + local k
  end.

Definition mpi_allreduce_sum (comm : comm_t) (local : nat -> R) : R :=
  sum_ranks (nranks comm) local.

(** [a < b] on doubles, as a condition. *)
Definition Rltb (a b : R) : bool := if Rlt_dec a b then true else false.

(** Modelled from the spec: [dmax] (util.c, not part of the sources) is
    the larger of its two arguments. *)
Definition dmax (a b : R) : R := Rmax a b.

(** [radius = 1.0 - 0.5*pow(4.0*atan(1.0)/dmax(ltot[X],ltot[Z]), 2)] *)
Definition radius_of (cs : cs_t) : R :=
  1 - (1/2) * (4 * atan 1 / dmax (ltotX cs) (ltotZ cs)) ^ 2.

(** What [pe_info] is asked to print. *)
Inductive message :=
| info_converged_abs (residual_per_site : R) (n : Z)
| info_converged_rel (residual_per_site : R) (n : Z)
| info_exceeded (iterations : Z) (rnorm_initial rnorm_final : R)
| info_vare_converged_abs (residual_per_site : R) (n : Z)
| info_vare_converged_rel (residual_per_site : R) (n : Z)
| info_vare_exceeded (iterations : Z) (rnorm_initial rnorm_final : R).

(** The variables of a solver that live across the iterations. *)
Record sor_state := mk_state {
  st_psi          : fields;        (* obj->psi, on every rank *)
  st_omega        : R;             (* omega *)
  st_rnorm_local1 : nat -> R;      (* rnorm_local[1], on every rank *)
  st_rnorm        : R * R;         (* rnorm[0], rnorm[1] *)
  st_log          : list message   (* pe_info output so far *)
}.

Inductive sor_exit :=
| ConvergedAbsolute
| ConvergedRelative
| MaxIterationsReached.

(** The ways in which a run ends without returning. *)
Inductive failure :=
| FailedAssertion     (* an [assert] whose condition is false *)
| DivisionByZero      (* [its % obj->nfreq] with [obj->nfreq == 0] *)
| OutOfBounds.        (* [obj->psi[...]] read outside the array *)

(** One trip through the body of the [n] loop. *)
Inductive outcome :=
| Fails (f : failure)
| Break (e : sor_exit) (st : sor_state)
| Continue (st : sor_state).

(** A call of a solver: a failure, or [return 0] with the way the loop
    was left and the final values of the variables. *)
Inductive sor_result :=
| Failed (f : failure)
| Returned (e : sor_exit) (st : sor_state).

Notation "'AssertFails'" := (Fails FailedAssertion).
Notation "'AssertionFailure'" := (Failed FailedAssertion).

(** [for (n = n0; n < n0 + count; n++) body], with [break]. *)
Fixpoint sor_loop (body : Z -> sor_state -> outcome) (count : nat) (n : Z)
    (st : sor_state) : sor_result :=
  match count with
  | O => Returned MaxIterationsReached st
  | S count' =>
      match body n st with
      | Fails f => Failed f
      | Break e st' => Returned e st'
      | Continue st' => sor_loop body count' (n + 1)%Z st'
      end
  end.

(** [for (pass = 0; pass < 2; pass++) body], where an assertion of the
    body may fail. *)
Definition for_pass (body : Z -> sor_state -> option sor_state)
    (st : sor_state) : option sor_state :=
  fold_left (fun acc pass =>
               match acc with Some s => body pass s | None => None end)
            (for_values 2 0 1 1) (Some st).

Definition log_if (b : bool) (m : message) (st : sor_state) : sor_state :=
  if b then mk_state (st_psi st) (st_omega st) (st_rnorm_local1 st)
                     (st_rnorm st) (st_log st ++ [m])
  else st.

(** [rnorm_local[1] = 0.0] at the start of a trip. *)
Definition reset_rnorm_local1 (st : sor_state) : sor_state :=
  mk_state (st_psi st) (st_omega st) (fun _ => 0) (st_rnorm st) (st_log st).

Definition residual_per_site (cs : cs_t) (rnorm1 : R) : R :=
  rnorm1 / (ltotX cs * ltotY cs * ltotZ cs).

(** [if (its % obj->nfreq == 0) { pe_info(...) } break;] in a branch of
    the residual check.  The remainder is taken first: with [nfreq] equal
    to zero the division traps and the [break] is not reached. *)
Definition report_and_break (obj : psi_t) (its : Z) (e : sor_exit)
    (m : message) (st : sor_state) : outcome :=
  if (psi_nfreq obj =? 0)%Z then Fails DivisionByZero
  else Break e (log_if (Z.rem its (psi_nfreq obj) =? 0)%Z m st).

(* ===================================================================== *)
(** ** psi_sor_poisson: uniform permittivity *)
(* ===================================================================== *)

(** The 6-point stencil of the Laplacian, [dpsi]. *)
Definition dpsi (cs : cs_t) (psi : field) (index : Z) : R :=
  psi (addr_rank0 (nsites cs) (index + xs cs))
  + psi (addr_rank0 (nsites cs) (index - xs cs))
  + psi (addr_rank0 (nsites cs) (index + ys cs))
  + psi (addr_rank0 (nsites cs) (index - ys cs))
  + psi (addr_rank0 (nsites cs) (index + zs cs))
  + psi (addr_rank0 (nsites cs) (index - zs cs))
  - 6 * psi (addr_rank0 (nsites cs) index).

(** [epsilon*dpsi + eunit*beta*rho_elec] at a site. *)
Definition residual_at (obj : psi_t) (rho_elec psi : field) (index : Z) : R :=
  psi_epsilon obj * dpsi (psi_cs obj) psi index
  + psi_unit_charge obj * psi_beta obj * rho_elec index.

(** The loop computing [rnorm_local[0]] on one rank. *)
Definition rnorm_local0 (obj : psi_t) (rho_elec psi : field) : R :=
  fold_left (fun acc c =>
               acc + Rabs (residual_at obj rho_elec psi
                             (index_of (psi_cs obj) c)))
            (all_coords (psi_cs obj)) 0.

(** The body of the red/black loop at one site. *)
Definition sor_site (obj : psi_t) (omega : R) (rho_elec : field)
    (acc : field * R) (index : Z) : field * R :=
  let '(psi, rnorm_local1) := acc in
  let residual := residual_at obj rho_elec psi index in
  let a := addr_rank0 (nsites (psi_cs obj)) index in
  (upd psi a (psi a - omega * residual / (-6 * psi_epsilon obj)),
   rnorm_local1 + Rabs residual).

(** The red/black triple loop of one pass on one rank. *)
Definition half_sweep (obj : psi_t) (omega : R) (pass : Z)
    (rho_elec : field) (acc : field * R) : field * R :=
  fold_left (fun a c => sor_site obj omega rho_elec a
                          (index_of (psi_cs obj) c))
            (pass_coords (psi_cs obj) pass) acc.

(** Recompute relaxation parameter. *)
Definition omega_next (radius : R) (n pass : Z) (omega : R) : R :=
  if ((n =? 0) && (pass =? 0))%Z
  then 1 / (1 - (1/2) * radius * radius)
  else 1 / (1 - (1/4) * radius * radius * omega).

(** The red/black loop of one pass, on every rank. *)
Definition sor_sweep (obj : psi_t) (rho_elec : fields) (pass : Z)
    (st : sor_state) : sor_state :=
  let swept := fun p =>
    half_sweep obj (st_omega st) pass (rho_elec p)
               (st_psi st p, st_rnorm_local1 st p) in
  mk_state (fun p => fst (swept p)) (st_omega st) (fun p => snd (swept p))
           (st_rnorm st) (st_log st).

(** [omega = ...] *)
Definition set_omega (omega : R) (st : sor_state) : sor_state :=
  mk_state (st_psi st) omega (st_rnorm_local1 st) (st_rnorm st) (st_log st).

(** [psi_halo_psi(obj); psi_halo_psijump(obj);] *)
Definition sor_halo (comm : comm_t) (st : sor_state) : sor_state :=
  mk_state (psi_halo_psijump comm (psi_halo_psi comm (st_psi st)))
           (st_omega st) (st_rnorm_local1 st) (st_rnorm st) (st_log st).

(** One pass: the sweep, the new [omega] with its two assertions, then
    the halo exchanges. *)
Definition sor_pass (comm : comm_t) (obj : psi_t) (rho_elec : fields)
    (radius : R) (n pass : Z) (st : sor_state) : option sor_state :=
  let st1 := sor_sweep obj rho_elec pass st in
  let omega := omega_next radius n pass (st_omega st1) in
  if Rltb 1 omega && Rltb omega 2 then Some (sor_halo comm (set_omega omega st1))
  else None.

Definition ncheck_poisson : Z := 5.

(** [if (n == niteration-1) pe_info(...)], at the end of the body. *)
Definition sor_exceeded (obj : psi_t) (n : Z) (st : sor_state) : sor_state :=
  log_if (n =? psi_maxits obj - 1)%Z
         (info_exceeded (n + 1) (fst (st_rnorm st)) (snd (st_rnorm st))) st.

(** The comparison of the residual with the tolerances. *)
Definition sor_check (comm : comm_t) (obj : psi_t) (rnl0 : nat -> R)
    (its n : Z) (st : sor_state) : outcome :=
  let rnorm := (mpi_allreduce_sum comm rnl0,
                mpi_allreduce_sum comm (st_rnorm_local1 st)) in
  let st' := mk_state (st_psi st) (st_omega st) (st_rnorm_local1 st)
                      rnorm (st_log st) in
  if Rltb (snd rnorm) (psi_abstol obj) then
    report_and_break obj its ConvergedAbsolute
      (info_converged_abs (residual_per_site (psi_cs obj) (snd rnorm)) n) st'
  else if Rltb (snd rnorm) (psi_abstol obj)
          || Rltb (snd rnorm) (psi_reltol obj * fst rnorm) then
    report_and_break obj its ConvergedRelative
      (info_converged_rel (residual_per_site (psi_cs obj) (snd rnorm)) n) st'
  else Continue st'.

(** The body of the [n] loop of [psi_sor_poisson]. *)
Definition sor_iteration (comm : comm_t) (obj : psi_t) (rho_elec : fields)
    (rnl0 : nat -> R) (radius : R) (its n : Z) (st : sor_state) : outcome :=
  match for_pass (sor_pass comm obj rho_elec radius n)
                 (reset_rnorm_local1 st) with
  | None => AssertFails
  | Some st2 =>
      if (Z.rem n ncheck_poisson =? 0)%Z then
        match sor_check comm obj rnl0 its n st2 with
        | Continue st3 => Continue (sor_exceeded obj n st3)
        | stop => stop
        end
      else Continue (sor_exceeded obj n st2)
  end.

(** The state at [omega = 1.0], before the [n] loop.  [rnorm] and
    [rnorm_local[1]] are not initialised in the source; neither is read
    before it has been assigned. *)
Definition sor_initial (psi0 : fields) : sor_state :=
  mk_state psi0 1 (fun _ => 0) (0, 0) [].

Definition psi_sor_poisson (comm : comm_t) (obj : psi_t)
    (rho_elec psi0 : fields) (its : Z) : sor_result :=
  if negb (1 <=? nhalo (psi_cs obj))%Z then AssertionFailure
  else if negb (nlocal_even (psi_cs obj)) then AssertionFailure
  else
    let radius := radius_of (psi_cs obj) in
    let rnl0 := fun p => rnorm_local0 obj (rho_elec p) (psi0 p) in
    sor_loop (sor_iteration comm obj rho_elec rnl0 radius its)
             (Z.to_nat (psi_maxits obj)) 0%Z (sor_initial psi0).

(* ===================================================================== *)
(** ** psi_sor_vare_poisson: spatially varying permittivity *)
(* ===================================================================== *)

(** The differenced left-hand side [depsi] at a site, statement by
    statement; [fepsilon] is the permittivity callback on this rank. *)
Definition vare_depsi (cs : cs_t) (fepsilon psi : field) (index : Z) : R :=
  let nsites := nsites cs in
  let depsi := 0 in
  let eps0 := fepsilon index in
  (* Laplacian part of operator *)
  let depsi := depsi + eps0 * (-6 * psi (addr_rank0 nsites index)
                               + psi (addr_rank0 nsites (index + xs cs))
                               + psi (addr_rank0 nsites (index - xs cs))
                               + psi (addr_rank0 nsites (index + ys cs))
                               + psi (addr_rank0 nsites (index - ys cs))
                               + psi (addr_rank0 nsites (index + zs cs))
                               + psi (addr_rank0 nsites (index - zs cs))) in
  (* Additional terms in generalised Poisson equation *)
  let eps1 := fepsilon (index + xs cs)%Z in
  let depsi := depsi + (1/4) * eps1 * (psi (addr_rank0 nsites (index + xs cs))
                                       - psi (addr_rank0 nsites (index - xs cs))) in
  let eps1 := fepsilon (index - xs cs)%Z in
  let depsi := depsi - (1/4) * eps1 * (psi (addr_rank0 nsites (index + xs cs))
                                       - psi (addr_rank0 nsites (index - xs cs))) in
  let eps1 := fepsilon (index + ys cs)%Z in
  let depsi := depsi + (1/4) * eps1 * (psi (addr_rank0 nsites (index + ys cs))
                                       - psi (addr_rank0 nsites (index - ys cs))) in
  let eps1 := fepsilon (index - ys cs)%Z in
  let depsi := depsi - (1/4) * eps1 * (psi (addr_rank0 nsites (index + ys cs))
                                       - psi (addr_rank0 nsites (index - ys cs))) in
  let eps1 := fepsilon (index + zs cs)%Z in
  let depsi := depsi + (1/4) * eps1 * (psi (addr_rank0 nsites (index + zs cs))
                                       - psi (addr_rank0 nsites (index - zs cs))) in
  let eps1 := fepsilon (index - zs cs)%Z in
  let depsi := depsi - (1/4) * eps1 * (psi (addr_rank0 nsites (index + zs cs))
                                       - psi (addr_rank0 nsites (index - zs cs))) in
  depsi.

(** [depsi + eunit*beta*rho_elec] at a site. *)
Definition vare_residual_at (obj : psi_t) (fepsilon rho_elec psi : field)
    (index : Z) : R :=
  vare_depsi (psi_cs obj) fepsilon psi index
  + psi_unit_charge obj * psi_beta obj * rho_elec index.

(** The loop computing [rnorm_local[0]] on one rank. *)
Definition vare_rnorm_local0 (obj : psi_t) (fepsilon rho_elec psi : field)
    : R :=
  fold_left (fun acc c =>
               acc + Rabs (vare_residual_at obj fepsilon rho_elec psi
                             (index_of (psi_cs obj) c)))
            (all_coords (psi_cs obj)) 0.

(** The body of the red/black loop at one site. *)
Definition vare_site (obj : psi_t) (omega : R) (fepsilon rho_elec : field)
    (acc : field * R) (index : Z) : field * R :=
  let '(psi, rnorm_local1) := acc in
  let eps0 := fepsilon index in
  let residual := vare_residual_at obj fepsilon rho_elec psi index in
  let a := addr_rank0 (nsites (psi_cs obj)) index in
  (upd psi a (psi a - omega * residual / (-6 * eps0)),
   rnorm_local1 + Rabs residual).

(** The red/black triple loop of one pass on one rank. *)
Definition vare_half_sweep (obj : psi_t) (omega : R) (pass : Z)
    (fepsilon rho_elec : field) (acc : field * R) : field * R :=
  fold_left (fun a c => vare_site obj omega fepsilon rho_elec a
                          (index_of (psi_cs obj) c))
            (pass_coords (psi_cs obj) pass) acc.

(** The red/black loop of one pass, on every rank. *)
Definition vare_sweep (obj : psi_t) (fepsilon rho_elec : fields) (pass : Z)
    (st : sor_state) : sor_state :=
  let swept := fun p =>
    vare_half_sweep obj (st_omega st) pass (fepsilon p) (rho_elec p)
                    (st_psi st p, st_rnorm_local1 st p) in
  mk_state (fun p => fst (swept p)) (st_omega st) (fun p => snd (swept p))
           (st_rnorm st) (st_log st).

(** One pass: the sweep, then the halo exchanges. *)
Definition vare_pass (comm : comm_t) (obj : psi_t) (fepsilon rho_elec : fields)
    (pass : Z) (st : sor_state) : option sor_state :=
  Some (sor_halo comm (vare_sweep obj fepsilon rho_elec pass st)).

(** Recompute relation parameter, once the two passes are done. *)
Definition vare_omega_next (radius omega : R) : R :=
  1 / (1 - (1/4) * radius * radius * omega).

(** [omega = 1.0 / (1.0 - 0.25*radius*radius*omega)] after the passes. *)
Definition vare_recompute (radius : R) (st : sor_state) : sor_state :=
  set_omega (vare_omega_next radius (st_omega st)) st.

Definition ncheck_vare : Z := 1.

(** [if (n == niteration-1) pe_info(...)], inside the residual check. *)
Definition vare_exceeded (obj : psi_t) (n : Z) (st : sor_state) : sor_state :=
  log_if (n =? psi_maxits obj - 1)%Z
         (info_vare_exceeded (n + 1) (fst (st_rnorm st)) (snd (st_rnorm st)))
         st.

(** The comparison of the residual with the tolerances. *)
Definition vare_check (comm : comm_t) (obj : psi_t) (rnl0 : nat -> R)
    (its n : Z) (st : sor_state) : outcome :=
  let rnorm := (mpi_allreduce_sum comm rnl0,
                mpi_allreduce_sum comm (st_rnorm_local1 st)) in
  let st' := mk_state (st_psi st) (st_omega st) (st_rnorm_local1 st)
                      rnorm (st_log st) in
  if Rltb (snd rnorm) (psi_abstol obj) then
    report_and_break obj its ConvergedAbsolute
      (info_vare_converged_abs
         (residual_per_site (psi_cs obj) (snd rnorm)) n) st'
  else if Rltb (snd rnorm) (psi_reltol obj * fst rnorm) then
    report_and_break obj its ConvergedRelative
      (info_vare_converged_rel
         (residual_per_site (psi_cs obj) (snd rnorm)) n) st'
  else Continue (vare_exceeded obj n st').

(** The body of the [n] loop of [psi_sor_vare_poisson]. *)
Definition vare_iteration (comm : comm_t) (obj : psi_t)
    (fepsilon rho_elec : fields) (rnl0 : nat -> R) (radius : R) (its n : Z)
    (st : sor_state) : outcome :=
  match for_pass (vare_pass comm obj fepsilon rho_elec)
                 (reset_rnorm_local1 st) with
  | None => AssertFails
  | Some st2 =>
      let st2' := vare_recompute radius st2 in
      if (Z.rem n ncheck_vare =? 0)%Z then vare_check comm obj rnl0 its n st2'
      else Continue st2'
  end.

(** The addresses of [obj->psi] read at the site [index]: the site and
    its six neighbours. *)
Definition stencil_reads (cs : cs_t) (index : Z) : list Z :=
  [index; index + xs cs; index - xs cs; index + ys cs; index - ys cs;
   index + zs cs; index - zs cs]%Z.

(** Every read made at an owned site falls inside the [nsites] elements
    of the array. *)
Definition stencil_in_bounds (cs : cs_t) : bool :=
  forallb (fun c =>
             forallb (fun a => (0 <=? a) && (a <? nsites cs))%Z
                     (stencil_reads cs (index_of cs c)))
          (all_coords cs).

(** Unlike [psi_sor_poisson] the function makes no assertion on the width
    of the halo.  Its first triple loop already reads the six neighbours
    of every owned site, so where one of these lies outside the array the
    run has no defined result. *)
Definition psi_sor_vare_poisson (comm : comm_t) (obj : psi_t)
    (fepsilon rho_elec psi0 : fields) (its : Z) : sor_result :=
  if negb (nlocal_even (psi_cs obj)) then AssertionFailure
  else if negb (stencil_in_bounds (psi_cs obj)) then Failed OutOfBounds
  else
    let radius := radius_of (psi_cs obj) in
    let rnl0 := fun p =>
      vare_rnorm_local0 obj (fepsilon p) (rho_elec p) (psi0 p) in
    sor_loop (vare_iteration comm obj fepsilon rho_elec rnl0 radius its)
             (Z.to_nat (psi_maxits obj)) 0%Z (sor_initial psi0).

(* ===================================================================== *)
(** ** Cartesian decomposition (coords.h) *)
(* ===================================================================== *)

Open Scope Z_scope.

Module Cartesian.
(** The directions [X], [Y], [Z] that index the three-component arrays. *)
Inductive axis := X | Y | Z.

Definition axis_eqb (d d' : axis) : bool :=
  match d, d' with
  | X, X | Y, Y | Z, Z => true
  | _, _ => false
  end.
End Cartesian.

(** [enum cartesian_neighbours {FORWARD, BACKWARD}] *)
Inductive cartesian_neighbours := FORWARD | BACKWARD.

(** Three integers, one per axis: the local coordinates of a site, or the
    Cartesian coordinates of a rank in the process grid. *)
Definition coord := (Z * Z * Z)%type.

Definition get (d : Cartesian.axis) (c : coord) : Z :=
  match d with
  | Cartesian.X => fst (fst c)
  | Cartesian.Y => snd (fst c)
  | Cartesian.Z => snd c
  end.

Definition set (d : Cartesian.axis) (c : coord) (v : Z) : coord :=
  match d with
  | Cartesian.X => (v, snd (fst c), snd c)
  | Cartesian.Y => (fst (fst c), v, snd c)
  | Cartesian.Z => (fst (fst c), snd (fst c), v)
  end.

(** Modelled from the spec: the process grid and the periodicity flags of
    the domain descriptor ([cs_cartsz], [cs_periodic]; coords.c is not
    part of the sources).  Every rank owns the same local extents, the
    global extents divided by the process grid. *)
Record decomposition := mk_decomposition {
  dc_cs    : cs_t;
  cartsz   : coord;
  periodic : Cartesian.axis -> bool
}.

(** Modelled from the spec: [cs_cart_neighb], for the rank at Cartesian
    coordinates [p].  The adjacent rank along [dim], wrapping when the
    axis is periodic, otherwise no neighbour at the edge of the domain. *)
Definition cs_cart_neighb (dc : decomposition)
    (forwback : cartesian_neighbours) (dim : Cartesian.axis) (p : coord)
    : option coord :=
  let q := match forwback with
           | FORWARD => get dim p + 1
           | BACKWARD => get dim p - 1
           end in
  if (0 <=? q) && (q <? get dim (cartsz dc)) then Some (set dim p q)
  else if periodic dc dim then Some (set dim p (q mod get dim (cartsz dc)))
  else None.

(** A site of the global lattice: the rank that owns it and its local
    coordinates there. *)
Definition site := (coord * coord)%type.

(** The lattice neighbour of an owned site along [dim]: the next site of
    the same rank, or across the boundary the first owned site of the
    adjacent rank. *)
Definition stencil_neighbour (dc : decomposition)
    (forwback : cartesian_neighbours) (dim : Cartesian.axis) (s : site)
    : option site :=
  let '(p, c) := s in
  let n := get dim (nlocal (dc_cs dc)) in
  match forwback with
  | FORWARD =>
      if get dim c <? n then Some (p, set dim c (get dim c + 1))
      else match cs_cart_neighb dc FORWARD dim p with
           | Some q => Some (q, set dim c 1)
           | None => None
           end
  | BACKWARD =>
      if 1 <? get dim c then Some (p, set dim c (get dim c - 1))
      else match cs_cart_neighb dc BACKWARD dim p with
           | Some q => Some (q, set dim c n)
           | None => None
           end
  end.

(** Modelled from the spec: the local-to-global offset of a rank
    ([cs_nlocal_offset]), its position in the process grid times the
    local extents, and the global coordinates of a site. *)
Definition cs_nlocal_offset (dc : decomposition) (p : coord) : coord :=
  (get Cartesian.X p * nlocalX (dc_cs dc),
   get Cartesian.Y p * nlocalY (dc_cs dc),
   get Cartesian.Z p * nlocalZ (dc_cs dc)).

Definition global_coords (dc : decomposition) (s : site) : coord :=
  let '(p, c) := s in
  let noffset := cs_nlocal_offset dc p in
  (get Cartesian.X noffset + get Cartesian.X c,
   get Cartesian.Y noffset + get Cartesian.Y c,
   get Cartesian.Z noffset + get Cartesian.Z c).

(** The addresses read by the 6-point stencil around [index]. *)
Definition stencil_addresses (cs : cs_t) (index : Z) : list Z :=
  [index + xs cs; index - xs cs; index + ys cs; index - ys cs;
   index + zs cs; index - zs cs].

Open Scope R_scope.

(** Sum of a quantity over a list of sites. *)
Definition sum_over {A : Type} (f : A -> R) (l : list A) : R :=
  fold_right (fun a s => f a + s) 0 l.

(** No address of the list is read by the stencil around another one. *)
Definition independent (cs : cs_t) (l : list Z) : Prop :=
  forall a b, In a l -> In b l -> ~ In b (stencil_addresses cs a).

(* ===================================================================== *)
(** ** A small system on which the definitions are exercised *)
(* ===================================================================== *)

(** One rank that owns the whole 2 x 2 x 2 lattice, with a halo of width 1. *)
Definition cs_small : cs_t := mk_cs (2, 2, 2) (2%Z, 2%Z, 2%Z) 1.

Definition dc_small : decomposition :=
  mk_decomposition cs_small (1%Z, 1%Z, 1%Z) (fun _ => true).

(** No exchange takes place: the halo sites keep their values. *)
Definition comm_small : comm_t := mk_comm 1 (fun psi => psi) (fun psi => psi).

(** Unit permittivity, unit charge and temperature; the tolerances and the
    iteration limit are left open. *)
Definition obj_small (reltol abstol : R) (maxits : Z) : psi_t :=
  mk_psi cs_small 1 reltol abstol maxits 1 1 1.

(** The same with the permittivity left open. *)
Definition obj_eps (epsilon reltol abstol : R) (maxits : Z) : psi_t :=
  mk_psi cs_small epsilon reltol abstol maxits 1 1 1.

(** Two ranks, each with its own 2 x 2 x 2 box, and again no exchange; a
    charge density that is uniform on each rank, 1 on the first and 2 on
    the second. *)
Definition comm_two : comm_t := mk_comm 2 (fun psi => psi) (fun psi => psi).

Definition rho_two : fields := fun p _ => INR p + 1.

(** A potential of the small system that holds [a] on the four owned
    sites of colour 1, the ones the first pass visits, [b] on the four
    owned sites of colour 0, and 0 on the halo. *)
Definition two_colour (a b : R) : field :=
  fun index =>
    if existsb (Z.eqb index)
               (map (index_of cs_small) (pass_coords cs_small 0))
    then a
    else if existsb (Z.eqb index)
                    (map (index_of cs_small) (pass_coords cs_small 1))
    then b
    else 0.

(** [reaches body n st k st']: the loop entered at trip [n] in state [st]
    arrives at the start of trip [k] in state [st'], no earlier trip
    having left the loop. *)
Inductive reaches (body : Z -> sor_state -> outcome) (n : Z) (st : sor_state)
  : Z -> sor_state -> Prop :=
| reaches_start : reaches body n st n st
| reaches_next (k : Z) (st' st'' : sor_state) :
    reaches body n st k st' ->
    body k st' = Continue st'' ->
    reaches body n st (k + 1)%Z st''.

(** A property of the state an outcome or a result carries, if any. *)
Definition outcome_holds (P : sor_state -> Prop) (o : outcome) : Prop :=
  match o with
  | Fails _ => True
  | Break _ st => P st
  | Continue st => P st
  end.

Definition result_holds (P : sor_state -> Prop) (r : sor_result) : Prop :=
  match r with
  | Failed _ => True
  | Returned _ st => P st
  end.


(** The same value at every site of every rank. *)
Definition uniform_fields (v : R) : fields := fun _ _ => v.

(* ===================================================================== *)
(** ** The discrete operators in the words of the specification *)
(* ===================================================================== *)

(** The value of a field at a site given by its local coordinates. *)
Definition at_site (cs : cs_t) (a : field) (c : coord) : R :=
  a (index_of cs c).

(** The six lattice neighbours of a site. *)
Definition neighbours (c : coord) : list coord :=
  let '(ic, jc, kc) := c in
  [(ic + 1, jc, kc); (ic - 1, jc, kc); (ic, jc + 1, kc); (ic, jc - 1, kc);
   (ic, jc, kc + 1); (ic, jc, kc - 1)]%Z.

(** The 6-point Laplacian: the sum over the neighbours of the difference
    to the centre. *)
Definition laplacian6 (cs : cs_t) (psi : field) (c : coord) : R :=
  sum_over (fun c' => at_site cs psi c' - at_site cs psi c) (neighbours c).

(** The residual of [coefficient * Laplacian(potential) + charge_term = 0]
    at a site, the charge term being [eunit*beta*rho_elec]. *)
Definition poisson_residual (obj : psi_t) (rho_elec psi : field) (c : coord)
    : R :=
  psi_epsilon obj * laplacian6 (psi_cs obj) psi c
  + psi_unit_charge obj * psi_beta obj * at_site (psi_cs obj) rho_elec c.

(** The flux-conservative operator: on each of the six faces the
    coefficient is the mean of its values at the two adjacent centres. *)
Definition flux_conservative (cs : cs_t) (fepsilon psi : field) (c : coord)
    : R :=
  sum_over (fun c' =>
              (1/2) * (at_site cs fepsilon c + at_site cs fepsilon c')
              * (at_site cs psi c' - at_site cs psi c))
           (neighbours c).

(** The operator [epsilon * Laplacian(psi) + grad(epsilon) . grad(psi)]
    with central differences for both gradients. *)
Definition gradient_form (cs : cs_t) (fepsilon psi : field) (c : coord) : R :=
  let '(ic, jc, kc) := c in
  at_site cs fepsilon c * laplacian6 cs psi c
  + (1/4) * (at_site cs fepsilon (ic + 1, jc, kc)%Z
             - at_site cs fepsilon (ic - 1, jc, kc)%Z)
          * (at_site cs psi (ic + 1, jc, kc)%Z
             - at_site cs psi (ic - 1, jc, kc)%Z)
  + (1/4) * (at_site cs fepsilon (ic, jc + 1, kc)%Z
             - at_site cs fepsilon (ic, jc - 1, kc)%Z)
          * (at_site cs psi (ic, jc + 1, kc)%Z
             - at_site cs psi (ic, jc - 1, kc)%Z)
  + (1/4) * (at_site cs fepsilon (ic, jc, kc + 1)%Z
             - at_site cs fepsilon (ic, jc, kc - 1)%Z)
          * (at_site cs psi (ic, jc, kc + 1)%Z
             - at_site cs psi (ic, jc, kc - 1)%Z).

(** A permittivity and a potential that step up at the site (2,1,1) of
    the small system. *)
Definition fepsilon_step : field :=
  fun index => if (index =? index_of cs_small (2, 1, 1))%Z then 3 else 1.

Definition psi_step : field :=
  fun index => if (index =? index_of cs_small (2, 1, 1))%Z then 1 else 0.



(** [interior], as a test. *)
Definition interiorb (cs : cs_t) (c : coord) : bool :=
  let '(ic, jc, kc) := c in
  ((1 <=? ic) && (ic <=? nlocalX cs) && (1 <=? jc) && (jc <=? nlocalY cs)
   && (1 <=? kc) && (kc <=? nlocalZ cs))%Z.

(** The site is visited by the pass. *)
Definition in_pass (cs : cs_t) (pass : Z) (c : coord) : bool :=
  interiorb cs c && (colour c =? (1 + pass) mod 2)%Z.

(* ===================================================================== *)
(** ** Field halo exchange *)
(* ===================================================================== *)

Open Scope Z_scope.

(** The data of a field on all ranks: for the rank at a position of the
    process grid, the contents of each site of its allocated box.  The
    contents of a site, of type [A], are its [nf] components. *)
Definition world (A : Type) := coord -> coord -> A.

(** Modelled from the spec: the exchange along one axis of the field halo
    swap (field.c and field_halo are not part of the sources; the tests
    call [field_halo_swap], [field_halo_post] and [field_halo_wait]).
    Every rank packs its boundary slabs of width [nhcomm] and sends them
    to its two neighbours along the axis; what it receives from the
    backward neighbour, the last [nhcomm] owned layers there, fills its
    low ghost layers, and what it receives from the forward neighbour,
    the first [nhcomm] owned layers there, fills its high ghost layers.
    A rank that is its own neighbour makes the same copy locally.  Where
    there is no neighbour the ghost layers are left as they are.  The
    slabs span the whole allocated extent along the other two axes. *)
Definition exchange_axis {A : Type} (dc : decomposition) (nhcomm : Z)
    (dim : Cartesian.axis) (w : world A) : world A :=
  fun p c =>
    let n := get dim (nlocal (dc_cs dc)) in
    let x := get dim c in
    if (1 - nhcomm <=? x) && (x <=? 0) then
      match cs_cart_neighb dc BACKWARD dim p with
      | Some q => w q (set dim c (x + n))
      | None => w p c
      end
    else if (n + 1 <=? x) && (x <=? n + nhcomm) then
      match cs_cart_neighb dc FORWARD dim p with
      | Some q => w q (set dim c (x - n))
      | None => w p c
      end
    else w p c.

(** Modelled from the spec: the halo swap, one axis after the other in
    the order X, Y, Z, each exchange being complete before the next one
    starts. *)
Definition field_halo_swap {A : Type} (dc : decomposition) (nhcomm : Z)
    (w : world A) : world A :=
  exchange_axis dc nhcomm Cartesian.Z
    (exchange_axis dc nhcomm Cartesian.Y
       (exchange_axis dc nhcomm Cartesian.X w)).

(** Along one axis, the rank and the owned site that a site of the
    allocated box mirrors: the site itself when it is owned, else the site
    at the mirrored offset on the neighbour below or above. *)
Definition owner_axis (dc : decomposition) (dim : Cartesian.axis) (s : site)
    : option site :=
  let '(p, c) := s in
  let n := get dim (nlocal (dc_cs dc)) in
  let x := get dim c in
  if x <=? 0 then
    match cs_cart_neighb dc BACKWARD dim p with
    | Some q => Some (q, set dim c (x + n))
    | None => None
    end
  else if n + 1 <=? x then
    match cs_cart_neighb dc FORWARD dim p with
    | Some q => Some (q, set dim c (x - n))
    | None => None
    end
  else Some s.

Definition and_then {A B : Type} (o : option A) (f : A -> option B)
    : option B :=
  match o with Some a => f a | None => None end.

(** The rank and the owned site that a site of the allocated box mirrors. *)
Definition owner (dc : decomposition) (s : site) : option site :=
  and_then (owner_axis dc Cartesian.Z s) (fun s1 =>
  and_then (owner_axis dc Cartesian.Y s1) (fun s2 =>
  owner_axis dc Cartesian.X s2)).

(** Global extent along an axis, and the global index of a site along it,
    counted from 0. *)
Definition extent (dc : decomposition) (dim : Cartesian.axis) : Z :=
  get dim (cartsz dc) * get dim (nlocal (dc_cs dc)).

Definition global_index (dc : decomposition) (dim : Cartesian.axis) (s : site)
    : Z :=
  get dim (fst s) * get dim (nlocal (dc_cs dc)) + (get dim (snd s) - 1).

(** The conditions under which a halo swap of width [nhcomm] is made, and
    a site [c] of the rank at [p] within that width. *)
Definition swap_ready (dc : decomposition) (nhcomm : Z) (p c : coord) : Prop :=
  forall dim,
    1 <= get dim (nlocal (dc_cs dc)) /\
    0 <= nhcomm <= get dim (nlocal (dc_cs dc)) /\
    0 <= get dim p < get dim (cartsz dc) /\
    1 - nhcomm <= get dim c <= get dim (nlocal (dc_cs dc)) + nhcomm.

(** Two ranks side by side along X, periodic, each owning a 2 x 2 x 2
    box, and a field that holds at every site the rank and the address. *)
Definition cs_pair : cs_t := mk_cs (4%R, 2%R, 2%R) (2, 2, 2) 1.

Definition dc_pair : decomposition :=
  mk_decomposition cs_pair (2, 1, 1) (fun _ => true).

Definition world_pair : world (Z * Z) :=
  fun p c => (get Cartesian.X p, index_of cs_pair c).

(* ===================================================================== *)
(** ** The way a run ends *)
(* ===================================================================== *)

Open Scope R_scope.

(** The residual norm of one full sweep on the rank [p], in the words of
    the specification: the absolute residuals summed over the owned sites
    of colour 1, taken on the potential [psi] held when the sweep starts,
    and over the owned sites of colour 0, taken on the potential [psi1]
    held once the first half-sweep and its halo exchange are done. *)
Definition sweep_norm (obj : psi_t) (rho_elec psi psi1 : fields) (p : nat)
    : R :=
  sum_over (fun c => Rabs (residual_at obj (rho_elec p) (psi p)
                             (index_of (psi_cs obj) c)))
           (pass_coords (psi_cs obj) 0)
  + sum_over (fun c => Rabs (residual_at obj (rho_elec p) (psi1 p)
                               (index_of (psi_cs obj) c)))
             (pass_coords (psi_cs obj) 1).

Definition vare_sweep_norm (obj : psi_t) (fepsilon rho_elec psi psi1 : fields)
    (p : nat) : R :=
  sum_over (fun c => Rabs (vare_residual_at obj (fepsilon p) (rho_elec p)
                             (psi p) (index_of (psi_cs obj) c)))
           (pass_coords (psi_cs obj) 0)
  + sum_over (fun c => Rabs (vare_residual_at obj (fepsilon p) (rho_elec p)
                               (psi1 p) (index_of (psi_cs obj) c)))
             (pass_coords (psi_cs obj) 1).

(** How [rnorm] stands against [tol_abs] and [tol_rel] for each of the
    ways of leaving the [n] loop: the first [if] of the residual check,
    the second one, and neither. *)
Definition exit_agrees (obj : psi_t) (e : sor_exit) (rnorm : R * R) : Prop :=
  match e with
  | ConvergedAbsolute => snd rnorm < psi_abstol obj
  | ConvergedRelative =>
      psi_abstol obj <= snd rnorm /\
      snd rnorm < psi_reltol obj * fst rnorm
  | MaxIterationsReached =>
      psi_abstol obj <= snd rnorm /\
      psi_reltol obj * fst rnorm <= snd rnorm
  end.

(** The report made at a residual check that ends the loop, by the branch
    taken: "converged to absolute tolerance" or "converged to relative
    tolerance", each with the residual per site and [n]. *)
Definition sor_converged (e : sor_exit) : R -> Z -> message :=
  match e with
  | ConvergedRelative => info_converged_rel
  | _ => info_converged_abs
  end.

Definition vare_converged (e : sor_exit) : R -> Z -> message :=
  match e with
  | ConvergedRelative => info_vare_converged_rel
  | _ => info_vare_converged_abs
  end.

(* ===================================================================== *)
(** ** psi_sor_solve *)
(* ===================================================================== *)

(** What a call of a solver leaves to its caller: the potential in
    [obj->psi] and what was printed.  The value returned by the solver is
    always 0 and is not looked at. *)
Definition solver_effect (r : sor_result) : option (fields * list message) :=
  match r with
  | Failed _ => None
  | Returned _ st => Some (st_psi st, st_log st)
  end.

(** [psi_sor_solve]: the callback [fepsilon] is [None] for a null
    pointer.  The two [if] statements are taken in turn; the result is
    the value returned, with the potential and the output, or [None] when
    the solver called did not return. *)
Definition psi_sor_solve (comm : comm_t) (obj : psi_t)
    (fepsilon : option fields) (rho_elec psi0 : fields) (its : Z)
    : option (Z * (fields * list message)) :=
  (* if (fepsilon == NULL) psi_sor_poisson(obj, its); *)
  let first :=
    match fepsilon with
    | None => solver_effect (psi_sor_poisson comm obj rho_elec psi0 its)
    | Some _ => Some (psi0, [])
    end in
  match first with
  | None => None
  | Some (psi1, log1) =>
      (* if (fepsilon != NULL) psi_sor_vare_poisson(obj, fe, fepsilon, its); *)
      let second :=
        match fepsilon with
        | Some f =>
            solver_effect (psi_sor_vare_poisson comm obj f rho_elec psi1 its)
        | None => Some (psi1, [])
        end in
      match second with
      | None => None
      | Some (psi2, log2) => Some (0%Z, (psi2, log1 ++ log2))   (* return 0; *)
      end
  end.

(* ===================================================================== *)
(** ** The container of i/o options (io_options.c) *)
(* ===================================================================== *)

Module IoOptions.

Open Scope Z_scope.

(** The enumerations come from io_options.h.  Their enumerators are the
    ones named in io_options.c and in its unit test; for the version of
    the metadata [IO_METADATA_OTHER] stands for any value that takes the
    [default] branch of the [switch]. *)
Inductive io_mode_enum_t :=
| IO_MODE_INVALID
| IO_MODE_SINGLE
| IO_MODE_MULTIPLE.

Inductive io_record_format_enum_t :=
| IO_RECORD_INVALID
| IO_RECORD_ASCII
| IO_RECORD_BINARY.

Inductive io_metadata_version_enum_t :=
| IO_METADATA_SINGLE_V1
| IO_METADATA_MULTI_V1
| IO_METADATA_OTHER.

Record io_options_t := mk_io_options {
  mode             : io_mode_enum_t;
  iorformat        : io_record_format_enum_t;
  metadata_version : io_metadata_version_enum_t;
  report           : Z;
  asynchronous     : Z
}.

Definition io_mode_eqb (a b : io_mode_enum_t) : bool :=
  match a, b with
  | IO_MODE_INVALID, IO_MODE_INVALID => true
  | IO_MODE_SINGLE, IO_MODE_SINGLE => true
  | IO_MODE_MULTIPLE, IO_MODE_MULTIPLE => true
  | _, _ => false
  end.

Definition io_record_format_eqb (a b : io_record_format_enum_t) : bool :=
  match a, b with
  | IO_RECORD_INVALID, IO_RECORD_INVALID => true
  | IO_RECORD_ASCII, IO_RECORD_ASCII => true
  | IO_RECORD_BINARY, IO_RECORD_BINARY => true
  | _, _ => false
  end.

(** The [int] value of a comparison. *)
Definition truth (b : bool) : Z := if b then 1 else 0.

Definition io_mode_default : io_mode_enum_t := IO_MODE_SINGLE.

Definition io_record_format_default : io_record_format_enum_t :=
  IO_RECORD_BINARY.

Definition io_metadata_version_default : io_metadata_version_enum_t :=
  IO_METADATA_SINGLE_V1.

Definition io_options_default : io_options_t :=
  mk_io_options io_mode_default io_record_format_default
                io_metadata_version_default 0 0.

Definition io_options_mode_valid (mode : io_mode_enum_t) : Z :=
  let valid := 0 in
  let valid := valid + truth (io_mode_eqb mode IO_MODE_SINGLE) in
  let valid := valid + truth (io_mode_eqb mode IO_MODE_MULTIPLE) in
  valid.

Definition io_options_record_format_valid
    (ioformat : io_record_format_enum_t) : Z :=
  let valid := 0 in
  let valid := valid + truth (io_record_format_eqb ioformat IO_RECORD_ASCII) in
  let valid := valid + truth (io_record_format_eqb ioformat IO_RECORD_BINARY) in
  valid.

Definition io_options_metadata_version_valid (options : io_options_t) : Z :=
  let valid := 0 in
  match metadata_version options with
  | IO_METADATA_SINGLE_V1 =>
      truth (io_mode_eqb (mode options) IO_MODE_SINGLE)
  | IO_METADATA_MULTI_V1 =>
      truth (io_mode_eqb (mode options) IO_MODE_MULTIPLE)
  | IO_METADATA_OTHER => valid
  end.

Definition io_options_valid (options : io_options_t) : Z :=
  let valid := 0 in
  let valid := valid + io_options_mode_valid (mode options) in
  let valid := valid + io_options_record_format_valid (iorformat options) in
  let valid := valid + io_options_metadata_version_valid options in
  valid.

End IoOptions.

(* ===================================================================== *)
(** ** The one-dimensional reference problem (tests/unit/test_psi_sor.c) *)
(* ===================================================================== *)

Module TestPsiSor.

Open Scope R_scope.

(** [for (k = 0; k < nz; k++)] *)
Definition for_0_below (nz : Z) : list Z :=
  for_values (Z.to_nat nz) 0 (nz - 1) 1.

(** [epsilon[k]] of [test_charge1_exact]: the value the callback gives at
    the site (1, 1, 1+k). *)
Definition epsilon_of (cs : cs_t) (fepsilon : field) (k : Z) : R :=
  fepsilon (cs_index cs 1 1 (1 + k)).

(** [km1] and [kp1] once the two [if] statements have been passed:
    [if (k == 0) km1 = kp1; if (k == nz-1) kp1 = km1;] *)
Definition km1_of (nz k : Z) : Z :=
  let kp1 := (k + 1)%Z in
  let km1 := (k - 1)%Z in
  if (k =? 0)%Z then kp1 else km1.

Definition kp1_of (nz k : Z) : Z :=
  let kp1 := (k + 1)%Z in
  if (k =? nz - 1)%Z then km1_of nz k else kp1.

(** [eph = 0.5*(epsilon[k] + epsilon[kp1])] and
    [emh = 0.5*(epsilon[km1] + epsilon[k])] *)
Definition eph (nz : Z) (epsilon : Z -> R) (k : Z) : R :=
  (1/2) * (epsilon k + epsilon (kp1_of nz k)).

Definition emh (nz : Z) (epsilon : Z -> R) (k : Z) : R :=
  (1/2) * (epsilon (km1_of nz k) + epsilon k).

(** The three assignments to the row [k] of the matrix [a], stored row
    by row in an array of [nz*nz] doubles. *)
Definition matrix_row (nz : Z) (epsilon : Z -> R) (a : field) (k : Z)
    : field :=
  let a := upd a (k * nz + kp1_of nz k) (eph nz epsilon k) in
  let a := upd a (k * nz + km1_of nz k) (emh nz epsilon k) in
  upd a (k * nz + k) (- (eph nz epsilon k + emh nz epsilon k)).

(** The matrix once the loop over the rows is done; [calloc] has set all
    its elements to zero. *)
Definition charge1_matrix (nz : Z) (epsilon : Z -> R) : field :=
  fold_left (matrix_row nz epsilon) (for_0_below nz) (fun _ => 0).

(** [rhodiff = -(emh*psim1 - (emh + eph)*psi + eph*psip1)], the
    right-hand side recomputed from the potential by a three-point
    stencil; [psim1] and [psip1] are read at [index-1] and [index+1]. *)
Definition rhodiff (cs : cs_t) (nz : Z) (epsilon : Z -> R) (psi : field)
    (k : Z) : R :=
  let index := cs_index cs 1 1 (1 + k) in
  let psim1 := psi (index - 1)%Z in
  let psip1 := psi (index + 1)%Z in
  - (emh nz epsilon k * psim1
     - (emh nz epsilon k + eph nz epsilon k) * psi index
     + eph nz epsilon k * psip1).

(** [assert(fabs(rho0 - rhodiff) < tolerance)] at the row [k]. *)
Definition difference_check (cs : cs_t) (nz : Z) (epsilon : Z -> R)
    (rho_elec psi : field) (tolerance : R) (k : Z) : bool :=
  let index := cs_index cs 1 1 (1 + k) in
  Rltb (Rabs (rho_elec index - rhodiff cs nz epsilon psi k)) tolerance.

(** What [test_charge1_set] writes on one rank: the potential and the
    two charge densities, [psi_psi_set] and [psi_rho_set] with [n = 0] and
    [n = 1]. *)
Record charge_t := mk_charge {
  ch_psi  : field;
  ch_rho0 : field;
  ch_rho1 : field
}.

(** The first triple loop: [psi = 0], [rho[0] = 0] and [rho[1] = rho1] at
    every owned site. *)
Definition charge1_interior (cs : cs_t) (rho1 : R) (q : charge_t)
    : charge_t :=
  fold_left (fun q c =>
               let index := index_of cs c in
               mk_charge (upd (ch_psi q) index 0) (upd (ch_rho0 q) index 0)
                         (upd (ch_rho1 q) index rho1))
            (all_coords cs) q.

(** The sites visited by the double loop over [ic] and [jc] at fixed
    [kc]. *)
Definition plane_coords (cs : cs_t) (kc : Z) : list (Z * Z * Z) :=
  flat_map (fun ic => map (fun jc => (ic, jc, kc)) (for_1_to (nlocalY cs)))
           (for_1_to (nlocalX cs)).

(** The overwriting at an edge: [rho[0] = rho0] and [rho[1] = 0] on the
    plane [kc]. *)
Definition charge1_edge (cs : cs_t) (kc : Z) (rho0 : R) (q : charge_t)
    : charge_t :=
  fold_left (fun q c =>
               let index := index_of cs c in
               mk_charge (ch_psi q) (upd (ch_rho0 q) index rho0)
                         (upd (ch_rho1 q) index 0))
            (plane_coords cs kc) q.

(** [rho0 = 1.0 / (2.0*ltot[X]*ltot[Y])] and
    [rho1 = 1.0 / (ltot[X]*ltot[Y]*(ltot[Z] - 2.0))] *)
Definition edge_value (cs : cs_t) : R := 1 / (2 * ltotX cs * ltotY cs).

Definition interior_value (cs : cs_t) : R :=
  1 / (ltotX cs * ltotY cs * (ltotZ cs - 2)).

(** [test_charge1_set] up to the statistics it goes on to check;
    [cartsz_z] and [cartcoords_z] are [mpi_cartsz[Z]] and
    [mpi_cartcoords[Z]]. *)
Definition test_charge1_set (cs : cs_t) (cartsz_z cartcoords_z : Z)
    (q : charge_t) : charge_t :=
  let rho0 := edge_value cs in
  let rho1 := interior_value cs in
  let q := charge1_interior cs rho1 q in
  let q := if (cartcoords_z =? 0)%Z then charge1_edge cs 1 rho0 q else q in
  let q := if (cartcoords_z =? cartsz_z - 1)%Z
           then charge1_edge cs (nlocalZ cs) rho0 q else q in
  q.

(** Whether the owned site with third coordinate [kc] lies on one of the
    two planes that are overwritten on this rank. *)
Definition on_edge (cs : cs_t) (cartsz_z cartcoords_z kc : Z) : bool :=
  ((cartcoords_z =? 0) && (kc =? 1)
   || (cartcoords_z =? cartsz_z - 1) && (kc =? nlocalZ cs))%Z.

(** A column of 2 x 2 x 4 sites on one rank, and arrays holding zeros. *)
Definition cs_column : cs_t := mk_cs (2, 2, 4) (2%Z, 2%Z, 4%Z) 1.

Definition charge_none : charge_t :=
  mk_charge (fun _ => 0) (fun _ => 0) (fun _ => 0).

End TestPsiSor.

(* ===================================================================== *)
(** ** The force from the gradient of the chemical potential
       (phi_grad_mu.c) *)
(* ===================================================================== *)

Module PhiGradMu.

Open Scope R_scope.

(** The status of a site in the map of the solid.  map.h is not part of
    the sources; the kernels name [MAP_FLUID] and [MAP_BOUNDARY] only, and
    [MAP_OTHER] stands for every other status. *)
Inductive map_status := MAP_FLUID | MAP_BOUNDARY | MAP_OTHER.

Definition is_boundary (s : map_status) : bool :=
  match s with MAP_BOUNDARY => true | _ => false end.

(** A vector of three doubles, [force[3]] or a [double3]. *)
Definition vec3 := (R * R * R)%type.

(** What the kernels are given.  [phi index n] is the order parameter
    [n] at a site, read with [addr_rank1] or [field_scalar_array];
    [mu index n] is the chemical potential [n] that [fe->func->mu] writes
    for a site; [map index] is what [map_status] gives; the force
    [hydro index] is what [hydro_f_local_add] adds to.  The index of a
    site is [kernel_coords_index], taken to be [cs_index]. *)
Record kernel_data := mk_kernel_data {
  kd_cs  : cs_t;
  kd_nf  : nat;
  kd_phi : Z -> nat -> R;
  kd_mu  : Z -> nat -> R;
  kd_map : Z -> map_status
}.

(** [hydro_f_local_add(hydro, index, force)] *)
Definition hydro_f_local_add (hydro : Z -> vec3) (index : Z) (force : vec3)
    : Z -> vec3 :=
  fun i =>
    if (i =? index)%Z
    then let '(fx, fy, fz) := hydro i in
         let '(gx, gy, gz) := force in
         (fx + gx, fy + gy, fz + gz)
    else hydro i.

(** [for (n = 0; n < nf; n++) force += -phi0[n]*0.5*(mup1[n] - mum1[n])],
    from [force = 0.0]. *)
Definition fluid_term (nf : nat) (phi0 mum1 mup1 : nat -> R) : R :=
  fold_left (fun force n => force + - phi0 n * (1/2) * (mup1 n - mum1 n))
            (seq 0 nf) 0.

(** The body of [phi_grad_mu_fluid_kernel] at the site [(ic, jc, kc)].
    The kernels assert [nf <= NVECTOR], the size of their local arrays;
    the numbers of order parameters considered here are within it. *)
Definition fluid_force (kd : kernel_data) (c : Z * Z * Z) : vec3 :=
  let '(ic, jc, kc) := c in
  let cs := kd_cs kd in
  let phi0 := kd_phi kd (cs_index cs ic jc kc) in
  (fluid_term (kd_nf kd) phi0 (kd_mu kd (cs_index cs (ic - 1) jc kc))
              (kd_mu kd (cs_index cs (ic + 1) jc kc)),
   fluid_term (kd_nf kd) phi0 (kd_mu kd (cs_index cs ic (jc - 1) kc))
              (kd_mu kd (cs_index cs ic (jc + 1) kc)),
   fluid_term (kd_nf kd) phi0 (kd_mu kd (cs_index cs ic jc (kc - 1)))
              (kd_mu kd (cs_index cs ic jc (kc + 1)))).

(** [if (map == MAP_BOUNDARY) for (n1 = 0; n1 < nf; n1++) mu1[n1] = mu[n1]] *)
Definition at_wall (nf : nat) (s : map_status) (mu0 mu1 : nat -> R)
    : nat -> R :=
  if is_boundary s then fun n => if (n <? nf)%nat then mu0 n else mu1 n
  else mu1.

(** One direction of [phi_grad_mu_solid_kernel]:
    [force -= phi[n1]*0.5*(mup1[n1] - mum1[n1])] once the chemical
    potential of a neighbour in the solid has been replaced. *)
Definition solid_term (nf : nat) (phi0 mu0 mum1 mup1 : nat -> R)
    (mapm1 mapp1 : map_status) : R :=
  let mum1 := at_wall nf mapm1 mu0 mum1 in
  let mup1 := at_wall nf mapp1 mu0 mup1 in
  fold_left (fun force n => force - phi0 n * (1/2) * (mup1 n - mum1 n))
            (seq 0 nf) 0.

(** The body of [phi_grad_mu_solid_kernel] at the site [(ic, jc, kc)]. *)
Definition solid_force (kd : kernel_data) (c : Z * Z * Z) : vec3 :=
  let '(ic, jc, kc) := c in
  let cs := kd_cs kd in
  let index0 := cs_index cs ic jc kc in
  let phi0 := kd_phi kd index0 in
  let mu0 := kd_mu kd index0 in
  let along indexm1 indexp1 :=
    solid_term (kd_nf kd) phi0 mu0 (kd_mu kd indexm1) (kd_mu kd indexp1)
               (kd_map kd indexm1) (kd_map kd indexp1) in
  (along (cs_index cs (ic - 1) jc kc) (cs_index cs (ic + 1) jc kc),
   along (cs_index cs ic (jc - 1) kc) (cs_index cs ic (jc + 1) kc),
   along (cs_index cs ic jc (kc - 1)) (cs_index cs ic jc (kc + 1))).

(** A kernel launched over the owned sites, [1 <= ic <= nlocal[X]] and so
    on: the body runs once for each site and adds its force there. *)
Definition launch (cs : cs_t) (body : Z * Z * Z -> vec3) (hydro : Z -> vec3)
    : Z -> vec3 :=
  fold_left (fun h c => hydro_f_local_add h (index_of cs c) (body c))
            (all_coords cs) hydro.

Definition phi_grad_mu_fluid (kd : kernel_data) (hydro : Z -> vec3)
    : Z -> vec3 :=
  launch (kd_cs kd) (fluid_force kd) hydro.

Definition phi_grad_mu_solid (kd : kernel_data) (hydro : Z -> vec3)
    : Z -> vec3 :=
  launch (kd_cs kd) (solid_force kd) hydro.

(** [a != 0.0] on doubles, as a condition. *)
Definition Rnonzero (a : R) : bool := if Req_dec_T a 0 then false else true.

(** The body of [phi_grad_mu_external_kernel]:
    [force = -phi0*grad_mu], with the first order parameter. *)
Definition external_force (kd : kernel_data) (grad_mu : vec3)
    (c : Z * Z * Z) : vec3 :=
  let '(ic, jc, kc) := c in
  let '(gx, gy, gz) := grad_mu in
  let phi0 := kd_phi kd (cs_index (kd_cs kd) ic jc kc) 0%nat in
  (- phi0 * gx, - phi0 * gy, - phi0 * gz).

(** [phi_grad_mu_external]: [grad_mu] is what [physics_grad_mu] gives;
    the kernel is launched when one component is not zero and there is
    one order parameter. *)
Definition phi_grad_mu_external (kd : kernel_data) (grad_mu : vec3)
    (hydro : Z -> vec3) : Z -> vec3 :=
  let '(gx, gy, gz) := grad_mu in
  let is_grad_mu := Rnonzero gx || Rnonzero gy || Rnonzero gz in
  if is_grad_mu && (kd_nf kd =? 1)%nat
  then launch (kd_cs kd) (external_force kd grad_mu) hydro
  else hydro.

(** The component of a vector along an axis. *)
Definition component (ia : Cartesian.axis) (v : vec3) : R :=
  match ia with
  | Cartesian.X => fst (fst v)
  | Cartesian.Y => snd (fst v)
  | Cartesian.Z => snd v
  end.

(** The address of the site [d] steps away from a site along an axis. *)
Definition neighbour (cs : cs_t) (ia : Cartesian.axis) (d : Z)
    (c : Z * Z * Z) : Z :=
  let '(ic, jc, kc) := c in
  match ia with
  | Cartesian.X => cs_index cs (ic + d) jc kc
  | Cartesian.Y => cs_index cs ic (jc + d) kc
  | Cartesian.Z => cs_index cs ic jc (kc + d)
  end.

(** One order parameter equal to 1 on the small lattice and a chemical
    potential that grows with the address.  Around the site (1,1,1), of
    address 21, the solid holds the neighbour below along X (address 5),
    the neighbour above along Y (address 25) and both neighbours along Z
    (addresses 20 and 22). *)
Definition kd_mixed : kernel_data :=
  mk_kernel_data cs_small 1 (fun _ _ => 1) (fun a _ => IZR a)
                 (fun a => if existsb (Z.eqb a) [5; 25; 20; 22]%Z
                           then MAP_BOUNDARY else MAP_FLUID).

(** One order parameter equal to 3 on the small lattice and a chemical
    potential [i + 2 j + 4 k] at the site of coordinates [(i, j, k)],
    which the address [16 i + 4 j + k] gives back. *)
Definition kd_linear : kernel_data :=
  mk_kernel_data cs_small 1 (fun _ _ => 3)
                 (fun a _ => IZR (a / 16) + 2 * IZR (a mod 16 / 4)
                             + 4 * IZR (a mod 4))
                 (fun _ => MAP_FLUID).

End PhiGradMu.

(* ===================================================================== *)
(** ** The force from the divergence of the stress (phi_force.c) *)
(* ===================================================================== *)

Module PhiForce.

Open Scope R_scope.











End PhiForce.

(* ===================================================================== *)
(** * Properties *)
(* ===================================================================== *)

(** ** The loops and the sites they visit *)

Open Scope Z_scope.

(** Goals on remainders modulo a constant. *)
Ltac zdiv := Z.to_euclidean_division_equations; nia.

(** Evaluation of the integer part of a term, leaving the reals alone. *)
Ltac eval_sites :=
  cbv -[Rplus Rminus Rmult Rdiv Rinv Ropp Rabs IZR Rlt_dec Rle_dec Rmax Rmin
        pow atan PI Rltb radius_of omega_next vare_omega_next].

(** Membership of a site with given coordinates in a box of given size. *)
Ltac in_box :=
  unfold allocated, interior, nlocalX, nlocalY, nlocalZ; simpl; lia.

Lemma for_values_In (fuel : nat) :
  forall i hi step x, 0 < step ->
    (In x (for_values fuel i hi step) <->
     exists t : nat, (t < fuel)%nat /\ x = i + Z.of_nat t * step /\ x <= hi).
Proof.
  induction fuel as [|f IH]; intros i hi step x Hs; simpl.
  - split; [tauto | intros (t & Ht & _); lia].
  - destruct (Z.leb_spec i hi) as [Hle|Hgt]; simpl.
    + rewrite IH by assumption. split.
      * intros [<-|(t & Ht & -> & Hx)].
        -- exists 0%nat. split; [lia|]. split; lia.
        -- exists (S t). split; [lia|]. split; [|assumption]. lia.
      * intros (t & Ht & -> & Hx). destruct t as [|t].
        -- left. lia.
        -- right. exists t. split; [lia|]. split; [lia|assumption].
    + split; [tauto|]. intros (t & Ht & -> & Hx). nia.
Qed.

Lemma for_values_NoDup (fuel : nat) :
  forall i hi step, 0 < step -> NoDup (for_values fuel i hi step).
Proof.
  induction fuel as [|f IH]; intros i hi step Hs; simpl.
  - constructor.
  - destruct (i <=? hi); [|constructor].
    constructor; [|apply IH; assumption].
    rewrite for_values_In by assumption. intros (t & _ & Heq & _). nia.
Qed.

Lemma for_1_to_In (n x : Z) : In x (for_1_to n) <-> 1 <= x <= n.
Proof.
  unfold for_1_to. rewrite for_values_In by lia. split.
  - intros (t & Ht & -> & Hx). lia.
  - intros [H1 Hn]. exists (Z.to_nat (x - 1)). split; [lia|]. split; lia.
Qed.

Lemma for_kc_In (ic jc pass nz kc : Z) :
  0 <= ic + jc + pass ->
  (In kc (for_kc ic jc pass nz) <->
   1 <= kc <= nz /\ (ic + jc + kc) mod 2 = (1 + pass) mod 2).
Proof.
  intros Hnn. unfold for_kc, kst.
  rewrite Z.rem_mod_nonneg by lia.
  rewrite for_values_In by lia.
  split.
  - intros (t & Ht & -> & Hx). split; zdiv.
  - intros [Hk Hc].
    exists (Z.to_nat ((kc - (1 + (ic + jc + pass) mod 2)) / 2)).
    split; [|split; [|lia]]; zdiv.
Qed.

Lemma all_coords_In (cs : cs_t) (c : Z * Z * Z) :
  In c (all_coords cs) <-> interior cs c.
Proof.
  destruct c as [[ic jc] kc]. unfold all_coords, interior.
  rewrite in_flat_map. split.
  - intros (i & Hi & H). rewrite in_flat_map in H.
    destruct H as (j & Hj & H). rewrite in_map_iff in H.
    destruct H as (k & [= <- <- <-] & Hk).
    rewrite for_1_to_In in Hi, Hj, Hk. tauto.
  - intros (Hi & Hj & Hk). exists ic. rewrite for_1_to_In. split; [assumption|].
    rewrite in_flat_map. exists jc. rewrite for_1_to_In. split; [assumption|].
    rewrite in_map_iff. exists kc. rewrite for_1_to_In. tauto.
Qed.

Lemma pass_coords_In (cs : cs_t) (pass : Z) (c : Z * Z * Z) :
  0 <= pass ->
  (In c (pass_coords cs pass) <->
   interior cs c /\ colour c = (1 + pass) mod 2).
Proof.
  intros Hp. destruct c as [[ic jc] kc]. unfold pass_coords, interior, colour.
  rewrite in_flat_map. split.
  - intros (i & Hi & H). rewrite in_flat_map in H.
    destruct H as (j & Hj & H). rewrite in_map_iff in H.
    destruct H as (k & [= <- <- <-] & Hk).
    rewrite for_1_to_In in Hi, Hj. rewrite for_kc_In in Hk by lia. tauto.
  - intros ((Hi & Hj & Hk) & Hc). exists ic. rewrite for_1_to_In.
    split; [assumption|].
    rewrite in_flat_map. exists jc. rewrite for_1_to_In. split; [assumption|].
    rewrite in_map_iff. exists kc. rewrite for_kc_In by lia. tauto.
Qed.

(** A nest of loops visits no site twice. *)
Lemma NoDup_nest (A : Type) (f : Z -> list A) (l : list Z) :
  NoDup l ->
  (forall i, In i l -> NoDup (f i)) ->
  (forall i j x, In i l -> In j l -> In x (f i) -> In x (f j) -> i = j) ->
  NoDup (flat_map f l).
Proof.
  induction 1 as [|i l Hi Hl IH]; intros Hf Hdisj; simpl.
  - constructor.
  - apply NoDup_app.
    + apply Hf. now left.
    + apply IH.
      * intros j Hj. apply Hf. now right.
      * intros j k x Hj Hk. apply Hdisj; now right.
    + intros x Hx Hin. rewrite in_flat_map in Hin.
      destruct Hin as (j & Hj & Hxj).
      assert (i = j) by (apply (Hdisj i j x); simpl; auto).
      subst j. contradiction.
Qed.

Lemma NoDup_row (ic jc : Z) (l : list Z) :
  NoDup l -> NoDup (map (fun kc => (ic, jc, kc)) l).
Proof.
  intros Hl. apply NoDup_map_NoDup_ForallPairs; [|assumption].
  intros x y _ _ [= ->]. reflexivity.
Qed.

Lemma all_coords_NoDup (cs : cs_t) : NoDup (all_coords cs).
Proof.
  unfold all_coords, for_1_to. apply NoDup_nest.
  - apply for_values_NoDup. lia.
  - intros ic _. apply NoDup_nest.
    + apply for_values_NoDup. lia.
    + intros jc _. apply NoDup_row, for_values_NoDup. lia.
    + intros j j' x _ _ Hx Hx'. rewrite in_map_iff in Hx, Hx'.
      destruct Hx as (k & <- & _). destruct Hx' as (k' & [= ->] & _).
      reflexivity.
  - intros i i' x _ _ Hx Hx'. rewrite in_flat_map in Hx, Hx'.
    destruct Hx as (j & _ & Hx). destruct Hx' as (j' & _ & Hx').
    rewrite in_map_iff in Hx, Hx'.
    destruct Hx as (k & <- & _). destruct Hx' as (k' & [= -> _] & _).
    reflexivity.
Qed.

Lemma pass_coords_NoDup (cs : cs_t) (pass : Z) : NoDup (pass_coords cs pass).
Proof.
  unfold pass_coords, for_1_to, for_kc. apply NoDup_nest.
  - apply for_values_NoDup. lia.
  - intros ic _. apply NoDup_nest.
    + apply for_values_NoDup. lia.
    + intros jc _. apply NoDup_row, for_values_NoDup. lia.
    + intros j j' x _ _ Hx Hx'. rewrite in_map_iff in Hx, Hx'.
      destruct Hx as (k & <- & _). destruct Hx' as (k' & [= ->] & _).
      reflexivity.
  - intros i i' x _ _ Hx Hx'. rewrite in_flat_map in Hx, Hx'.
    destruct Hx as (j & _ & Hx). destruct Hx' as (j' & _ & Hx').
    rewrite in_map_iff in Hx, Hx'.
    destruct Hx as (k & <- & _). destruct Hx' as (k' & [= -> _] & _).
    reflexivity.
Qed.

(** ** Linear addresses *)

(** A step along an axis is a step of one stride in memory. *)
Lemma cs_index_step (cs : cs_t) (ic jc kc di dj dk : Z) :
  cs_index cs (ic + di) (jc + dj) (kc + dk)
  = cs_index cs ic jc kc + di * xs cs + dj * ys cs + dk * zs cs.
Proof. unfold cs_index. ring. Qed.

(** Distinct sites of the allocated box have distinct addresses. *)
Lemma cs_index_inj (cs : cs_t) (c c' : Z * Z * Z) :
  allocated cs c -> allocated cs c' ->
  index_of cs c = index_of cs c' -> c = c'.
Proof.
  destruct c as [[i j] k], c' as [[i' j'] k'].
  unfold allocated, index_of, cs_index, xs, ys, zs.
  set (h := nhalo cs). set (ny := nlocalY cs). set (nz := nlocalZ cs).
  intros (Hi & Hj & Hk) (Hi' & Hj' & Hk') E.
  assert (Ek : k = k' /\ (ny + 2 * h) * (h + i - 1) + (h + j - 1)
                         = (ny + 2 * h) * (h + i' - 1) + (h + j' - 1)).
  { set (a := (ny + 2 * h) * (h + i - 1) + (h + j - 1)) in *.
    set (a' := (ny + 2 * h) * (h + i' - 1) + (h + j' - 1)) in *.
    assert (E' : (nz + 2 * h) * a + (h + k - 1)
                 = (nz + 2 * h) * a' + (h + k' - 1)) by (subst a a'; lia).
    assert (a = a') by nia. split; [nia|assumption]. }
  destruct Ek as [-> E2].
  assert (h + i - 1 = h + i' - 1) by nia.
  assert (j = j') by nia.
  assert (i = i') by lia. subst. reflexivity.
Qed.

(** The addresses of the allocated box are those of the array. *)
Lemma allocated_in_bounds (cs : cs_t) (c : Z * Z * Z) :
  allocated cs c -> 0 <= index_of cs c < nsites cs.
Proof.
  destruct c as [[i j] k].
  unfold allocated, index_of, cs_index, nsites, xs, ys, zs.
  set (h := nhalo cs). set (nx := nlocalX cs). set (ny := nlocalY cs).
  set (nz := nlocalZ cs).
  intros (Hi & Hj & Hk).
  set (a := h + i - 1). set (b := h + j - 1). set (c := h + k - 1).
  assert (Ha : 0 <= a <= nx + 2 * h - 1) by (subst a; lia).
  assert (Hb : 0 <= b <= ny + 2 * h - 1) by (subst b; lia).
  assert (Hc : 0 <= c <= nz + 2 * h - 1) by (subst c; lia).
  set (Nx := nx + 2 * h) in *. set (Ny := ny + 2 * h) in *.
  set (Nz := nz + 2 * h) in *.
  assert (H1 : 0 <= Nz * b + c <= Ny * Nz - 1) by nia.
  assert (H2 : Ny * Nz * a <= Ny * Nz * (Nx - 1)) by nia.
  assert (H3 : 0 <= Ny * Nz * a) by nia.
  nia.
Qed.

(** With a halo of width 1 or more the stencil stays inside the array:
    the assertion of [psi_sor_poisson] on the halo rules out any read
    outside it. *)
Lemma stencil_in_bounds_halo (cs : cs_t) :
  1 <= nhalo cs -> stencil_in_bounds cs = true.
Proof.
  intros Hh. unfold stencil_in_bounds.
  apply forallb_forall. intros [[i j] k] Hin.
  apply all_coords_In in Hin. unfold interior in Hin.
  assert (Hstep : forall di dj dk,
             -1 <= di <= 1 -> -1 <= dj <= 1 -> -1 <= dk <= 1 ->
             0 <= index_of cs (i, j, k) + di * xs cs + dj * ys cs + dk * zs cs
             < nsites cs).
  { intros di dj dk Hdi Hdj Hdk.
    replace (index_of cs (i, j, k) + di * xs cs + dj * ys cs + dk * zs cs)
      with (index_of cs (i + di, j + dj, k + dk))
      by (unfold index_of; apply cs_index_step).
    apply allocated_in_bounds. unfold allocated. lia. }
  unfold stencil_reads. cbn [forallb].
  rewrite !andb_true_iff, !Z.leb_le, !Z.ltb_lt.
  pose proof (Hstep 0 0 0 ltac:(lia) ltac:(lia) ltac:(lia)).
  pose proof (Hstep 1 0 0 ltac:(lia) ltac:(lia) ltac:(lia)).
  pose proof (Hstep (-1) 0 0 ltac:(lia) ltac:(lia) ltac:(lia)).
  pose proof (Hstep 0 1 0 ltac:(lia) ltac:(lia) ltac:(lia)).
  pose proof (Hstep 0 (-1) 0 ltac:(lia) ltac:(lia) ltac:(lia)).
  pose proof (Hstep 0 0 1 ltac:(lia) ltac:(lia) ltac:(lia)).
  pose proof (Hstep 0 0 (-1) ltac:(lia) ltac:(lia) ltac:(lia)).
  repeat split; lia.
Qed.

(** Without a halo the first owned site already reads below the array. *)
Lemma stencil_out_of_bounds (cs : cs_t) :
  nhalo cs = 0 -> 1 <= nlocalX cs -> 1 <= nlocalY cs -> 1 <= nlocalZ cs ->
  stencil_in_bounds cs = false.
Proof.
  intros Hh Hx Hy Hz.
  destruct (stencil_in_bounds cs) eqn:E; [|reflexivity].
  unfold stencil_in_bounds in E. rewrite forallb_forall in E.
  specialize (E (1, 1, 1)).
  assert (Hin : In (1, 1, 1) (all_coords cs))
    by (apply all_coords_In; unfold interior; lia).
  specialize (E Hin). rewrite forallb_forall in E.
  specialize (E (index_of cs (1, 1, 1) - zs cs)).
  assert (Hrd : In (index_of cs (1, 1, 1) - zs cs)
                   (stencil_reads cs (index_of cs (1, 1, 1))))
    by (unfold stencil_reads; cbn [In]; tauto).
  specialize (E Hrd).
  rewrite andb_true_iff, Z.leb_le in E.
  unfold index_of, cs_index, zs in E. rewrite Hh in E. lia.
Qed.

(** ** Red/black ordering *)

Lemma nlocal_even_spec (cs : cs_t) :
  nlocal_even cs = true ->
  nlocalX cs mod 2 = 0 /\ nlocalY cs mod 2 = 0 /\ nlocalZ cs mod 2 = 0.
Proof.
  unfold nlocal_even. rewrite !andb_true_iff, !Z.eqb_eq.
  intros [[Hx Hy] Hz]. repeat split; zdiv.
Qed.

(** The sites that the 6-point stencil reads around an owned site are
    its lattice neighbours. *)
Lemma stencil_addresses_spec (cs : cs_t) (c c' : coord) :
  1 <= nhalo cs -> interior cs c -> interior cs c' ->
  In (index_of cs c') (stencil_addresses cs (index_of cs c)) ->
  exists (d : Cartesian.axis) (e : Z),
    (e = 1 \/ e = -1) /\ c' = set d c (get d c + e).
Proof.
  intros Hh Hc Hc' Hin.
  destruct c as [[i j] k].
  assert (Hstep : forall di dj dk,
             -1 <= di <= 1 -> -1 <= dj <= 1 -> -1 <= dk <= 1 ->
             index_of cs c'
             = index_of cs (i, j, k) + di * xs cs + dj * ys cs + dk * zs cs ->
             c' = (i + di, j + dj, k + dk)).
  { intros di dj dk Hdi Hdj Hdk E. apply (cs_index_inj cs).
    - destruct c' as [[i' j'] k']. unfold interior, allocated in *. lia.
    - unfold interior, allocated in *. lia.
    - rewrite E. unfold index_of. rewrite cs_index_step. reflexivity. }
  unfold stencil_addresses in Hin. simpl in Hin.
  destruct Hin as [E|[E|[E|[E|[E|[E|[]]]]]]]; symmetry in E;
    [ exists Cartesian.X, 1; assert (E' : c' = (i + 1, j + 0, k + 0))
    | exists Cartesian.X, (-1); assert (E' : c' = (i + -1, j + 0, k + 0))
    | exists Cartesian.Y, 1; assert (E' : c' = (i + 0, j + 1, k + 0))
    | exists Cartesian.Y, (-1); assert (E' : c' = (i + 0, j + -1, k + 0))
    | exists Cartesian.Z, 1; assert (E' : c' = (i + 0, j + 0, k + 1))
    | exists Cartesian.Z, (-1); assert (E' : c' = (i + 0, j + 0, k + -1)) ];
    try (apply Hstep; try lia; rewrite E; unfold index_of; ring);
    (split; [auto|]); rewrite E'; simpl; f_equal; try f_equal; lia.
Qed.

(** A step along one axis changes the colour. *)
Lemma colour_step (d : Cartesian.axis) (c : coord) (e : Z) :
  e mod 2 = 1 -> colour (set d c (get d c + e)) <> colour c.
Proof.
  destruct c as [[i j] k].
  destruct d; unfold colour; cbn [get set fst snd]; intros He; zdiv.
Qed.

(** With even local extents the colour of a site is the same from its
    local and from its global coordinates. *)
Lemma colour_global (dc : decomposition) (p c : coord) :
  nlocal_even (dc_cs dc) = true ->
  colour (global_coords dc (p, c)) = colour c.
Proof.
  intros Heven. apply nlocal_even_spec in Heven.
  destruct Heven as (Ex & Ey & Ez).
  destruct c as [[i j] k], p as [[px py] pz].
  unfold colour, global_coords, cs_nlocal_offset. cbn [get fst snd].
  apply Z.mod_divide in Ex, Ey, Ez; try lia.
  destruct Ex as [a ->], Ey as [b ->], Ez as [e ->].
  replace (px * (a * 2) + i + (py * (b * 2) + j) + (pz * (e * 2) + k))
    with (i + j + k + (px * a + py * b + pz * e) * 2) by ring.
  apply Z.mod_add. lia.
Qed.

(** Sites updated in the same pass are not read by each other's stencil. *)
Lemma pass_coords_independent (cs : cs_t) (pass : Z) (c c' : coord) :
  0 <= pass -> 1 <= nhalo cs ->
  In c (pass_coords cs pass) -> In c' (pass_coords cs pass) ->
  ~ In (index_of cs c') (stencil_addresses cs (index_of cs c)).
Proof.
  intros Hp Hh Hc Hc' Hin.
  rewrite pass_coords_In in Hc, Hc' by assumption.
  destruct Hc as [Hc Hcol], Hc' as [Hc' Hcol'].
  destruct (stencil_addresses_spec cs c c' Hh Hc Hc' Hin) as (d & e & He & ->).
  apply (colour_step d c e); [destruct He; subst; reflexivity | congruence].
Qed.

(** The same across the boundary between two ranks, when the local
    extents are even. *)
Lemma pass_coords_neighbour (dc : decomposition) (pass : Z)
    (forwback : cartesian_neighbours) (dim : Cartesian.axis)
    (p q : coord) (c c' : coord) :
  0 <= pass -> nlocal_even (dc_cs dc) = true ->
  In c (pass_coords (dc_cs dc) pass) ->
  stencil_neighbour dc forwback dim (p, c) = Some (q, c') ->
  ~ In c' (pass_coords (dc_cs dc) pass).
Proof.
  intros Hp Heven Hc Hn Hc'.
  rewrite pass_coords_In in Hc, Hc' by assumption.
  destruct Hc as [Hc Hcol], Hc' as [Hc' Hcol'].
  apply nlocal_even_spec in Heven. destruct Heven as (Ex & Ey & Ez).
  unfold nlocalX, nlocalY, nlocalZ in *.
  destruct c as [[i j] k].
  unfold stencil_neighbour in Hn.
  destruct forwback, dim; cbn [get set fst snd] in Hn;
    match type of Hn with
    | (if ?b then _ else _) = _ => destruct b eqn:Hb
    end;
    try (destruct (cs_cart_neighb dc _ _ p); [|discriminate]);
    injection Hn as _ <-;
    unfold colour, interior, nlocalX, nlocalY, nlocalZ in *;
    cbn [get set fst snd] in *; zdiv.
Qed.

(** ** A half-sweep is a simultaneous update of one colour *)

Open Scope R_scope.

Section Simultaneous.

Variable cs : cs_t.
Variable omega : R.
(** The residual at a site, the denominator of its update, and the body
    of the loop built from them. *)
Variable res : field -> Z -> R.
Variable den : Z -> R.
Variable body : field * R -> Z -> field * R.

Hypothesis body_eq : forall psi rn index,
  body (psi, rn) index
  = (upd psi index (psi index - omega * res psi index / den index),
     rn + Rabs (res psi index)).

(** The residual reads the site and its six stencil neighbours only. *)
Hypothesis res_local : forall psi psi' index,
  psi index = psi' index ->
  (forall a, In a (stencil_addresses cs index) -> psi a = psi' a) ->
  res psi index = res psi' index.

Lemma res_upd (psi : field) (a b : Z) (v : R) :
  a <> b -> ~ In a (stencil_addresses cs b) ->
  res (upd psi a v) b = res psi b.
Proof.
  intros Hab Hs. apply res_local; unfold upd.
  - destruct (Z.eqb_spec b a); [congruence|reflexivity].
  - intros c Hc. destruct (Z.eqb_spec c a); [congruence|reflexivity].
Qed.

Lemma fold_simultaneous (l : list Z) :
  NoDup l -> independent cs l ->
  forall psi rn,
    (forall a, In a l ->
       fst (fold_left body l (psi, rn)) a
       = psi a - omega * res psi a / den a) /\
    (forall a, ~ In a l -> fst (fold_left body l (psi, rn)) a = psi a) /\
    snd (fold_left body l (psi, rn)) = rn + sum_over (fun a => Rabs (res psi a)) l.
Proof.
  induction 1 as [|a0 l Ha0 Hl IH]; intros Hind psi rn.
  - simpl. repeat split; [contradiction | lra].
  - assert (Hind' : independent cs l).
    { intros a b Ha Hb. apply Hind; now right. }
    assert (Hres : forall b v, In b l -> res (upd psi a0 v) b = res psi b).
    { intros b v Hb. apply res_upd.
      - intros ->. contradiction.
      - apply Hind; [now right | now left]. }
    simpl fold_left. rewrite body_eq.
    set (v := psi a0 - omega * res psi a0 / den a0).
    destruct (IH Hind' (upd psi a0 v) (rn + Rabs (res psi a0)))
      as (Hin & Hout & Hsum).
    split; [|split].
    + intros a [<-|Ha].
      * rewrite Hout by assumption. unfold upd. now rewrite Z.eqb_refl.
      * rewrite Hin by assumption. rewrite Hres by assumption.
        unfold upd. destruct (Z.eqb_spec a a0); [subst; contradiction|].
        reflexivity.
    + intros a Ha. rewrite Hout by (intros H; apply Ha; now right).
      unfold upd. destruct (Z.eqb_spec a a0); [|reflexivity].
      subst. exfalso. apply Ha. now left.
    + rewrite Hsum. simpl.
      assert (E : sum_over (fun a => Rabs (res (upd psi a0 v) a)) l
                  = sum_over (fun a => Rabs (res psi a)) l).
      { clear - Hres. induction l as [|b l IHl]; simpl; [reflexivity|].
        rewrite Hres by now left. rewrite IHl; [reflexivity|].
        intros c w Hc. apply Hres. now right. }
      rewrite E. lra.
Qed.

End Simultaneous.

Lemma fold_left_map_list (A B C : Type) (f : A -> C -> A) (g : B -> C)
    (l : list B) (a : A) :
  fold_left (fun x b => f x (g b)) l a = fold_left f (map g l) a.
Proof.
  revert a. induction l as [|b l IH]; intros a; simpl; [reflexivity|apply IH].
Qed.

Lemma sum_over_map (A B : Type) (f : B -> R) (g : A -> B) (l : list A) :
  sum_over f (map g l) = sum_over (fun a => f (g a)) l.
Proof.
  induction l as [|a l IH]; simpl; [reflexivity|now rewrite IH].
Qed.

Lemma sum_over_ext_in (A : Type) (f g : A -> R) (l : list A) :
  (forall a, In a l -> f a = g a) -> sum_over f l = sum_over g l.
Proof.
  intros H. induction l as [|a l IH]; simpl; [reflexivity|].
  rewrite H by now left. rewrite IH; [reflexivity|].
  intros b Hb. apply H. now right.
Qed.

Lemma interior_allocated (cs : cs_t) (c : coord) :
  (0 <= nhalo cs)%Z -> interior cs c -> allocated cs c.
Proof.
  destruct c as [[i j] k]. unfold interior, allocated. lia.
Qed.

Lemma pass_addresses_NoDup (cs : cs_t) (pass : Z) :
  (0 <= pass)%Z -> (0 <= nhalo cs)%Z ->
  NoDup (map (index_of cs) (pass_coords cs pass)).
Proof.
  intros Hp Hh. apply NoDup_map_NoDup_ForallPairs.
  - intros c c' Hc Hc' E.
    rewrite pass_coords_In in Hc, Hc' by assumption.
    apply (cs_index_inj cs); try apply interior_allocated; tauto.
  - apply pass_coords_NoDup.
Qed.

Lemma pass_addresses_independent (cs : cs_t) (pass : Z) :
  (0 <= pass)%Z -> (1 <= nhalo cs)%Z ->
  independent cs (map (index_of cs) (pass_coords cs pass)).
Proof.
  intros Hp Hh a b Ha Hb. rewrite in_map_iff in Ha, Hb.
  destruct Ha as (c & <- & Hc). destruct Hb as (c' & <- & Hc').
  now apply pass_coords_independent with (pass := pass).
Qed.

Lemma dpsi_local (cs : cs_t) (psi psi' : field) (index : Z) :
  psi index = psi' index ->
  (forall a, In a (stencil_addresses cs index) -> psi a = psi' a) ->
  dpsi cs psi index = dpsi cs psi' index.
Proof.
  intros H0 H. unfold dpsi, addr_rank0.
  rewrite H0. unfold stencil_addresses in H.
  rewrite !H by (simpl; tauto). reflexivity.
Qed.

Lemma residual_at_local (obj : psi_t) (rho_elec psi psi' : field) (index : Z) :
  psi index = psi' index ->
  (forall a, In a (stencil_addresses (psi_cs obj) index) -> psi a = psi' a) ->
  residual_at obj rho_elec psi index = residual_at obj rho_elec psi' index.
Proof.
  intros H0 H. unfold residual_at. now rewrite (dpsi_local _ psi psi').
Qed.

Lemma vare_residual_at_local (obj : psi_t) (fepsilon rho_elec psi psi' : field)
    (index : Z) :
  psi index = psi' index ->
  (forall a, In a (stencil_addresses (psi_cs obj) index) -> psi a = psi' a) ->
  vare_residual_at obj fepsilon rho_elec psi index
  = vare_residual_at obj fepsilon rho_elec psi' index.
Proof.
  intros H0 H. unfold vare_residual_at, vare_depsi, addr_rank0.
  rewrite H0. unfold stencil_addresses in H.
  rewrite !H by (simpl; tauto). reflexivity.
Qed.

(** The red/black loop of [psi_sor_poisson] updates every site of the
    pass from the values held before the pass, and nothing else. *)
Lemma half_sweep_simultaneous (obj : psi_t) (omega : R) (pass : Z)
    (rho_elec psi : field) (rn : R) :
  (0 <= pass)%Z -> (1 <= nhalo (psi_cs obj))%Z ->
  let cs := psi_cs obj in
  let out := half_sweep obj omega pass rho_elec (psi, rn) in
  (forall c, In c (pass_coords cs pass) ->
     fst out (index_of cs c)
     = psi (index_of cs c)
       - omega * residual_at obj rho_elec psi (index_of cs c)
         / (-6 * psi_epsilon obj)) /\
  (forall a, ~ In a (map (index_of cs) (pass_coords cs pass)) ->
     fst out a = psi a) /\
  snd out = rn + sum_over (fun c => Rabs (residual_at obj rho_elec psi
                                            (index_of cs c)))
                          (pass_coords cs pass).
Proof.
  intros Hp Hh cs out. subst out cs. unfold half_sweep.
  assert (Hh0 : (0 <= nhalo (psi_cs obj))%Z) by lia.
  set (cs := psi_cs obj) in *.
  rewrite (fold_left_map_list _ _ _ (sor_site obj omega rho_elec)
             (index_of cs)).
  destruct (fold_simultaneous cs omega (residual_at obj rho_elec)
              (fun _ => -6 * psi_epsilon obj) (sor_site obj omega rho_elec)
              ltac:(reflexivity) (residual_at_local obj rho_elec)
              (map (index_of cs) (pass_coords cs pass))
              (pass_addresses_NoDup cs pass Hp Hh0)
              (pass_addresses_independent cs pass Hp Hh) psi rn)
    as (Hin & Hout & Hsum).
  split; [|split].
  - intros c Hc. apply Hin. now apply in_map.
  - exact Hout.
  - rewrite Hsum. f_equal. apply sum_over_map.
Qed.

(** The same for the loop of [psi_sor_vare_poisson]. *)
Lemma vare_half_sweep_simultaneous (obj : psi_t) (omega : R) (pass : Z)
    (fepsilon rho_elec psi : field) (rn : R) :
  (0 <= pass)%Z -> (1 <= nhalo (psi_cs obj))%Z ->
  let cs := psi_cs obj in
  let out := vare_half_sweep obj omega pass fepsilon rho_elec (psi, rn) in
  (forall c, In c (pass_coords cs pass) ->
     fst out (index_of cs c)
     = psi (index_of cs c)
       - omega * vare_residual_at obj fepsilon rho_elec psi (index_of cs c)
         / (-6 * fepsilon (index_of cs c))) /\
  (forall a, ~ In a (map (index_of cs) (pass_coords cs pass)) ->
     fst out a = psi a) /\
  snd out = rn + sum_over (fun c => Rabs (vare_residual_at obj fepsilon
                                            rho_elec psi (index_of cs c)))
                          (pass_coords cs pass).
Proof.
  intros Hp Hh cs out. subst out cs. unfold vare_half_sweep.
  assert (Hh0 : (0 <= nhalo (psi_cs obj))%Z) by lia.
  set (cs := psi_cs obj) in *.
  rewrite (fold_left_map_list _ _ _ (vare_site obj omega fepsilon rho_elec)
             (index_of cs)).
  destruct (fold_simultaneous cs omega (vare_residual_at obj fepsilon rho_elec)
              (fun index => -6 * fepsilon index)
              (vare_site obj omega fepsilon rho_elec)
              ltac:(reflexivity) (vare_residual_at_local obj fepsilon rho_elec)
              (map (index_of cs) (pass_coords cs pass))
              (pass_addresses_NoDup cs pass Hp Hh0)
              (pass_addresses_independent cs pass Hp Hh) psi rn)
    as (Hin & Hout & Hsum).
  split; [|split].
  - intros c Hc. apply Hin. now apply in_map.
  - exact Hout.
  - rewrite Hsum. f_equal. apply sum_over_map.
Qed.



(** C2.  In one pass of either solver the sites written are exactly the
    owned sites of one colour [(i + j + k) mod 2]: the loop visits these
    sites, every one of them is given its relaxed value, computed from the
    potential held before the pass, and the sweep leaves every other
    address as it was.  No two of them are neighbours in the 6-point
    stencil, neither inside a rank nor across the boundary between two
    ranks, where the site next to the last owned site along an axis is
    the first owned site of the adjacent rank; the colour taken from the
    local coordinates is the colour of the global coordinates, so that
    all ranks colour the lattice alike.  The hypotheses are the
    assertions made at the entry of the solver. *)
Theorem C2_pass_updates_one_colour (dc : decomposition) (obj : psi_t)
    (pass : Z) :
  psi_cs obj = dc_cs dc ->
  (pass = 0 \/ pass = 1)%Z ->
  (1 <= nhalo (dc_cs dc))%Z ->
  nlocal_even (dc_cs dc) = true ->
  (forall c, In c (pass_coords (dc_cs dc) pass) <->
             interior (dc_cs dc) c /\ colour c = ((1 + pass) mod 2)%Z) /\
  (forall omega rho_elec psi rn c,
     In c (pass_coords (dc_cs dc) pass) ->
     fst (half_sweep obj omega pass rho_elec (psi, rn))
         (index_of (dc_cs dc) c)
     = psi (index_of (dc_cs dc) c)
       - omega * residual_at obj rho_elec psi (index_of (dc_cs dc) c)
         / (-6 * psi_epsilon obj)) /\
  (forall omega fepsilon rho_elec psi rn c,
     In c (pass_coords (dc_cs dc) pass) ->
     fst (vare_half_sweep obj omega pass fepsilon rho_elec (psi, rn))
         (index_of (dc_cs dc) c)
     = psi (index_of (dc_cs dc) c)
       - omega * vare_residual_at obj fepsilon rho_elec psi
                   (index_of (dc_cs dc) c)
         / (-6 * fepsilon (index_of (dc_cs dc) c))) /\
  (forall omega rho_elec psi rn a,
     ~ In a (map (index_of (dc_cs dc)) (pass_coords (dc_cs dc) pass)) ->
     fst (half_sweep obj omega pass rho_elec (psi, rn)) a = psi a) /\
  (forall omega fepsilon rho_elec psi rn a,
     ~ In a (map (index_of (dc_cs dc)) (pass_coords (dc_cs dc) pass)) ->
     fst (vare_half_sweep obj omega pass fepsilon rho_elec (psi, rn)) a
     = psi a) /\
  (forall c c',
     In c (pass_coords (dc_cs dc) pass) ->
     In c' (pass_coords (dc_cs dc) pass) ->
     ~ In (index_of (dc_cs dc) c')
          (stencil_addresses (dc_cs dc) (index_of (dc_cs dc) c))) /\
  (forall forwback dim p q c c',
     In c (pass_coords (dc_cs dc) pass) ->
     stencil_neighbour dc forwback dim (p, c) = Some (q, c') ->
     ~ In c' (pass_coords (dc_cs dc) pass)) /\
  (forall p c, colour (global_coords dc (p, c)) = colour c).
Proof.
  intros Hcs Hpass Hh Heven.
  assert (Hp : (0 <= pass)%Z) by lia.
  split; [|split; [|split; [|split; [|split; [|split; [|split]]]]]];
    [| | | | | | | intros p c; now apply colour_global].
  all: rewrite <- Hcs in *.
  - intros c. now apply pass_coords_In.
  - intros omega rho_elec psi rn c Hc.
    now apply (half_sweep_simultaneous obj omega pass rho_elec psi rn Hp Hh).
  - intros omega fepsilon rho_elec psi rn c Hc.
    now apply (vare_half_sweep_simultaneous obj omega pass fepsilon rho_elec
                 psi rn Hp Hh).
  - intros omega rho_elec psi rn a Ha.
    now apply (half_sweep_simultaneous obj omega pass rho_elec psi rn Hp Hh).
  - intros omega fepsilon rho_elec psi rn a Ha.
    now apply (vare_half_sweep_simultaneous obj omega pass fepsilon rho_elec
                 psi rn Hp Hh).
  - intros c c'. now apply pass_coords_independent.
  - intros forwback dim p q c c'. rewrite Hcs.
    apply pass_coords_neighbour; [assumption | now rewrite <- Hcs].
Qed.

(** On the 2 x 2 x 2 lattice with a unit charge at every site and a
    potential at rest, the first pass visits (1,1,1), raises the potential
    there to 1/6, and neither visits nor changes its neighbour (2,1,1). *)
Lemma C2_pass_updates_one_colour_witness :
  (1 <= nhalo (dc_cs dc_small))%Z /\
  nlocal_even (dc_cs dc_small) = true /\
  (In (1, 1, 1)%Z (pass_coords cs_small 0) <->
   interior cs_small (1, 1, 1)%Z /\ colour (1, 1, 1)%Z = 1%Z) /\
  ~ In (2, 1, 1)%Z (pass_coords cs_small 0) /\
  fst (half_sweep (obj_small 0 0 1) 1 0 (uniform_fields 1 0%nat)
         (uniform_fields 0 0%nat, 0)) (index_of cs_small (1, 1, 1)%Z)
  = 1 / 6 /\
  fst (vare_half_sweep (obj_small 0 0 1) 1 0 (uniform_fields 1 0%nat)
         (uniform_fields 1 0%nat) (uniform_fields 0 0%nat, 0))
      (index_of cs_small (1, 1, 1)%Z)
  = 1 / 6 /\
  fst (half_sweep (obj_small 0 0 1) 1 0 (uniform_fields 1 0%nat)
         (uniform_fields 0 0%nat, 0)) (index_of cs_small (2, 1, 1)%Z)
  = 0.
Proof.
  assert (H1 : (1 <= nhalo (dc_cs dc_small))%Z) by (simpl; lia).
  assert (H2 : nlocal_even (dc_cs dc_small) = true) by reflexivity.
  destruct (C2_pass_updates_one_colour dc_small (obj_small 0 0 1) 0
              eq_refl (or_introl eq_refl) H1 H2)
    as (Hin & Hw & Hwv & Hout & _ & _ & Hnb & _).
  assert (Hc : In (1, 1, 1)%Z (pass_coords (dc_cs dc_small) 0))
    by (simpl; auto).
  split; [exact H1|]. split; [exact H2|]. split; [|split; [|split; [|split]]].
  - exact (Hin (1, 1, 1)%Z).
  - apply (Hnb FORWARD Cartesian.X (0, 0, 0)%Z (0, 0, 0)%Z (1, 1, 1)%Z).
    + simpl. auto.
    + reflexivity.
  - change cs_small with (dc_cs dc_small).
    rewrite (Hw 1 (uniform_fields 1 0%nat) (uniform_fields 0 0%nat) 0
               (1, 1, 1)%Z Hc).
    unfold residual_at, dpsi, uniform_fields.
    cbn [psi_epsilon psi_unit_charge psi_beta obj_small]. field.
  - change cs_small with (dc_cs dc_small).
    rewrite (Hwv 1 (uniform_fields 1 0%nat) (uniform_fields 1 0%nat)
               (uniform_fields 0 0%nat) 0 (1, 1, 1)%Z Hc).
    unfold vare_residual_at, vare_depsi, uniform_fields.
    cbn [psi_unit_charge psi_beta obj_small]. field.
  - change cs_small with (dc_cs dc_small).
    rewrite (Hout 1 (uniform_fields 1 0%nat) (uniform_fields 0 0%nat) 0).
    + reflexivity.
    + vm_compute. intuition discriminate.
Defined.

(** ** The iteration and its exits *)

Lemma for_pass_unfold (body : Z -> sor_state -> option sor_state)
    (st : sor_state) :
  for_pass body st
  = match body 0%Z st with Some s => body 1%Z s | None => None end.
Proof. reflexivity. Qed.

Lemma Rltb_true (a b : R) : Rltb a b = true <-> a < b.
Proof.
  unfold Rltb. destruct (Rlt_dec a b); split; intros; auto; discriminate.
Qed.

Lemma Rltb_false (a b : R) : Rltb a b = false <-> ~ a < b.
Proof.
  unfold Rltb. destruct (Rlt_dec a b); split; intros; auto;
    [discriminate | contradiction].
Qed.

Lemma log_if_fields (b : bool) (m : message) (st : sor_state) :
  st_psi (log_if b m st) = st_psi st /\
  st_omega (log_if b m st) = st_omega st /\
  st_rnorm_local1 (log_if b m st) = st_rnorm_local1 st /\
  st_rnorm (log_if b m st) = st_rnorm st.
Proof. destruct b; simpl; auto. Qed.

(** The report at a check whose tolerance is met: the remainder by
    [nfreq] is taken, and traps when [nfreq] is zero. *)
Lemma report_and_break_cases (obj : psi_t) (its : Z) (e : sor_exit)
    (m : message) (st : sor_state) :
  (psi_nfreq obj = 0%Z /\
   report_and_break obj its e m st = Fails DivisionByZero) \/
  (psi_nfreq obj <> 0%Z /\
   report_and_break obj its e m st
   = Break e (log_if (Z.rem its (psi_nfreq obj) =? 0)%Z m st)).
Proof.
  unfold report_and_break.
  destruct (Z.eqb_spec (psi_nfreq obj) 0); [left|right]; auto.
Qed.

(** Leaving the loop at the residual check of [psi_sor_poisson]. *)
Lemma sor_check_break (comm : comm_t) (obj : psi_t) (rnl0 : nat -> R)
    (its n : Z) (st : sor_state) :
  let r0 := mpi_allreduce_sum comm rnl0 in
  let r1 := mpi_allreduce_sum comm (st_rnorm_local1 st) in
  (forall e st', sor_check comm obj rnl0 its n st = Break e st' ->
     e <> MaxIterationsReached /\
     st_rnorm st' = (r0, r1) /\
     st_rnorm_local1 st' = st_rnorm_local1 st /\
     st_psi st' = st_psi st) /\
  ((exists e st', sor_check comm obj rnl0 its n st = Break e st') <->
   (r1 < psi_abstol obj \/ r1 < psi_reltol obj * r0) /\
   psi_nfreq obj <> 0%Z) /\
  sor_check comm obj rnl0 its n st <> AssertFails /\
  (forall f, sor_check comm obj rnl0 its n st = Fails f <->
     f = DivisionByZero /\ psi_nfreq obj = 0%Z /\
     (r1 < psi_abstol obj \/ r1 < psi_reltol obj * r0)).
Proof.
  intros r0 r1. unfold sor_check. fold r0 r1. cbn [fst snd].
  destruct (Rltb r1 (psi_abstol obj)) eqn:Ha;
    [|destruct (Rltb r1 (psi_reltol obj * r0)) eqn:Hr]; cbn [orb].
  1, 2: match goal with |- context [report_and_break ?o ?i ?e ?m ?s] =>
          destruct (report_and_break_cases o i e m s) as [[Hz ->]|[Hz ->]]
        end.
  all: repeat match goal with
       | H : Rltb _ _ = true |- _ => apply Rltb_true in H
       | H : Rltb _ _ = false |- _ => apply Rltb_false in H
       end.
  1, 3: split; [|split; [|split]];
    [ discriminate
    | split; [intros (e & st' & H); discriminate | tauto]
    | discriminate
    | intros f; split;
      [ intros [= <-]; auto | intros (-> & _ & _); reflexivity ] ].
  1, 2: split; [|split; [|split]];
    [ intros e st' [= <- <-]; split; [discriminate|];
      match goal with |- context [log_if ?b ?m ?s] =>
        destruct (log_if_fields b m s) as (-> & _ & -> & ->) end; auto
    | split; [auto | eauto]
    | discriminate
    | intros f; split; [discriminate | intros (_ & Hz' & _); contradiction] ].
  split; [|split; [|split]].
  - discriminate.
  - split; [intros (e & st' & H); discriminate | tauto].
  - discriminate.
  - intros f; split; [discriminate | tauto].
Qed.

(** Leaving the loop at the residual check of [psi_sor_vare_poisson]. *)
Lemma vare_check_break (comm : comm_t) (obj : psi_t) (rnl0 : nat -> R)
    (its n : Z) (st : sor_state) :
  let r0 := mpi_allreduce_sum comm rnl0 in
  let r1 := mpi_allreduce_sum comm (st_rnorm_local1 st) in
  (forall e st', vare_check comm obj rnl0 its n st = Break e st' ->
     e <> MaxIterationsReached /\
     st_rnorm st' = (r0, r1) /\
     st_rnorm_local1 st' = st_rnorm_local1 st /\
     st_psi st' = st_psi st) /\
  ((exists e st', vare_check comm obj rnl0 its n st = Break e st') <->
   (r1 < psi_abstol obj \/ r1 < psi_reltol obj * r0) /\
   psi_nfreq obj <> 0%Z) /\
  vare_check comm obj rnl0 its n st <> AssertFails /\
  (forall f, vare_check comm obj rnl0 its n st = Fails f <->
     f = DivisionByZero /\ psi_nfreq obj = 0%Z /\
     (r1 < psi_abstol obj \/ r1 < psi_reltol obj * r0)).
Proof.
  intros r0 r1. unfold vare_check. fold r0 r1. cbn [fst snd].
  destruct (Rltb r1 (psi_abstol obj)) eqn:Ha;
    [|destruct (Rltb r1 (psi_reltol obj * r0)) eqn:Hr].
  1, 2: match goal with |- context [report_and_break ?o ?i ?e ?m ?s] =>
          destruct (report_and_break_cases o i e m s) as [[Hz ->]|[Hz ->]]
        end.
  all: repeat match goal with
       | H : Rltb _ _ = true |- _ => apply Rltb_true in H
       | H : Rltb _ _ = false |- _ => apply Rltb_false in H
       end.
  1, 3: split; [|split; [|split]];
    [ discriminate
    | split; [intros (e & st' & H); discriminate | tauto]
    | discriminate
    | intros f; split;
      [ intros [= <-]; auto | intros (-> & _ & _); reflexivity ] ].
  1, 2: split; [|split; [|split]];
    [ intros e st' [= <- <-]; split; [discriminate|];
      match goal with |- context [log_if ?b ?m ?s] =>
        destruct (log_if_fields b m s) as (-> & _ & -> & ->) end; auto
    | split; [auto | eauto]
    | discriminate
    | intros f; split; [discriminate | intros (_ & Hz' & _); contradiction] ].
  split; [|split; [|split]].
  - discriminate.
  - split; [intros (e & st' & H); discriminate | tauto].
  - discriminate.
  - intros f; split; [discriminate | tauto].
Qed.

Lemma reaches_head (body : Z -> sor_state -> outcome) (n k : Z)
    (st stk : sor_state) :
  reaches body n st k stk ->
  (k = n /\ stk = st) \/
  (exists st1, body n st = Continue st1 /\ reaches body (n + 1) st1 k stk).
Proof.
  induction 1 as [|k s s' Hr IH Hc].
  - left. auto.
  - right. destruct IH as [[-> ->]|(st1 & Hb & Hr1)].
    + exists s'. split; [assumption|constructor].
    + exists st1. split; [assumption|].
      now apply reaches_next with (st' := s).
Qed.

Lemma reaches_cons (body : Z -> sor_state -> outcome) (n k : Z)
    (st st1 stk : sor_state) :
  body n st = Continue st1 ->
  reaches body (n + 1) st1 k stk ->
  reaches body n st k stk.
Proof.
  intros Hb. induction 1 as [|k s s' Hr IH Hc].
  - now apply reaches_next with (st' := st); [constructor|].
  - now apply reaches_next with (st' := s).
Qed.

Lemma reaches_le (body : Z -> sor_state -> outcome) (n k : Z)
    (st stk : sor_state) :
  reaches body n st k stk -> (n <= k)%Z.
Proof. induction 1; lia. Qed.

(** The loop returns a converged state exactly when some trip, reached
    without leaving the loop earlier, breaks out. *)
Lemma sor_loop_break (body : Z -> sor_state -> outcome) (count : nat) :
  forall n st e st',
    (forall k s s', body k s <> Break MaxIterationsReached s') ->
    (sor_loop body count n st = Returned e st' /\ e <> MaxIterationsReached
     <->
     exists k stk, reaches body n st k stk /\
                   (n <= k < n + Z.of_nat count)%Z /\
                   body k stk = Break e st').
Proof.
  intros n st e st' Hbody. revert n st.
  induction count as [|count IH]; intros n st.
  - simpl. split.
    + intros [[= <- _] He]. contradiction.
    + intros (k & stk & _ & Hk & _). lia.
  - cbn [sor_loop]. destruct (body n st) as [|e1 st1|st1] eqn:Hb.
    + split; [intros [H _]; discriminate|].
      intros (k & stk & Hr & Hk & Hbk).
      destruct (reaches_head _ _ _ _ _ Hr) as [[-> ->]|(s1 & Hc & _)];
        congruence.
    + split.
      * intros [[= -> ->] He]. exists n, st.
        split; [constructor|]. split; [lia|assumption].
      * intros (k & stk & Hr & Hk & Hbk).
        destruct (reaches_head _ _ _ _ _ Hr) as [[-> ->]|(s1 & Hc & _)];
          [|congruence].
        rewrite Hb in Hbk. injection Hbk as -> ->.
        split; [reflexivity|]. intros ->. now apply (Hbody n st st').
    + rewrite IH. split.
      * intros (k & stk & Hr & Hk & Hbk). exists k, stk.
        split; [now apply reaches_cons with (st1 := st1)|].
        split; [lia|assumption].
      * intros (k & stk & Hr & Hk & Hbk).
        destruct (reaches_head _ _ _ _ _ Hr) as [[-> ->]|(s1 & Hc & Hr1)];
          [congruence|].
        rewrite Hb in Hc. injection Hc as <-.
        exists k, stk. split; [assumption|]. split; [|assumption].
        apply reaches_le in Hr1. lia.
Qed.

(** A trip of [psi_sor_poisson] leaves the loop only through the residual
    check, made when [n % ncheck == 0]. *)
Lemma sor_iteration_break (comm : comm_t) (obj : psi_t) (rho_elec : fields)
    (rnl0 : nat -> R) (radius : R) (its n : Z) (st : sor_state)
    (e : sor_exit) (st' : sor_state) :
  sor_iteration comm obj rho_elec rnl0 radius its n st = Break e st' <->
  exists st2,
    for_pass (sor_pass comm obj rho_elec radius n) (reset_rnorm_local1 st)
    = Some st2 /\
    Z.rem n ncheck_poisson = 0%Z /\
    sor_check comm obj rnl0 its n st2 = Break e st'.
Proof.
  unfold sor_iteration.
  destruct (for_pass _ _) as [st2|]; [|split; [discriminate|]].
  - destruct (Z.eqb_spec (Z.rem n ncheck_poisson) 0) as [Hn|Hn].
    + destruct (sor_check comm obj rnl0 its n st2) as [|e1 s1|s1] eqn:Hc.
      * split; [discriminate|]. intros (s & [= <-] & _ & H). congruence.
      * split.
        -- intros [= -> ->]. exists st2. auto.
        -- intros (s & [= <-] & _ & H). congruence.
      * split; [discriminate|]. intros (s & [= <-] & _ & H). congruence.
    + split; [discriminate|]. intros (s & _ & H & _). contradiction.
  - intros (s & H & _). discriminate.
Qed.

(** The same for [psi_sor_vare_poisson], where the new [omega] is
    computed between the passes and the check. *)
Lemma vare_iteration_break (comm : comm_t) (obj : psi_t)
    (fepsilon rho_elec : fields) (rnl0 : nat -> R) (radius : R) (its n : Z)
    (st : sor_state) (e : sor_exit) (st' : sor_state) :
  vare_iteration comm obj fepsilon rho_elec rnl0 radius its n st = Break e st'
  <->
  exists st2,
    for_pass (vare_pass comm obj fepsilon rho_elec) (reset_rnorm_local1 st)
    = Some st2 /\
    Z.rem n ncheck_vare = 0%Z /\
    vare_check comm obj rnl0 its n (vare_recompute radius st2) = Break e st'.
Proof.
  unfold vare_iteration.
  destruct (for_pass _ _) as [st2|]; [|split; [discriminate|]].
  - destruct (Z.eqb_spec (Z.rem n ncheck_vare) 0) as [Hn|Hn].
    + split.
      * intros H. exists st2. auto.
      * intros (s & [= <-] & _ & H). exact H.
    + split; [discriminate|]. intros (s & _ & H & _). contradiction.
  - intros (s & H & _). discriminate.
Qed.

(** ** The spectral radius and the relaxation parameter *)

Lemma PI_lt_4 : PI < 4.
Proof.
  destruct (PI_ineq 1) as [_ H].
  unfold sum_f_R0, tg_alt, PI_tg in H. simpl in H.
  lra.
Qed.

Lemma PI_gt_3 : 3 < PI.
Proof. pose proof PI2_3_2. lra. Qed.

(** [radius = 1 - (pi^2 / 2) / max(Lx, Lz)^2] *)
Lemma radius_of_PI (cs : cs_t) :
  radius_of cs = 1 - (PI ^ 2 / 2) / (Rmax (ltotX cs) (ltotZ cs)) ^ 2.
Proof.
  unfold radius_of, dmax. rewrite atan_1.
  replace (4 * (PI / 4)) with PI by field.
  unfold Rdiv. rewrite Rpow_mult_distr, pow_inv. ring.
Qed.

Lemma inv_between (d : R) : 1/2 < d < 1 -> 1 < 1 / d < 2.
Proof.
  intros [H1 H2]. assert (0 < d) by lra.
  assert (0 < / d) by now apply Rinv_0_lt_compat.
  assert (d * / d = 1) by (apply Rinv_r; lra).
  unfold Rdiv. rewrite Rmult_1_l. split; nra.
Qed.

(** When the larger of the extents along X and Z is an integer of at
    least 2, the radius is neither 0 nor of modulus 1 or more. *)
Lemma radius_of_square (cs : cs_t) (m : Z) :
  (2 <= m)%Z -> dmax (ltotX cs) (ltotZ cs) = IZR m ->
  0 < radius_of cs * radius_of cs < 1.
Proof.
  intros Hm HL. rewrite radius_of_PI. unfold dmax in HL. rewrite HL.
  pose proof PI_lt_4. pose proof PI_gt_3.
  assert (H2 : 2 <= IZR m) by (apply IZR_le in Hm; exact Hm).
  set (L := IZR m) in *.
  assert (HL2 : 0 < L ^ 2) by nra.
  assert (Hinv : 0 < / L ^ 2) by now apply Rinv_0_lt_compat.
  assert (Hone : L ^ 2 * / L ^ 2 = 1) by (apply Rinv_r; lra).
  set (x := PI ^ 2 / 2 / L ^ 2).
  assert (Hx : x * L ^ 2 = PI ^ 2 / 2).
  { unfold x, Rdiv. rewrite Rmult_assoc, (Rmult_comm (/ L ^ 2)), Hone. ring. }
  assert (Hx0 : 0 < x) by (unfold x, Rdiv; nra).
  assert (Hx2 : x < 2) by nra.
  assert (Hx1 : x <> 1).
  { intros E. rewrite E in Hx.
    destruct (Z.eq_dec m 2) as [->|Hne].
    - unfold L in Hx. nra.
    - assert (3 <= L) by (apply (IZR_le 3); lia). nra. }
  split; [|nra].
  assert (1 - x <> 0) by lra. nra.
Qed.

(** The assertions [1.0 < omega] and [omega < 2.0] hold for the first
    value of the recurrence and are preserved by it. *)
Lemma omega_next_bounds (radius : R) (n pass : Z) (omega : R) :
  0 < radius * radius < 1 -> 1 <= omega < 2 ->
  1 < omega_next radius n pass omega < 2.
Proof.
  intros Hr Ho. unfold omega_next.
  destruct ((n =? 0)%Z && (pass =? 0)%Z); apply inv_between; nra.
Qed.

Lemma vare_omega_next_bounds (radius omega : R) :
  0 < radius * radius < 1 -> 1 <= omega < 2 ->
  1 < vare_omega_next radius omega < 2.
Proof.
  intros Hr Ho. unfold vare_omega_next. apply inv_between; nra.
Qed.

(** ** What a trip of the loop does to the state *)

Lemma sor_loop_invariant (body : Z -> sor_state -> outcome)
    (P : sor_state -> Prop) :
  (forall n st, P st -> outcome_holds P (body n st)) ->
  forall count n st, P st -> result_holds P (sor_loop body count n st).
Proof.
  intros Hbody. induction count as [|count IH]; intros n st HP; simpl.
  - exact HP.
  - specialize (Hbody n st HP). destruct (body n st); simpl in *; auto.
Qed.

Lemma sor_loop_no_failure (body : Z -> sor_state -> outcome)
    (P : sor_state -> Prop) (f : failure) :
  (forall n st, P st -> body n st <> Fails f) ->
  (forall n st, P st -> outcome_holds P (body n st)) ->
  forall count n st, P st -> sor_loop body count n st <> Failed f.
Proof.
  intros Hok Hbody. induction count as [|count IH]; intros n st HP; simpl.
  - discriminate.
  - specialize (Hbody n st HP). specialize (Hok n st HP).
    destruct (body n st); simpl in *; auto; try discriminate.
    intros [= ->]. now apply Hok.
Qed.

(** The residual checks and the reports touch [rnorm] and the log only. *)
Lemma sor_check_state (comm : comm_t) (obj : psi_t) (rnl0 : nat -> R)
    (its n : Z) (st : sor_state) :
  outcome_holds (fun st' =>
      st_psi st' = st_psi st /\ st_omega st' = st_omega st /\
      st_rnorm_local1 st' = st_rnorm_local1 st /\
      st_rnorm st' = (mpi_allreduce_sum comm rnl0,
                      mpi_allreduce_sum comm (st_rnorm_local1 st)))
    (sor_check comm obj rnl0 its n st).
Proof.
  unfold sor_check, report_and_break, log_if.
  repeat match goal with
         | |- context [if ?b then _ else _] => destruct b
         end; simpl; auto.
Qed.

Lemma sor_exceeded_state (obj : psi_t) (n : Z) (st : sor_state) :
  st_psi (sor_exceeded obj n st) = st_psi st /\
  st_omega (sor_exceeded obj n st) = st_omega st /\
  st_rnorm_local1 (sor_exceeded obj n st) = st_rnorm_local1 st /\
  st_rnorm (sor_exceeded obj n st) = st_rnorm st.
Proof. apply log_if_fields. Qed.

Lemma vare_check_state (comm : comm_t) (obj : psi_t) (rnl0 : nat -> R)
    (its n : Z) (st : sor_state) :
  outcome_holds (fun st' =>
      st_psi st' = st_psi st /\ st_omega st' = st_omega st /\
      st_rnorm_local1 st' = st_rnorm_local1 st /\
      st_rnorm st' = (mpi_allreduce_sum comm rnl0,
                      mpi_allreduce_sum comm (st_rnorm_local1 st)))
    (vare_check comm obj rnl0 its n st).
Proof.
  unfold vare_check, report_and_break, vare_exceeded, log_if.
  repeat match goal with
         | |- context [if ?b then _ else _] => destruct b
         end; simpl; auto.
Qed.

(** A pass of [psi_sor_poisson] succeeds exactly when the new [omega]
    satisfies the two assertions. *)
Lemma sor_pass_omega (comm : comm_t) (obj : psi_t) (rho_elec : fields)
    (radius : R) (n pass : Z) (st : sor_state) :
  (forall st', sor_pass comm obj rho_elec radius n pass st = Some st' ->
     st_omega st' = omega_next radius n pass (st_omega st) /\
     1 < st_omega st' < 2 /\
     st_rnorm st' = st_rnorm st /\ st_log st' = st_log st) /\
  (sor_pass comm obj rho_elec radius n pass st = None <->
   ~ 1 < omega_next radius n pass (st_omega st) < 2).
Proof.
  unfold sor_pass.
  destruct (Rltb 1 _) eqn:H1; [destruct (Rltb _ 2) eqn:H2|]; cbn [andb].
  - apply Rltb_true in H1, H2. split.
    + intros st' [= <-]. simpl. auto.
    + split; [discriminate|]. intros H. exfalso. apply H. auto.
  - apply Rltb_false in H2. split; [discriminate|].
    split; [intros _ [_ H]; contradiction | reflexivity].
  - apply Rltb_false in H1. split; [discriminate|].
    split; [intros _ [H _]; contradiction | reflexivity].
Qed.

(** A pass of [psi_sor_vare_poisson] makes no assertion and keeps
    [omega]. *)
Lemma vare_pass_omega (comm : comm_t) (obj : psi_t)
    (fepsilon rho_elec : fields) (pass : Z) (st : sor_state) :
  exists st', vare_pass comm obj fepsilon rho_elec pass st = Some st' /\
              st_omega st' = st_omega st /\
              st_rnorm st' = st_rnorm st /\ st_log st' = st_log st.
Proof. eexists. split; [reflexivity|]. simpl. auto. Qed.

(** The relaxation parameter after a trip of [psi_sor_poisson]. *)
Lemma sor_iteration_omega (comm : comm_t) (obj : psi_t) (rho_elec : fields)
    (rnl0 : nat -> R) (radius : R) (its n : Z) (st : sor_state) :
  let omega1 := omega_next radius n 0 (st_omega st) in
  let omega2 := omega_next radius n 1 omega1 in
  (sor_iteration comm obj rho_elec rnl0 radius its n st = AssertFails <->
   ~ (1 < omega1 < 2 /\ 1 < omega2 < 2)) /\
  outcome_holds (fun st' => st_omega st' = omega2 /\ 1 < omega2 < 2)
    (sor_iteration comm obj rho_elec rnl0 radius its n st).
Proof.
  intros omega1 omega2. unfold sor_iteration. rewrite for_pass_unfold.
  destruct (sor_pass_omega comm obj rho_elec radius n 0 (reset_rnorm_local1 st))
    as [Hs0 Hn0].
  cbn [reset_rnorm_local1 st_omega] in Hs0, Hn0. fold omega1 in Hs0, Hn0.
  destruct (sor_pass _ _ _ _ n 0%Z _) as [st1|].
  - destruct (Hs0 st1 eq_refl) as (E1 & B1 & _). rewrite E1 in B1.
    destruct (sor_pass_omega comm obj rho_elec radius n 1 st1) as [Hs1 Hn1].
    rewrite E1 in Hs1, Hn1. fold omega2 in Hs1, Hn1.
    destruct (sor_pass _ _ _ _ n 1%Z st1) as [st2|].
    + destruct (Hs1 st2 eq_refl) as (E2 & B2 & _). rewrite E2 in B2.
      destruct (Z.rem n ncheck_poisson =? 0)%Z.
      * pose proof (sor_check_state comm obj rnl0 its n st2) as Hc.
        pose proof (sor_check_break comm obj rnl0 its n st2) as Hne.
        cbv zeta in Hne. destruct Hne as (_ & _ & Hne & _).
        destruct (sor_check comm obj rnl0 its n st2) as [f|e s|s]; simpl in *.
        -- split; [|exact I]. split; [intros H; contradiction|].
           intros H. exfalso. apply H. auto.
        -- destruct Hc as (_ & -> & _). rewrite E2.
           split; [|auto]. split; [discriminate|]. intros H. exfalso. apply H. auto.
        -- destruct (sor_exceeded_state obj n s) as (_ & -> & _).
           destruct Hc as (_ & -> & _). rewrite E2.
           split; [|auto]. split; [discriminate|]. intros H. exfalso. apply H. auto.
      * simpl. destruct (sor_exceeded_state obj n st2) as (_ & -> & _).
        rewrite E2. split; [|auto]. split; [discriminate|]. intros H. exfalso. apply H. auto.
    + simpl. split; [|exact I]. split; [intros _|reflexivity].
      intros [_ H]. destruct Hn1 as [Hn1 _]. now apply (Hn1 eq_refl).
  - simpl. split; [|exact I]. split; [intros _|reflexivity].
    intros [H _]. destruct Hn0 as [Hn0 _]. now apply (Hn0 eq_refl).
Qed.

(** [psi_sor_vare_poisson] recomputes [omega] once per trip and asserts
    nothing about it. *)
Lemma vare_iteration_omega (comm : comm_t) (obj : psi_t)
    (fepsilon rho_elec : fields) (rnl0 : nat -> R) (radius : R) (its n : Z)
    (st : sor_state) :
  vare_iteration comm obj fepsilon rho_elec rnl0 radius its n st
  <> AssertFails /\
  outcome_holds
    (fun st' => st_omega st' = vare_omega_next radius (st_omega st))
    (vare_iteration comm obj fepsilon rho_elec rnl0 radius its n st).
Proof.
  unfold vare_iteration. rewrite for_pass_unfold.
  destruct (vare_pass_omega comm obj fepsilon rho_elec 0
              (reset_rnorm_local1 st)) as (st1 & -> & E1 & _).
  destruct (vare_pass_omega comm obj fepsilon rho_elec 1 st1)
    as (st2 & -> & E2 & _).
  assert (E : st_omega (vare_recompute radius st2)
              = vare_omega_next radius (st_omega st)).
  { simpl. now rewrite E2, E1. }
  destruct (Z.rem n ncheck_vare =? 0)%Z.
  - pose proof (vare_check_state comm obj rnl0 its n
                  (vare_recompute radius st2)) as Hc.
    pose proof (vare_check_break comm obj rnl0 its n
                  (vare_recompute radius st2)) as Hne.
    cbv zeta in Hne. destruct Hne as (_ & _ & Hne & _).
    split; [exact Hne|].
    destruct (vare_check _ _ _ _ _ _); simpl in *; [exact I| |];
      destruct Hc as (_ & -> & _); exact E.
  - split; [discriminate|exact E].
Qed.

(** States met along the loop satisfy every invariant of its body. *)
Lemma reaches_invariant (body : Z -> sor_state -> outcome)
    (P : sor_state -> Prop) (n k : Z) (st stk : sor_state) :
  (forall n st, P st -> outcome_holds P (body n st)) ->
  P st -> reaches body n st k stk -> P stk.
Proof.
  intros Hbody HP. induction 1 as [|k s s' Hr IH Hc]; [assumption|].
  specialize (Hbody k s IH). rewrite Hc in Hbody. exact Hbody.
Qed.

(** The loop fails exactly when some trip, reached without leaving the
    loop earlier, fails, and it fails in the same way. *)
Lemma sor_loop_fails (body : Z -> sor_state -> outcome) (count : nat)
    (f : failure) :
  forall n st,
    sor_loop body count n st = Failed f <->
    exists k stk, reaches body n st k stk /\
                  (n <= k < n + Z.of_nat count)%Z /\
                  body k stk = Fails f.
Proof.
  induction count as [|count IH]; intros n st.
  - simpl. split; [discriminate|]. intros (k & stk & _ & Hk & _). lia.
  - cbn [sor_loop]. destruct (body n st) as [f1|e1 st1|st1] eqn:Hb.
    + split.
      * intros [= ->]. exists n, st.
        split; [constructor|]. split; [lia|assumption].
      * intros (k & stk & Hr & Hk & Hbk).
        destruct (reaches_head _ _ _ _ _ Hr) as [[-> ->]|(s1 & Hc & _)];
          congruence.
    + split; [discriminate|].
      intros (k & stk & Hr & Hk & Hbk).
      destruct (reaches_head _ _ _ _ _ Hr) as [[-> ->]|(s1 & Hc & _)];
        congruence.
    + rewrite IH. split.
      * intros (k & stk & Hr & Hk & Hbk). exists k, stk.
        split; [now apply reaches_cons with (st1 := st1)|].
        split; [lia|assumption].
      * intros (k & stk & Hr & Hk & Hbk).
        destruct (reaches_head _ _ _ _ _ Hr) as [[-> ->]|(s1 & Hc & Hr1)];
          [congruence|].
        rewrite Hb in Hc. injection Hc as <-.
        exists k, stk. split; [assumption|]. split; [|assumption].
        apply reaches_le in Hr1. lia.
Qed.

(** With a radius as in [radius_of_square], no trip of [psi_sor_poisson]
    fails and [omega] stays within its bounds. *)
Lemma sor_iteration_admissible (comm : comm_t) (obj : psi_t)
    (rho_elec : fields) (rnl0 : nat -> R) (radius : R) (its n : Z)
    (st : sor_state) :
  0 < radius * radius < 1 -> 1 <= st_omega st < 2 ->
  sor_iteration comm obj rho_elec rnl0 radius its n st <> AssertFails /\
  outcome_holds (fun st' => 1 < st_omega st' < 2)
    (sor_iteration comm obj rho_elec rnl0 radius its n st).
Proof.
  intros Hr Ho.
  pose proof (sor_iteration_omega comm obj rho_elec rnl0 radius its n st)
    as H.
  cbv zeta in H. destruct H as [Hfail Hout].
  pose proof (omega_next_bounds radius n 0 (st_omega st) Hr Ho) as B1.
  pose proof (omega_next_bounds radius n 1 _ Hr
                (conj (Rlt_le _ _ (proj1 B1)) (proj2 B1))) as B2.
  split.
  - intros E. apply Hfail in E. apply E. auto.
  - destruct (sor_iteration _ _ _ _ _ _ _ _); simpl in *; auto;
      destruct Hout as [-> ?]; assumption.
Qed.

Lemma vare_iteration_admissible (comm : comm_t) (obj : psi_t)
    (fepsilon rho_elec : fields) (rnl0 : nat -> R) (radius : R) (its n : Z)
    (st : sor_state) :
  0 < radius * radius < 1 -> 1 <= st_omega st < 2 ->
  outcome_holds (fun st' => 1 < st_omega st' < 2)
    (vare_iteration comm obj fepsilon rho_elec rnl0 radius its n st).
Proof.
  intros Hr Ho.
  destruct (vare_iteration_omega comm obj fepsilon rho_elec rnl0 radius its n st)
    as [_ Hout].
  pose proof (vare_omega_next_bounds radius (st_omega st) Hr Ho) as B.
  destruct (vare_iteration _ _ _ _ _ _ _ _ _); simpl in *; auto;
    rewrite Hout; assumption.
Qed.

(** The ways in which a trip can fail: an assertion on [omega], in
    [psi_sor_poisson] only, and in both solvers the remainder by a zero
    [nfreq] at a check whose tolerance is met. *)
Lemma sor_iteration_fails (comm : comm_t) (obj : psi_t) (rho_elec : fields)
    (rnl0 : nat -> R) (radius : R) (its n : Z) (st : sor_state) (f : failure) :
  sor_iteration comm obj rho_elec rnl0 radius its n st = Fails f ->
  f = FailedAssertion \/
  (f = DivisionByZero /\ psi_nfreq obj = 0%Z /\ Z.rem n ncheck_poisson = 0%Z).
Proof.
  unfold sor_iteration.
  destruct (for_pass _ _) as [st2|]; [|intros [= <-]; now left].
  destruct (Z.eqb_spec (Z.rem n ncheck_poisson) 0) as [Hn|Hn];
    [|discriminate].
  destruct (sor_check_break comm obj rnl0 its n st2) as (_ & _ & _ & Hf).
  destruct (sor_check comm obj rnl0 its n st2) as [f1|e s|s];
    [|discriminate|discriminate].
  intros [= <-]. right. destruct (proj1 (Hf f1) eq_refl) as (-> & Hz & _).
  auto.
Qed.

Lemma vare_iteration_fails (comm : comm_t) (obj : psi_t)
    (fepsilon rho_elec : fields) (rnl0 : nat -> R) (radius : R) (its n : Z)
    (st : sor_state) (f : failure) :
  vare_iteration comm obj fepsilon rho_elec rnl0 radius its n st = Fails f ->
  f = DivisionByZero /\ psi_nfreq obj = 0%Z.
Proof.
  unfold vare_iteration. rewrite for_pass_unfold.
  unfold vare_pass.
  destruct (Z.rem n ncheck_vare =? 0)%Z; [|discriminate].
  match goal with |- vare_check ?c ?o ?r ?i ?k ?s = _ -> _ =>
    destruct (vare_check_break c o r i k s) as (_ & _ & _ & Hf)
  end.
  intros H. apply Hf in H. tauto.
Qed.

(** Past the assertions at its entry, [psi_sor_vare_poisson] returns,
    provided its reads stay inside the array and [nfreq] is not zero. *)
Lemma psi_sor_vare_poisson_returns (comm : comm_t) (obj : psi_t)
    (fepsilon rho_elec psi0 : fields) (its : Z) :
  nlocal_even (psi_cs obj) = true ->
  stencil_in_bounds (psi_cs obj) = true ->
  psi_nfreq obj <> 0%Z ->
  exists e st,
    psi_sor_vare_poisson comm obj fepsilon rho_elec psi0 its = Returned e st.
Proof.
  intros Heven Hin Hfreq. unfold psi_sor_vare_poisson.
  rewrite Heven, Hin. cbn [negb].
  match goal with |- context [sor_loop ?b ?c ?n0 ?s0] =>
    assert (Hinv : forall k s, True -> outcome_holds (fun _ => True) (b k s))
      by (intros k s _; destruct (b k s); exact I);
    assert (Hok : forall f k s, True -> b k s <> Fails f)
      by (intros f k s _ H; apply vare_iteration_fails in H; tauto);
    pose proof (fun f => sor_loop_no_failure b (fun _ => True) f (Hok f) Hinv
                           c n0 s0 I) as H;
    destruct (sor_loop b c n0 s0) as [f|e st]
  end.
  - now contradiction (H f).
  - eauto.
Qed.

(** So does [psi_sor_poisson] when the larger of the extents along X and
    Z is an integer of at least 2. *)
Lemma psi_sor_poisson_returns (comm : comm_t) (obj : psi_t)
    (rho_elec psi0 : fields) (its : Z) (m : Z) :
  (1 <= nhalo (psi_cs obj))%Z -> nlocal_even (psi_cs obj) = true ->
  (2 <= m)%Z ->
  dmax (ltotX (psi_cs obj)) (ltotZ (psi_cs obj)) = IZR m ->
  psi_nfreq obj <> 0%Z ->
  exists e st,
    psi_sor_poisson comm obj rho_elec psi0 its = Returned e st /\
    1 <= st_omega st < 2.
Proof.
  intros Hh Heven Hm HL Hfreq. unfold psi_sor_poisson.
  apply Z.leb_le in Hh. rewrite Hh, Heven. cbn [negb].
  pose proof (radius_of_square (psi_cs obj) m Hm HL) as Hr.
  set (P := fun st => 1 <= st_omega st < 2).
  match goal with |- context [sor_loop ?b ?c ?n0 ?s0] =>
    assert (Hinv : forall k s, P s -> outcome_holds P (b k s));
    [| assert (Hok : forall f k s, P s -> b k s <> Fails f);
       [| pose proof (fun f => sor_loop_no_failure b P f (Hok f) Hinv c n0 s0)
            as Hnf;
          pose proof (sor_loop_invariant b P Hinv c n0 s0) as Hres;
          destruct (sor_loop b c n0 s0) as [f|e st] ] ]
  end.
  - intros k s Hs.
    destruct (sor_iteration_admissible comm obj rho_elec
                (fun p => rnorm_local0 obj (rho_elec p) (psi0 p))
                (radius_of (psi_cs obj)) its k s Hr Hs) as [_ H].
    destruct (sor_iteration _ _ _ _ _ _ _ _); simpl in *; auto;
      unfold P; lra.
  - intros f k s Hs H.
    destruct (sor_iteration_admissible comm obj rho_elec
                (fun p => rnorm_local0 obj (rho_elec p) (psi0 p))
                (radius_of (psi_cs obj)) its k s Hr Hs) as [Hna _].
    destruct (sor_iteration_fails _ _ _ _ _ _ _ _ _ H) as [->|(_ & Hz & _)];
      [now apply Hna | contradiction].
  - exfalso. apply (Hnf f); [|reflexivity]. unfold P. simpl. lra.
  - exists e, st. split; [reflexivity|]. apply Hres. unfold P. simpl. lra.
Qed.

(** The state a trip of [psi_sor_poisson] hands on: the one after the two
    passes, up to [rnorm] and the log. *)
Lemma sor_iteration_state (comm : comm_t) (obj : psi_t) (rho_elec : fields)
    (rnl0 : nat -> R) (radius : R) (its n : Z) (st : sor_state) :
  outcome_holds
    (fun st' => exists st2,
       for_pass (sor_pass comm obj rho_elec radius n) (reset_rnorm_local1 st)
       = Some st2 /\
       st_psi st' = st_psi st2 /\ st_omega st' = st_omega st2 /\
       st_rnorm_local1 st' = st_rnorm_local1 st2)
    (sor_iteration comm obj rho_elec rnl0 radius its n st).
Proof.
  unfold sor_iteration.
  destruct (for_pass _ _) as [st2|]; [|exact I].
  destruct (Z.rem n ncheck_poisson =? 0)%Z.
  - pose proof (sor_check_state comm obj rnl0 its n st2) as Hc.
    destruct (sor_check comm obj rnl0 its n st2) as [|e s|s]; simpl in *.
    + exact I.
    + exists st2. tauto.
    + exists st2. destruct (sor_exceeded_state obj n s) as (-> & -> & -> & _).
      tauto.
  - simpl. exists st2.
    destruct (sor_exceeded_state obj n st2) as (-> & -> & -> & _). auto.
Qed.

Lemma vare_iteration_state (comm : comm_t) (obj : psi_t)
    (fepsilon rho_elec : fields) (rnl0 : nat -> R) (radius : R) (its n : Z)
    (st : sor_state) :
  outcome_holds
    (fun st' => exists st2,
       for_pass (vare_pass comm obj fepsilon rho_elec) (reset_rnorm_local1 st)
       = Some st2 /\
       st_psi st' = st_psi st2 /\
       st_omega st' = vare_omega_next radius (st_omega st2) /\
       st_rnorm_local1 st' = st_rnorm_local1 st2)
    (vare_iteration comm obj fepsilon rho_elec rnl0 radius its n st).
Proof.
  unfold vare_iteration.
  destruct (for_pass _ _) as [st2|]; [|exact I].
  destruct (Z.rem n ncheck_vare =? 0)%Z.
  - pose proof (vare_check_state comm obj rnl0 its n
                  (vare_recompute radius st2)) as Hc.
    destruct (vare_check _ _ _ _ _ _) as [|e s|s]; simpl in *.
    + exact I.
    + exists st2. tauto.
    + exists st2. tauto.
  - simpl. exists st2. auto.
Qed.

(** A run of [psi_sor_poisson] that returns having converged holds the
    reduced norms, the second below a tolerance. *)
Lemma psi_sor_poisson_converged (comm : comm_t) (obj : psi_t)
    (rho_elec psi0 : fields) (its : Z) (e : sor_exit) (st : sor_state) :
  psi_sor_poisson comm obj rho_elec psi0 its = Returned e st ->
  e <> MaxIterationsReached ->
  st_rnorm st
  = (mpi_allreduce_sum comm
       (fun p => rnorm_local0 obj (rho_elec p) (psi0 p)),
     mpi_allreduce_sum comm (st_rnorm_local1 st)) /\
  (snd (st_rnorm st) < psi_abstol obj \/
   snd (st_rnorm st) < psi_reltol obj * fst (st_rnorm st)).
Proof.
  intros Hrun He. unfold psi_sor_poisson in Hrun.
  destruct (negb _); [discriminate|]. destruct (negb _); [discriminate|].
  apply (conj Hrun) in He. apply sor_loop_break in He.
  + destruct He as (k & stk & _ & _ & Hb).
    apply sor_iteration_break in Hb. destruct Hb as (st2 & _ & _ & Hc).
    pose proof (sor_check_break comm obj
                  (fun p => rnorm_local0 obj (rho_elec p) (psi0 p))
                  its k st2) as Hck.
    cbv zeta in Hck. destruct Hck as (Hbrk & Hiff & _).
    destruct (Hbrk e st Hc) as (_ & Hr & Hl & _).
    rewrite Hr, Hl. split; [reflexivity|]. cbn [fst snd].
    apply Hiff. eauto.
  + intros k s s' Hb. apply sor_iteration_break in Hb.
    destruct Hb as (st2 & _ & _ & Hc).
    pose proof (sor_check_break comm obj
                  (fun p => rnorm_local0 obj (rho_elec p) (psi0 p))
                  its k st2) as Hck.
    cbv zeta in Hck. destruct Hck as (Hbrk & _).
    now destruct (Hbrk _ _ Hc).
Qed.

Lemma psi_sor_vare_poisson_converged (comm : comm_t) (obj : psi_t)
    (fepsilon rho_elec psi0 : fields) (its : Z) (e : sor_exit)
    (st : sor_state) :
  psi_sor_vare_poisson comm obj fepsilon rho_elec psi0 its = Returned e st ->
  e <> MaxIterationsReached ->
  st_rnorm st
  = (mpi_allreduce_sum comm
       (fun p => vare_rnorm_local0 obj (fepsilon p) (rho_elec p) (psi0 p)),
     mpi_allreduce_sum comm (st_rnorm_local1 st)) /\
  (snd (st_rnorm st) < psi_abstol obj \/
   snd (st_rnorm st) < psi_reltol obj * fst (st_rnorm st)).
Proof.
  intros Hrun He. unfold psi_sor_vare_poisson in Hrun.
  destruct (negb _); [discriminate|].
  destruct (negb _); [discriminate|].
  apply (conj Hrun) in He. apply sor_loop_break in He.
  + destruct He as (k & stk & _ & _ & Hb).
    apply vare_iteration_break in Hb. destruct Hb as (st2 & _ & _ & Hc).
    pose proof (vare_check_break comm obj
                  (fun p => vare_rnorm_local0 obj (fepsilon p) (rho_elec p)
                              (psi0 p))
                  its k (vare_recompute (radius_of (psi_cs obj)) st2)) as Hck.
    cbv zeta in Hck. destruct Hck as (Hbrk & Hiff & _).
    destruct (Hbrk e st Hc) as (_ & Hr & Hl & _).
    rewrite Hr, Hl. split; [reflexivity|]. cbn [fst snd].
    apply Hiff. eauto.
  + intros k s s' Hb. apply vare_iteration_break in Hb.
    destruct Hb as (st2 & _ & _ & Hc).
    pose proof (vare_check_break comm obj
                  (fun p => vare_rnorm_local0 obj (fepsilon p) (rho_elec p)
                              (psi0 p))
                  its k (vare_recompute (radius_of (psi_cs obj)) st2)) as Hck.
    cbv zeta in Hck. destruct Hck as (Hbrk & _).
    now destruct (Hbrk _ _ Hc).
Qed.

(** A trip leaves the loop exactly at a residual check that succeeds,
    [nfreq] not being zero; with [nfreq] zero it traps there instead. *)
Lemma sor_iteration_leaves (comm : comm_t) (obj : psi_t) (rho_elec : fields)
    (rnl0 : nat -> R) (radius : R) (its n : Z) (st st2 : sor_state) :
  for_pass (sor_pass comm obj rho_elec radius n) (reset_rnorm_local1 st)
  = Some st2 ->
  let met :=
    Z.rem n 5 = 0%Z /\
    (mpi_allreduce_sum comm (st_rnorm_local1 st2) < psi_abstol obj \/
     mpi_allreduce_sum comm (st_rnorm_local1 st2)
     < psi_reltol obj * mpi_allreduce_sum comm rnl0) in
  ((exists e st',
      sor_iteration comm obj rho_elec rnl0 radius its n st = Break e st')
   <-> met /\ psi_nfreq obj <> 0%Z) /\
  (sor_iteration comm obj rho_elec rnl0 radius its n st = Fails DivisionByZero
   <-> met /\ psi_nfreq obj = 0%Z).
Proof.
  intros Hpass met. subst met.
  pose proof (sor_check_break comm obj rnl0 its n st2) as Hck.
  cbv zeta in Hck. destruct Hck as (_ & Hiff & _ & Hf).
  split.
  - split.
    + intros (e & st' & Hb). apply sor_iteration_break in Hb.
      destruct Hb as (s & Hs & Hn & Hc). rewrite Hpass in Hs.
      injection Hs as <-.
      destruct (proj1 Hiff) as [Ht Hz]; [eauto|]. auto.
    + intros ((Hn & Ht) & Hz).
      destruct (proj2 Hiff (conj Ht Hz)) as (e & st' & Hc).
      exists e, st'. apply sor_iteration_break. exists st2. auto.
  - unfold sor_iteration. rewrite Hpass.
    change ncheck_poisson with 5%Z.
    destruct (Z.eqb_spec (Z.rem n 5) 0) as [Hn|Hn].
    + specialize (Hf DivisionByZero).
      destruct (sor_check comm obj rnl0 its n st2) as [f|e s|s].
      * rewrite Hf. intuition congruence.
      * split; [discriminate|]. intros ((_ & Ht) & Hz).
        assert (H : Break e s = Fails DivisionByZero) by (apply Hf; auto).
        discriminate.
      * split; [discriminate|]. intros ((_ & Ht) & Hz).
        assert (H : Continue s = Fails DivisionByZero) by (apply Hf; auto).
        discriminate.
    + split; [discriminate|]. intros ((H & _) & _). contradiction.
Qed.

Lemma vare_iteration_leaves (comm : comm_t) (obj : psi_t)
    (fepsilon rho_elec : fields) (rnl0 : nat -> R) (radius : R) (its n : Z)
    (st st2 : sor_state) :
  for_pass (vare_pass comm obj fepsilon rho_elec) (reset_rnorm_local1 st)
  = Some st2 ->
  let met :=
    Z.rem n 1 = 0%Z /\
    (mpi_allreduce_sum comm (st_rnorm_local1 st2) < psi_abstol obj \/
     mpi_allreduce_sum comm (st_rnorm_local1 st2)
     < psi_reltol obj * mpi_allreduce_sum comm rnl0) in
  ((exists e st',
      vare_iteration comm obj fepsilon rho_elec rnl0 radius its n st
      = Break e st')
   <-> met /\ psi_nfreq obj <> 0%Z) /\
  (vare_iteration comm obj fepsilon rho_elec rnl0 radius its n st
   = Fails DivisionByZero
   <-> met /\ psi_nfreq obj = 0%Z).
Proof.
  intros Hpass met. subst met.
  pose proof (vare_check_break comm obj rnl0 its n
                (vare_recompute radius st2)) as Hck.
  cbv zeta in Hck. destruct Hck as (_ & Hiff & _ & Hf).
  change (st_rnorm_local1 (vare_recompute radius st2))
    with (st_rnorm_local1 st2) in Hiff, Hf.
  split.
  - split.
    + intros (e & st' & Hb). apply vare_iteration_break in Hb.
      destruct Hb as (s & Hs & Hn & Hc). rewrite Hpass in Hs.
      injection Hs as <-.
      destruct (proj1 Hiff) as [Ht Hz]; [eauto|]. auto.
    + intros ((Hn & Ht) & Hz).
      destruct (proj2 Hiff (conj Ht Hz)) as (e & st' & Hc).
      exists e, st'. apply vare_iteration_break. exists st2. auto.
  - unfold vare_iteration. rewrite Hpass.
    change ncheck_vare with 1%Z.
    destruct (Z.eqb_spec (Z.rem n 1) 0) as [Hn|Hn].
    + rewrite (Hf DivisionByZero). intuition congruence.
    + split; [discriminate|]. intros ((H & _) & _). contradiction.
Qed.

(** ** A system at rest *)

Lemma sum_over_zero (A : Type) (f : A -> R) (l : list A) :
  (forall a, In a l -> f a = 0) -> sum_over f l = 0.
Proof.
  induction l as [|a l IH]; intros H; simpl; [reflexivity|].
  rewrite H by now left. rewrite IH; [lra|]. intros b Hb. apply H. now right.
Qed.

(** With no charge and a vanishing potential a pass changes nothing. *)
Lemma half_sweep_rest (obj : psi_t) (omega : R) (pass : Z)
    (rho_elec psi : field) (rn : R) :
  (0 <= pass)%Z -> (1 <= nhalo (psi_cs obj))%Z ->
  (forall a, psi a = 0) -> (forall a, rho_elec a = 0) ->
  (forall a, fst (half_sweep obj omega pass rho_elec (psi, rn)) a = 0) /\
  snd (half_sweep obj omega pass rho_elec (psi, rn)) = rn.
Proof.
  intros Hp Hh Hpsi Hrho.
  assert (Hres : forall a, residual_at obj rho_elec psi a = 0).
  { intros a. unfold residual_at, dpsi. rewrite !Hpsi, Hrho. ring. }
  destruct (half_sweep_simultaneous obj omega pass rho_elec psi rn Hp Hh)
    as (Hin & Hout & Hsum).
  split.
  - intros a.
    destruct (in_dec Z.eq_dec a
                (map (index_of (psi_cs obj)) (pass_coords (psi_cs obj) pass)))
      as [Ha|Ha].
    + rewrite in_map_iff in Ha. destruct Ha as (c & <- & Hc).
      rewrite (Hin c Hc), Hres, Hpsi. unfold Rdiv. ring.
    + rewrite (Hout a Ha). apply Hpsi.
  - rewrite Hsum, sum_over_zero; [lra|].
    intros c _. rewrite Hres. apply Rabs_R0.
Qed.

Lemma sor_pass_some (comm : comm_t) (obj : psi_t) (rho_elec : fields)
    (radius : R) (n pass : Z) (st : sor_state) :
  1 < omega_next radius n pass (st_omega st) < 2 ->
  sor_pass comm obj rho_elec radius n pass st
  = Some (sor_halo comm
            (set_omega (omega_next radius n pass (st_omega st))
                       (sor_sweep obj rho_elec pass st))).
Proof.
  intros [H1 H2]. unfold sor_pass. cbn [sor_sweep st_omega].
  apply Rltb_true in H1, H2. now rewrite H1, H2.
Qed.

Lemma sor_check_abs (comm : comm_t) (obj : psi_t) (rnl0 : nat -> R)
    (its n : Z) (st : sor_state) :
  psi_nfreq obj <> 0%Z ->
  mpi_allreduce_sum comm (st_rnorm_local1 st) < psi_abstol obj ->
  exists st', sor_check comm obj rnl0 its n st = Break ConvergedAbsolute st'.
Proof.
  intros Hz H. unfold sor_check, report_and_break. cbn [snd].
  apply Rltb_true in H. rewrite H.
  destruct (Z.eqb_spec (psi_nfreq obj) 0); [contradiction|]. eauto.
Qed.

Lemma dmax_small : dmax (ltotX cs_small) (ltotZ cs_small) = IZR 2.
Proof. unfold dmax, cs_small, ltotX, ltotZ. simpl. apply Rmax_left. lra. Qed.

(** On the small system at rest [psi_sor_poisson] converges at the first
    residual check. *)
Lemma psi_sor_poisson_rest :
  exists st,
    psi_sor_poisson comm_small (obj_small 0 1 1) (uniform_fields 0)
      (uniform_fields 0) 0
    = Returned ConvergedAbsolute st.
Proof.
  pose proof (radius_of_square cs_small 2 ltac:(lia) dmax_small) as Hr.
  set (obj := obj_small 0 1 1).
  set (r := radius_of cs_small) in *.
  set (rho := uniform_fields 0).
  pose proof (omega_next_bounds r 0 0 1 Hr ltac:(lra)) as B1.
  pose proof (omega_next_bounds r 0 1 _ Hr
                (conj (Rlt_le _ _ (proj1 B1)) (proj2 B1))) as B2.
  set (st0 := reset_rnorm_local1 (sor_initial rho)).
  set (st1 := sor_halo comm_small
                (set_omega (omega_next r 0 0 1) (sor_sweep obj rho 0 st0))).
  set (st2 := sor_halo comm_small
                (set_omega (omega_next r 0 1 (omega_next r 0 0 1))
                           (sor_sweep obj rho 1 st1))).
  assert (Hpass : for_pass (sor_pass comm_small obj rho r 0) st0 = Some st2).
  { rewrite for_pass_unfold.
    rewrite (sor_pass_some comm_small obj rho r 0 0 st0 B1). fold st1.
    apply (sor_pass_some comm_small obj rho r 0 1 st1 B2). }
  assert (Hnorm : mpi_allreduce_sum comm_small (st_rnorm_local1 st2) = 0).
  { destruct (half_sweep_rest obj 1 0 (rho 0%nat) (rho 0%nat) 0
                ltac:(lia) ltac:(simpl; lia)
                ltac:(reflexivity) ltac:(reflexivity)) as [Hz0 Hs0].
    destruct (half_sweep_rest obj (omega_next r 0 0 1) 1 (rho 0%nat)
                (st_psi st1 0%nat) (st_rnorm_local1 st1 0%nat)
                ltac:(lia) ltac:(simpl; lia) Hz0 ltac:(reflexivity))
      as [_ Hs1].
    unfold mpi_allreduce_sum. cbn [comm_small nranks sum_ranks].
    change (st_rnorm_local1 st2 0%nat)
      with (snd (half_sweep obj (omega_next r 0 0 1) 1 (rho 0%nat)
                   (st_psi st1 0%nat, st_rnorm_local1 st1 0%nat))).
    rewrite Hs1.
    change (st_rnorm_local1 st1 0%nat)
      with (snd (half_sweep obj 1 0 (rho 0%nat) (rho 0%nat, 0))).
    rewrite Hs0. lra. }
  destruct (sor_check_abs comm_small obj
              (fun p => rnorm_local0 obj (rho p) (rho p)) 0 0 st2)
    as [st' Hc].
  { discriminate. }
  { rewrite Hnorm. simpl. lra. }
  exists st'.
  apply (sor_loop_break
           (sor_iteration comm_small obj rho
              (fun p => rnorm_local0 obj (rho p) (rho p)) r 0) 1 0
           (sor_initial rho) ConvergedAbsolute st').
  - intros k s s' Hb. apply sor_iteration_break in Hb.
    destruct Hb as (s2 & _ & _ & Hb).
    pose proof (sor_check_break comm_small obj
                  (fun p => rnorm_local0 obj (rho p) (rho p)) 0 k s2) as Hck.
    cbv zeta in Hck. destruct Hck as (Hbrk & _).
    now destruct (Hbrk _ _ Hb).
  - exists 0%Z, (sor_initial rho). split; [constructor|]. split; [lia|].
    apply sor_iteration_break. exists st2. auto.
Qed.


(** ** The operators at a site *)

Lemma neighbour_addresses (cs : cs_t) (ic jc kc : Z) :
  index_of cs (ic + 1, jc, kc)%Z = (cs_index cs ic jc kc + xs cs)%Z /\
  index_of cs (ic - 1, jc, kc)%Z = (cs_index cs ic jc kc - xs cs)%Z /\
  index_of cs (ic, jc + 1, kc)%Z = (cs_index cs ic jc kc + ys cs)%Z /\
  index_of cs (ic, jc - 1, kc)%Z = (cs_index cs ic jc kc - ys cs)%Z /\
  index_of cs (ic, jc, kc + 1)%Z = (cs_index cs ic jc kc + zs cs)%Z /\
  index_of cs (ic, jc, kc - 1)%Z = (cs_index cs ic jc kc - zs cs)%Z.
Proof. unfold index_of, cs_index. repeat split; ring. Qed.

(** [dpsi] is the 6-point Laplacian at the site. *)
Lemma dpsi_laplacian6 (cs : cs_t) (psi : field) (c : coord) :
  dpsi cs psi (index_of cs c) = laplacian6 cs psi c.
Proof.
  destruct c as [[ic jc] kc].
  destruct (neighbour_addresses cs ic jc kc) as (E1 & E2 & E3 & E4 & E5 & E6).
  unfold laplacian6, neighbours, sum_over, at_site, dpsi, addr_rank0.
  cbn [fold_right]. rewrite E1, E2, E3, E4, E5, E6.
  unfold index_of. ring.
Qed.

Lemma residual_at_poisson (obj : psi_t) (rho_elec psi : field) (c : coord) :
  residual_at obj rho_elec psi (index_of (psi_cs obj) c)
  = poisson_residual obj rho_elec psi c.
Proof.
  unfold residual_at, poisson_residual. now rewrite dpsi_laplacian6.
Qed.

(** [depsi] is the operator with the gradient of the permittivity. *)
Lemma vare_depsi_gradient_form (cs : cs_t) (fepsilon psi : field) (c : coord) :
  vare_depsi cs fepsilon psi (index_of cs c) = gradient_form cs fepsilon psi c.
Proof.
  destruct c as [[ic jc] kc].
  destruct (neighbour_addresses cs ic jc kc) as (E1 & E2 & E3 & E4 & E5 & E6).
  unfold gradient_form, laplacian6, neighbours, sum_over, at_site, vare_depsi,
    addr_rank0.
  cbn [fold_right]. rewrite E1, E2, E3, E4, E5, E6.
  unfold index_of. cbv zeta. field.
Qed.

(** The two operators differ by the products of the second differences
    of the permittivity with the first differences of the potential. *)
Lemma flux_conservative_gradient_form (cs : cs_t) (fepsilon psi : field)
    (c : coord) :
  flux_conservative cs fepsilon psi c
  = gradient_form cs fepsilon psi c
    + sum_over (fun c' => (1/2) * (at_site cs fepsilon c'
                                   - at_site cs fepsilon c)
                          * (at_site cs psi c' - at_site cs psi c))
               (neighbours c)
    - (gradient_form cs fepsilon psi c
       - at_site cs fepsilon c * laplacian6 cs psi c).
Proof.
  destruct c as [[ic jc] kc].
  unfold flux_conservative, gradient_form, laplacian6, neighbours, sum_over.
  cbn [fold_right]. field.
Qed.

(** They agree where the permittivity takes one value. *)
Lemma flux_conservative_constant (cs : cs_t) (fepsilon psi : field)
    (c : coord) (eps : R) :
  (forall a, fepsilon a = eps) ->
  flux_conservative cs fepsilon psi c = gradient_form cs fepsilon psi c /\
  gradient_form cs fepsilon psi c = eps * laplacian6 cs psi c.
Proof.
  intros H. destruct c as [[ic jc] kc].
  unfold flux_conservative, gradient_form, laplacian6, neighbours, sum_over,
    at_site.
  cbn [fold_right]. rewrite !H. split; field.
Qed.

(** The sweep of [psi_sor_vare_poisson] updates every site of the pass with
    the operator in gradient form and the permittivity of the site. *)
Lemma vare_update_gradient_form (obj : psi_t) (omega : R) (pass : Z)
    (fepsilon rho_elec psi : field) (rn : R) (c : coord) :
  (0 <= pass)%Z -> (1 <= nhalo (psi_cs obj))%Z ->
  In c (pass_coords (psi_cs obj) pass) ->
  at_site (psi_cs obj)
    (fst (vare_half_sweep obj omega pass fepsilon rho_elec (psi, rn))) c
  = at_site (psi_cs obj) psi c
    - omega * (gradient_form (psi_cs obj) fepsilon psi c
               + psi_unit_charge obj * psi_beta obj
                 * at_site (psi_cs obj) rho_elec c)
      / (-6 * at_site (psi_cs obj) fepsilon c).
Proof.
  intros Hp Hh Hc. unfold at_site.
  destruct (vare_half_sweep_simultaneous obj omega pass fepsilon rho_elec psi
              rn Hp Hh) as (Hin & _).
  rewrite (Hin c Hc). unfold vare_residual_at.
  now rewrite vare_depsi_gradient_form.
Qed.

(** C3, as the code has it.  The value [depsi] computed by
    [psi_sor_vare_poisson] at a site is the permittivity of the site times
    the 6-point Laplacian plus, for each axis, a quarter of the product of
    the central differences of the permittivity and of the potential; this
    is the flux-conservative form with face coefficients averaged from the
    two adjacent centres when the callback returns one constant.  The
    relaxation update of a site divides by [-6] times the permittivity of
    that site. *)
Theorem C3_vare_operator (obj : psi_t) (fepsilon rho_elec psi : field) :
  (forall c,
     vare_depsi (psi_cs obj) fepsilon psi (index_of (psi_cs obj) c)
     = gradient_form (psi_cs obj) fepsilon psi c) /\
  (forall eps c,
     (forall a, fepsilon a = eps) ->
     vare_depsi (psi_cs obj) fepsilon psi (index_of (psi_cs obj) c)
     = flux_conservative (psi_cs obj) fepsilon psi c) /\
  (forall omega rn index,
     vare_site obj omega fepsilon rho_elec (psi, rn) index
     = (upd psi index
          (psi index
           - omega * (vare_depsi (psi_cs obj) fepsilon psi index
                      + psi_unit_charge obj * psi_beta obj * rho_elec index)
             / (-6 * fepsilon index)),
        rn + Rabs (vare_depsi (psi_cs obj) fepsilon psi index
                   + psi_unit_charge obj * psi_beta obj * rho_elec index))) /\
  (forall omega pass rn c,
     (pass = 0 \/ pass = 1)%Z -> (1 <= nhalo (psi_cs obj))%Z ->
     In c (pass_coords (psi_cs obj) pass) ->
     at_site (psi_cs obj)
       (fst (vare_half_sweep obj omega pass fepsilon rho_elec (psi, rn))) c
     = at_site (psi_cs obj) psi c
       - omega * (gradient_form (psi_cs obj) fepsilon psi c
                  + psi_unit_charge obj * psi_beta obj
                    * at_site (psi_cs obj) rho_elec c)
         / (-6 * at_site (psi_cs obj) fepsilon c)).
Proof.
  split; [|split; [|split]].
  - intros c. apply vare_depsi_gradient_form.
  - intros eps c H. rewrite vare_depsi_gradient_form.
    symmetry. now apply (flux_conservative_constant _ _ _ _ eps).
  - intros omega rn index. reflexivity.
  - intros omega pass rn c Hp Hh Hc.
    apply vare_update_gradient_form; [lia|assumption|assumption].
Qed.

Lemma C3_vare_operator_witness :
  vare_depsi cs_small (uniform_fields 1 0%nat) psi_step
    (index_of cs_small (1, 1, 1)%Z)
  = flux_conservative cs_small (uniform_fields 1 0%nat) psi_step (1, 1, 1)%Z.
Proof.
  destruct (C3_vare_operator (obj_small 0 0 1) (uniform_fields 1 0%nat)
              (uniform_fields 0 0%nat) psi_step) as (_ & Hconst & _).
  apply (Hconst 1 (1, 1, 1)%Z). reflexivity.
Defined.

(** C3 as specified fails where the permittivity varies: at the
    site (1,1,1) of the small system, next to the step. *)
Lemma C3_vare_operator_counterexample :
  vare_depsi cs_small fepsilon_step psi_step (index_of cs_small (1, 1, 1)%Z)
  = 3 / 2 /\
  flux_conservative cs_small fepsilon_step psi_step (1, 1, 1)%Z = 2 /\
  ~ (forall (cs : cs_t) (fepsilon psi : field) (c : coord),
       interior cs c ->
       vare_depsi cs fepsilon psi (index_of cs c)
       = flux_conservative cs fepsilon psi c).
Proof.
  assert (E1 : vare_depsi cs_small fepsilon_step psi_step
                 (index_of cs_small (1, 1, 1)%Z) = 3 / 2).
  { eval_sites. lra. }
  assert (E2 : flux_conservative cs_small fepsilon_step psi_step (1, 1, 1)%Z
               = 2).
  { eval_sites. lra. }
  split; [exact E1|]. split; [exact E2|].
  intros H.
  specialize (H cs_small fepsilon_step psi_step (1, 1, 1)%Z).
  rewrite E1, E2 in H.
  assert (3 / 2 = 2)
    by (apply H; unfold interior, nlocalX, nlocalY, nlocalZ; simpl; lia).
  lra.
Qed.

(** ** The schedule of the relaxation parameter *)

(** C4, as the code has it.  The radius is
    [1 - (pi^2/2) / max(Lx, Lz)^2] and [omega] starts at 1 in both
    solvers.  In [psi_sor_poisson] every pass that goes on recomputes
    [omega]: with [1/(1 - radius^2/2)] after the first pass of the first
    trip, with [1/(1 - radius^2*omega/4)] after every other pass.  In
    [psi_sor_vare_poisson] a pass leaves [omega] as it is, and a trip
    recomputes it once, after its two passes, always with
    [1/(1 - radius^2*omega/4)]. *)
Theorem C4_relaxation_schedule (comm : comm_t) (obj : psi_t)
    (fepsilon rho_elec : fields) (rnl0 : nat -> R) (its : Z) :
  radius_of (psi_cs obj)
  = 1 - (PI ^ 2 / 2)
        / (Rmax (ltotX (psi_cs obj)) (ltotZ (psi_cs obj))) ^ 2 /\
  (forall psi0, st_omega (sor_initial psi0) = 1) /\
  (forall radius n pass st st',
     sor_pass comm obj rho_elec radius n pass st = Some st' ->
     (n = 0%Z /\ pass = 0%Z -> st_omega st' = 1 / (1 - radius ^ 2 / 2)) /\
     (~ (n = 0%Z /\ pass = 0%Z) ->
      st_omega st' = 1 / (1 - radius ^ 2 * st_omega st / 4))) /\
  (forall pass st st',
     vare_pass comm obj fepsilon rho_elec pass st = Some st' ->
     st_omega st' = st_omega st) /\
  (forall radius n st,
     outcome_holds
       (fun st' => st_omega st' = 1 / (1 - radius ^ 2 * st_omega st / 4))
       (vare_iteration comm obj fepsilon rho_elec rnl0 radius its n st)).
Proof.
  split; [apply radius_of_PI|]. split; [reflexivity|].
  split; [|split].
  - intros radius n pass st st' H.
    destruct (sor_pass_omega comm obj rho_elec radius n pass st) as [Hs _].
    destruct (Hs st' H) as (-> & _). unfold omega_next. split.
    + intros [-> ->]. cbn [Z.eqb andb]. f_equal. field.
    + intros Hn.
      destruct (Z.eqb_spec n 0), (Z.eqb_spec pass 0); cbn [andb];
        try (exfalso; apply Hn; auto; fail); f_equal; field.
  - intros pass st st' [= <-]. reflexivity.
  - intros radius n st.
    destruct (vare_iteration_omega comm obj fepsilon rho_elec rnl0 radius its
                n st) as [_ H].
    destruct (vare_iteration _ _ _ _ _ _ _ _ _); simpl in *; auto;
      rewrite H; unfold vare_omega_next; f_equal; field.
Qed.

Lemma C4_relaxation_schedule_witness :
  exists st',
    sor_pass comm_small (obj_small 0 0 1) (uniform_fields 0)
      (radius_of cs_small) 0 0 (sor_initial (uniform_fields 0)) = Some st' /\
    st_omega st' = 1 / (1 - radius_of cs_small ^ 2 / 2).
Proof.
  pose proof (radius_of_square cs_small 2 ltac:(lia) dmax_small) as Hr.
  pose proof (omega_next_bounds (radius_of cs_small) 0 0 1 Hr ltac:(lra)) as B.
  eexists. split.
  - apply (sor_pass_some comm_small (obj_small 0 0 1) (uniform_fields 0)
             (radius_of cs_small) 0 0 (sor_initial (uniform_fields 0)) B).
  - destruct (C4_relaxation_schedule comm_small (obj_small 0 0 1)
                (uniform_fields 1) (uniform_fields 0) (fun _ => 0) 0)
      as (_ & _ & Hpass & _).
    eapply Hpass.
    + apply (sor_pass_some comm_small (obj_small 0 0 1) (uniform_fields 0)
               (radius_of cs_small) 0 0 (sor_initial (uniform_fields 0)) B).
    + auto.
Defined.

(** The first pass of the first trip of [psi_sor_vare_poisson] on the small
    system leaves [omega] at 1. *)
Lemma vare_first_pass_omega :
  exists st',
    vare_pass comm_small (obj_small 0 0 1) (uniform_fields 1)
      (uniform_fields 0) 0 (sor_initial (uniform_fields 0)) = Some st' /\
    st_omega st' = 1 /\
    st_omega st' <> 1 / (1 - radius_of cs_small ^ 2 / 2).
Proof.
  eexists. split; [reflexivity|]. split; [reflexivity|].
  pose proof (radius_of_square cs_small 2 ltac:(lia) dmax_small) as Hr.
  assert (B : 1 < 1 / (1 - radius_of cs_small ^ 2 / 2) < 2)
    by (apply inv_between; nra).
  cbn [st_omega sor_halo vare_sweep sor_initial]. lra.
Qed.

(** C4 as specified fails for [psi_sor_vare_poisson]: the first
    pass of the first trip leaves [omega] at 1, which is not the value of
    the seed formula. *)
Lemma C4_relaxation_schedule_counterexample :
  (exists st',
     vare_pass comm_small (obj_small 0 0 1) (uniform_fields 1)
       (uniform_fields 0) 0 (sor_initial (uniform_fields 0)) = Some st' /\
     st_omega st' = 1 /\
     st_omega st' <> 1 / (1 - radius_of cs_small ^ 2 / 2)) /\
  ~ (forall (comm : comm_t) (obj : psi_t) (fepsilon rho_elec : fields)
            (n pass : Z) (st st' : sor_state),
       vare_pass comm obj fepsilon rho_elec pass st = Some st' ->
       st_omega st'
       = omega_next (radius_of (psi_cs obj)) n pass (st_omega st)).
Proof.
  split; [exact vare_first_pass_omega|].
  intros H. destruct vare_first_pass_omega as (st' & Hpass & _ & Hne).
  apply Hne. rewrite (H _ _ _ _ 0%Z _ _ _ Hpass).
  unfold omega_next. cbn [Z.eqb andb psi_cs obj_small]. f_equal. field.
Qed.

(** ** The bounds of the relaxation parameter *)

Lemma psi_sor_vare_poisson_omega (comm : comm_t) (obj : psi_t)
    (fepsilon rho_elec psi0 : fields) (its : Z) (m : Z) :
  (2 <= m)%Z ->
  dmax (ltotX (psi_cs obj)) (ltotZ (psi_cs obj)) = IZR m ->
  result_holds (fun st => 1 <= st_omega st < 2)
    (psi_sor_vare_poisson comm obj fepsilon rho_elec psi0 its).
Proof.
  intros Hm HL. unfold psi_sor_vare_poisson.
  destruct (negb _); [exact I|]. destruct (negb _); [exact I|].
  pose proof (radius_of_square (psi_cs obj) m Hm HL) as Hr.
  apply sor_loop_invariant.
  - intros k s Hs.
    pose proof (vare_iteration_admissible comm obj fepsilon rho_elec
                  (fun p => vare_rnorm_local0 obj (fepsilon p) (rho_elec p)
                              (psi0 p))
                  (radius_of (psi_cs obj)) its k s Hr Hs) as H.
    destruct (vare_iteration _ _ _ _ _ _ _ _ _); simpl in *; auto; lra.
  - simpl. lra.
Qed.






(** ** The assertions at the entry of the solvers *)





(** ** The initial norm of the residual *)

Lemma fold_left_sum (A : Type) (f : A -> R) (l : list A) (a : R) :
  fold_left (fun acc c => acc + f c) l a = a + sum_over f l.
Proof.
  revert a. induction l as [|c l IH]; intros a; simpl; [lra|].
  rewrite IH. lra.
Qed.

Lemma sum_over_Permutation (A : Type) (f : A -> R) (l l' : list A) :
  Permutation l l' -> sum_over f l = sum_over f l'.
Proof.
  induction 1 as [| c l l' _ IH | c c' l | l l' l'' _ IH1 _ IH2]; simpl.
  - reflexivity.
  - now rewrite IH.
  - lra.
  - now rewrite IH1.
Qed.

(** The loop adds the absolute residuals of the owned sites, whatever the
    order in which they are listed. *)
Lemma rnorm_local0_sum (obj : psi_t) (rho_elec psi : field) (l : list coord) :
  NoDup l -> (forall c, In c l <-> interior (psi_cs obj) c) ->
  rnorm_local0 obj rho_elec psi
  = sum_over (fun c => Rabs (poisson_residual obj rho_elec psi c)) l.
Proof.
  intros Hnd Hin. unfold rnorm_local0.
  rewrite (fold_left_sum _
             (fun c => Rabs (residual_at obj rho_elec psi
                               (index_of (psi_cs obj) c)))).
  rewrite Rplus_0_l.
  rewrite (sum_over_Permutation _ _ (all_coords (psi_cs obj)) l).
  - induction l as [|c l' IH]; simpl; [reflexivity|].
    clear IH. f_equal.
    + now rewrite residual_at_poisson.
    + clear. induction l' as [|c' l' IH]; simpl; [reflexivity|].
      now rewrite residual_at_poisson, IH.
  - apply NoDup_Permutation; [apply all_coords_NoDup | assumption |].
    intros c. rewrite all_coords_In. symmetry. apply Hin.
Qed.

Lemma for_pass_sor_rnorm (comm : comm_t) (obj : psi_t) (rho_elec : fields)
    (radius : R) (n : Z) (st st2 : sor_state) :
  for_pass (sor_pass comm obj rho_elec radius n) st = Some st2 ->
  st_rnorm st2 = st_rnorm st /\ st_log st2 = st_log st.
Proof.
  rewrite for_pass_unfold.
  destruct (sor_pass comm obj rho_elec radius n 0 st) as [st1|] eqn:H1;
    [|discriminate].
  intros H2.
  destruct (sor_pass_omega comm obj rho_elec radius n 0 st) as [Hs1 _].
  destruct (sor_pass_omega comm obj rho_elec radius n 1 st1) as [Hs2 _].
  destruct (Hs1 st1 H1) as (_ & _ & E1 & L1).
  destruct (Hs2 st2 H2) as (_ & _ & E2 & L2).
  split; congruence.
Qed.

(** [rnorm[0]] holds the reduced initial norm from the first residual
    check on. *)
Lemma sor_iteration_rnorm0 (comm : comm_t) (obj : psi_t) (rho_elec : fields)
    (rnl0 : nat -> R) (radius : R) (its n : Z) (st : sor_state) :
  outcome_holds
    (fun st' =>
       (Z.rem n ncheck_poisson = 0%Z \/
        fst (st_rnorm st) = mpi_allreduce_sum comm rnl0) ->
       fst (st_rnorm st') = mpi_allreduce_sum comm rnl0)
    (sor_iteration comm obj rho_elec rnl0 radius its n st).
Proof.
  unfold sor_iteration.
  destruct (for_pass _ _) as [st2|] eqn:Hp; [|exact I].
  apply for_pass_sor_rnorm in Hp. destruct Hp as [Hr _].
  cbn [reset_rnorm_local1 st_rnorm] in Hr.
  destruct (Z.eqb_spec (Z.rem n ncheck_poisson) 0) as [Hn|Hn].
  - pose proof (sor_check_state comm obj rnl0 its n st2) as Hc.
    destruct (sor_check comm obj rnl0 its n st2) as [|e s|s]; simpl in *.
    + exact I.
    + intros _. destruct Hc as (_ & _ & _ & ->). reflexivity.
    + intros _. destruct (sor_exceeded_state obj n s) as (_ & _ & _ & ->).
      destruct Hc as (_ & _ & _ & ->). reflexivity.
  - simpl. intros [H|H]; [contradiction|].
    destruct (sor_exceeded_state obj n st2) as (_ & _ & _ & ->).
    now rewrite Hr.
Qed.

Lemma psi_sor_poisson_rnorm0 (comm : comm_t) (obj : psi_t)
    (rho_elec psi0 : fields) (its : Z) :
  (1 <= psi_maxits obj)%Z ->
  result_holds
    (fun st => fst (st_rnorm st)
               = mpi_allreduce_sum comm
                   (fun p => rnorm_local0 obj (rho_elec p) (psi0 p)))
    (psi_sor_poisson comm obj rho_elec psi0 its).
Proof.
  intros Hm. unfold psi_sor_poisson.
  destruct (negb _); [exact I|]. destruct (negb _); [exact I|].
  destruct (Z.to_nat (psi_maxits obj)) as [|count] eqn:Hc; [lia|].
  cbn [sor_loop].
  set (rnl0 := fun p => rnorm_local0 obj (rho_elec p) (psi0 p)).
  set (body := sor_iteration comm obj rho_elec rnl0 (radius_of (psi_cs obj))
                 its).
  assert (Hinv : forall k s,
             fst (st_rnorm s) = mpi_allreduce_sum comm rnl0 ->
             outcome_holds
               (fun s' => fst (st_rnorm s') = mpi_allreduce_sum comm rnl0)
               (body k s)).
  { intros k s Hs.
    pose proof (sor_iteration_rnorm0 comm obj rho_elec rnl0
                  (radius_of (psi_cs obj)) its k s) as H.
    fold body in H. destruct (body k s); simpl in *; auto. }
  pose proof (sor_iteration_rnorm0 comm obj rho_elec rnl0
                (radius_of (psi_cs obj)) its 0 (sor_initial psi0)) as H0.
  fold body in H0.
  destruct (body 0%Z (sor_initial psi0)) as [|e s|s]; simpl in *.
  - exact I.
  - apply H0. left. reflexivity.
  - apply sor_loop_invariant; [exact Hinv|]. apply H0. left. reflexivity.
Qed.



(** ** A constant permittivity *)

Lemma fold_left_ext (A B : Type) (f g : A -> B -> A) (l : list B) (a : A) :
  (forall x b, f x b = g x b) -> fold_left f l a = fold_left g l a.
Proof.
  intros H. revert a. induction l as [|b l IH]; intros a; simpl;
    [reflexivity|].
  now rewrite H, IH.
Qed.

Lemma vare_residual_at_constant (obj : psi_t) (fepsilon rho_elec psi : field)
    (index : Z) :
  (forall a, fepsilon a = psi_epsilon obj) ->
  vare_residual_at obj fepsilon rho_elec psi index
  = residual_at obj rho_elec psi index.
Proof.
  intros H. unfold vare_residual_at, residual_at, vare_depsi, dpsi.
  rewrite !H. cbv zeta. ring.
Qed.

Lemma vare_site_constant (obj : psi_t) (omega : R)
    (fepsilon rho_elec : field) (acc : field * R) (index : Z) :
  (forall a, fepsilon a = psi_epsilon obj) ->
  vare_site obj omega fepsilon rho_elec acc index
  = sor_site obj omega rho_elec acc index.
Proof.
  intros H. destruct acc as [psi rn]. unfold vare_site, sor_site.
  rewrite vare_residual_at_constant by assumption. now rewrite H.
Qed.

Lemma vare_half_sweep_constant (obj : psi_t) (omega : R) (pass : Z)
    (fepsilon rho_elec : field) (acc : field * R) :
  (forall a, fepsilon a = psi_epsilon obj) ->
  vare_half_sweep obj omega pass fepsilon rho_elec acc
  = half_sweep obj omega pass rho_elec acc.
Proof.
  intros H. unfold vare_half_sweep, half_sweep. apply fold_left_ext.
  intros x c. now apply vare_site_constant.
Qed.

Lemma vare_rnorm_local0_constant (obj : psi_t) (fepsilon rho_elec psi : field) :
  (forall a, fepsilon a = psi_epsilon obj) ->
  vare_rnorm_local0 obj fepsilon rho_elec psi = rnorm_local0 obj rho_elec psi.
Proof.
  intros H. unfold vare_rnorm_local0, rnorm_local0. apply fold_left_ext.
  intros x c. now rewrite vare_residual_at_constant.
Qed.



(** ** The two solvers on the small system with a uniform charge *)

Lemma interiorb_spec (cs : cs_t) (c : coord) :
  interiorb cs c = true <-> interior cs c.
Proof.
  destruct c as [[ic jc] kc]. unfold interiorb, interior.
  rewrite !andb_true_iff, !Z.leb_le. tauto.
Qed.

Lemma in_pass_spec (cs : cs_t) (pass : Z) (c : coord) :
  (0 <= pass)%Z ->
  (in_pass cs pass c = true <-> In c (pass_coords cs pass)).
Proof.
  intros Hp. unfold in_pass.
  rewrite andb_true_iff, interiorb_spec, Z.eqb_eq, pass_coords_In by assumption.
  tauto.
Qed.

(** The potential after a pass, at a site of the allocated box. *)
Lemma half_sweep_at (obj : psi_t) (omega : R) (pass : Z)
    (rho_elec psi : field) (rn : R) (c : coord) :
  (0 <= pass)%Z -> (1 <= nhalo (psi_cs obj))%Z ->
  allocated (psi_cs obj) c ->
  at_site (psi_cs obj) (fst (half_sweep obj omega pass rho_elec (psi, rn))) c
  = if in_pass (psi_cs obj) pass c
    then at_site (psi_cs obj) psi c
         - omega * poisson_residual obj rho_elec psi c
           / (-6 * psi_epsilon obj)
    else at_site (psi_cs obj) psi c.
Proof.
  intros Hp Hh Hc. unfold at_site.
  destruct (half_sweep_simultaneous obj omega pass rho_elec psi rn Hp Hh)
    as (Hin & Hout & _).
  destruct (in_pass (psi_cs obj) pass c) eqn:Hb.
  - apply in_pass_spec in Hb; [|assumption].
    rewrite (Hin c Hb). now rewrite residual_at_poisson.
  - apply Hout. intros Hm. rewrite in_map_iff in Hm.
    destruct Hm as (c' & E & Hc').
    assert (c' = c).
    { apply (cs_index_inj (psi_cs obj)); [|assumption|assumption].
      apply interior_allocated; [lia|].
      apply pass_coords_In in Hc'; tauto. }
    subst c'. apply in_pass_spec in Hc'; [congruence|assumption].
Qed.

Lemma radius_of_small : -1 < radius_of cs_small < -1/8.
Proof.
  rewrite radius_of_PI.
  replace (Rmax (ltotX cs_small) (ltotZ cs_small)) with 2
    by (unfold cs_small, ltotX, ltotZ; simpl; symmetry; apply Rmax_left; lra).
  pose proof PI_lt_4. pose proof PI_gt_3.
  replace (PI ^ 2 / 2 / 2 ^ 2) with (PI * PI / 8) by field.
  split; nra.
Qed.

(** After the first pass with [omega = 1] the potential is 1/6 on the
    sites of the pass and 0 elsewhere. *)
Lemma small_first_pass (reltol abstol : R) (maxits : Z) (rn : R) (c : coord) :
  allocated cs_small c ->
  at_site cs_small
    (fst (half_sweep (obj_small reltol abstol maxits) 1 0
            (uniform_fields 1 0%nat) (uniform_fields 0 0%nat, rn))) c
  = if in_pass cs_small 0 c then 1 / 6 else 0.
Proof.
  intros Hc.
  pose proof (half_sweep_at (obj_small reltol abstol maxits) 1 0
                (uniform_fields 1 0%nat) (uniform_fields 0 0%nat) rn c
                ltac:(lia) ltac:(simpl; lia) Hc) as H.
  change (psi_cs (obj_small reltol abstol maxits)) with cs_small in H.
  rewrite H. clear H.
  destruct (in_pass cs_small 0 c); [|reflexivity].
  destruct c as [[ic jc] kc].
  unfold poisson_residual, laplacian6, neighbours, sum_over, at_site,
    uniform_fields.
  cbn [fold_right psi_epsilon psi_unit_charge psi_beta obj_small]. field.
Qed.

(** After a second pass made with [omega] the potential at the site
    (1,1,2) is [omega / 4]. *)
Lemma small_second_pass (reltol abstol : R) (maxits : Z) (omega rn0 rn1 : R) :
  at_site cs_small
    (fst (half_sweep (obj_small reltol abstol maxits) omega 1
            (uniform_fields 1 0%nat)
            (fst (half_sweep (obj_small reltol abstol maxits) 1 0
                    (uniform_fields 1 0%nat) (uniform_fields 0 0%nat, rn0)),
             rn1)))
    (1, 1, 2)%Z
  = omega / 4.
Proof.
  set (obj := obj_small reltol abstol maxits).
  set (psiA := fst (half_sweep obj 1 0 (uniform_fields 1 0%nat)
                      (uniform_fields 0 0%nat, rn0))).
  pose proof (half_sweep_at obj omega 1 (uniform_fields 1 0%nat) psiA rn1
                (1, 1, 2)%Z ltac:(lia) ltac:(simpl; lia) ltac:(in_box)) as H.
  change (psi_cs obj) with cs_small in H. rewrite H. clear H.
  change (in_pass cs_small 1 (1, 1, 2)%Z) with true. cbv iota.
  unfold poisson_residual, laplacian6, neighbours, sum_over.
  cbn [fold_right]. change (psi_cs obj) with cs_small.
  unfold psiA, obj.
  rewrite !small_first_pass by in_box.
  vm_compute in_pass.
  unfold at_site, uniform_fields.
  cbn [psi_epsilon psi_unit_charge psi_beta obj_small]. field.
Qed.



(** ** Leaving the loop at the iteration limit *)

(** The loop runs out of trips exactly when every trip goes on. *)
Lemma sor_loop_exhausts (body : Z -> sor_state -> outcome) (count : nat) :
  forall n st st',
    (forall k s s', body k s <> Break MaxIterationsReached s') ->
    (sor_loop body count n st = Returned MaxIterationsReached st' <->
     reaches body n st (n + Z.of_nat count) st').
Proof.
  intros n st st' Hbody. revert n st.
  induction count as [|count IH]; intros n st.
  - cbn [sor_loop]. replace (n + Z.of_nat 0)%Z with n by lia. split.
    + intros [= <-]. constructor.
    + intros Hr.
      destruct (reaches_head _ _ _ _ _ Hr) as [[_ ->]|(s1 & _ & Hr1)];
        [reflexivity|].
      apply reaches_le in Hr1. lia.
  - cbn [sor_loop].
    replace (n + Z.of_nat (S count))%Z with (n + 1 + Z.of_nat count)%Z by lia.
    destruct (body n st) as [|e1 st1|st1] eqn:Hb.
    + split; [discriminate|]. intros Hr.
      destruct (reaches_head _ _ _ _ _ Hr) as [[E _]|(s1 & Hc & _)];
        [lia|congruence].
    + split.
      * intros [= -> ->]. exfalso. now apply (Hbody n st st').
      * intros Hr.
        destruct (reaches_head _ _ _ _ _ Hr) as [[E _]|(s1 & Hc & _)];
          [lia|congruence].
    + rewrite IH. split.
      * intros Hr. now apply reaches_cons with (st1 := st1).
      * intros Hr.
        destruct (reaches_head _ _ _ _ _ Hr) as [[E _]|(s1 & Hc & Hr1)];
          [lia|].
        rewrite Hb in Hc. now injection Hc as <-.
Qed.

Lemma reaches_last (body : Z -> sor_state -> outcome) (n k : Z)
    (st st' : sor_state) :
  reaches body n st k st' -> (n < k)%Z ->
  exists s, reaches body n st (k - 1) s /\ body (k - 1)%Z s = Continue st'.
Proof.
  intros Hr Hk. destruct Hr as [|k s s' Hr Hc]; [lia|].
  exists s. replace (k + 1 - 1)%Z with k by lia. auto.
Qed.

Lemma sor_iteration_no_max (comm : comm_t) (obj : psi_t) (rho_elec : fields)
    (rnl0 : nat -> R) (radius : R) (its : Z) (k : Z) (s s' : sor_state) :
  sor_iteration comm obj rho_elec rnl0 radius its k s
  <> Break MaxIterationsReached s'.
Proof.
  intros Hb. apply sor_iteration_break in Hb.
  destruct Hb as (s2 & _ & _ & Hc).
  pose proof (sor_check_break comm obj rnl0 its k s2) as Hck.
  cbv zeta in Hck. destruct Hck as (Hbrk & _).
  now destruct (Hbrk _ _ Hc).
Qed.

Lemma vare_iteration_no_max (comm : comm_t) (obj : psi_t)
    (fepsilon rho_elec : fields) (rnl0 : nat -> R) (radius : R) (its : Z)
    (k : Z) (s s' : sor_state) :
  vare_iteration comm obj fepsilon rho_elec rnl0 radius its k s
  <> Break MaxIterationsReached s'.
Proof.
  intros Hb. apply vare_iteration_break in Hb.
  destruct Hb as (s2 & _ & _ & Hc).
  pose proof (vare_check_break comm obj rnl0 its k
                (vare_recompute radius s2)) as Hck.
  cbv zeta in Hck. destruct Hck as (Hbrk & _).
  now destruct (Hbrk _ _ Hc).
Qed.

(** A trip of [psi_sor_poisson] that goes on keeps the potential of its
    second pass and, when it is the last one allowed, reports [rnorm]. *)
Lemma sor_iteration_continue (comm : comm_t) (obj : psi_t) (rho_elec : fields)
    (rnl0 : nat -> R) (radius : R) (its n : Z) (st st' : sor_state) :
  sor_iteration comm obj rho_elec rnl0 radius its n st = Continue st' ->
  exists st2,
    for_pass (sor_pass comm obj rho_elec radius n) (reset_rnorm_local1 st)
    = Some st2 /\
    st_psi st' = st_psi st2 /\
    st_log st'
    = st_log st
      ++ (if (n =? psi_maxits obj - 1)%Z
          then [info_exceeded (n + 1) (fst (st_rnorm st'))
                  (snd (st_rnorm st'))]
          else []).
Proof.
  unfold sor_iteration.
  destruct (for_pass _ _) as [st2|] eqn:Hp; [|discriminate].
  pose proof (for_pass_sor_rnorm _ _ _ _ _ _ _ Hp) as [_ Hlog].
  cbn [reset_rnorm_local1 st_log] in Hlog.
  assert (Hex : forall s,
             st_psi (sor_exceeded obj n s) = st_psi s /\
             st_log (sor_exceeded obj n s)
             = st_log s
               ++ (if (n =? psi_maxits obj - 1)%Z
                   then [info_exceeded (n + 1)
                           (fst (st_rnorm (sor_exceeded obj n s)))
                           (snd (st_rnorm (sor_exceeded obj n s)))]
                   else [])).
  { intros s. unfold sor_exceeded, log_if.
    destruct (n =? psi_maxits obj - 1)%Z; simpl; [auto|].
    now rewrite app_nil_r. }
  destruct (Z.rem n ncheck_poisson =? 0)%Z.
  - destruct (sor_check comm obj rnl0 its n st2) as [|e s|s] eqn:Hc;
      try discriminate.
    intros [= <-]. exists st2. split; [reflexivity|].
    destruct (Hex s) as [-> ->].
    assert (Hs : st_psi s = st_psi st2 /\ st_log s = st_log st2).
    { revert Hc. unfold sor_check, report_and_break, log_if.
      repeat match goal with
             | |- context [if ?b then _ else _] => destruct b
             end; intros [= <-]; simpl; auto. }
    destruct Hs as [-> ->]. now rewrite Hlog.
  - intros [= <-]. exists st2. split; [reflexivity|].
    destruct (Hex st2) as [-> ->]. now rewrite Hlog.
Qed.

Lemma for_pass_vare_some (comm : comm_t) (obj : psi_t)
    (fepsilon rho_elec : fields) (st : sor_state) :
  exists st2,
    for_pass (vare_pass comm obj fepsilon rho_elec) st = Some st2 /\
    st_rnorm st2 = st_rnorm st /\ st_log st2 = st_log st.
Proof. eexists. split; [reflexivity|]. simpl. auto. Qed.

Lemma vare_iteration_continue (comm : comm_t) (obj : psi_t)
    (fepsilon rho_elec : fields) (rnl0 : nat -> R) (radius : R) (its n : Z)
    (st st' : sor_state) :
  vare_iteration comm obj fepsilon rho_elec rnl0 radius its n st
  = Continue st' ->
  exists st2,
    for_pass (vare_pass comm obj fepsilon rho_elec) (reset_rnorm_local1 st)
    = Some st2 /\
    st_psi st' = st_psi st2 /\
    st_log st'
    = st_log st
      ++ (if (n =? psi_maxits obj - 1)%Z
          then [info_vare_exceeded (n + 1) (fst (st_rnorm st'))
                  (snd (st_rnorm st'))]
          else []).
Proof.
  unfold vare_iteration.
  destruct (for_pass_vare_some comm obj fepsilon rho_elec
              (reset_rnorm_local1 st)) as (st2 & Hp & _ & Hlog).
  rewrite Hp. cbn [reset_rnorm_local1 st_log] in Hlog.
  replace (Z.rem n ncheck_vare =? 0)%Z with true
    by (symmetry; apply Z.eqb_eq, Z.rem_1_r).
  unfold vare_check, report_and_break, vare_exceeded, log_if.
  repeat match goal with
         | |- context [if ?b then _ else _] => destruct b
         end; intros [= <-]; exists st2; simpl;
    rewrite ?app_nil_r, Hlog; auto.
Qed.

(** The last trip allowed goes on: the run leaves the loop at the limit. *)
Lemma sor_loop_limit (body : Z -> sor_state -> outcome) (maxits : Z)
    (st0 s st : sor_state) :
  (forall k s1 s2, body k s1 <> Break MaxIterationsReached s2) ->
  reaches body 0 st0 (maxits - 1) s ->
  body (maxits - 1)%Z s = Continue st ->
  sor_loop body (Z.to_nat maxits) 0 st0 = Returned MaxIterationsReached st.
Proof.
  intros Hbody Hr Hc. pose proof (reaches_le _ _ _ _ _ Hr) as Hle.
  apply sor_loop_exhausts; [exact Hbody|].
  rewrite Z2Nat.id by lia. cbn [Z.add].
  replace maxits with (maxits - 1 + 1)%Z at 1 by lia.
  now apply reaches_next with (st' := s).
Qed.


Lemma reaches_same (body : Z -> sor_state -> outcome) (n : Z)
    (st s : sor_state) :
  reaches body n st n s -> s = st.
Proof.
  intros Hr. destruct (reaches_head _ _ _ _ _ Hr) as [[_ ->]|(s1 & _ & Hr1)];
    [reflexivity|].
  apply reaches_le in Hr1. lia.
Qed.

(** The accumulated norm only grows along a pass. *)
Lemma half_sweep_norm_le (obj : psi_t) (omega : R) (pass : Z)
    (rho_elec psi : field) (rn : R) :
  rn <= snd (half_sweep obj omega pass rho_elec (psi, rn)).
Proof.
  unfold half_sweep. generalize (pass_coords (psi_cs obj) pass) as l.
  intros l. revert psi rn.
  induction l as [|c l IH]; intros psi rn; simpl; [lra|].
  eapply Rle_trans; [|apply IH].
  pose proof (Rabs_pos (residual_at obj rho_elec psi (index_of (psi_cs obj) c))).
  lra.
Qed.

Lemma sum_over_ext (A : Type) (f g : A -> R) (l : list A) :
  (forall a, f a = g a) -> sum_over f l = sum_over g l.
Proof.
  intros H. induction l as [|a l IH]; simpl; [reflexivity|].
  now rewrite H, IH.
Qed.

(** On the small system with a uniform charge and a potential at rest,
    the first pass accumulates a norm of 4. *)
Lemma small_first_pass_norm (reltol abstol : R) (maxits : Z) :
  snd (half_sweep (obj_small reltol abstol maxits) 1 0
         (uniform_fields 1 0%nat) (uniform_fields 0 0%nat, 0)) = 4.
Proof.
  destruct (half_sweep_simultaneous (obj_small reltol abstol maxits) 1 0
              (uniform_fields 1 0%nat) (uniform_fields 0 0%nat) 0
              ltac:(lia) ltac:(simpl; lia)) as (_ & _ & ->).
  rewrite (sum_over_ext _ _ (fun _ => 1)).
  - change (pass_coords (psi_cs (obj_small reltol abstol maxits)) 0)
      with [(1, 1, 1); (1, 2, 2); (2, 1, 2); (2, 2, 1)]%Z.
    simpl. lra.
  - intros c. unfold residual_at, dpsi, uniform_fields.
    cbn [psi_epsilon psi_unit_charge psi_beta obj_small].
    replace (1 * (0 + 0 + 0 + 0 + 0 + 0 - 6 * 0) + 1 * 1 * 1) with 1 by ring.
    apply Rabs_R1.
Qed.

(** With a limit of one iteration and tolerances it cannot meet,
    [psi_sor_poisson] leaves its loop at the limit. *)
Lemma psi_sor_poisson_small_limit :
  exists st,
    psi_sor_poisson comm_small (obj_small 0 (1/1000) 1) (uniform_fields 1)
      (uniform_fields 0) 0
    = Returned MaxIterationsReached st.
Proof.
  set (obj := obj_small 0 (1/1000) 1).
  set (rho := uniform_fields 1). set (psi0 := uniform_fields 0).
  pose proof (radius_of_square cs_small 2 ltac:(lia) dmax_small) as Hr.
  set (r := radius_of cs_small) in *.
  pose proof (omega_next_bounds r 0 0 1 Hr ltac:(lra)) as B1.
  pose proof (omega_next_bounds r 0 1 _ Hr
                (conj (Rlt_le _ _ (proj1 B1)) (proj2 B1))) as B2.
  set (omega1 := omega_next r 0 0 1) in *.
  destruct (psi_sor_poisson_returns comm_small obj rho psi0 0 2
              ltac:(simpl; lia) eq_refl ltac:(lia) dmax_small
              ltac:(discriminate))
    as (e & st & Hrun & _).
  exists st. rewrite Hrun. f_equal.
  destruct e; try reflexivity; exfalso;
    (destruct (psi_sor_poisson_converged comm_small obj rho psi0 0 _ st Hrun
                 ltac:(discriminate)) as (Hnorm & Hlt);
     rewrite Hnorm in Hlt; cbn [fst snd] in Hlt).
  all: assert (Hge : 4 <= mpi_allreduce_sum comm_small (st_rnorm_local1 st));
    [|cbn [psi_abstol psi_reltol obj obj_small] in Hlt; lra].
  all: unfold mpi_allreduce_sum; cbn [comm_small nranks sum_ranks];
    rewrite Rplus_0_l.
  all: unfold psi_sor_poisson in Hrun;
    change (negb (1 <=? nhalo (psi_cs obj))%Z) with false in Hrun;
    change (negb (nlocal_even (psi_cs obj))) with false in Hrun;
    cbv iota in Hrun;
    change (Z.to_nat (psi_maxits obj)) with 1%nat in Hrun;
    cbn [sor_loop] in Hrun.
  all: match type of Hrun with
    | context [sor_iteration ?c ?o ?rh ?rn ?rad ?i ?n ?s] =>
        pose proof (sor_iteration_state c o rh rn rad i n s) as Hst;
        destruct (sor_iteration c o rh rn rad i n s) as [|e1 s1|s1]
    end; try discriminate; injection Hrun as _ <-;
      cbn [outcome_holds] in Hst;
      destruct Hst as (s2 & Hpass & _ & _ & ->);
      rewrite for_pass_unfold in Hpass;
      change (radius_of (psi_cs obj)) with r in Hpass;
      rewrite (sor_pass_some comm_small obj rho r 0 0
                 (reset_rnorm_local1 (sor_initial psi0)) B1) in Hpass;
      change (omega_next r 0 0
                (st_omega (reset_rnorm_local1 (sor_initial psi0))))
        with omega1 in Hpass;
      rewrite (sor_pass_some comm_small obj rho r 0 1
                 (sor_halo comm_small
                    (set_omega omega1
                       (sor_sweep obj rho 0
                          (reset_rnorm_local1 (sor_initial psi0))))) B2)
        in Hpass;
      injection Hpass as <-;
      cbn [sor_halo set_omega sor_sweep st_rnorm_local1 st_psi st_omega
             reset_rnorm_local1 sor_initial];
      (eapply Rle_trans; [|apply half_sweep_norm_le]);
      unfold obj, rho, psi0; rewrite small_first_pass_norm; lra.
Qed.

(** The run of [psi_sor_poisson_small_limit] reaches its only trip in
    the initial state, and that trip goes on. *)
Lemma psi_sor_poisson_small_trip :
  exists st,
    sor_iteration comm_small (obj_small 0 (1/1000) 1) (uniform_fields 1)
      (fun p => rnorm_local0 (obj_small 0 (1/1000) 1) (uniform_fields 1 p)
                  (uniform_fields 0 p))
      (radius_of cs_small) 0 0 (sor_initial (uniform_fields 0))
    = Continue st.
Proof.
  destruct psi_sor_poisson_small_limit as [st Hrun].
  unfold psi_sor_poisson in Hrun.
  change (negb (1 <=? nhalo (psi_cs (obj_small 0 (1/1000) 1)))%Z)
    with false in Hrun.
  change (negb (nlocal_even (psi_cs (obj_small 0 (1/1000) 1))))
    with false in Hrun.
  cbv iota in Hrun.
  change (Z.to_nat (psi_maxits (obj_small 0 (1/1000) 1))) with 1%nat in Hrun.
  cbn [sor_loop] in Hrun.
  change (radius_of (psi_cs (obj_small 0 (1/1000) 1)))
    with (radius_of cs_small) in Hrun.
  destruct (sor_iteration _ _ _ _ _ _ _ _) as [|e s|s] eqn:Hb.
  - discriminate.
  - exfalso. injection Hrun as -> _. now apply sor_iteration_no_max in Hb.
  - eauto.
Qed.


(** ** The halo exchange *)

Open Scope Z_scope.

Lemma get_set (d d' : Cartesian.axis) (c : coord) (v : Z) :
  get d' (set d c v) = if Cartesian.axis_eqb d d' then v else get d' c.
Proof. destruct d, d'; reflexivity. Qed.

Lemma axis_eqb_spec (d d' : Cartesian.axis) :
  Cartesian.axis_eqb d d' = true <-> d = d'.
Proof. destruct d, d'; simpl; split; intros; congruence. Qed.

Lemma set_get_same (d : Cartesian.axis) (c : coord) :
  set d c (get d c) = c.
Proof. destruct c as [[i j] k]. destruct d; reflexivity. Qed.

(** The neighbour of a rank of the grid is a rank of the grid, at the
    same position along the other axes. *)
Lemma cs_cart_neighb_spec (dc : decomposition)
    (forwback : cartesian_neighbours) (dim : Cartesian.axis) (p q : coord) :
  0 <= get dim p < get dim (cartsz dc) ->
  cs_cart_neighb dc forwback dim p = Some q ->
  let step := match forwback with FORWARD => 1 | BACKWARD => -1 end in
  q = set dim p (get dim q) /\
  0 <= get dim q < get dim (cartsz dc) /\
  get dim q = (get dim p + step) mod get dim (cartsz dc).
Proof.
  intros Hp. unfold cs_cart_neighb.
  set (P := get dim (cartsz dc)) in *. set (x := get dim p) in *.
  intros H.
  assert (Hq : exists v, q = set dim p v /\ 0 <= v < P /\
                         v = (x + match forwback with
                                  | FORWARD => 1
                                  | BACKWARD => -1
                                  end) mod P).
  { destruct forwback;
      match type of H with
      | (if ?b then _ else _) = _ => destruct b eqn:Hb
      end.
    - injection H as <-. exists (x + 1). split; [reflexivity|].
      apply andb_true_iff in Hb. rewrite Z.leb_le, Z.ltb_lt in Hb.
      split; [lia|]. symmetry. apply Z.mod_small. lia.
    - destruct (periodic dc dim); [|discriminate]. injection H as <-.
      exists ((x + 1) mod P). split; [reflexivity|].
      split; [apply Z.mod_pos_bound; lia | reflexivity].
    - injection H as <-. exists (x - 1). split; [reflexivity|].
      apply andb_true_iff in Hb. rewrite Z.leb_le, Z.ltb_lt in Hb.
      split; [lia|]. symmetry. replace (x + -1) with (x - 1) by lia.
      apply Z.mod_small. lia.
    - destruct (periodic dc dim); [|discriminate]. injection H as <-.
      exists ((x - 1) mod P). split; [reflexivity|].
      split; [apply Z.mod_pos_bound; lia|].
      now replace (x + -1) with (x - 1) by lia. }
  destruct Hq as (v & -> & Hv & Hmod).
  rewrite get_set. replace (Cartesian.axis_eqb dim dim) with true
    by (symmetry; now apply axis_eqb_spec).
  auto.
Qed.

(** Along its axis an exchange gives a site within the width the value
    held by the site it mirrors. *)
Lemma exchange_axis_owner (A : Type) (dc : decomposition) (nhcomm : Z)
    (dim : Cartesian.axis) (w : world A) (p c q c' : coord) :
  1 - nhcomm <= get dim c <= get dim (nlocal (dc_cs dc)) + nhcomm ->
  owner_axis dc dim (p, c) = Some (q, c') ->
  exchange_axis dc nhcomm dim w p c = w q c'.
Proof.
  intros Hx. unfold owner_axis, exchange_axis.
  set (n := get dim (nlocal (dc_cs dc))) in *. set (x := get dim c) in *.
  destruct (Z.leb_spec x 0) as [H0|H0].
  - replace (1 - nhcomm <=? x) with true by (symmetry; apply Z.leb_le; lia).
    cbn [andb].
    destruct (cs_cart_neighb dc BACKWARD dim p); [|discriminate].
    now intros [= <- <-].
  - rewrite andb_false_r.
    destruct (Z.leb_spec (n + 1) x) as [H1|H1].
    + replace (x <=? n + nhcomm) with true by (symmetry; apply Z.leb_le; lia).
      cbn [andb].
      destruct (cs_cart_neighb dc FORWARD dim p); [|discriminate].
      now intros [= <- <-].
    + cbn [andb]. now intros [= <- <-].
Qed.

(** What the mirrored site is, along its axis. *)
Lemma owner_axis_spec (dc : decomposition) (nhcomm : Z)
    (dim : Cartesian.axis) (p c q c' : coord) :
  1 <= get dim (nlocal (dc_cs dc)) ->
  0 <= nhcomm <= get dim (nlocal (dc_cs dc)) ->
  0 <= get dim p < get dim (cartsz dc) ->
  1 - nhcomm <= get dim c <= get dim (nlocal (dc_cs dc)) + nhcomm ->
  owner_axis dc dim (p, c) = Some (q, c') ->
  q = set dim p (get dim q) /\ c' = set dim c (get dim c') /\
  0 <= get dim q < get dim (cartsz dc) /\
  1 <= get dim c' <= get dim (nlocal (dc_cs dc)) /\
  (get dim c' = get dim c \/
   get dim c' = get dim c + get dim (nlocal (dc_cs dc)) \/
   get dim c' = get dim c - get dim (nlocal (dc_cs dc))) /\
  global_index dc dim (q, c')
  = global_index dc dim (p, c) mod extent dc dim.
Proof.
  intros Hn Hh Hp Hx. unfold owner_axis, global_index, extent.
  cbn [fst snd].
  set (n := get dim (nlocal (dc_cs dc))) in *. set (x := get dim c) in *.
  set (P := get dim (cartsz dc)) in *. set (px := get dim p) in *.
  assert (Hself : Cartesian.axis_eqb dim dim = true) by now apply axis_eqb_spec.
  destruct (Z.leb_spec x 0) as [H0|H0];
    [|destruct (Z.leb_spec (n + 1) x) as [H1|H1]].
  - destruct (cs_cart_neighb dc BACKWARD dim p) as [q0|] eqn:Hq;
      [|discriminate].
    intros [= <- <-].
    destruct (cs_cart_neighb_spec dc BACKWARD dim p q0 Hp Hq)
      as (Eq & Bq & Mq).
    fold P px in Bq, Mq. rewrite get_set, Hself.
    split; [exact Eq|]. split; [reflexivity|].
    split; [exact Bq|]. split; [lia|]. split; [auto|].
    destruct (Z.eq_dec px 0) as [E0|E0].
    + assert (get dim q0 = P - 1).
      { rewrite Mq, E0. replace (0 + -1) with (-1 + 1 * P - P) by lia.
        replace (-1 + 1 * P - P) with (P - 1 + -1 * P) by lia.
        rewrite Z.mod_add by lia. apply Z.mod_small. lia. }
      apply Z.mod_unique with (q := -1); nia.
    + assert (get dim q0 = px - 1).
      { rewrite Mq. apply Z.mod_small. lia. }
      apply Z.mod_unique with (q := 0); nia.
  - destruct (cs_cart_neighb dc FORWARD dim p) as [q0|] eqn:Hq;
      [|discriminate].
    intros [= <- <-].
    destruct (cs_cart_neighb_spec dc FORWARD dim p q0 Hp Hq)
      as (Eq & Bq & Mq).
    fold P px in Bq, Mq. rewrite get_set, Hself.
    split; [exact Eq|]. split; [reflexivity|].
    split; [exact Bq|]. split; [lia|]. split; [auto|].
    destruct (Z.eq_dec px (P - 1)) as [E0|E0].
    + assert (get dim q0 = 0).
      { rewrite Mq, E0. replace (P - 1 + 1) with (0 + 1 * P) by lia.
        rewrite Z.mod_add by lia. apply Z.mod_small. lia. }
      apply Z.mod_unique with (q := 1); nia.
    + assert (get dim q0 = px + 1).
      { rewrite Mq. apply Z.mod_small. lia. }
      apply Z.mod_unique with (q := 0); nia.
  - intros [= <- <-]. fold px x.
    split; [symmetry; apply set_get_same|].
    split; [symmetry; apply set_get_same|].
    split; [exact Hp|]. split; [lia|]. split; [auto|].
    symmetry. apply Z.mod_small. nia.
Qed.

(** With every axis periodic each site has a mirrored site. *)
Lemma owner_axis_periodic (dc : decomposition) (dim : Cartesian.axis)
    (s : site) :
  periodic dc dim = true -> exists s', owner_axis dc dim s = Some s'.
Proof.
  intros Hper. destruct s as [p c]. unfold owner_axis, cs_cart_neighb.
  rewrite Hper.
  repeat match goal with
         | |- context [if ?b then _ else _] => destruct b
         end; eauto.
Qed.

(** C9.  After a halo swap of width [nhcomm], the contents of every site
    within that width around the owned box of a rank are those that the
    mirrored site had before the swap: an owned site of the rank itself
    or of the neighbouring rank along each axis where the site lies in
    the halo, at the local coordinate shifted by the local extent.  Along
    each axis the global index of the mirrored site is that of the site
    reduced modulo the global extent: the ghost layer next to the low
    boundary of the domain mirrors the global index [extent - 1], the one
    next to the high boundary the global index 0.  When all axes are
    periodic every site has a mirrored site. *)
Theorem C9_halo_exchange (A : Type) (dc : decomposition) (nhcomm : Z)
    (w : world A) (p c : coord) :
  swap_ready dc nhcomm p c ->
  (forall q c',
     owner dc (p, c) = Some (q, c') ->
     field_halo_swap dc nhcomm w p c = w q c' /\
     interior (dc_cs dc) c' /\
     (forall dim,
        0 <= get dim q < get dim (cartsz dc) /\
        (get dim c' = get dim c \/
         get dim c' = get dim c + get dim (nlocal (dc_cs dc)) \/
         get dim c' = get dim c - get dim (nlocal (dc_cs dc))) /\
        global_index dc dim (q, c')
        = global_index dc dim (p, c) mod extent dc dim /\
        (get dim p = 0 -> get dim c = 0 ->
         global_index dc dim (q, c') = extent dc dim - 1) /\
        (get dim p = get dim (cartsz dc) - 1 ->
         get dim c = get dim (nlocal (dc_cs dc)) + 1 ->
         global_index dc dim (q, c') = 0))) /\
  ((forall dim, periodic dc dim = true) ->
   exists q c', owner dc (p, c) = Some (q, c')).
Proof.
  intros Hready. split.
  - intros q c' Hown. unfold owner, and_then in Hown.
    destruct (owner_axis dc Cartesian.Z (p, c)) as [[q1 c1]|] eqn:H1;
      [|discriminate].
    destruct (owner_axis dc Cartesian.Y (q1, c1)) as [[q2 c2]|] eqn:H2;
      [|discriminate].
    pose proof (Hready Cartesian.X) as (NX & HX & PX & CX).
    pose proof (Hready Cartesian.Y) as (NY & HY & PY & CY).
    pose proof (Hready Cartesian.Z) as (NZ & HZ & PZ & CZ).
    destruct (owner_axis_spec dc nhcomm Cartesian.Z p c q1 c1 NZ HZ PZ CZ H1)
      as (Eq1 & Ec1 & Bq1 & Bc1 & Rc1 & G1).
    assert (PY1 : 0 <= get Cartesian.Y q1 < get Cartesian.Y (cartsz dc))
      by (rewrite Eq1; exact PY).
    assert (CY1 : 1 - nhcomm <= get Cartesian.Y c1
                  <= get Cartesian.Y (nlocal (dc_cs dc)) + nhcomm)
      by (rewrite Ec1; exact CY).
    destruct (owner_axis_spec dc nhcomm Cartesian.Y q1 c1 q2 c2 NY HY PY1 CY1
                H2) as (Eq2 & Ec2 & Bq2 & Bc2 & Rc2 & G2).
    assert (PX2 : 0 <= get Cartesian.X q2 < get Cartesian.X (cartsz dc))
      by (rewrite Eq2, Eq1; exact PX).
    assert (CX2 : 1 - nhcomm <= get Cartesian.X c2
                  <= get Cartesian.X (nlocal (dc_cs dc)) + nhcomm)
      by (rewrite Ec2, Ec1; exact CX).
    destruct (owner_axis_spec dc nhcomm Cartesian.X q2 c2 q c' NX HX PX2 CX2
                Hown) as (Eq3 & Ec3 & Bq3 & Bc3 & Rc3 & G3).
    split; [|split].
    + unfold field_halo_swap.
      rewrite (exchange_axis_owner _ dc nhcomm Cartesian.Z _ p c q1 c1 CZ H1).
      rewrite (exchange_axis_owner _ dc nhcomm Cartesian.Y _ q1 c1 q2 c2 CY1
                 H2).
      apply (exchange_axis_owner _ dc nhcomm Cartesian.X _ q2 c2 q c' CX2 Hown).
    + destruct c as [[cx cy] cz], c1 as [[c1x c1y] c1z],
        c2 as [[c2x c2y] c2z], c' as [[c'x c'y] c'z].
      cbn [get set fst snd] in *.
      inversion Ec1. inversion Ec2. inversion Ec3. subst.
      unfold interior, nlocalX, nlocalY, nlocalZ.
      repeat split; lia.
    + unfold global_index, extent in *.
      destruct p as [[px py] pz], q1 as [[q1x q1y] q1z],
        q2 as [[q2x q2y] q2z], q as [[qx qy] qz].
      destruct c as [[cx cy] cz], c1 as [[c1x c1y] c1z],
        c2 as [[c2x c2y] c2z], c' as [[c'x c'y] c'z].
      cbn [get set fst snd] in *.
      inversion Eq1. inversion Eq2. inversion Eq3.
      inversion Ec1. inversion Ec2. inversion Ec3. subst.
      intros dim. destruct dim; cbn [get set fst snd].
      * split; [exact Bq3|]. split; [exact Rc3|]. split; [exact G3|].
        split; intros Ep Ec; rewrite G3, Ep, Ec; symmetry.
        -- apply Z.mod_unique with (q := -1); nia.
        -- apply Z.mod_unique with (q := 1); nia.
      * split; [exact Bq2|]. split; [exact Rc2|]. split; [exact G2|].
        split; intros Ep Ec; rewrite G2, Ep, Ec; symmetry.
        -- apply Z.mod_unique with (q := -1); nia.
        -- apply Z.mod_unique with (q := 1); nia.
      * split; [exact Bq1|]. split; [exact Rc1|]. split; [exact G1|].
        split; intros Ep Ec; rewrite G1, Ep, Ec; symmetry.
        -- apply Z.mod_unique with (q := -1); nia.
        -- apply Z.mod_unique with (q := 1); nia.
  - intros Hper. unfold owner, and_then.
    destruct (owner_axis_periodic dc Cartesian.Z (p, c) (Hper _))
      as [[q1 c1] ->].
    destruct (owner_axis_periodic dc Cartesian.Y (q1, c1) (Hper _))
      as [[q2 c2] ->].
    destruct (owner_axis_periodic dc Cartesian.X (q2, c2) (Hper _))
      as [[q c'] ->].
    eauto.
Qed.

Lemma C9_halo_exchange_witness :
  owner dc_pair ((0, 0, 0), (0, 1, 1)) = Some ((1, 0, 0), (2, 1, 1)) /\
  field_halo_swap dc_pair 1 world_pair (0, 0, 0) (0, 1, 1)
  = world_pair (1, 0, 0) (2, 1, 1) /\
  global_index dc_pair Cartesian.X ((1, 0, 0), (2, 1, 1))
  = extent dc_pair Cartesian.X - 1.
Proof.
  assert (Hready : swap_ready dc_pair 1 (0, 0, 0) (0, 1, 1)).
  { intros dim. destruct dim; simpl; lia. }
  destruct (C9_halo_exchange (Z * Z) dc_pair 1 world_pair (0, 0, 0) (0, 1, 1)
              Hready) as [H _].
  destruct (H (1, 0, 0) (2, 1, 1) eq_refl) as (Hswap & _ & Hdim).
  split; [reflexivity|]. split; [exact Hswap|].
  destruct (Hdim Cartesian.X) as (_ & _ & _ & Hlow & _).
  apply Hlow; reflexivity.
Defined.

(* ===================================================================== *)
(** * Further properties of the solvers *)
(* ===================================================================== *)

Open Scope R_scope.

(** ** The exit taken and the norms *)

Lemma reaches_indexed (body : Z -> sor_state -> outcome)
    (Q : Z -> sor_state -> Prop) (n k : Z) (st stk : sor_state) :
  (forall i s s', Q i s -> body i s = Continue s' -> Q (i + 1)%Z s') ->
  Q n st -> reaches body n st k stk -> Q k stk.
Proof.
  intros Hstep HQ. induction 1 as [|k s s' Hr IH Hc]; [assumption|].
  now apply (Hstep k s s').
Qed.

(** A loop whose trips keep [P] while they go on, and leave with [R]. *)
Lemma sor_loop_exit (body : Z -> sor_state -> outcome)
    (P : sor_state -> Prop) (R : sor_exit -> sor_state -> Prop) :
  (forall n st, P st ->
     match body n st with
     | Fails _ => True
     | Break e st' => R e st'
     | Continue st' => P st'
     end) ->
  (forall st, P st -> R MaxIterationsReached st) ->
  forall count n st e st',
    P st -> sor_loop body count n st = Returned e st' -> R e st'.
Proof.
  intros Hbody Hmax. induction count as [|count IH]; intros n st e st' HP.
  - simpl. intros [= <- <-]. now apply Hmax.
  - cbn [sor_loop]. specialize (Hbody n st HP).
    destruct (body n st) as [|e1 s1|s1]; [discriminate| |].
    + intros [= <- <-]. exact Hbody.
    + now apply IH.
Qed.

(** What the residual check of [psi_sor_poisson] decides, and on which
    values. *)
Lemma sor_check_exit (comm : comm_t) (obj : psi_t) (rnl0 : nat -> R)
    (its n : Z) (st : sor_state) :
  let rnorm := (mpi_allreduce_sum comm rnl0,
                mpi_allreduce_sum comm (st_rnorm_local1 st)) in
  match sor_check comm obj rnl0 its n st with
  | Fails _ => True
  | Break e st' => st_rnorm st' = rnorm /\ exit_agrees obj e rnorm /\
                   e <> MaxIterationsReached
  | Continue st' => st_rnorm st' = rnorm /\
                    exit_agrees obj MaxIterationsReached rnorm
  end.
Proof.
  intros rnorm. subst rnorm. unfold sor_check, report_and_break, exit_agrees. cbn [fst snd].
  set (r0 := mpi_allreduce_sum comm rnl0).
  set (r1 := mpi_allreduce_sum comm (st_rnorm_local1 st)).
  destruct (Rltb r1 (psi_abstol obj)) eqn:Ha;
    [|destruct (Rltb r1 (psi_reltol obj * r0)) eqn:Hr];
    cbn [orb].
  - apply Rltb_true in Ha.
    destruct (psi_nfreq obj =? 0)%Z; [exact I|].
    match goal with |- context [log_if ?b ?m ?s] =>
      destruct (log_if_fields b m s) as (_ & _ & _ & ->) end.
    simpl. split; [reflexivity|]. split; [exact Ha|discriminate].
  - apply Rltb_false in Ha. apply Rltb_true in Hr.
    destruct (psi_nfreq obj =? 0)%Z; [exact I|].
    match goal with |- context [log_if ?b ?m ?s] =>
      destruct (log_if_fields b m s) as (_ & _ & _ & ->) end.
    simpl. split; [reflexivity|]. split; [|discriminate]. split; [lra|exact Hr].
  - apply Rltb_false in Ha, Hr. simpl. split; [reflexivity|]. lra.
Qed.

Lemma vare_check_exit (comm : comm_t) (obj : psi_t) (rnl0 : nat -> R)
    (its n : Z) (st : sor_state) :
  let rnorm := (mpi_allreduce_sum comm rnl0,
                mpi_allreduce_sum comm (st_rnorm_local1 st)) in
  match vare_check comm obj rnl0 its n st with
  | Fails _ => True
  | Break e st' => st_rnorm st' = rnorm /\ exit_agrees obj e rnorm /\
                   e <> MaxIterationsReached
  | Continue st' => st_rnorm st' = rnorm /\
                    exit_agrees obj MaxIterationsReached rnorm
  end.
Proof.
  intros rnorm. subst rnorm. unfold vare_check, report_and_break, exit_agrees. cbn [fst snd].
  set (r0 := mpi_allreduce_sum comm rnl0).
  set (r1 := mpi_allreduce_sum comm (st_rnorm_local1 st)).
  destruct (Rltb r1 (psi_abstol obj)) eqn:Ha;
    [|destruct (Rltb r1 (psi_reltol obj * r0)) eqn:Hr].
  - apply Rltb_true in Ha.
    destruct (psi_nfreq obj =? 0)%Z; [exact I|].
    match goal with |- context [log_if ?b ?m ?s] =>
      destruct (log_if_fields b m s) as (_ & _ & _ & ->) end.
    simpl. split; [reflexivity|]. split; [exact Ha|discriminate].
  - apply Rltb_false in Ha. apply Rltb_true in Hr.
    destruct (psi_nfreq obj =? 0)%Z; [exact I|].
    match goal with |- context [log_if ?b ?m ?s] =>
      destruct (log_if_fields b m s) as (_ & _ & _ & ->) end.
    simpl. split; [reflexivity|]. split; [|discriminate]. split; [lra|exact Hr].
  - apply Rltb_false in Ha, Hr. unfold vare_exceeded.
    match goal with |- context [log_if ?b ?m ?s] =>
      destruct (log_if_fields b m s) as (_ & _ & _ & ->) end.
    simpl. split; [reflexivity|]. lra.
Qed.

(** A trip of [psi_sor_poisson]: a trip that checks the residual leaves
    [rnorm] in agreement with the exit it takes; one that does not check
    keeps [rnorm]. *)
Lemma sor_iteration_exit (comm : comm_t) (obj : psi_t) (rho_elec : fields)
    (rnl0 : nat -> R) (radius : R) (its n : Z) (st : sor_state) :
  match sor_iteration comm obj rho_elec rnl0 radius its n st with
  | Fails _ => True
  | Break e st' => exit_agrees obj e (st_rnorm st')
  | Continue st' =>
      Z.rem n ncheck_poisson = 0%Z \/
      exit_agrees obj MaxIterationsReached (st_rnorm st) ->
      exit_agrees obj MaxIterationsReached (st_rnorm st')
  end.
Proof.
  unfold sor_iteration.
  destruct (for_pass _ _) as [st2|] eqn:Hp; [|exact I].
  apply for_pass_sor_rnorm in Hp. destruct Hp as [Hr _].
  cbn [reset_rnorm_local1 st_rnorm] in Hr.
  destruct (Z.eqb_spec (Z.rem n ncheck_poisson) 0) as [Hn|Hn].
  - pose proof (sor_check_exit comm obj rnl0 its n st2) as Hc.
    cbv zeta in Hc.
    destruct (sor_check comm obj rnl0 its n st2) as [|e s|s].
    + exact I.
    + destruct Hc as (-> & H & _). exact H.
    + intros _. destruct (sor_exceeded_state obj n s) as (_ & _ & _ & ->).
      destruct Hc as (-> & H). exact H.
  - intros [H|H]; [contradiction|].
    destruct (sor_exceeded_state obj n st2) as (_ & _ & _ & ->).
    now rewrite Hr.
Qed.

Lemma vare_iteration_exit (comm : comm_t) (obj : psi_t)
    (fepsilon rho_elec : fields) (rnl0 : nat -> R) (radius : R) (its n : Z)
    (st : sor_state) :
  match vare_iteration comm obj fepsilon rho_elec rnl0 radius its n st with
  | Fails _ => True
  | Break e st' => exit_agrees obj e (st_rnorm st')
  | Continue st' => exit_agrees obj MaxIterationsReached (st_rnorm st')
  end.
Proof.
  unfold vare_iteration.
  destruct (for_pass _ _) as [st2|]; [|exact I].
  replace (Z.rem n ncheck_vare =? 0)%Z with true
    by (symmetry; apply Z.eqb_eq, Z.rem_1_r).
  pose proof (vare_check_exit comm obj rnl0 its n (vare_recompute radius st2))
    as Hc.
  cbv zeta in Hc.
  destruct (vare_check _ _ _ _ _ _) as [|e s|s].
  - exact I.
  - destruct Hc as (-> & H & _). exact H.
  - destruct Hc as (-> & H). exact H.
Qed.

Lemma psi_sor_poisson_exit (comm : comm_t) (obj : psi_t)
    (rho_elec psi0 : fields) (its : Z) (e : sor_exit) (st : sor_state) :
  (1 <= psi_maxits obj)%Z ->
  psi_sor_poisson comm obj rho_elec psi0 its = Returned e st ->
  exit_agrees obj e (st_rnorm st).
Proof.
  intros Hm. unfold psi_sor_poisson.
  destruct (negb _); [discriminate|]. destruct (negb _); [discriminate|].
  destruct (Z.to_nat (psi_maxits obj)) as [|count] eqn:Hc; [lia|].
  cbn [sor_loop].
  set (rnl0 := fun p => rnorm_local0 obj (rho_elec p) (psi0 p)).
  set (body := sor_iteration comm obj rho_elec rnl0 (radius_of (psi_cs obj))
                 its).
  pose proof (sor_iteration_exit comm obj rho_elec rnl0
                (radius_of (psi_cs obj)) its 0 (sor_initial psi0)) as H0.
  fold body in H0.
  destruct (body 0%Z (sor_initial psi0)) as [|e1 s1|s1]; [discriminate| |].
  - intros [= <- <-]. exact H0.
  - apply (sor_loop_exit body
             (fun s => exit_agrees obj MaxIterationsReached (st_rnorm s))
             (fun e s => exit_agrees obj e (st_rnorm s))).
    + intros k s Hs.
      pose proof (sor_iteration_exit comm obj rho_elec rnl0
                    (radius_of (psi_cs obj)) its k s) as H.
      fold body in H. destruct (body k s); auto.
    + auto.
    + apply H0. left. reflexivity.
Qed.

Lemma psi_sor_vare_poisson_exit (comm : comm_t) (obj : psi_t)
    (fepsilon rho_elec psi0 : fields) (its : Z) (e : sor_exit)
    (st : sor_state) :
  (1 <= psi_maxits obj)%Z ->
  psi_sor_vare_poisson comm obj fepsilon rho_elec psi0 its = Returned e st ->
  exit_agrees obj e (st_rnorm st).
Proof.
  intros Hm. unfold psi_sor_vare_poisson.
  destruct (negb _); [discriminate|]. destruct (negb _); [discriminate|].
  destruct (Z.to_nat (psi_maxits obj)) as [|count] eqn:Hc; [lia|].
  cbn [sor_loop].
  set (rnl0 := fun p => vare_rnorm_local0 obj (fepsilon p) (rho_elec p)
                          (psi0 p)).
  set (body := vare_iteration comm obj fepsilon rho_elec rnl0
                 (radius_of (psi_cs obj)) its).
  pose proof (vare_iteration_exit comm obj fepsilon rho_elec rnl0
                (radius_of (psi_cs obj)) its 0 (sor_initial psi0)) as H0.
  fold body in H0.
  destruct (body 0%Z (sor_initial psi0)) as [|e1 s1|s1]; [discriminate| |].
  - intros [= <- <-]. exact H0.
  - apply (sor_loop_exit body
             (fun s => exit_agrees obj MaxIterationsReached (st_rnorm s))
             (fun e s => exit_agrees obj e (st_rnorm s))).
    + intros k s Hs.
      pose proof (vare_iteration_exit comm obj fepsilon rho_elec rnl0
                    (radius_of (psi_cs obj)) its k s) as H.
      fold body in H. destruct (body k s); auto.
    + auto.
    + exact H0.
Qed.

(** X1.  With a limit of at least one iteration, the way either solver
    leaves its loop agrees with the norms it holds on return: the exit is
    the absolute one exactly when [rnorm[1] < tol_abs]; it is the
    relative one only when that comparison failed and
    [rnorm[1] < tol_rel*rnorm[0]]; and a run that stops at the limit holds
    norms that failed both comparisons at its last residual check. *)
Theorem exit_agrees_with_norms (comm : comm_t) (obj : psi_t)
    (fepsilon rho_elec psi0 : fields) (its : Z) (e : sor_exit)
    (st : sor_state) :
  (1 <= psi_maxits obj)%Z ->
  (psi_sor_poisson comm obj rho_elec psi0 its = Returned e st ->
   exit_agrees obj e (st_rnorm st)) /\
  (psi_sor_vare_poisson comm obj fepsilon rho_elec psi0 its = Returned e st ->
   exit_agrees obj e (st_rnorm st)).
Proof.
  intros Hm. split.
  - now apply psi_sor_poisson_exit.
  - now apply psi_sor_vare_poisson_exit.
Qed.

Lemma exit_agrees_with_norms_witness :
  exists st,
    psi_sor_poisson comm_small (obj_small 0 1 1) (uniform_fields 0)
      (uniform_fields 0) 0
    = Returned ConvergedAbsolute st /\
    snd (st_rnorm st) < 1.
Proof.
  destruct psi_sor_poisson_rest as [st Hrun]. exists st.
  split; [exact Hrun|].
  assert (Hm : (1 <= psi_maxits (obj_small 0 1 1))%Z) by (simpl; lia).
  destruct (exit_agrees_with_norms comm_small (obj_small 0 1 1)
              (uniform_fields 1) (uniform_fields 0) (uniform_fields 0) 0
              ConvergedAbsolute st Hm) as [H _].
  exact (H Hrun).
Defined.

(** ** Tolerances that cannot be met *)

Lemma vare_half_sweep_norm_le (obj : psi_t) (omega : R) (pass : Z)
    (fepsilon rho_elec psi : field) (rn : R) :
  rn <= snd (vare_half_sweep obj omega pass fepsilon rho_elec (psi, rn)).
Proof.
  unfold vare_half_sweep. generalize (pass_coords (psi_cs obj) pass) as l.
  intros l. revert psi rn.
  induction l as [|c l IH]; intros psi rn; simpl; [lra|].
  eapply Rle_trans; [|apply IH].
  pose proof (Rabs_pos (vare_residual_at obj fepsilon rho_elec psi
                          (index_of (psi_cs obj) c))).
  lra.
Qed.

Lemma sor_pass_norm_le (comm : comm_t) (obj : psi_t) (rho_elec : fields)
    (radius : R) (n pass : Z) (st st' : sor_state) (p : nat) :
  sor_pass comm obj rho_elec radius n pass st = Some st' ->
  st_rnorm_local1 st p <= st_rnorm_local1 st' p.
Proof.
  unfold sor_pass. destruct (_ && _); [|discriminate].
  intros [= <-]. cbn [sor_halo set_omega sor_sweep st_rnorm_local1].
  apply half_sweep_norm_le.
Qed.

Lemma vare_pass_norm_le (comm : comm_t) (obj : psi_t)
    (fepsilon rho_elec : fields) (pass : Z) (st st' : sor_state) (p : nat) :
  vare_pass comm obj fepsilon rho_elec pass st = Some st' ->
  st_rnorm_local1 st p <= st_rnorm_local1 st' p.
Proof.
  unfold vare_pass. intros [= <-].
  cbn [sor_halo vare_sweep st_rnorm_local1].
  apply vare_half_sweep_norm_le.
Qed.

(** [rnorm_local[1]] of a trip is a sum of absolute values. *)
Lemma for_pass_sor_norm_pos (comm : comm_t) (obj : psi_t) (rho_elec : fields)
    (radius : R) (n : Z) (st st2 : sor_state) (p : nat) :
  for_pass (sor_pass comm obj rho_elec radius n) (reset_rnorm_local1 st)
  = Some st2 ->
  0 <= st_rnorm_local1 st2 p.
Proof.
  rewrite for_pass_unfold.
  destruct (sor_pass comm obj rho_elec radius n 0 _) as [st1|] eqn:H1;
    [|discriminate].
  intros H2.
  apply (sor_pass_norm_le _ _ _ _ _ _ _ _ p) in H1, H2.
  cbn [reset_rnorm_local1 st_rnorm_local1] in H1. lra.
Qed.

Lemma for_pass_vare_norm_pos (comm : comm_t) (obj : psi_t)
    (fepsilon rho_elec : fields) (st st2 : sor_state) (p : nat) :
  for_pass (vare_pass comm obj fepsilon rho_elec) (reset_rnorm_local1 st)
  = Some st2 ->
  0 <= st_rnorm_local1 st2 p.
Proof.
  rewrite for_pass_unfold.
  destruct (vare_pass comm obj fepsilon rho_elec 0 _) as [st1|] eqn:H1;
    [|discriminate].
  intros H2.
  apply (vare_pass_norm_le _ _ _ _ _ _ _ p) in H1, H2.
  cbn [reset_rnorm_local1 st_rnorm_local1] in H1. lra.
Qed.

Lemma sum_ranks_pos (n : nat) (local : nat -> R) :
  (forall p, 0 <= local p) -> 0 <= sum_ranks n local.
Proof.
  intros H. induction n as [|n IH]; simpl; [lra|].
  specialize (H n). lra.
Qed.

Lemma sum_over_pos (A : Type) (f : A -> R) (l : list A) :
  (forall a, 0 <= f a) -> 0 <= sum_over f l.
Proof.
  intros H. induction l as [|a l IH]; simpl; [lra|].
  specialize (H a). lra.
Qed.

Lemma rnorm_local0_pos (obj : psi_t) (rho_elec psi : field) :
  0 <= rnorm_local0 obj rho_elec psi.
Proof.
  unfold rnorm_local0.
  rewrite (fold_left_sum _
             (fun c => Rabs (residual_at obj rho_elec psi
                               (index_of (psi_cs obj) c)))).
  rewrite Rplus_0_l. apply sum_over_pos. intros c. apply Rabs_pos.
Qed.

Lemma vare_rnorm_local0_pos (obj : psi_t) (fepsilon rho_elec psi : field) :
  0 <= vare_rnorm_local0 obj fepsilon rho_elec psi.
Proof.
  unfold vare_rnorm_local0.
  rewrite (fold_left_sum _
             (fun c => Rabs (vare_residual_at obj fepsilon rho_elec psi
                               (index_of (psi_cs obj) c)))).
  rewrite Rplus_0_l. apply sum_over_pos. intros c. apply Rabs_pos.
Qed.

Lemma sor_exit_eq_dec (e e' : sor_exit) : {e = e'} + {e <> e'}.
Proof. decide equality. Qed.

(** No tolerance below or at zero is met by norms that are not negative. *)
Lemma exit_agrees_unmet (obj : psi_t) (e : sor_exit) (r0 r1 : R) :
  psi_abstol obj <= 0 -> psi_reltol obj <= 0 -> 0 <= r0 -> 0 <= r1 ->
  exit_agrees obj e (r0, r1) -> e = MaxIterationsReached.
Proof.
  intros Ha Hr H0 H1. destruct e; cbn [exit_agrees fst snd]; intros H.
  - lra.
  - nra.
  - reflexivity.
Qed.

Lemma sor_iteration_unmet (comm : comm_t) (obj : psi_t) (rho_elec : fields)
    (rnl0 : nat -> R) (radius : R) (its n : Z) (st : sor_state)
    (e : sor_exit) (st' : sor_state) :
  psi_abstol obj <= 0 -> psi_reltol obj <= 0 -> (forall p, 0 <= rnl0 p) ->
  sor_iteration comm obj rho_elec rnl0 radius its n st <> Break e st'.
Proof.
  intros Ha Hr H0 Hb. apply sor_iteration_break in Hb.
  destruct Hb as (st2 & Hp & _ & Hc).
  pose proof (sor_check_exit comm obj rnl0 its n st2) as H.
  cbv zeta in H. rewrite Hc in H. destruct H as (_ & H & Hne).
  apply Hne. revert H. apply exit_agrees_unmet; try assumption.
  - now apply sum_ranks_pos.
  - apply sum_ranks_pos. intros p.
    now apply (for_pass_sor_norm_pos _ _ _ _ _ _ _ p) in Hp.
Qed.

Lemma vare_iteration_unmet (comm : comm_t) (obj : psi_t)
    (fepsilon rho_elec : fields) (rnl0 : nat -> R) (radius : R) (its n : Z)
    (st : sor_state) (e : sor_exit) (st' : sor_state) :
  psi_abstol obj <= 0 -> psi_reltol obj <= 0 -> (forall p, 0 <= rnl0 p) ->
  vare_iteration comm obj fepsilon rho_elec rnl0 radius its n st
  <> Break e st'.
Proof.
  intros Ha Hr H0 Hb. apply vare_iteration_break in Hb.
  destruct Hb as (st2 & Hp & _ & Hc).
  pose proof (vare_check_exit comm obj rnl0 its n (vare_recompute radius st2))
    as H.
  cbv zeta in H. rewrite Hc in H. destruct H as (_ & H & Hne).
  apply Hne. revert H. apply exit_agrees_unmet; try assumption.
  - now apply sum_ranks_pos.
  - apply sum_ranks_pos. intros p. cbn [vare_recompute set_omega st_rnorm_local1].
    now apply (for_pass_vare_norm_pos _ _ _ _ _ _ p) in Hp.
Qed.

(** X2.  The comparisons of the residual check are strict and the norms
    are sums of absolute values: when neither [tol_abs] nor [tol_rel] is
    positive, no run of either solver leaves its loop at a residual
    check.  Every run that returns has then gone through all the
    iterations allowed. *)
Theorem tolerances_unmet (comm : comm_t) (obj : psi_t)
    (fepsilon rho_elec psi0 : fields) (its : Z) (e : sor_exit)
    (st : sor_state) :
  psi_abstol obj <= 0 -> psi_reltol obj <= 0 ->
  (psi_sor_poisson comm obj rho_elec psi0 its = Returned e st ->
   e = MaxIterationsReached) /\
  (psi_sor_vare_poisson comm obj fepsilon rho_elec psi0 its = Returned e st ->
   e = MaxIterationsReached).
Proof.
  intros Ha Hr. split.
  - unfold psi_sor_poisson.
    destruct (negb _); [discriminate|]. destruct (negb _); [discriminate|].
    set (rnl0 := fun p => rnorm_local0 obj (rho_elec p) (psi0 p)).
    set (body := sor_iteration comm obj rho_elec rnl0
                   (radius_of (psi_cs obj)) its).
    intros Hrun.
    destruct (sor_exit_eq_dec e MaxIterationsReached) as [He|He];
      [exact He|exfalso].
    assert (Hnomax : forall k s s', body k s <> Break MaxIterationsReached s')
      by (intros k s s'; apply sor_iteration_no_max).
    destruct (proj1 (sor_loop_break body _ 0%Z (sor_initial psi0) e st Hnomax)
                (conj Hrun He)) as (k & stk & _ & _ & Hb).
    revert Hb. apply sor_iteration_unmet; try assumption.
    intros p. apply rnorm_local0_pos.
  - unfold psi_sor_vare_poisson.
    destruct (negb _); [discriminate|]. destruct (negb _); [discriminate|].
    set (rnl0 := fun p => vare_rnorm_local0 obj (fepsilon p) (rho_elec p)
                            (psi0 p)).
    set (body := vare_iteration comm obj fepsilon rho_elec rnl0
                   (radius_of (psi_cs obj)) its).
    intros Hrun.
    destruct (sor_exit_eq_dec e MaxIterationsReached) as [He|He];
      [exact He|exfalso].
    assert (Hnomax : forall k s s', body k s <> Break MaxIterationsReached s')
      by (intros k s s'; apply vare_iteration_no_max).
    destruct (proj1 (sor_loop_break body _ 0%Z (sor_initial psi0) e st Hnomax)
                (conj Hrun He)) as (k & stk & _ & _ & Hb).
    revert Hb. apply vare_iteration_unmet; try assumption.
    intros p. apply vare_rnorm_local0_pos.
Qed.

Lemma tolerances_unmet_witness :
  exists st,
    psi_sor_vare_poisson comm_small (obj_small 0 0 1) (uniform_fields 1)
      (uniform_fields 1) (uniform_fields 0) 0
    = Returned MaxIterationsReached st.
Proof.
  destruct (psi_sor_vare_poisson_returns comm_small (obj_small 0 0 1)
              (uniform_fields 1) (uniform_fields 1) (uniform_fields 0) 0
              eq_refl eq_refl ltac:(discriminate)) as (e & st & Hrun).
  assert (Ha : psi_abstol (obj_small 0 0 1) <= 0) by (simpl; lra).
  assert (Hr : psi_reltol (obj_small 0 0 1) <= 0) by (simpl; lra).
  destruct (tolerances_unmet comm_small (obj_small 0 0 1)
              (uniform_fields 1) (uniform_fields 1) (uniform_fields 0) 0
              e st Ha Hr) as [_ H].
  exists st. rewrite <- (H Hrun). exact Hrun.
Defined.

(** ** What a run reports *)

Lemma sor_check_log (comm : comm_t) (obj : psi_t) (rnl0 : nat -> R)
    (its n : Z) (st : sor_state) (e : sor_exit) (st' : sor_state) :
  sor_check comm obj rnl0 its n st = Break e st' ->
  st_log st'
  = st_log st
    ++ (if (Z.rem its (psi_nfreq obj) =? 0)%Z
        then [sor_converged e
                (residual_per_site (psi_cs obj) (snd (st_rnorm st'))) n]
        else []).
Proof.
  unfold sor_check, report_and_break, log_if.
  repeat match goal with
         | |- context [if ?b then _ else _] => destruct b
         end; intros [= <- <-]; simpl; now rewrite ?app_nil_r.
Qed.

Lemma vare_check_log (comm : comm_t) (obj : psi_t) (rnl0 : nat -> R)
    (its n : Z) (st : sor_state) (e : sor_exit) (st' : sor_state) :
  vare_check comm obj rnl0 its n st = Break e st' ->
  st_log st'
  = st_log st
    ++ (if (Z.rem its (psi_nfreq obj) =? 0)%Z
        then [vare_converged e
                (residual_per_site (psi_cs obj) (snd (st_rnorm st'))) n]
        else []).
Proof.
  unfold vare_check, report_and_break, vare_exceeded, log_if.
  repeat match goal with
         | |- context [if ?b then _ else _] => destruct b
         end; intros [= <- <-]; simpl; now rewrite ?app_nil_r.
Qed.

(** Nothing is reported before the last trip allowed. *)
Lemma sor_silent (comm : comm_t) (obj : psi_t) (rho_elec : fields)
    (rnl0 : nat -> R) (radius : R) (its k : Z) (st0 s : sor_state) :
  st_log st0 = [] ->
  reaches (sor_iteration comm obj rho_elec rnl0 radius its) 0 st0 k s ->
  (k < psi_maxits obj)%Z -> st_log s = [].
Proof.
  intros H0 Hr.
  apply (reaches_indexed _ (fun i s => (i < psi_maxits obj)%Z -> st_log s = [])
           _ _ _ _) with (3 := Hr); [|auto].
  intros i s1 s2 HQ Hc Hi. apply sor_iteration_continue in Hc.
  destruct Hc as (st2 & _ & _ & ->). rewrite HQ by lia.
  destruct (Z.eqb_spec i (psi_maxits obj - 1)); [lia|reflexivity].
Qed.

Lemma vare_silent (comm : comm_t) (obj : psi_t) (fepsilon rho_elec : fields)
    (rnl0 : nat -> R) (radius : R) (its k : Z) (st0 s : sor_state) :
  st_log st0 = [] ->
  reaches (vare_iteration comm obj fepsilon rho_elec rnl0 radius its)
          0 st0 k s ->
  (k < psi_maxits obj)%Z -> st_log s = [].
Proof.
  intros H0 Hr.
  apply (reaches_indexed _ (fun i s => (i < psi_maxits obj)%Z -> st_log s = [])
           _ _ _ _) with (3 := Hr); [|auto].
  intros i s1 s2 HQ Hc Hi. apply vare_iteration_continue in Hc.
  destruct Hc as (st2 & _ & _ & ->). rewrite HQ by lia.
  destruct (Z.eqb_spec i (psi_maxits obj - 1)); [lia|reflexivity].
Qed.

Lemma psi_sor_poisson_report (comm : comm_t) (obj : psi_t)
    (rho_elec psi0 : fields) (its : Z) (e : sor_exit) (st : sor_state) :
  psi_sor_poisson comm obj rho_elec psi0 its = Returned e st ->
  (e <> MaxIterationsReached ->
   exists n, (0 <= n < psi_maxits obj)%Z /\ Z.rem n 5 = 0%Z /\
     st_log st
     = if (Z.rem its (psi_nfreq obj) =? 0)%Z
       then [sor_converged e
               (residual_per_site (psi_cs obj) (snd (st_rnorm st))) n]
       else []) /\
  (e = MaxIterationsReached ->
   st_log st
   = if (1 <=? psi_maxits obj)%Z
     then [info_exceeded (psi_maxits obj) (fst (st_rnorm st))
             (snd (st_rnorm st))]
     else []).
Proof.
  unfold psi_sor_poisson.
  destruct (negb _); [discriminate|]. destruct (negb _); [discriminate|].
  set (rnl0 := fun p => rnorm_local0 obj (rho_elec p) (psi0 p)).
  set (body := sor_iteration comm obj rho_elec rnl0 (radius_of (psi_cs obj))
                 its).
  intros Hrun. split.
  - intros He.
    destruct (proj1 (sor_loop_break body _ 0 (sor_initial psi0) e st
                       (sor_iteration_no_max comm obj rho_elec rnl0 _ its))
                (conj Hrun He)) as (k & stk & Hr & Hk & Hb).
    assert (Hlt : (k < psi_maxits obj)%Z) by lia.
    pose proof (sor_silent comm obj rho_elec rnl0 (radius_of (psi_cs obj)) its k
                  (sor_initial psi0) stk eq_refl Hr Hlt)
      as Hlog.
    apply sor_iteration_break in Hb. destruct Hb as (st2 & Hp & Hn & Hc).
    apply for_pass_sor_rnorm in Hp. destruct Hp as [_ Hl2].
    cbn [reset_rnorm_local1 st_log] in Hl2.
    exists k. split; [lia|]. split; [exact Hn|].
    rewrite (sor_check_log _ _ _ _ _ _ _ _ Hc), Hl2, Hlog. reflexivity.
  - intros ->.
    apply (sor_loop_exhausts body _ 0 (sor_initial psi0) st
             (sor_iteration_no_max comm obj rho_elec rnl0 _ its)) in Hrun.
    destruct (Z.leb_spec 1 (psi_maxits obj)) as [Hm|Hm].
    + rewrite Z2Nat.id in Hrun by lia. cbn [Z.add] in Hrun.
      destruct (reaches_last _ _ _ _ _ Hrun ltac:(lia)) as (s & Hr & Hc).
      pose proof (sor_silent comm obj rho_elec rnl0 (radius_of (psi_cs obj)) its
                    (psi_maxits obj - 1) (sor_initial psi0) s eq_refl Hr
                    ltac:(lia)) as Hlog.
      apply sor_iteration_continue in Hc. destruct Hc as (st2 & _ & _ & ->).
      rewrite Hlog, Z.eqb_refl. cbn [app].
      now replace (psi_maxits obj - 1 + 1)%Z with (psi_maxits obj) by lia.
    + replace (Z.to_nat (psi_maxits obj)) with 0%nat in Hrun by lia.
      apply reaches_same in Hrun. now subst st.
Qed.

Lemma psi_sor_vare_poisson_report (comm : comm_t) (obj : psi_t)
    (fepsilon rho_elec psi0 : fields) (its : Z) (e : sor_exit)
    (st : sor_state) :
  psi_sor_vare_poisson comm obj fepsilon rho_elec psi0 its = Returned e st ->
  (e <> MaxIterationsReached ->
   exists n, (0 <= n < psi_maxits obj)%Z /\
     st_log st
     = if (Z.rem its (psi_nfreq obj) =? 0)%Z
       then [vare_converged e
               (residual_per_site (psi_cs obj) (snd (st_rnorm st))) n]
       else []) /\
  (e = MaxIterationsReached ->
   st_log st
   = if (1 <=? psi_maxits obj)%Z
     then [info_vare_exceeded (psi_maxits obj) (fst (st_rnorm st))
             (snd (st_rnorm st))]
     else []).
Proof.
  unfold psi_sor_vare_poisson.
  destruct (negb _); [discriminate|]. destruct (negb _); [discriminate|].
  set (rnl0 := fun p => vare_rnorm_local0 obj (fepsilon p) (rho_elec p)
                          (psi0 p)).
  set (body := vare_iteration comm obj fepsilon rho_elec rnl0
                 (radius_of (psi_cs obj)) its).
  intros Hrun. split.
  - intros He.
    destruct (proj1 (sor_loop_break body _ 0 (sor_initial psi0) e st
                       (vare_iteration_no_max comm obj fepsilon rho_elec rnl0
                          _ its))
                (conj Hrun He)) as (k & stk & Hr & Hk & Hb).
    assert (Hlt : (k < psi_maxits obj)%Z) by lia.
    pose proof (vare_silent comm obj fepsilon rho_elec rnl0
                  (radius_of (psi_cs obj)) its k (sor_initial psi0) stk
                  eq_refl Hr Hlt) as Hlog.
    apply vare_iteration_break in Hb. destruct Hb as (st2 & Hp & Hn & Hc).
    destruct (for_pass_vare_some comm obj fepsilon rho_elec
                (reset_rnorm_local1 stk)) as (st2' & Hp' & _ & Hl2).
    rewrite Hp in Hp'. injection Hp' as <-.
    cbn [reset_rnorm_local1 st_log] in Hl2.
    exists k. split; [lia|].
    rewrite (vare_check_log _ _ _ _ _ _ _ _ Hc).
    cbn [vare_recompute set_omega st_log]. rewrite Hl2, Hlog. reflexivity.
  - intros ->.
    apply (sor_loop_exhausts body _ 0 (sor_initial psi0) st
             (vare_iteration_no_max comm obj fepsilon rho_elec rnl0 _ its))
      in Hrun.
    destruct (Z.leb_spec 1 (psi_maxits obj)) as [Hm|Hm].
    + rewrite Z2Nat.id in Hrun by lia. cbn [Z.add] in Hrun.
      destruct (reaches_last _ _ _ _ _ Hrun ltac:(lia)) as (s & Hr & Hc).
      pose proof (vare_silent comm obj fepsilon rho_elec rnl0
                    (radius_of (psi_cs obj)) its (psi_maxits obj - 1)
                    (sor_initial psi0) s eq_refl Hr ltac:(lia)) as Hlog.
      apply vare_iteration_continue in Hc. destruct Hc as (st2 & _ & _ & ->).
      rewrite Hlog, Z.eqb_refl. cbn [app].
      now replace (psi_maxits obj - 1 + 1)%Z with (psi_maxits obj) by lia.
    + replace (Z.to_nat (psi_maxits obj)) with 0%nat in Hrun by lia.
      apply reaches_same in Hrun. now subst st.
Qed.

(** X3.  A run of either solver that returns has reported at most once.
    A run that converged reports, when [its % nfreq == 0] and only then,
    the branch of the residual check it took with the residual per site
    [rnorm[1]/(ltot[X]*ltot[Y]*ltot[Z])] and the index [n] of the trip, a
    multiple of 5 below the limit in [psi_sor_poisson]; at any other time
    step it prints nothing.  A run that stops at the limit reports the
    limit with [rnorm[0]] and [rnorm[1]], whatever the time step; with a
    limit below 1 it prints nothing. *)
Theorem one_report_per_run (comm : comm_t) (obj : psi_t)
    (fepsilon rho_elec psi0 : fields) (its : Z) (e : sor_exit)
    (st : sor_state) :
  psi_nfreq obj <> 0%Z ->
  (psi_sor_poisson comm obj rho_elec psi0 its = Returned e st ->
   (e <> MaxIterationsReached ->
    exists n, (0 <= n < psi_maxits obj)%Z /\ Z.rem n 5 = 0%Z /\
      st_log st
      = if (Z.rem its (psi_nfreq obj) =? 0)%Z
        then [sor_converged e
                (residual_per_site (psi_cs obj) (snd (st_rnorm st))) n]
        else []) /\
   (e = MaxIterationsReached ->
    st_log st
    = if (1 <=? psi_maxits obj)%Z
      then [info_exceeded (psi_maxits obj) (fst (st_rnorm st))
              (snd (st_rnorm st))]
      else [])) /\
  (psi_sor_vare_poisson comm obj fepsilon rho_elec psi0 its = Returned e st ->
   (e <> MaxIterationsReached ->
    exists n, (0 <= n < psi_maxits obj)%Z /\
      st_log st
      = if (Z.rem its (psi_nfreq obj) =? 0)%Z
        then [vare_converged e
                (residual_per_site (psi_cs obj) (snd (st_rnorm st))) n]
        else []) /\
   (e = MaxIterationsReached ->
    st_log st
    = if (1 <=? psi_maxits obj)%Z
      then [info_vare_exceeded (psi_maxits obj) (fst (st_rnorm st))
              (snd (st_rnorm st))]
      else [])).
Proof.
  intros _. split.
  - apply psi_sor_poisson_report.
  - apply psi_sor_vare_poisson_report.
Qed.

Lemma one_report_per_run_witness :
  exists st n,
    psi_sor_poisson comm_small (obj_small 0 1 1) (uniform_fields 0)
      (uniform_fields 0) 0
    = Returned ConvergedAbsolute st /\
    st_log st
    = [info_converged_abs
         (residual_per_site cs_small (snd (st_rnorm st))) n].
Proof.
  destruct psi_sor_poisson_rest as [st Hrun].
  assert (Hf : psi_nfreq (obj_small 0 1 1) <> 0%Z) by (simpl; lia).
  destruct (one_report_per_run comm_small (obj_small 0 1 1)
              (uniform_fields 1) (uniform_fields 0) (uniform_fields 0) 0
              ConvergedAbsolute st Hf) as [H _].
  destruct (H Hrun) as [Hc _].
  destruct (Hc ltac:(discriminate)) as (n & _ & _ & Hlog).
  exists st, n. split; [exact Hrun|exact Hlog].
Defined.

(** ** The course of the relaxation parameter *)









(** ** psi_sor_solve *)

(** X5.  [psi_sor_solve] runs exactly one of the two solvers, the one
    for uniform permittivity when the callback is null, and hands on its
    potential and its output; the value it returns is 0 whichever way the
    solver left its loop, the iteration limit included.  With a callback,
    a halo of one layer or more and [nfreq] not zero, the call goes
    through exactly when the three local extents are even: no value of
    [omega] can stop it.  With [nfreq] zero the call does not go through
    once a residual check finds a tolerance met. *)
Theorem psi_sor_solve_returns_zero (comm : comm_t) (obj : psi_t)
    (fepsilon : option fields) (rho_elec psi0 : fields) (its : Z) :
  (forall code psi log,
     psi_sor_solve comm obj fepsilon rho_elec psi0 its
     = Some (code, (psi, log)) <->
     code = 0%Z /\
     exists e st,
       match fepsilon with
       | None => psi_sor_poisson comm obj rho_elec psi0 its
       | Some f => psi_sor_vare_poisson comm obj f rho_elec psi0 its
       end = Returned e st /\
       psi = st_psi st /\ log = st_log st) /\
  (forall f,
     fepsilon = Some f ->
     (1 <= nhalo (psi_cs obj))%Z -> psi_nfreq obj <> 0%Z ->
     (psi_sor_solve comm obj fepsilon rho_elec psi0 its <> None <->
      nlocal_even (psi_cs obj) = true)) /\
  (forall f,
     fepsilon = Some f ->
     psi_sor_vare_poisson comm obj f rho_elec psi0 its
     = Failed DivisionByZero ->
     psi_sor_solve comm obj fepsilon rho_elec psi0 its = None /\
     psi_nfreq obj = 0%Z).
Proof.
  split; [|split].
  - intros code psi log. unfold psi_sor_solve.
    destruct fepsilon as [f|].
    + destruct (psi_sor_vare_poisson comm obj f rho_elec psi0 its)
        as [x|e st]; cbn [solver_effect].
      * split; [discriminate|]. intros (_ & e & st & H & _). discriminate.
      * split.
        -- intros [= <- <- <-]. split; [reflexivity|]. exists e, st. auto.
        -- intros (-> & e' & st' & [= <- <-] & -> & ->). reflexivity.
    + destruct (psi_sor_poisson comm obj rho_elec psi0 its)
        as [x|e st]; cbn [solver_effect].
      * split; [discriminate|]. intros (_ & e & st & H & _). discriminate.
      * split.
        -- intros [= <- <- <-]. split; [reflexivity|]. exists e, st.
           now rewrite app_nil_r.
        -- intros (-> & e' & st' & [= <- <-] & -> & ->).
           now rewrite app_nil_r.
  - intros f -> Hh Hf. unfold psi_sor_solve. split.
    + intros H. destruct (nlocal_even (psi_cs obj)) eqn:Heven;
        [reflexivity|].
      exfalso. apply H. unfold psi_sor_vare_poisson. rewrite Heven.
      reflexivity.
    + intros Heven.
      destruct (psi_sor_vare_poisson_returns comm obj f rho_elec psi0 its
                  Heven (stencil_in_bounds_halo _ Hh) Hf) as (e & st & ->).
      discriminate.
  - intros f -> Hfail. unfold psi_sor_solve. rewrite Hfail.
    split; [reflexivity|].
    destruct (Z.eq_dec (psi_nfreq obj) 0) as [H|H]; [exact H|].
    exfalso. revert Hfail. unfold psi_sor_vare_poisson.
    destruct (negb _); [discriminate|]. destruct (negb _); [discriminate|].
    apply (sor_loop_no_failure _ (fun _ => True)); [| |exact I].
    + intros k s _ Hk.
      apply vare_iteration_fails in Hk. tauto.
    + intros k s _.
      destruct (vare_iteration comm obj f rho_elec _ _ its k s); exact I.
Qed.

Lemma psi_sor_solve_returns_zero_witness :
  psi_sor_solve comm_small (obj_small 0 0 1) (Some (uniform_fields 1))
    (uniform_fields 1) (uniform_fields 0) 0
  <> None.
Proof.
  destruct (psi_sor_solve_returns_zero comm_small (obj_small 0 0 1)
              (Some (uniform_fields 1)) (uniform_fields 1) (uniform_fields 0)
              0) as (_ & H & _).
  apply (H (uniform_fields 1) eq_refl); [simpl; lia | simpl; discriminate |].
  reflexivity.
Defined.



(* ===================================================================== *)
(** * The container of i/o options *)
(* ===================================================================== *)

Module IoOptionsFacts.
Import IoOptions.

Open Scope Z_scope.

(** X8.  [io_options_valid] adds up the results of the three checks:
    its value is the number of checks that pass.  It is 3 exactly when
    the mode is single or multiple, the record format is ascii or binary
    and the version of the metadata is the one that goes with the mode.
    It is 0 exactly when both the mode and the record format are invalid:
    one valid component is enough for a non-zero return, so options with
    an invalid record format can be reported as valid.  A version of the
    metadata that passes its check comes with a valid mode.  The default
    options pass the three checks. *)
Theorem io_options_valid_counts (options : io_options_t) :
  (0 <= io_options_mode_valid (mode options) <= 1 /\
   0 <= io_options_record_format_valid (iorformat options) <= 1 /\
   0 <= io_options_metadata_version_valid options <= 1) /\
  (io_options_valid options = 3 <->
   mode options <> IO_MODE_INVALID /\
   iorformat options <> IO_RECORD_INVALID /\
   ((metadata_version options = IO_METADATA_SINGLE_V1 /\
     mode options = IO_MODE_SINGLE) \/
    (metadata_version options = IO_METADATA_MULTI_V1 /\
     mode options = IO_MODE_MULTIPLE))) /\
  (io_options_valid options = 0 <->
   mode options = IO_MODE_INVALID /\ iorformat options = IO_RECORD_INVALID) /\
  (io_options_metadata_version_valid options = 1 ->
   io_options_mode_valid (mode options) = 1) /\
  io_options_valid io_options_default = 3 /\
  exists wrong,
    iorformat wrong = IO_RECORD_INVALID /\ io_options_valid wrong <> 0.
Proof.
  destruct options as [m f v r a].
  split; [|split; [|split; [|split; [|split]]]].
  - destruct m, f, v; cbn; lia.
  - destruct m, f, v; cbn;
      (split;
       [ intros H;
         first [ discriminate H
               | split; [discriminate|];
                 split; [discriminate|];
                 first [ left; split; reflexivity
                       | right; split; reflexivity ] ]
       | intros (H1 & H2 & [[H3 H4]|[H3 H4]]);
         first [reflexivity | congruence] ]).
  - destruct m, f, v; cbn; split; try discriminate; try tauto;
      intros [H1 H2]; discriminate.
  - destruct m, v; cbn; intros H; try reflexivity; discriminate.
  - reflexivity.
  - exists (mk_io_options IO_MODE_SINGLE IO_RECORD_INVALID
              IO_METADATA_SINGLE_V1 0 0).
    split; [reflexivity|]. cbn. discriminate.
Qed.

Lemma io_options_valid_counts_witness :
  io_options_mode_valid (mode io_options_default) = 1.
Proof.
  destruct (io_options_valid_counts io_options_default)
    as (_ & _ & _ & H & _).
  apply H. reflexivity.
Defined.

End IoOptionsFacts.

(* ===================================================================== *)
(** * The one-dimensional reference problem of the unit test *)
(* ===================================================================== *)

Module TestPsiSorFacts.
Import TestPsiSor.

Open Scope R_scope.

Lemma for_0_below_In (nz k : Z) :
  In k (for_0_below nz) <-> (0 <= k < nz)%Z.
Proof.
  unfold for_0_below. rewrite for_values_In by lia. split.
  - intros (t & Ht & -> & Hx). lia.
  - intros [H0 Hn]. exists (Z.to_nat k). split; [lia|]. split; lia.
Qed.

Lemma for_0_below_NoDup (nz : Z) : NoDup (for_0_below nz).
Proof. unfold for_0_below. apply for_values_NoDup. lia. Qed.

Lemma neighbours_in_row (nz k : Z) :
  (2 <= nz)%Z -> (0 <= k < nz)%Z ->
  (0 <= km1_of nz k < nz)%Z /\ (0 <= kp1_of nz k < nz)%Z.
Proof.
  intros Hn Hk. unfold kp1_of, km1_of.
  destruct (Z.eqb_spec k 0); destruct (Z.eqb_spec k (nz - 1)); lia.
Qed.

(** The assignments to a row leave the other rows alone. *)
Lemma matrix_row_other (nz : Z) (epsilon : Z -> R) (a : field) (k0 k j : Z) :
  (2 <= nz)%Z -> (0 <= k0 < nz)%Z -> (0 <= k < nz)%Z -> (0 <= j < nz)%Z ->
  k0 <> k ->
  matrix_row nz epsilon a k0 (k * nz + j)%Z = a (k * nz + j)%Z.
Proof.
  intros Hn Hk0 Hk Hj Hne.
  destruct (neighbours_in_row nz k0 Hn Hk0) as [Hm Hp].
  unfold matrix_row, upd.
  repeat match goal with
         | |- context [(?x =? ?y)%Z] => destruct (Z.eqb_spec x y)
         end; try reflexivity; exfalso; nia.
Qed.

Lemma fold_rows_other (nz : Z) (epsilon : Z -> R) (l : list Z) :
  forall (a : field) (k j : Z),
    (2 <= nz)%Z -> (forall k0, In k0 l -> (0 <= k0 < nz)%Z) ->
    (0 <= k < nz)%Z -> (0 <= j < nz)%Z -> ~ In k l ->
    fold_left (matrix_row nz epsilon) l a (k * nz + j)%Z = a (k * nz + j)%Z.
Proof.
  induction l as [|k0 l IH]; intros a k j Hn Hl Hk Hj Hnot; cbn [fold_left].
  - reflexivity.
  - rewrite IH; try assumption.
    + apply matrix_row_other; try assumption.
      * apply Hl. now left.
      * intros ->. apply Hnot. now left.
    + intros k1 H1. apply Hl. now right.
    + intros H. apply Hnot. now right.
Qed.

(** What the three assignments leave in the row they are made to does
    not depend on what the matrix held in the other rows. *)
Lemma matrix_row_same (nz : Z) (epsilon : Z -> R) (a a' : field) (k j : Z) :
  a (k * nz + j)%Z = a' (k * nz + j)%Z ->
  matrix_row nz epsilon a k (k * nz + j)%Z
  = matrix_row nz epsilon a' k (k * nz + j)%Z.
Proof.
  intros H. unfold matrix_row, upd.
  repeat match goal with
         | |- context [(?x =? ?y)%Z] => destruct (Z.eqb_spec x y)
         end; try reflexivity; exact H.
Qed.

Lemma fold_rows_at (nz : Z) (epsilon : Z -> R) (l : list Z) :
  forall (a : field) (k j : Z),
    (2 <= nz)%Z -> (forall k0, In k0 l -> (0 <= k0 < nz)%Z) ->
    (0 <= j < nz)%Z -> NoDup l -> In k l ->
    fold_left (matrix_row nz epsilon) l a (k * nz + j)%Z
    = matrix_row nz epsilon a k (k * nz + j)%Z.
Proof.
  induction l as [|k0 l IH]; intros a k j Hn Hl Hj Hnd Hin; [contradiction|].
  cbn [fold_left]. inversion Hnd as [|x l' Hk0 Hnd']; subst.
  assert (Hl' : forall k1, In k1 l -> (0 <= k1 < nz)%Z)
    by (intros k1 H1; apply Hl; now right).
  destruct (Z.eq_dec k0 k) as [->|Hne].
  - apply fold_rows_other; try assumption. apply Hl. now left.
  - destruct Hin as [E|Hin]; [contradiction|].
    rewrite IH by assumption.
    apply matrix_row_same. apply matrix_row_other; try assumption.
    + apply Hl. now left.
    + now apply Hl'.
Qed.

(** An element of the matrix, from the three assignments to its row. *)
Lemma charge1_matrix_at (nz : Z) (epsilon : Z -> R) (k j : Z) :
  (2 <= nz)%Z -> (0 <= k < nz)%Z -> (0 <= j < nz)%Z ->
  charge1_matrix nz epsilon (k * nz + j)%Z
  = if (j =? k)%Z then - (eph nz epsilon k + emh nz epsilon k)
    else if ((j =? k + 1) || (j =? k - 1))%Z
         then (1/2) * (epsilon k + epsilon j)
         else 0.
Proof.
  intros Hn Hk Hj. unfold charge1_matrix.
  rewrite fold_rows_at; try assumption.
  - unfold matrix_row, upd, eph, emh, kp1_of, km1_of.
    destruct (Z.eqb_spec k 0); destruct (Z.eqb_spec k (nz - 1)).
    all: repeat match goal with
           | |- context [(?x =? ?y)%Z] => destruct (Z.eqb_spec x y)
           end; cbn [orb]; try reflexivity; try (exfalso; nia);
      subst;
      repeat match goal with
             | H : (?k * ?n + ?x = ?k * ?n + ?y)%Z |- _ =>
                 assert (x = y) by lia; clear H; subst
             end;
      try (f_equal; ring); try ring; try (exfalso; lia).
  - intros k0 H0. now apply for_0_below_In.
  - apply for_0_below_NoDup.
  - now apply for_0_below_In.
Qed.

(** X9.  For [nz >= 2] the matrix that [test_charge1_exact] hands to
    the linear solver is tridiagonal and symmetric: off the diagonal an
    element next to it is the mean of the permittivities of the two rows
    it couples, and every other element is the zero left by [calloc].
    The elements of a row other than the first and the last add up to
    zero.  In the first and in the last row the one neighbour is counted
    twice in the diagonal, which is minus twice the element next to it:
    the potential is held at zero beyond both ends. *)
Theorem charge1_matrix_tridiagonal (nz : Z) (epsilon : Z -> R) (k j : Z) :
  (2 <= nz)%Z -> (0 <= k < nz)%Z -> (0 <= j < nz)%Z ->
  (k <> j ->
   charge1_matrix nz epsilon (k * nz + j)%Z
   = if ((j =? k + 1) || (j =? k - 1))%Z
     then (1/2) * (epsilon k + epsilon j)
     else 0) /\
  charge1_matrix nz epsilon (k * nz + j)%Z
  = charge1_matrix nz epsilon (j * nz + k)%Z /\
  ((0 < k < nz - 1)%Z ->
   charge1_matrix nz epsilon (k * nz + (k - 1))%Z
   + charge1_matrix nz epsilon (k * nz + k)%Z
   + charge1_matrix nz epsilon (k * nz + (k + 1))%Z = 0) /\
  charge1_matrix nz epsilon (0 * nz + 0)%Z
  = - 2 * charge1_matrix nz epsilon (0 * nz + 1)%Z /\
  charge1_matrix nz epsilon ((nz - 1) * nz + (nz - 1))%Z
  = - 2 * charge1_matrix nz epsilon ((nz - 1) * nz + (nz - 2))%Z.
Proof.
  intros Hn Hk Hj. split; [|split; [|split; [|split]]].
  - intros Hne. rewrite charge1_matrix_at by assumption.
    destruct (Z.eqb_spec j k); [congruence|reflexivity].
  - rewrite !charge1_matrix_at by assumption.
    repeat match goal with
           | |- context [(?x =? ?y)%Z] => destruct (Z.eqb_spec x y)
           end; cbn [orb]; subst; try reflexivity; try ring; exfalso; lia.
  - intros Hin. rewrite !charge1_matrix_at by lia.
    unfold eph, emh, kp1_of, km1_of.
    repeat match goal with
           | |- context [(?x =? ?y)%Z] => destruct (Z.eqb_spec x y)
           end; cbn [orb]; try (exfalso; lia). ring.
  - rewrite !charge1_matrix_at by lia.
    unfold eph, emh, kp1_of, km1_of.
    repeat match goal with
           | |- context [(?x =? ?y)%Z] => destruct (Z.eqb_spec x y)
           end; cbn [orb]; try (exfalso; lia); cbn [Z.add]; ring.
  - rewrite !charge1_matrix_at by lia.
    unfold eph, emh, kp1_of, km1_of.
    repeat match goal with
           | |- context [(?x =? ?y)%Z] => destruct (Z.eqb_spec x y)
           end; cbn [orb]; try (exfalso; lia);
      replace (nz - 1 - 1)%Z with (nz - 2)%Z by lia; ring.
Qed.

Lemma charge1_matrix_tridiagonal_witness :
  charge1_matrix 2 (fun _ => 1) (0 * 2 + 1)%Z
  = charge1_matrix 2 (fun _ => 1) (1 * 2 + 0)%Z.
Proof.
  apply (charge1_matrix_tridiagonal 2 (fun _ => 1) 0 1); lia.
Defined.

(** X10.  The second check of [test_charge1_exact] measures the residual
    of the solver.  With the permittivity of [psi_sor_poisson] given by
    the callback at every site, [eunit*beta = 1], and a potential that
    takes at the four neighbours of the site (1, 1, 1+k) along X and Y
    the value it has at the site, [rho0 - rhodiff] is the residual
    [epsilon*dpsi + eunit*beta*rho_elec] of the solver at that site, so
    that the assertion [fabs(rho0 - rhodiff) < tolerance] holds exactly
    when that residual is below the tolerance. *)
Theorem difference_check_is_residual (obj : psi_t) (nz : Z)
    (fepsilon rho_elec psi : field) (tolerance : R) (k : Z) :
  let cs := psi_cs obj in
  let index := cs_index cs 1 1 (1 + k) in
  (forall a, fepsilon a = psi_epsilon obj) ->
  psi_unit_charge obj * psi_beta obj = 1 ->
  psi (index + xs cs)%Z = psi index -> psi (index - xs cs)%Z = psi index ->
  psi (index + ys cs)%Z = psi index -> psi (index - ys cs)%Z = psi index ->
  rho_elec index - rhodiff cs nz (epsilon_of cs fepsilon) psi k
  = residual_at obj rho_elec psi index /\
  (difference_check cs nz (epsilon_of cs fepsilon) rho_elec psi tolerance k
   = true <->
   Rabs (residual_at obj rho_elec psi index) < tolerance).
Proof.
  intros cs index Heps Hunit Hxp Hxm Hyp Hym.
  assert (E : rho_elec index - rhodiff cs nz (epsilon_of cs fepsilon) psi k
              = residual_at obj rho_elec psi index).
  { unfold rhodiff, residual_at, dpsi, addr_rank0, eph, emh, epsilon_of.
    cbv zeta. fold cs. fold index.
    rewrite !Heps, Hxp, Hxm, Hyp, Hym.
    replace (psi_unit_charge obj * psi_beta obj * rho_elec index)
      with (rho_elec index) by (rewrite Hunit; ring).
    unfold zs. field. }
  split; [exact E|].
  unfold difference_check. cbv zeta. fold cs. fold index.
  rewrite E. apply Rltb_true.
Qed.

Lemma difference_check_is_residual_witness :
  difference_check cs_small 2
    (epsilon_of cs_small (uniform_fields 1 0%nat))
    (uniform_fields 0 0%nat) (uniform_fields 5 0%nat) 1 0
  = true.
Proof.
  apply (difference_check_is_residual (obj_small 0 1 1) 2
           (uniform_fields 1 0%nat) (uniform_fields 0 0%nat)
           (uniform_fields 5 0%nat) 1 0);
    try reflexivity.
  - simpl. lra.
  - unfold residual_at, dpsi, uniform_fields. simpl.
    replace (1 * (5 + 5 + 5 + 5 + 5 + 5 - 6 * 5) + 1 * 1 * 0) with 0 by ring.
    rewrite Rabs_R0. lra.
Defined.

(** ** The charge distribution of the reference problem *)

Lemma fold_upd_const (A : Type) (ix : A -> Z) (v : R) (l : list A) :
  forall (f0 : field) (a : Z),
    fold_left (fun f c => upd f (ix c) v) l f0 a
    = if existsb (fun c => (ix c =? a)%Z) l then v else f0 a.
Proof.
  induction l as [|c l IH]; intros f0 a; cbn [fold_left existsb].
  - reflexivity.
  - rewrite IH. unfold upd. rewrite (Z.eqb_sym a (ix c)).
    destruct (existsb _ l); destruct (ix c =? a)%Z; reflexivity.
Qed.

Lemma charge1_interior_fields (cs : cs_t) (rho1 : R) (q : charge_t) :
  ch_psi (charge1_interior cs rho1 q)
  = fold_left (fun f c => upd f (index_of cs c) 0) (all_coords cs) (ch_psi q)
  /\
  ch_rho0 (charge1_interior cs rho1 q)
  = fold_left (fun f c => upd f (index_of cs c) 0) (all_coords cs) (ch_rho0 q)
  /\
  ch_rho1 (charge1_interior cs rho1 q)
  = fold_left (fun f c => upd f (index_of cs c) rho1) (all_coords cs)
      (ch_rho1 q).
Proof.
  unfold charge1_interior. generalize (all_coords cs) as l. intros l.
  revert q. induction l as [|c l IH]; intros q; cbn [fold_left].
  - auto.
  - destruct (IH (mk_charge (upd (ch_psi q) (index_of cs c) 0)
                    (upd (ch_rho0 q) (index_of cs c) 0)
                    (upd (ch_rho1 q) (index_of cs c) rho1)))
      as (-> & -> & ->).
    auto.
Qed.

Lemma charge1_edge_fields (cs : cs_t) (kc : Z) (rho0 : R) (q : charge_t) :
  ch_psi (charge1_edge cs kc rho0 q) = ch_psi q /\
  ch_rho0 (charge1_edge cs kc rho0 q)
  = fold_left (fun f c => upd f (index_of cs c) rho0) (plane_coords cs kc)
      (ch_rho0 q) /\
  ch_rho1 (charge1_edge cs kc rho0 q)
  = fold_left (fun f c => upd f (index_of cs c) 0) (plane_coords cs kc)
      (ch_rho1 q).
Proof.
  unfold charge1_edge. generalize (plane_coords cs kc) as l. intros l.
  revert q. induction l as [|c l IH]; intros q; cbn [fold_left].
  - auto.
  - destruct (IH (mk_charge (ch_psi q)
                    (upd (ch_rho0 q) (index_of cs c) rho0)
                    (upd (ch_rho1 q) (index_of cs c) 0)))
      as (-> & -> & ->).
    auto.
Qed.

Lemma plane_coords_In (cs : cs_t) (kc : Z) (c : coord) :
  In c (plane_coords cs kc) <->
  (1 <= fst (fst c) <= nlocalX cs)%Z /\ (1 <= snd (fst c) <= nlocalY cs)%Z /\
  snd c = kc.
Proof.
  destruct c as [[i j] k]. unfold plane_coords. cbn [fst snd].
  rewrite in_flat_map. split.
  - intros (i' & Hi & H). rewrite in_map_iff in H.
    destruct H as (j' & [= <- <- <-] & Hj).
    rewrite for_1_to_In in Hi, Hj. auto.
  - intros (Hi & Hj & <-). exists i. rewrite for_1_to_In. split; [assumption|].
    rewrite in_map_iff. exists j. rewrite for_1_to_In. auto.
Qed.

(** The owned sites are written by the first loop. *)
Lemma written_interior (cs : cs_t) (c : coord) :
  interior cs c ->
  existsb (fun c' => (index_of cs c' =? index_of cs c)%Z) (all_coords cs)
  = true.
Proof.
  intros Hc. apply existsb_exists. exists c.
  split; [now apply all_coords_In | apply Z.eqb_refl].
Qed.

(** An owned site is written by the loop over a plane exactly when it
    lies in the plane. *)
Lemma written_plane (cs : cs_t) (kc : Z) (c : coord) :
  (0 <= nhalo cs)%Z -> interior cs c -> (1 <= kc <= nlocalZ cs)%Z ->
  existsb (fun c' => (index_of cs c' =? index_of cs c)%Z) (plane_coords cs kc)
  = (snd c =? kc)%Z.
Proof.
  intros Hh Hc Hk. destruct (Z.eqb_spec (snd c) kc) as [E|E].
  - apply existsb_exists. exists c. split; [|apply Z.eqb_refl].
    apply plane_coords_In. destruct c as [[i j] k].
    unfold interior in Hc. cbn [fst snd] in *. tauto.
  - apply not_true_is_false. intros H. apply existsb_exists in H.
    destruct H as (c' & Hin & Heq). apply Z.eqb_eq in Heq.
    apply plane_coords_In in Hin. destruct Hin as (Hi & Hj & Hk').
    assert (c' = c).
    { apply (cs_index_inj cs); [| |exact Heq].
      - destruct c' as [[i j] k]. unfold allocated. cbn [fst snd] in *. lia.
      - now apply interior_allocated. }
    subst c'. contradiction.
Qed.

Lemma test_charge1_set_at (cs : cs_t) (cartsz_z cartcoords_z : Z)
    (q : charge_t) (c : coord) :
  (0 <= nhalo cs)%Z -> interior cs c ->
  let q' := test_charge1_set cs cartsz_z cartcoords_z q in
  ch_psi q' (index_of cs c) = 0 /\
  ch_rho0 q' (index_of cs c)
  = (if on_edge cs cartsz_z cartcoords_z (snd c) then edge_value cs else 0) /\
  ch_rho1 q' (index_of cs c)
  = (if on_edge cs cartsz_z cartcoords_z (snd c) then 0
     else interior_value cs).
Proof.
  intros Hh Hc q'. subst q'. unfold test_charge1_set, on_edge. cbv zeta.
  assert (Hz : (1 <= nlocalZ cs)%Z).
  { destruct c as [[i j] k]. unfold interior in Hc. lia. }
  destruct (charge1_interior_fields cs (interior_value cs) q)
    as (Ep & E0 & E1).
  set (q1 := charge1_interior cs (interior_value cs) q) in *.
  assert (H1 : ch_psi q1 (index_of cs c) = 0 /\
               ch_rho0 q1 (index_of cs c) = 0 /\
               ch_rho1 q1 (index_of cs c) = interior_value cs).
  { rewrite Ep, E0, E1, !fold_upd_const, !written_interior by assumption.
    auto. }
  destruct H1 as (P1 & R01 & R11).
  set (q2 := if (cartcoords_z =? 0)%Z
             then charge1_edge cs 1 (edge_value cs) q1 else q1).
  assert (H2 : ch_psi q2 (index_of cs c) = 0 /\
               ch_rho0 q2 (index_of cs c)
               = (if ((cartcoords_z =? 0) && (snd c =? 1))%Z
                  then edge_value cs else 0) /\
               ch_rho1 q2 (index_of cs c)
               = (if ((cartcoords_z =? 0) && (snd c =? 1))%Z
                  then 0 else interior_value cs)).
  { unfold q2. destruct (cartcoords_z =? 0)%Z; cbn [andb]; [|auto].
    destruct (charge1_edge_fields cs 1 (edge_value cs) q1)
      as (-> & -> & ->).
    rewrite !fold_upd_const, !written_plane by (try assumption; lia).
    rewrite P1, R01, R11. destruct (snd c =? 1)%Z; auto. }
  destruct H2 as (P2 & R02 & R12).
  destruct (cartcoords_z =? cartsz_z - 1)%Z; cbn [andb].
  - destruct (charge1_edge_fields cs (nlocalZ cs) (edge_value cs) q2)
      as (-> & -> & ->).
    rewrite !fold_upd_const, !written_plane by (try assumption; lia).
    rewrite P2, R02, R12.
    destruct ((cartcoords_z =? 0) && (snd c =? 1))%Z;
      destruct (snd c =? nlocalZ cs)%Z; auto.
  - rewrite P2, R02, R12, !orb_false_r. auto.
Qed.

Lemma sum_over_app (A : Type) (f : A -> R) (l l' : list A) :
  sum_over f (l ++ l') = sum_over f l + sum_over f l'.
Proof.
  induction l as [|a l IH]; simpl; [lra|]. rewrite IH. lra.
Qed.

Lemma sum_over_flat_map (A B : Type) (f : B -> R) (h : A -> list B)
    (l : list A) :
  sum_over f (flat_map h l) = sum_over (fun a => sum_over f (h a)) l.
Proof.
  induction l as [|a l IH]; simpl; [reflexivity|].
  now rewrite sum_over_app, IH.
Qed.

Lemma sum_over_plus (A : Type) (f g : A -> R) (l : list A) :
  sum_over (fun a => f a + g a) l = sum_over f l + sum_over g l.
Proof.
  induction l as [|a l IH]; simpl; [lra|]. rewrite IH. lra.
Qed.

Lemma sum_over_const (A : Type) (v : R) (l : list A) :
  sum_over (fun _ => v) l = INR (length l) * v.
Proof.
  induction l as [|a l IH]; [simpl; lra|].
  cbn [sum_over fold_right length] in *. unfold sum_over in IH.
  rewrite IH, S_INR. lra.
Qed.

(** A quantity carried by one element of a list without repetition. *)
Lemma sum_over_indicator (x : Z) (v : R) (l : list Z) :
  NoDup l -> In x l ->
  sum_over (fun k => if (k =? x)%Z then v else 0) l = v.
Proof.
  induction 1 as [|a l Ha Hl IH]; intros Hin; [contradiction|]. simpl.
  destruct (Z.eqb_spec a x) as [->|Hne].
  - rewrite (sum_over_ext_in _ _ (fun _ => 0)).
    + rewrite sum_over_const. lra.
    + intros b Hb. destruct (Z.eqb_spec b x); [subst; contradiction|].
      reflexivity.
  - destruct Hin as [E|Hin]; [contradiction|]. rewrite IH by assumption. lra.
Qed.

Lemma for_values_length (fuel : nat) :
  forall i hi, (i + Z.of_nat fuel = hi + 1)%Z ->
    length (for_values fuel i hi 1) = fuel.
Proof.
  induction fuel as [|fuel IH]; intros i hi H; cbn [for_values].
  - reflexivity.
  - destruct (Z.leb_spec i hi); [|lia]. cbn [length]. f_equal.
    apply IH. lia.
Qed.

Lemma for_1_to_length (n : Z) :
  (0 <= n)%Z -> INR (length (for_1_to n)) = IZR n.
Proof.
  intros Hn. unfold for_1_to. rewrite for_values_length by lia.
  rewrite INR_IZR_INZ. f_equal. lia.
Qed.

(** The sum over the owned sites of a quantity that depends on the third
    coordinate only. *)
Lemma sum_over_planes (cs : cs_t) (g : Z -> R) :
  (0 <= nlocalX cs)%Z -> (0 <= nlocalY cs)%Z ->
  sum_over (fun c : Z * Z * Z => g (snd c)) (all_coords cs)
  = IZR (nlocalX cs) * IZR (nlocalY cs)
    * sum_over g (for_1_to (nlocalZ cs)).
Proof.
  intros Hx Hy. unfold all_coords.
  rewrite sum_over_flat_map.
  rewrite (sum_over_ext _ _
             (fun _ => IZR (nlocalY cs) * sum_over g (for_1_to (nlocalZ cs)))).
  - rewrite sum_over_const, for_1_to_length by assumption. ring.
  - intros ic. rewrite sum_over_flat_map.
    rewrite (sum_over_ext _ _
               (fun _ => sum_over g (for_1_to (nlocalZ cs)))).
    + now rewrite sum_over_const, for_1_to_length.
    + intros jc. now rewrite sum_over_map.
Qed.

(** The sum along Z of a quantity that takes one value at both ends and
    another one in between. *)
Lemma sum_over_ends (nz : Z) (a b : R) :
  (2 <= nz)%Z ->
  sum_over (fun k => if ((k =? 1) || (k =? nz))%Z then a else b)
           (for_1_to nz)
  = 2 * a + (IZR nz - 2) * b.
Proof.
  intros Hn.
  rewrite (sum_over_ext_in _ _
             (fun k => (b + (if (k =? 1)%Z then a - b else 0))
                       + (if (k =? nz)%Z then a - b else 0))).
  - rewrite !sum_over_plus, sum_over_const, for_1_to_length by lia.
    rewrite !sum_over_indicator;
      try (apply for_values_NoDup; lia); try (apply for_1_to_In; lia).
    ring.
  - intros k _. destruct (Z.eqb_spec k 1); destruct (Z.eqb_spec k nz);
      cbn [orb]; try lra. lia.
Qed.

(** X11.  [test_charge1_set] leaves at every owned site a vanishing
    potential and one of the two densities only: [rho[0] = rho0] and
    [rho[1] = 0] on the plane [kc = 1] of the ranks at the bottom of the
    process grid along Z and on the plane [kc = nlocal[Z]] of the ranks
    at its top, [rho[0] = 0] and [rho[1] = rho1] elsewhere.  On a single
    rank whose extents are the integer extents of the system, at least 3
    along Z, each of the two densities sums to 1 over the lattice (the
    values the test then checks), so that with valencies +1 and -1 the
    system carries no net charge. *)
Theorem test_charge1_set_neutral (cs : cs_t) (cartsz_z cartcoords_z : Z)
    (q : charge_t) :
  (0 <= nhalo cs)%Z ->
  let q' := test_charge1_set cs cartsz_z cartcoords_z q in
  (forall c, interior cs c ->
     ch_psi q' (index_of cs c) = 0 /\
     ch_rho0 q' (index_of cs c)
     = (if on_edge cs cartsz_z cartcoords_z (snd c) then edge_value cs
        else 0) /\
     ch_rho1 q' (index_of cs c)
     = (if on_edge cs cartsz_z cartcoords_z (snd c) then 0
        else interior_value cs)) /\
  (cartsz_z = 1%Z -> cartcoords_z = 0%Z ->
   (1 <= nlocalX cs)%Z -> (1 <= nlocalY cs)%Z -> (3 <= nlocalZ cs)%Z ->
   ltot cs = (IZR (nlocalX cs), IZR (nlocalY cs), IZR (nlocalZ cs)) ->
   sum_over (fun c => ch_rho0 q' (index_of cs c)) (all_coords cs) = 1 /\
   sum_over (fun c => ch_rho1 q' (index_of cs c)) (all_coords cs) = 1).
Proof.
  intros Hh q'. subst q'. split.
  - intros c Hc. now apply test_charge1_set_at.
  - intros -> -> Hx Hy Hz HL.
    assert (Lx : ltotX cs = IZR (nlocalX cs)) by (unfold ltotX; now rewrite HL).
    assert (Ly : ltotY cs = IZR (nlocalY cs)) by (unfold ltotY; now rewrite HL).
    assert (Lz : ltotZ cs = IZR (nlocalZ cs)) by (unfold ltotZ; now rewrite HL).
    assert (Px : 1 <= IZR (nlocalX cs)) by now apply (IZR_le 1).
    assert (Py : 1 <= IZR (nlocalY cs)) by now apply (IZR_le 1).
    assert (Pz : 3 <= IZR (nlocalZ cs)) by now apply (IZR_le 3).
    assert (Hedge : forall k,
               on_edge cs 1 0 k = ((k =? 1) || (k =? nlocalZ cs))%Z)
      by (intros k; reflexivity).
    split.
    + rewrite (sum_over_ext_in _ _
                 (fun c => (fun k => if ((k =? 1) || (k =? nlocalZ cs))%Z
                                     then edge_value cs else 0) (snd c))).
      * cbv beta.
        rewrite (sum_over_planes cs
                   (fun k => if ((k =? 1) || (k =? nlocalZ cs))%Z
                             then edge_value cs else 0)) by lia.
        rewrite sum_over_ends by lia.
        unfold edge_value. rewrite Lx, Ly. field. lra.
      * intros c Hc. apply all_coords_In in Hc.
        destruct (test_charge1_set_at cs 1 0 q c Hh Hc) as (_ & -> & _).
        now rewrite Hedge.
    + rewrite (sum_over_ext_in _ _
                 (fun c => (fun k => if ((k =? 1) || (k =? nlocalZ cs))%Z
                                     then 0 else interior_value cs) (snd c))).
      * cbv beta.
        rewrite (sum_over_planes cs
                   (fun k => if ((k =? 1) || (k =? nlocalZ cs))%Z
                             then 0 else interior_value cs)) by lia.
        rewrite sum_over_ends by lia.
        unfold interior_value. rewrite Lx, Ly, Lz. field. lra.
      * intros c Hc. apply all_coords_In in Hc.
        destruct (test_charge1_set_at cs 1 0 q c Hh Hc) as (_ & _ & ->).
        now rewrite Hedge.
Qed.

Lemma test_charge1_set_neutral_witness :
  sum_over (fun c => ch_rho0 (test_charge1_set cs_column 1 0 charge_none)
                       (index_of cs_column c))
           (all_coords cs_column) = 1 /\
  sum_over (fun c => ch_rho1 (test_charge1_set cs_column 1 0 charge_none)
                       (index_of cs_column c))
           (all_coords cs_column) = 1.
Proof.
  assert (Hh : (0 <= nhalo cs_column)%Z) by (simpl; lia).
  destruct (test_charge1_set_neutral cs_column 1 0 charge_none Hh)
    as [_ H].
  apply H; try reflexivity; unfold nlocalX, nlocalY, nlocalZ; simpl; lia.
Defined.

End TestPsiSorFacts.

(* ===================================================================== *)
(** * The force from the gradient of the chemical potential *)
(* ===================================================================== *)

Module PhiGradMuFacts.
Import PhiGradMu.

Open Scope R_scope.

Lemma fluid_term_sum (nf : nat) (phi0 mum1 mup1 : nat -> R) :
  fluid_term nf phi0 mum1 mup1
  = sum_over (fun n => - phi0 n * (1/2) * (mup1 n - mum1 n)) (seq 0 nf).
Proof.
  unfold fluid_term.
  rewrite (fold_left_sum _ (fun n => - phi0 n * (1/2) * (mup1 n - mum1 n))).
  lra.
Qed.

Lemma sum_over_in (A : Type) (f g : A -> R) (l : list A) :
  (forall a, In a l -> f a = g a) -> sum_over f l = sum_over g l.
Proof.
  intros H. induction l as [|a l IH]; simpl; [reflexivity|].
  rewrite H by now left. rewrite IH; [reflexivity|].
  intros b Hb. apply H. now right.
Qed.

(** The replacement made at a wall, for the order parameters in use. *)
Lemma at_wall_below (nf : nat) (s : map_status) (mu0 mu1 : nat -> R)
    (n : nat) :
  (n < nf)%nat ->
  at_wall nf s mu0 mu1 n = if is_boundary s then mu0 n else mu1 n.
Proof.
  intros Hn. unfold at_wall. destruct (is_boundary s); [|reflexivity].
  apply Nat.ltb_lt in Hn. now rewrite Hn.
Qed.

(** One direction of the kernel with solid, as a sum. *)
Lemma solid_term_sum (nf : nat) (phi0 mu0 mum1 mup1 : nat -> R)
    (mapm1 mapp1 : map_status) :
  solid_term nf phi0 mu0 mum1 mup1 mapm1 mapp1
  = sum_over (fun n => - phi0 n * (1/2)
                       * ((if is_boundary mapp1 then mu0 n else mup1 n)
                          - (if is_boundary mapm1 then mu0 n else mum1 n)))
             (seq 0 nf).
Proof.
  unfold solid_term. cbv zeta.
  rewrite (fold_left_ext _ _ _
             (fun force n =>
                force + - phi0 n * (1/2)
                        * (at_wall nf mapp1 mu0 mup1 n
                           - at_wall nf mapm1 mu0 mum1 n)))
    by (intros; ring).
  rewrite (fold_left_sum _
             (fun n => - phi0 n * (1/2)
                       * (at_wall nf mapp1 mu0 mup1 n
                          - at_wall nf mapm1 mu0 mum1 n))).
  rewrite Rplus_0_l. apply sum_over_in. intros n Hn.
  apply in_seq in Hn. now rewrite !at_wall_below by lia.
Qed.

Lemma solid_term_fluid (nf : nat) (phi0 mu0 mum1 mup1 : nat -> R)
    (mapm1 mapp1 : map_status) :
  is_boundary mapm1 = false -> is_boundary mapp1 = false ->
  solid_term nf phi0 mu0 mum1 mup1 mapm1 mapp1
  = fluid_term nf phi0 mum1 mup1.
Proof.
  intros Hm Hp. now rewrite solid_term_sum, fluid_term_sum, Hm, Hp.
Qed.

(** A launch adds to the force of an owned site what the body gives
    there, once, and leaves the force of every other site alone. *)
Lemma launch_at (cs : cs_t) (body : Z * Z * Z -> vec3) (hydro : Z -> vec3) :
  (0 <= nhalo cs)%Z ->
  (forall c, interior cs c ->
     launch cs body hydro (index_of cs c)
     = hydro_f_local_add hydro (index_of cs c) (body c) (index_of cs c)) /\
  (forall a, (forall c, interior cs c -> index_of cs c <> a) ->
     launch cs body hydro a = hydro a).
Proof.
  intros Hh. unfold launch.
  assert (Hin : forall c, In c (all_coords cs) -> interior cs c)
    by (intros c; apply all_coords_In).
  assert (Hall : forall c, interior cs c -> In c (all_coords cs))
    by (intros c; apply all_coords_In).
  pose proof (all_coords_NoDup cs) as Hnd.
  revert Hin Hall Hnd. generalize (all_coords cs) as l. intros l Hin Hall Hnd.
  assert (G : forall h,
             (forall c, In c l ->
                fold_left (fun h c => hydro_f_local_add h (index_of cs c)
                                        (body c)) l h (index_of cs c)
                = hydro_f_local_add h (index_of cs c) (body c)
                    (index_of cs c)) /\
             (forall a, (forall c, In c l -> index_of cs c <> a) ->
                fold_left (fun h c => hydro_f_local_add h (index_of cs c)
                                        (body c)) l h a = h a)).
  { clear Hall. induction Hnd as [|c0 l Hc0 Hnd IH]; intros h.
    - split; [contradiction|reflexivity].
    - assert (Hin' : forall c, In c l -> interior cs c)
        by (intros c Hc; apply Hin; now right).
      destruct (IH Hin' (hydro_f_local_add h (index_of cs c0) (body c0)))
        as [IH1 IH2].
      cbn [fold_left]. split.
      + intros c [<-|Hc].
        * rewrite IH2; [reflexivity|].
          intros c' Hc' E. apply Hc0.
          assert (c' = c0); [|now subst].
          apply (cs_index_inj cs); try assumption;
            apply interior_allocated; try assumption;
            [apply Hin; now right | apply Hin; now left].
        * rewrite IH1 by assumption.
          unfold hydro_f_local_add. rewrite Z.eqb_refl.
          destruct (Z.eqb_spec (index_of cs c) (index_of cs c0)) as [E|E];
            [|reflexivity].
          exfalso. apply Hc0.
          assert (c = c0); [|now subst].
          apply (cs_index_inj cs); try assumption;
            apply interior_allocated; try assumption;
            [apply Hin; now right | apply Hin; now left].
      + intros a Ha. rewrite IH2 by (intros c Hc; apply Ha; now right).
        unfold hydro_f_local_add.
        destruct (Z.eqb_spec a (index_of cs c0)) as [E|E]; [|reflexivity].
        exfalso. apply (Ha c0); [now left|now symmetry]. }
  destruct (G hydro) as [G1 G2]. split.
  - intros c Hc. apply G1. now apply Hall.
  - intros a Ha. apply G2. intros c Hc. apply Ha. now apply Hin.
Qed.



Lemma Rnonzero_false (a : R) : Rnonzero a = false <-> a = 0.
Proof.
  unfold Rnonzero. destruct (Req_dec_T a 0); split; intros; auto;
    [discriminate | contradiction].
Qed.



(** The component of the force of the kernel with solid along an axis:
    the difference is taken between the chemical potentials of the two
    neighbours along that axis, that of a neighbour in the solid being
    replaced by the one of the site. *)
Lemma solid_force_component (kd : kernel_data) (c : Z * Z * Z)
    (ia : Cartesian.axis) :
  let cs := kd_cs kd in
  let index0 := index_of cs c in
  let below := neighbour cs ia (-1) c in
  let above := neighbour cs ia 1 c in
  component ia (solid_force kd c)
  = sum_over
      (fun n => - kd_phi kd index0 n * (1/2)
                * ((if is_boundary (kd_map kd above) then kd_mu kd index0 n
                    else kd_mu kd above n)
                   - (if is_boundary (kd_map kd below) then kd_mu kd index0 n
                      else kd_mu kd below n)))
      (seq 0 (kd_nf kd)).
Proof.
  destruct c as [[ic jc] kc]. cbv zeta.
  unfold solid_force, neighbour, index_of. cbv zeta.
  destruct ia; cbn [component fst snd]; now rewrite solid_term_sum.
Qed.

Lemma fluid_force_component (kd : kernel_data) (c : Z * Z * Z)
    (ia : Cartesian.axis) :
  let cs := kd_cs kd in
  component ia (fluid_force kd c)
  = fluid_term (kd_nf kd) (kd_phi kd (index_of cs c))
      (kd_mu kd (neighbour cs ia (-1) c)) (kd_mu kd (neighbour cs ia 1 c)).
Proof.
  destruct c as [[ic jc] kc]. cbv zeta.
  unfold fluid_force, neighbour, index_of. cbv zeta.
  destruct ia; reflexivity.
Qed.

(** X12.  [phi_grad_mu_solid_kernel] treats a wall by giving a
    neighbour in the solid the chemical potential of the site itself.
    At a site none of whose six neighbours is marked [MAP_BOUNDARY] it
    computes the force of [phi_grad_mu_fluid_kernel], so that the two
    drivers add the same force everywhere when no site is so marked.
    Along each of the three axes: with neither neighbour in the solid
    the component is that of [phi_grad_mu_fluid_kernel]; with both in
    the solid it vanishes; with the neighbour below only, the difference
    is taken between the neighbour above and the site itself; with the
    neighbour above only, between the site itself and the neighbour
    below. *)
Theorem solid_kernel_walls (kd : kernel_data) (c : Z * Z * Z)
    (ia : Cartesian.axis) :
  let cs := kd_cs kd in
  let index0 := index_of cs c in
  let below := neighbour cs ia (-1) c in
  let above := neighbour cs ia 1 c in
  let wall a := kd_map kd a = MAP_BOUNDARY in
  ((forall a, In a (stencil_addresses cs index0) -> ~ wall a) ->
   solid_force kd c = fluid_force kd c) /\
  ((forall a, ~ wall a) ->
   forall hydro a,
     phi_grad_mu_solid kd hydro a = phi_grad_mu_fluid kd hydro a) /\
  (~ wall below -> ~ wall above ->
   component ia (solid_force kd c) = component ia (fluid_force kd c)) /\
  (wall below -> wall above -> component ia (solid_force kd c) = 0) /\
  (wall below -> ~ wall above ->
   component ia (solid_force kd c)
   = fluid_term (kd_nf kd) (kd_phi kd index0) (kd_mu kd index0)
       (kd_mu kd above)) /\
  (~ wall below -> wall above ->
   component ia (solid_force kd c)
   = fluid_term (kd_nf kd) (kd_phi kd index0) (kd_mu kd below)
       (kd_mu kd index0)).
Proof.
  cbv zeta.
  assert (Hw : forall a, kd_map kd a <> MAP_BOUNDARY ->
                         is_boundary (kd_map kd a) = false)
    by (intros a H; destruct (kd_map kd a); try reflexivity; congruence).
  split; [|split; [|split; [|split; [|split]]]].
  - intros Hmap. destruct c as [[ic jc] kc].
    unfold solid_force, fluid_force, index_of in *. cbv zeta.
    assert (E : forall i j k,
               In (cs_index (kd_cs kd) i j k)
                  (stencil_addresses (kd_cs kd)
                     (cs_index (kd_cs kd) ic jc kc)) ->
               is_boundary (kd_map kd (cs_index (kd_cs kd) i j k)) = false)
      by (intros i j k H; apply Hw; now apply Hmap).
    rewrite !solid_term_fluid; try reflexivity; apply E;
      unfold stencil_addresses, cs_index; cbn [In];
      repeat (first [left; ring | right]).
  - intros Hmap hydro a. unfold phi_grad_mu_solid, phi_grad_mu_fluid, launch.
    assert (E : forall c', solid_force kd c' = fluid_force kd c').
    { intros [[i j] k]. unfold solid_force, fluid_force. cbv zeta.
      now rewrite !solid_term_fluid by (apply Hw; apply Hmap). }
    rewrite (fold_left_ext _ _ _
               (fun h c' => hydro_f_local_add h (index_of (kd_cs kd) c')
                              (fluid_force kd c')));
      [reflexivity|].
    intros h c'. now rewrite E.
  - intros Hb Ha.
    rewrite solid_force_component, fluid_force_component, fluid_term_sum.
    cbv zeta. now rewrite (Hw _ Hb), (Hw _ Ha).
  - intros Hb Ha. rewrite solid_force_component. cbv zeta.
    rewrite Hb, Ha. cbn [is_boundary].
    apply sum_over_zero. intros n _. ring.
  - intros Hb Ha. rewrite solid_force_component, fluid_term_sum. cbv zeta.
    rewrite (Hw _ Ha), Hb. now cbn [is_boundary].
  - intros Hb Ha. rewrite solid_force_component, fluid_term_sum. cbv zeta.
    rewrite (Hw _ Hb), Ha. now cbn [is_boundary].
Qed.

(** The addresses of the small lattice, computed. *)
Ltac small_addresses :=
  repeat match goal with
  | |- context [cs_index cs_small ?i ?j ?k] =>
      let v := eval vm_compute in (cs_index cs_small i j k) in
      change (cs_index cs_small i j k) with v
  end.

(** Around the site (1,1,1) of [kd_mixed] the solid holds the neighbour
    below along X, the neighbour above along Y and both neighbours along
    Z: the force is [-(37 - 21)/2] along X, [-(21 - 17)/2] along Y and
    zero along Z. *)
Lemma solid_kernel_walls_witness :
  solid_force kd_mixed (1, 1, 1)%Z = (-8, -2, 0).
Proof.
  assert (HX : component Cartesian.X (solid_force kd_mixed (1, 1, 1)%Z) = -8).
  { destruct (solid_kernel_walls kd_mixed (1, 1, 1)%Z Cartesian.X)
      as (_ & _ & _ & _ & H & _).
    rewrite H; [|reflexivity|discriminate].
    unfold fluid_term. simpl. small_addresses. lra. }
  assert (HY : component Cartesian.Y (solid_force kd_mixed (1, 1, 1)%Z) = -2).
  { destruct (solid_kernel_walls kd_mixed (1, 1, 1)%Z Cartesian.Y)
      as (_ & _ & _ & _ & _ & H).
    rewrite H; [|discriminate|reflexivity].
    unfold fluid_term. simpl. small_addresses. lra. }
  assert (HZ : component Cartesian.Z (solid_force kd_mixed (1, 1, 1)%Z) = 0).
  { destruct (solid_kernel_walls kd_mixed (1, 1, 1)%Z Cartesian.Z)
      as (_ & _ & _ & H & _).
    apply H; reflexivity. }
  destruct (solid_force kd_mixed (1, 1, 1)%Z) as [[fx fy] fz].
  cbn [component fst snd] in HX, HY, HZ. now subst.
Defined.

(** The coordinates of an allocated site of the small lattice, from its
    address. *)
Lemma small_address_decode (i j k : Z) :
  allocated cs_small (i, j, k) ->
  let a := cs_index cs_small i j k in
  (a / 16 = i /\ a mod 16 / 4 = j /\ a mod 4 = k)%Z.
Proof.
  unfold allocated. cbn [nhalo nlocalX nlocalY nlocalZ cs_small nlocal fst snd].
  intros (Hi & Hj & Hk). cbv zeta.
  assert (Ha : cs_index cs_small i j k = (16 * i + 4 * j + k)%Z)
    by (unfold cs_index, xs, ys, zs, nlocalY, nlocalZ;
        cbn [nhalo nlocal cs_small fst snd]; lia).
  rewrite Ha.
  assert (Hm : ((16 * i + 4 * j + k) mod 16 = 4 * j + k)%Z)
    by (symmetry; apply Z.mod_unique with i; lia).
  split; [|split].
  - symmetry. apply Z.div_unique with (4 * j + k)%Z; lia.
  - rewrite Hm. symmetry. apply Z.div_unique with k; lia.
  - symmetry. apply Z.mod_unique with (4 * i + j)%Z; lia.
Qed.

(** X13.  [phi_grad_mu_external] does nothing when the three components
    of the external gradient are zero, or when the field has not exactly
    one order parameter.  Otherwise it adds [-phi*grad_mu] to the force
    at every owned site, once, and touches no other site.  With one
    order parameter and a halo of one layer or more this is, at an owned
    site, the force [phi_grad_mu_fluid_kernel] computes for a chemical
    potential that grows linearly with the coordinates of the allocated
    sites, with that gradient. *)
Theorem external_gradient_force (kd : kernel_data) (grad_mu : vec3)
    (hydro : Z -> vec3) :
  let cs := kd_cs kd in
  let '(gx, gy, gz) := grad_mu in
  ((gx = 0 /\ gy = 0 /\ gz = 0) \/ kd_nf kd <> 1%nat ->
   phi_grad_mu_external kd grad_mu hydro = hydro) /\
  (~ (gx = 0 /\ gy = 0 /\ gz = 0) -> kd_nf kd = 1%nat ->
   (0 <= nhalo cs)%Z ->
   (forall c, interior cs c ->
      phi_grad_mu_external kd grad_mu hydro (index_of cs c)
      = hydro_f_local_add hydro (index_of cs c)
          (external_force kd grad_mu c) (index_of cs c)) /\
   (forall a, (forall c, interior cs c -> index_of cs c <> a) ->
      phi_grad_mu_external kd grad_mu hydro a = hydro a)) /\
  (forall m0 c,
     kd_nf kd = 1%nat -> (1 <= nhalo cs)%Z -> interior cs c ->
     (forall i j k,
        allocated cs (i, j, k) ->
        kd_mu kd (cs_index cs i j k) 0%nat
        = m0 + gx * IZR i + gy * IZR j + gz * IZR k) ->
     fluid_force kd c = external_force kd grad_mu c).
Proof.
  destruct grad_mu as [[gx gy] gz]. cbv zeta.
  split; [|split].
  - intros H. unfold phi_grad_mu_external.
    destruct H as [(-> & -> & ->)|Hnf].
    + replace (Rnonzero 0) with false
        by (symmetry; now apply Rnonzero_false).
      reflexivity.
    + apply Nat.eqb_neq in Hnf. rewrite Hnf. now rewrite andb_false_r.
  - intros Hg Hnf Hh. unfold phi_grad_mu_external.
    assert (E : Rnonzero gx || Rnonzero gy || Rnonzero gz = true).
    { destruct (Rnonzero gx) eqn:Ex; [reflexivity|].
      destruct (Rnonzero gy) eqn:Ey; [reflexivity|].
      destruct (Rnonzero gz) eqn:Ez; [reflexivity|].
      exfalso. apply Hg. now rewrite <- !Rnonzero_false. }
    rewrite E, Hnf. cbn [andb Nat.eqb].
    now apply launch_at.
  - intros m0 [[i j] k] Hnf Hh (Hi & Hj & Hk) Hmu.
    unfold fluid_force, external_force.
    cbv zeta. rewrite !fluid_term_sum, Hnf. cbn [seq sum_over fold_right].
    rewrite !Hmu by (unfold allocated; lia).
    rewrite !minus_IZR, !plus_IZR.
    f_equal; [f_equal|]; field.
Qed.

(** On [kd_linear], with the order parameter 3 and the chemical
    potential [i + 2 j + 4 k], the fluid kernel computes at the site
    (1,1,1) the force of the external gradient (1, 2, 4), and the driver
    given that gradient adds it there. *)
Lemma external_gradient_force_witness :
  fluid_force kd_linear (1, 1, 1)%Z = (- 3 * 1, - 3 * 2, - 3 * 4) /\
  phi_grad_mu_external kd_linear (1, 2, 4) (fun _ => (0, 0, 0)) 21%Z
  = (0 + - 3 * 1, 0 + - 3 * 2, 0 + - 3 * 4).
Proof.
  destruct (external_gradient_force kd_linear (1, 2, 4) (fun _ => (0, 0, 0)))
    as (_ & Hadd & Hlin).
  split.
  - rewrite (Hlin 0 (1, 1, 1)%Z eq_refl).
    + reflexivity.
    + simpl; lia.
    + vm_compute; intuition discriminate.
    + intros i j k Ha.
      destruct (small_address_decode i j k Ha) as (Hi & Hj & Hk).
      cbn [kd_mu kd_linear kd_cs]. rewrite Hi, Hj, Hk. ring.
  - destruct Hadd as [Hin _].
    + intros (H & _). lra.
    + reflexivity.
    + simpl; lia.
    + change 21%Z with (index_of (kd_cs kd_linear) (1, 1, 1)%Z).
      rewrite Hin by (vm_compute; intuition discriminate).
      unfold hydro_f_local_add. rewrite Z.eqb_refl. reflexivity.
Defined.

End PhiGradMuFacts.

(* ===================================================================== *)
(** * The norm compared with the tolerances *)
(* ===================================================================== *)

Open Scope R_scope.

Lemma sor_pass_norm (comm : comm_t) (obj : psi_t) (rho_elec : fields)
    (radius : R) (n pass : Z) (st st' : sor_state) (p : nat) :
  (0 <= pass)%Z -> (1 <= nhalo (psi_cs obj))%Z ->
  sor_pass comm obj rho_elec radius n pass st = Some st' ->
  st_rnorm_local1 st' p
  = st_rnorm_local1 st p
    + sum_over (fun c => Rabs (residual_at obj (rho_elec p) (st_psi st p)
                                 (index_of (psi_cs obj) c)))
               (pass_coords (psi_cs obj) pass).
Proof.
  intros Hp Hh. unfold sor_pass. destruct (_ && _); [|discriminate].
  intros [= <-]. cbn [sor_halo set_omega sor_sweep st_rnorm_local1].
  now destruct (half_sweep_simultaneous obj (st_omega st) pass (rho_elec p)
                  (st_psi st p) (st_rnorm_local1 st p) Hp Hh) as (_ & _ & ->).
Qed.

Lemma vare_pass_norm (comm : comm_t) (obj : psi_t)
    (fepsilon rho_elec : fields) (pass : Z) (st st' : sor_state) (p : nat) :
  (0 <= pass)%Z -> (1 <= nhalo (psi_cs obj))%Z ->
  vare_pass comm obj fepsilon rho_elec pass st = Some st' ->
  st_rnorm_local1 st' p
  = st_rnorm_local1 st p
    + sum_over (fun c => Rabs (vare_residual_at obj (fepsilon p) (rho_elec p)
                                 (st_psi st p) (index_of (psi_cs obj) c)))
               (pass_coords (psi_cs obj) pass).
Proof.
  intros Hp Hh. unfold vare_pass.
  intros [= <-]. cbn [sor_halo vare_sweep st_rnorm_local1].
  now destruct (vare_half_sweep_simultaneous obj (st_omega st) pass
                  (fepsilon p) (rho_elec p) (st_psi st p)
                  (st_rnorm_local1 st p) Hp Hh) as (_ & _ & ->).
Qed.

(** X14.  The norm a trip hands to the residual check is made of
    residuals taken before the sites are updated.  With a halo of one
    layer, [rnorm_local[1]] after the two passes is, on each rank, the sum
    over the owned sites of colour 1 of the absolute residual of the
    potential the trip started with, plus the sum over the owned sites of
    colour 0 of the absolute residual of the potential as the first pass
    and its halo exchange left it.  It is not the residual of the
    potential the trip ends with. *)
Theorem trip_norm_before_update (comm : comm_t) (obj : psi_t)
    (fepsilon rho_elec : fields) (rnl0 : nat -> R) (radius : R) (its n : Z)
    (st : sor_state) :
  (1 <= nhalo (psi_cs obj))%Z ->
  outcome_holds
    (fun st' => exists st1,
       sor_pass comm obj rho_elec radius n 0 (reset_rnorm_local1 st)
       = Some st1 /\
       forall p,
         st_rnorm_local1 st' p
         = sum_over (fun c => Rabs (residual_at obj (rho_elec p) (st_psi st p)
                                      (index_of (psi_cs obj) c)))
                    (pass_coords (psi_cs obj) 0)
           + sum_over (fun c => Rabs (residual_at obj (rho_elec p)
                                        (st_psi st1 p)
                                        (index_of (psi_cs obj) c)))
                      (pass_coords (psi_cs obj) 1))
    (sor_iteration comm obj rho_elec rnl0 radius its n st) /\
  outcome_holds
    (fun st' => exists st1,
       vare_pass comm obj fepsilon rho_elec 0 (reset_rnorm_local1 st)
       = Some st1 /\
       forall p,
         st_rnorm_local1 st' p
         = sum_over (fun c => Rabs (vare_residual_at obj (fepsilon p)
                                      (rho_elec p) (st_psi st p)
                                      (index_of (psi_cs obj) c)))
                    (pass_coords (psi_cs obj) 0)
           + sum_over (fun c => Rabs (vare_residual_at obj (fepsilon p)
                                        (rho_elec p) (st_psi st1 p)
                                        (index_of (psi_cs obj) c)))
                      (pass_coords (psi_cs obj) 1))
    (vare_iteration comm obj fepsilon rho_elec rnl0 radius its n st).
Proof.
  intros Hh. split.
  - pose proof (sor_iteration_state comm obj rho_elec rnl0 radius its n st)
      as H.
    destruct (sor_iteration _ _ _ _ _ _ _ _) as [|e s|s];
      cbn [outcome_holds] in *; [exact I| |].
    all: destruct H as (st2 & Hp & _ & _ & Hn);
      rewrite for_pass_unfold in Hp;
      destruct (sor_pass comm obj rho_elec radius n 0 _) as [st1|] eqn:H1;
      [|discriminate];
      exists st1; split; [reflexivity|]; intros p; rewrite Hn;
      rewrite (sor_pass_norm comm obj rho_elec radius n 1 st1 st2 p
                 ltac:(lia) Hh Hp);
      rewrite (sor_pass_norm comm obj rho_elec radius n 0
                 (reset_rnorm_local1 st) st1 p ltac:(lia) Hh H1);
      cbn [reset_rnorm_local1 st_rnorm_local1 st_psi]; ring.
  - pose proof (vare_iteration_state comm obj fepsilon rho_elec rnl0 radius
                  its n st) as H.
    destruct (vare_iteration _ _ _ _ _ _ _ _ _) as [|e s|s];
      cbn [outcome_holds] in *; [exact I| |].
    all: destruct H as (st2 & Hp & _ & _ & Hn);
      rewrite for_pass_unfold in Hp;
      destruct (vare_pass comm obj fepsilon rho_elec 0 _) as [st1|] eqn:H1;
      [|discriminate];
      exists st1; split; [reflexivity|]; intros p; rewrite Hn;
      rewrite (vare_pass_norm comm obj fepsilon rho_elec 1 st1 st2 p
                 ltac:(lia) Hh Hp);
      rewrite (vare_pass_norm comm obj fepsilon rho_elec 0
                 (reset_rnorm_local1 st) st1 p ltac:(lia) Hh H1);
      cbn [reset_rnorm_local1 st_rnorm_local1 st_psi]; ring.
Qed.

Lemma trip_norm_before_update_witness :
  exists st st1,
    sor_iteration comm_small (obj_small 0 (1/1000) 1) (uniform_fields 1)
      (fun p => rnorm_local0 (obj_small 0 (1/1000) 1) (uniform_fields 1 p)
                  (uniform_fields 0 p))
      (radius_of cs_small) 0 0 (sor_initial (uniform_fields 0))
    = Continue st /\
    st_rnorm_local1 st 0%nat
    = sum_over (fun c => Rabs (residual_at (obj_small 0 (1/1000) 1)
                                 (uniform_fields 1 0%nat)
                                 (uniform_fields 0 0%nat)
                                 (index_of cs_small c)))
               (pass_coords cs_small 0)
      + sum_over (fun c => Rabs (residual_at (obj_small 0 (1/1000) 1)
                                   (uniform_fields 1 0%nat)
                                   (st_psi st1 0%nat)
                                   (index_of cs_small c)))
                 (pass_coords cs_small 1).
Proof.
  destruct psi_sor_poisson_small_trip as [st Htrip].
  assert (Hh : (1 <= nhalo (psi_cs (obj_small 0 (1/1000) 1)))%Z)
    by (simpl; lia).
  destruct (trip_norm_before_update comm_small (obj_small 0 (1/1000) 1)
              (uniform_fields 1) (uniform_fields 1)
              (fun p => rnorm_local0 (obj_small 0 (1/1000) 1)
                          (uniform_fields 1 p) (uniform_fields 0 p))
              (radius_of cs_small) 0 0 (sor_initial (uniform_fields 0)) Hh)
    as [H _].
  rewrite Htrip in H. cbn [outcome_holds] in H.
  destruct H as (st1 & _ & Hn).
  exists st, st1. split; [exact Htrip|]. exact (Hn 0%nat).
Defined.

(* ===================================================================== *)
(** * Convergence at a residual check *)
(* ===================================================================== *)

Lemma sum_ranks_ext (n : nat) (f g : nat -> R) :
  (forall p, f p = g p) -> sum_ranks n f = sum_ranks n g.
Proof.
  intros H. induction n as [|n IH]; simpl; [reflexivity|].
  now rewrite IH, H.
Qed.

(** What the two passes of a trip have put in [rnorm_local[1]], set to
    zero when the trip starts. *)
Lemma sor_trip_norm (comm : comm_t) (obj : psi_t) (rho_elec : fields)
    (radius : R) (n : Z) (st st1 st2 : sor_state) :
  (1 <= nhalo (psi_cs obj))%Z ->
  sor_pass comm obj rho_elec radius n 0 (reset_rnorm_local1 st) = Some st1 ->
  sor_pass comm obj rho_elec radius n 1 st1 = Some st2 ->
  forall p,
    st_rnorm_local1 st2 p
    = sweep_norm obj rho_elec (st_psi st) (st_psi st1) p.
Proof.
  intros Hh H0 H1 p. unfold sweep_norm.
  rewrite (sor_pass_norm comm obj rho_elec radius n 1 st1 st2 p
             ltac:(lia) Hh H1).
  rewrite (sor_pass_norm comm obj rho_elec radius n 0
             (reset_rnorm_local1 st) st1 p ltac:(lia) Hh H0).
  cbn [reset_rnorm_local1 st_rnorm_local1 st_psi]. ring.
Qed.

Lemma vare_trip_norm (comm : comm_t) (obj : psi_t)
    (fepsilon rho_elec : fields) (st st1 st2 : sor_state) :
  (1 <= nhalo (psi_cs obj))%Z ->
  vare_pass comm obj fepsilon rho_elec 0 (reset_rnorm_local1 st) = Some st1 ->
  vare_pass comm obj fepsilon rho_elec 1 st1 = Some st2 ->
  forall p,
    st_rnorm_local1 st2 p
    = vare_sweep_norm obj fepsilon rho_elec (st_psi st) (st_psi st1) p.
Proof.
  intros Hh H0 H1 p. unfold vare_sweep_norm.
  rewrite (vare_pass_norm comm obj fepsilon rho_elec 1 st1 st2 p
             ltac:(lia) Hh H1).
  rewrite (vare_pass_norm comm obj fepsilon rho_elec 0
             (reset_rnorm_local1 st) st1 p ltac:(lia) Hh H0).
  cbn [reset_rnorm_local1 st_rnorm_local1 st_psi]. ring.
Qed.


Lemma psi_sor_vare_poisson_converged_at (comm : comm_t) (obj : psi_t)
    (fepsilon rho_elec psi0 : fields) (its : Z) (e : sor_exit)
    (st : sor_state) :
  let vnl0 := fun p =>
    vare_rnorm_local0 obj (fepsilon p) (rho_elec p) (psi0 p) in
  let radius := radius_of (psi_cs obj) in
  (1 <= nhalo (psi_cs obj))%Z ->
  psi_sor_vare_poisson comm obj fepsilon rho_elec psi0 its = Returned e st ->
  e <> MaxIterationsReached ->
  exists k s st1 st2,
    Z.rem k 1 = 0%Z /\ (0 <= k < psi_maxits obj)%Z /\
    reaches (vare_iteration comm obj fepsilon rho_elec vnl0 radius its)
            0 (sor_initial psi0) k s /\
    vare_pass comm obj fepsilon rho_elec 0 (reset_rnorm_local1 s) = Some st1 /\
    vare_pass comm obj fepsilon rho_elec 1 st1 = Some st2 /\
    st_psi st = st_psi st2 /\
    st_rnorm st
    = (mpi_allreduce_sum comm vnl0,
       mpi_allreduce_sum comm
         (vare_sweep_norm obj fepsilon rho_elec (st_psi s) (st_psi st1))) /\
    (snd (st_rnorm st) < psi_abstol obj \/
     snd (st_rnorm st) < psi_reltol obj * fst (st_rnorm st)).
Proof.
  intros vnl0 radius Hh Hrun He. unfold psi_sor_vare_poisson in Hrun.
  destruct (negb _); [discriminate|]. destruct (negb _); [discriminate|].
  fold vnl0 radius in Hrun.
  set (body := vare_iteration comm obj fepsilon rho_elec vnl0 radius its)
    in *.
  assert (Hnomax : forall k s s', body k s <> Break MaxIterationsReached s')
    by (intros k s s'; apply vare_iteration_no_max).
  destruct (proj1 (sor_loop_break body _ 0%Z (sor_initial psi0) e st Hnomax)
              (conj Hrun He)) as (k & s & Hr & Hk & Hb).
  apply vare_iteration_break in Hb. destruct Hb as (st2 & Hp & Hn & Hc).
  rewrite for_pass_unfold in Hp.
  destruct (vare_pass comm obj fepsilon rho_elec 0 (reset_rnorm_local1 s))
    as [st1|] eqn:H0; [|discriminate].
  destruct (vare_check_break comm obj vnl0 its k (vare_recompute radius st2))
    as (Hbrk & Hiff & _).
  destruct (Hbrk e st Hc) as (_ & Hn1 & _ & Hpsi).
  change (st_rnorm_local1 (vare_recompute radius st2))
    with (st_rnorm_local1 st2) in Hn1, Hiff.
  change (st_psi (vare_recompute radius st2)) with (st_psi st2) in Hpsi.
  exists k, s, st1, st2.
  split; [exact Hn|]. split; [lia|]. split; [exact Hr|].
  split; [exact H0|]. split; [exact Hp|]. split; [exact Hpsi|].
  assert (E : mpi_allreduce_sum comm (st_rnorm_local1 st2)
              = mpi_allreduce_sum comm
                  (vare_sweep_norm obj fepsilon rho_elec (st_psi s)
                     (st_psi st1))).
  { apply sum_ranks_ext.
    now apply (vare_trip_norm comm obj fepsilon rho_elec s st1 st2). }
  rewrite Hn1, <- E. split; [reflexivity|]. cbn [fst snd].
  apply Hiff. eauto.
Qed.

(** A trip whose passes go through leaves the loop exactly when it checks
    the residual and the reduced norm of its sweep meets a tolerance,
    [nfreq] not being zero; with [nfreq] zero the trip traps there. *)
Lemma sor_trip_leaves (comm : comm_t) (obj : psi_t) (rho_elec : fields)
    (rnl0 : nat -> R) (radius : R) (its n : Z) (st st1 st2 : sor_state) :
  (1 <= nhalo (psi_cs obj))%Z ->
  sor_pass comm obj rho_elec radius n 0 (reset_rnorm_local1 st) = Some st1 ->
  sor_pass comm obj rho_elec radius n 1 st1 = Some st2 ->
  let r1 := mpi_allreduce_sum comm
              (sweep_norm obj rho_elec (st_psi st) (st_psi st1)) in
  let met :=
    Z.rem n 5 = 0%Z /\
    (r1 < psi_abstol obj \/
     r1 < psi_reltol obj * mpi_allreduce_sum comm rnl0) in
  ((exists e st',
      sor_iteration comm obj rho_elec rnl0 radius its n st = Break e st')
   <-> met /\ psi_nfreq obj <> 0%Z) /\
  (sor_iteration comm obj rho_elec rnl0 radius its n st = Fails DivisionByZero
   <-> met /\ psi_nfreq obj = 0%Z).
Proof.
  intros Hh H0 H1 r1 met. subst met r1.
  assert (Hp : for_pass (sor_pass comm obj rho_elec radius n)
                 (reset_rnorm_local1 st) = Some st2)
    by (rewrite for_pass_unfold, H0; exact H1).
  pose proof (sor_iteration_leaves comm obj rho_elec rnl0 radius its n st st2
                Hp) as H.
  cbv zeta in H.
  replace (mpi_allreduce_sum comm (st_rnorm_local1 st2))
    with (mpi_allreduce_sum comm
            (sweep_norm obj rho_elec (st_psi st) (st_psi st1))) in H.
  - exact H.
  - symmetry. apply sum_ranks_ext.
    now apply (sor_trip_norm comm obj rho_elec radius n st st1 st2).
Qed.

Lemma vare_trip_leaves (comm : comm_t) (obj : psi_t)
    (fepsilon rho_elec : fields) (rnl0 : nat -> R) (radius : R) (its n : Z)
    (st st1 st2 : sor_state) :
  (1 <= nhalo (psi_cs obj))%Z ->
  vare_pass comm obj fepsilon rho_elec 0 (reset_rnorm_local1 st) = Some st1 ->
  vare_pass comm obj fepsilon rho_elec 1 st1 = Some st2 ->
  let r1 := mpi_allreduce_sum comm
              (vare_sweep_norm obj fepsilon rho_elec (st_psi st)
                 (st_psi st1)) in
  let met :=
    Z.rem n 1 = 0%Z /\
    (r1 < psi_abstol obj \/
     r1 < psi_reltol obj * mpi_allreduce_sum comm rnl0) in
  ((exists e st',
      vare_iteration comm obj fepsilon rho_elec rnl0 radius its n st
      = Break e st')
   <-> met /\ psi_nfreq obj <> 0%Z) /\
  (vare_iteration comm obj fepsilon rho_elec rnl0 radius its n st
   = Fails DivisionByZero
   <-> met /\ psi_nfreq obj = 0%Z).
Proof.
  intros Hh H0 H1 r1 met. subst met r1.
  assert (Hp : for_pass (vare_pass comm obj fepsilon rho_elec)
                 (reset_rnorm_local1 st) = Some st2)
    by (rewrite for_pass_unfold, H0; exact H1).
  pose proof (vare_iteration_leaves comm obj fepsilon rho_elec rnl0 radius
                its n st st2 Hp) as H.
  cbv zeta in H.
  replace (mpi_allreduce_sum comm (st_rnorm_local1 st2))
    with (mpi_allreduce_sum comm
            (vare_sweep_norm obj fepsilon rho_elec (st_psi st)
               (st_psi st1))) in H.
  - exact H.
  - symmetry. apply sum_ranks_ext.
    now apply (vare_trip_norm comm obj fepsilon rho_elec st st1 st2).
Qed.

(* ===================================================================== *)
(** * Trips that go on *)
(* ===================================================================== *)

(** What a trip of [psi_sor_poisson] that goes on hands to the next: the
    potential, [omega] and the local norm of its second pass; [rnorm] as
    reduced at its residual check if it made one, else as it was; and the
    report of the iteration limit if it is the last trip allowed. *)
Lemma sor_iteration_goes_on (comm : comm_t) (obj : psi_t) (rho_elec : fields)
    (rnl0 : nat -> R) (radius : R) (its n : Z) (st st' : sor_state) :
  sor_iteration comm obj rho_elec rnl0 radius its n st = Continue st' <->
  exists st1 st2,
    sor_pass comm obj rho_elec radius n 0 (reset_rnorm_local1 st)
    = Some st1 /\
    sor_pass comm obj rho_elec radius n 1 st1 = Some st2 /\
    (Z.rem n 5 = 0%Z ->
     ~ mpi_allreduce_sum comm (st_rnorm_local1 st2) < psi_abstol obj /\
     ~ mpi_allreduce_sum comm (st_rnorm_local1 st2)
       < psi_reltol obj * mpi_allreduce_sum comm rnl0) /\
    let rnorm :=
      if (Z.rem n 5 =? 0)%Z
      then (mpi_allreduce_sum comm rnl0,
            mpi_allreduce_sum comm (st_rnorm_local1 st2))
      else st_rnorm st in
    st' = mk_state (st_psi st2) (st_omega st2) (st_rnorm_local1 st2) rnorm
            (st_log st
             ++ (if (n =? psi_maxits obj - 1)%Z
                 then [info_exceeded (n + 1) (fst rnorm) (snd rnorm)]
                 else [])).
Proof.
  unfold sor_iteration. rewrite for_pass_unfold.
  change ncheck_poisson with 5%Z.
  destruct (sor_pass comm obj rho_elec radius n 0 (reset_rnorm_local1 st))
    as [st1|] eqn:H0.
  2: { split; [discriminate|]. intros (s1 & s2 & H & _). discriminate. }
  destruct (sor_pass comm obj rho_elec radius n 1 st1) as [st2|] eqn:H1.
  2: { split; [discriminate|].
       intros (s1 & s2 & [= <-] & H & _). congruence. }
  assert (Hkeep : st_rnorm st2 = st_rnorm st /\ st_log st2 = st_log st).
  { apply (for_pass_sor_rnorm comm obj rho_elec radius n
             (reset_rnorm_local1 st) st2).
    rewrite for_pass_unfold, H0. exact H1. }
  destruct Hkeep as [Hrn Hlg].
  assert (Hst : forall rn,
             sor_exceeded obj n
               (mk_state (st_psi st2) (st_omega st2) (st_rnorm_local1 st2)
                  rn (st_log st2))
             = mk_state (st_psi st2) (st_omega st2) (st_rnorm_local1 st2) rn
                 (st_log st
                  ++ (if (n =? psi_maxits obj - 1)%Z
                      then [info_exceeded (n + 1) (fst rn) (snd rn)]
                      else []))).
  { intros rn. unfold sor_exceeded, log_if. cbn [st_rnorm].
    destruct (n =? psi_maxits obj - 1)%Z; cbn; rewrite Hlg;
      [reflexivity|now rewrite app_nil_r]. }
  destruct (Z.eqb_spec (Z.rem n 5) 0) as [Hn|Hn].
  - unfold sor_check, report_and_break. cbn [fst snd].
    set (r0 := mpi_allreduce_sum comm rnl0).
    set (r1 := mpi_allreduce_sum comm (st_rnorm_local1 st2)).
    destruct (Rltb r1 (psi_abstol obj)) eqn:Ha;
      [|destruct (Rltb r1 (psi_reltol obj * r0)) eqn:Hr]; cbn [orb].
    + apply Rltb_true in Ha.
      split; [destruct (psi_nfreq obj =? 0)%Z; discriminate|].
      intros (s1 & s2 & [= <-] & E1 & Hno & _).
      rewrite H1 in E1. injection E1 as <-.
      destruct (Hno Hn). contradiction.
    + apply Rltb_true in Hr.
      split; [destruct (psi_nfreq obj =? 0)%Z; discriminate|].
      intros (s1 & s2 & [= <-] & E1 & Hno & _).
      rewrite H1 in E1. injection E1 as <-.
      destruct (Hno Hn). contradiction.
    + apply Rltb_false in Ha, Hr. rewrite Hst. split.
      * intros [= <-]. exists st1, st2. auto.
      * intros (s1 & s2 & [= <-] & E1 & _ & ->).
        rewrite H1 in E1. injection E1 as <-. reflexivity.
  - replace st2 with (mk_state (st_psi st2) (st_omega st2)
                        (st_rnorm_local1 st2) (st_rnorm st) (st_log st2))
      at 1 by (destruct st2; cbn in *; now subst).
    rewrite Hst. split.
    + intros [= <-]. exists st1, st2.
      split; [reflexivity|]. split; [exact H1|].
      split; [intros; contradiction|reflexivity].
    + intros (s1 & s2 & [= <-] & E1 & _ & ->).
      rewrite H1 in E1. injection E1 as <-. reflexivity.
Qed.

(** The same for [psi_sor_vare_poisson], which checks the residual in
    every trip, after it has recomputed [omega]. *)
Lemma vare_iteration_goes_on (comm : comm_t) (obj : psi_t)
    (fepsilon rho_elec : fields) (rnl0 : nat -> R) (radius : R) (its n : Z)
    (st st' : sor_state) :
  vare_iteration comm obj fepsilon rho_elec rnl0 radius its n st
  = Continue st' <->
  exists st1 st2,
    vare_pass comm obj fepsilon rho_elec 0 (reset_rnorm_local1 st)
    = Some st1 /\
    vare_pass comm obj fepsilon rho_elec 1 st1 = Some st2 /\
    (~ mpi_allreduce_sum comm (st_rnorm_local1 st2) < psi_abstol obj /\
     ~ mpi_allreduce_sum comm (st_rnorm_local1 st2)
       < psi_reltol obj * mpi_allreduce_sum comm rnl0) /\
    let rnorm := (mpi_allreduce_sum comm rnl0,
                  mpi_allreduce_sum comm (st_rnorm_local1 st2)) in
    st' = mk_state (st_psi st2) (vare_omega_next radius (st_omega st2))
            (st_rnorm_local1 st2) rnorm
            (st_log st
             ++ (if (n =? psi_maxits obj - 1)%Z
                 then [info_vare_exceeded (n + 1) (fst rnorm) (snd rnorm)]
                 else [])).
Proof.
  unfold vare_iteration. rewrite for_pass_unfold.
  set (st1 := sor_halo comm
                (vare_sweep obj fepsilon rho_elec 0 (reset_rnorm_local1 st))).
  set (st2 := sor_halo comm (vare_sweep obj fepsilon rho_elec 1 st1)).
  change (vare_pass comm obj fepsilon rho_elec 0 (reset_rnorm_local1 st))
    with (Some st1).
  cbv iota beta.
  change (vare_pass comm obj fepsilon rho_elec 1 st1) with (Some st2).
  cbv iota beta.
  replace (Z.rem n ncheck_vare =? 0)%Z with true
    by (symmetry; apply Z.eqb_eq, Z.rem_1_r).
  unfold vare_check, report_and_break. cbn [fst snd].
  change (st_rnorm_local1 (vare_recompute radius st2))
    with (st_rnorm_local1 st2).
  set (r0 := mpi_allreduce_sum comm rnl0).
  set (r1 := mpi_allreduce_sum comm (st_rnorm_local1 st2)).
  destruct (Rltb r1 (psi_abstol obj)) eqn:Ha;
    [|destruct (Rltb r1 (psi_reltol obj * r0)) eqn:Hr].
  - apply Rltb_true in Ha.
    split; [destruct (psi_nfreq obj =? 0)%Z; discriminate|].
    intros (s1 & s2 & [= <-] & [= <-] & Hno & _).
    destruct Hno. contradiction.
  - apply Rltb_true in Hr.
    split; [destruct (psi_nfreq obj =? 0)%Z; discriminate|].
    intros (s1 & s2 & [= <-] & [= <-] & Hno & _).
    destruct Hno. contradiction.
  - apply Rltb_false in Ha, Hr.
    assert (E : vare_exceeded obj n
                  (mk_state (st_psi (vare_recompute radius st2))
                     (st_omega (vare_recompute radius st2))
                     (st_rnorm_local1 st2) (r0, r1)
                     (st_log (vare_recompute radius st2)))
                = mk_state (st_psi st2)
                    (vare_omega_next radius (st_omega st2))
                    (st_rnorm_local1 st2) (r0, r1)
                    (st_log st
                     ++ (if (n =? psi_maxits obj - 1)%Z
                         then [info_vare_exceeded (n + 1) r0 r1]
                         else []))).
    { unfold vare_exceeded, log_if. cbn [st_rnorm fst snd].
      destruct (n =? psi_maxits obj - 1)%Z; cbn;
        [reflexivity|now rewrite app_nil_r]. }
    rewrite E. split.
    + intros [= <-]. exists st1, st2. auto.
    + intros (s1 & s2 & [= <-] & [= <-] & _ & ->). reflexivity.
Qed.

(* ===================================================================== *)
(** * The small system with two colours *)
(* ===================================================================== *)

Lemma existsb_eqb_In (i : Z) (l : list Z) :
  existsb (Z.eqb i) l = true <-> In i l.
Proof.
  rewrite existsb_exists. split.
  - intros (x & Hx & E). apply Z.eqb_eq in E. now subst.
  - intros H. exists i. split; [assumption|apply Z.eqb_refl].
Qed.

Lemma existsb_eqb_not_In (i : Z) (l : list Z) :
  ~ In i l -> existsb (Z.eqb i) l = false.
Proof.
  intros H. destruct (existsb (Z.eqb i) l) eqn:E; [|reflexivity].
  apply existsb_eqb_In in E. contradiction.
Qed.

(** The residual at the owned sites of the small system when the
    potential is [two_colour a b] and the charge density is uniform. *)
Lemma two_colour_residual (obj : psi_t) (q a b : R) (pass : Z) (c : coord) :
  psi_cs obj = cs_small ->
  In c (pass_coords cs_small pass) ->
  (pass = 0%Z ->
   two_colour a b (index_of cs_small c) = a /\
   residual_at obj (fun _ => q) (two_colour a b) (index_of cs_small c)
   = psi_epsilon obj * (3 * b - 6 * a)
     + psi_unit_charge obj * psi_beta obj * q) /\
  (pass = 1%Z ->
   two_colour a b (index_of cs_small c) = b /\
   residual_at obj (fun _ => q) (two_colour a b) (index_of cs_small c)
   = psi_epsilon obj * (3 * a - 6 * b)
     + psi_unit_charge obj * psi_beta obj * q).
Proof.
  intros Hcs Hc. unfold residual_at, dpsi, addr_rank0. rewrite Hcs.
  split; intros ->; simpl in Hc;
    repeat (destruct Hc as [<-|Hc]; [split; [reflexivity|]|]);
    try contradiction.
  all: match goal with
       | |- context [index_of cs_small ?c] =>
           let i := eval vm_compute in (index_of cs_small c) in
           change (index_of cs_small c) with i
       end.
  all: change (xs cs_small) with 16%Z; change (ys cs_small) with 4%Z;
       change (zs cs_small) with 1%Z.
  all: repeat match goal with
       | |- context [two_colour ?x ?y ?i] =>
           let v := eval cbv in (two_colour x y i) in
           change (two_colour x y i) with v
       end.
  all: ring.
Qed.

Lemma two_colour_other (a a' b b' : R) (i : Z) :
  (~ In i (map (index_of cs_small) (pass_coords cs_small 0)) ->
   two_colour a b i = two_colour a' b i) /\
  (~ In i (map (index_of cs_small) (pass_coords cs_small 1)) ->
   two_colour a b i = two_colour a b' i).
Proof.
  unfold two_colour. split; intros H.
  - now rewrite (existsb_eqb_not_In _ _ H).
  - now rewrite (existsb_eqb_not_In _ _ H).
Qed.

(** A half-sweep of [psi_sor_poisson] on the small system keeps the
    potential of the form [two_colour]. *)
Lemma small_half_sweep (obj : psi_t) (omega q a b rn : R) :
  psi_cs obj = cs_small ->
  let r0 := psi_epsilon obj * (3 * b - 6 * a)
            + psi_unit_charge obj * psi_beta obj * q in
  let r1 := psi_epsilon obj * (3 * a - 6 * b)
            + psi_unit_charge obj * psi_beta obj * q in
  half_sweep obj omega 0 (fun _ => q) (two_colour a b, rn)
  = (two_colour (a - omega * r0 / (-6 * psi_epsilon obj)) b,
     rn + 4 * Rabs r0) /\
  half_sweep obj omega 1 (fun _ => q) (two_colour a b, rn)
  = (two_colour a (b - omega * r1 / (-6 * psi_epsilon obj)),
     rn + 4 * Rabs r1).
Proof.
  intros Hcs r0 r1.
  assert (Hh : (1 <= nhalo (psi_cs obj))%Z) by (rewrite Hcs; simpl; lia).
  split.
  - destruct (half_sweep_simultaneous obj omega 0 (fun _ => q)
                (two_colour a b) rn ltac:(lia) Hh) as (Hin & Hout & Hsum).
    rewrite Hcs in Hin, Hout, Hsum.
    destruct (half_sweep obj omega 0 (fun _ => q) (two_colour a b, rn))
      as [f s]. cbn [fst snd] in *. f_equal.
    + apply functional_extensionality. intros i.
      destruct (in_dec Z.eq_dec i
                  (map (index_of cs_small) (pass_coords cs_small 0)))
        as [Hi|Hi].
      * apply in_map_iff in Hi. destruct Hi as (c & <- & Hc).
        rewrite (Hin c Hc).
        destruct (two_colour_residual obj q a b 0 c Hcs Hc) as [H0 _].
        destruct (H0 eq_refl) as [-> ->].
        destruct (two_colour_residual obj q
                    (a - omega * r0 / (-6 * psi_epsilon obj)) b 0 c Hcs Hc)
          as [H0' _].
        destruct (H0' eq_refl) as [-> _]. reflexivity.
      * rewrite (Hout i Hi). now apply two_colour_other.
    + rewrite Hsum. f_equal.
      rewrite (sum_over_ext_in _ _ (fun _ => Rabs r0)).
      * simpl. ring.
      * intros c Hc.
        destruct (two_colour_residual obj q a b 0 c Hcs Hc) as [H0 _].
        destruct (H0 eq_refl) as [_ ->]. reflexivity.
  - destruct (half_sweep_simultaneous obj omega 1 (fun _ => q)
                (two_colour a b) rn ltac:(lia) Hh) as (Hin & Hout & Hsum).
    rewrite Hcs in Hin, Hout, Hsum.
    destruct (half_sweep obj omega 1 (fun _ => q) (two_colour a b, rn))
      as [f s]. cbn [fst snd] in *. f_equal.
    + apply functional_extensionality. intros i.
      destruct (in_dec Z.eq_dec i
                  (map (index_of cs_small) (pass_coords cs_small 1)))
        as [Hi|Hi].
      * apply in_map_iff in Hi. destruct Hi as (c & <- & Hc).
        rewrite (Hin c Hc).
        destruct (two_colour_residual obj q a b 1 c Hcs Hc) as [_ H1].
        destruct (H1 eq_refl) as [-> ->].
        destruct (two_colour_residual obj q a
                    (b - omega * r1 / (-6 * psi_epsilon obj)) 1 c Hcs Hc)
          as [_ H1'].
        destruct (H1' eq_refl) as [-> _]. reflexivity.
      * rewrite (Hout i Hi). now apply two_colour_other.
    + rewrite Hsum. f_equal.
      rewrite (sum_over_ext_in _ _ (fun _ => Rabs r1)).
      * simpl. ring.
      * intros c Hc.
        destruct (two_colour_residual obj q a b 1 c Hcs Hc) as [_ H1].
        destruct (H1 eq_refl) as [_ ->]. reflexivity.
Qed.

Lemma two_colour_zero (p : nat) : uniform_fields 0 p = two_colour 0 0.
Proof.
  apply functional_extensionality. intros i.
  unfold uniform_fields, two_colour.
  now repeat match goal with |- context [if ?b then _ else _] =>
    destruct b end.
Qed.

(** The initial norm on the small system. *)
Lemma small_rnorm_local0 (obj : psi_t) (q a b : R) :
  psi_cs obj = cs_small ->
  rnorm_local0 obj (fun _ => q) (two_colour a b)
  = 4 * Rabs (psi_epsilon obj * (3 * b - 6 * a)
              + psi_unit_charge obj * psi_beta obj * q)
    + 4 * Rabs (psi_epsilon obj * (3 * a - 6 * b)
                + psi_unit_charge obj * psi_beta obj * q).
Proof.
  intros Hcs. unfold rnorm_local0.
  rewrite (fold_left_sum _
             (fun c => Rabs (residual_at obj (fun _ => q) (two_colour a b)
                               (index_of (psi_cs obj) c)))).
  rewrite Hcs.
  change (all_coords cs_small)
    with [(1, 1, 1); (1, 1, 2); (1, 2, 1); (1, 2, 2);
          (2, 1, 1); (2, 1, 2); (2, 2, 1); (2, 2, 2)]%Z.
  cbn [sum_over fold_right].
  assert (H0 : forall c, In c (pass_coords cs_small 0) ->
             residual_at obj (fun _ => q) (two_colour a b)
               (index_of cs_small c)
             = psi_epsilon obj * (3 * b - 6 * a)
               + psi_unit_charge obj * psi_beta obj * q).
  { intros c Hc.
    destruct (two_colour_residual obj q a b 0 c Hcs Hc) as [H _].
    now destruct (H eq_refl). }
  assert (H1 : forall c, In c (pass_coords cs_small 1) ->
             residual_at obj (fun _ => q) (two_colour a b)
               (index_of cs_small c)
             = psi_epsilon obj * (3 * a - 6 * b)
               + psi_unit_charge obj * psi_beta obj * q).
  { intros c Hc.
    destruct (two_colour_residual obj q a b 1 c Hcs Hc) as [_ H].
    now destruct (H eq_refl). }
  rewrite (H0 (1, 1, 1)%Z), (H0 (1, 2, 2)%Z), (H0 (2, 1, 2)%Z),
    (H0 (2, 2, 1)%Z) by (simpl; tauto).
  rewrite (H1 (1, 1, 2)%Z), (H1 (1, 2, 1)%Z), (H1 (2, 1, 1)%Z),
    (H1 (2, 2, 2)%Z) by (simpl; tauto).
  ring.
Qed.

(** The norm of a sweep on the small system. *)
Lemma small_sweep_norm (obj : psi_t) (rho_elec psi psi1 : fields) (p : nat)
    (q a b a1 b1 : R) :
  psi_cs obj = cs_small ->
  rho_elec p = (fun _ => q) ->
  psi p = two_colour a b -> psi1 p = two_colour a1 b1 ->
  sweep_norm obj rho_elec psi psi1 p
  = 4 * Rabs (psi_epsilon obj * (3 * b - 6 * a)
              + psi_unit_charge obj * psi_beta obj * q)
    + 4 * Rabs (psi_epsilon obj * (3 * a1 - 6 * b1)
                + psi_unit_charge obj * psi_beta obj * q).
Proof.
  intros Hcs Hrho Hpsi Hpsi1. unfold sweep_norm.
  rewrite Hcs, Hrho, Hpsi, Hpsi1.
  rewrite (sum_over_ext_in _ _
             (fun _ => Rabs (psi_epsilon obj * (3 * b - 6 * a)
                             + psi_unit_charge obj * psi_beta obj * q))).
  - rewrite (sum_over_ext_in _
               (fun c => Rabs (residual_at obj (fun _ => q)
                                 (two_colour a1 b1) (index_of cs_small c)))
               (fun _ => Rabs (psi_epsilon obj * (3 * a1 - 6 * b1)
                               + psi_unit_charge obj * psi_beta obj * q))).
    + simpl. ring.
    + intros c Hc.
      destruct (two_colour_residual obj q a1 b1 1 c Hcs Hc) as [_ H].
      now destruct (H eq_refl) as [_ ->].
  - intros c Hc.
    destruct (two_colour_residual obj q a b 0 c Hcs Hc) as [H _].
    now destruct (H eq_refl) as [_ ->].
Qed.

(** The two passes of a trip of [psi_sor_poisson] on the small system,
    the halo exchanges leaving the potential as it is. *)
Lemma small_sor_passes (comm : comm_t) (obj : psi_t) (rho_elec : fields)
    (radius : R) (n : Z) (st : sor_state) (q a b : nat -> R) :
  psi_cs obj = cs_small ->
  (forall psi, psi_halo_psijump comm (psi_halo_psi comm psi) = psi) ->
  (forall p, rho_elec p = (fun _ => q p)) ->
  (forall p, st_psi st p = two_colour (a p) (b p)) ->
  let omega1 := omega_next radius n 0 (st_omega st) in
  let omega2 := omega_next radius n 1 omega1 in
  let r0 := fun p => psi_epsilon obj * (3 * b p - 6 * a p)
                     + psi_unit_charge obj * psi_beta obj * q p in
  let a' := fun p => a p - st_omega st * r0 p / (-6 * psi_epsilon obj) in
  let r1 := fun p => psi_epsilon obj * (3 * a' p - 6 * b p)
                     + psi_unit_charge obj * psi_beta obj * q p in
  let b' := fun p => b p - omega1 * r1 p / (-6 * psi_epsilon obj) in
  1 < omega1 < 2 -> 1 < omega2 < 2 ->
  exists st1 st2,
    sor_pass comm obj rho_elec radius n 0 (reset_rnorm_local1 st)
    = Some st1 /\
    sor_pass comm obj rho_elec radius n 1 st1 = Some st2 /\
    (forall p, st_psi st1 p = two_colour (a' p) (b p)) /\
    (forall p, st_psi st2 p = two_colour (a' p) (b' p)) /\
    st_omega st2 = omega2 /\
    (forall p, st_rnorm_local1 st2 p = 4 * Rabs (r0 p) + 4 * Rabs (r1 p)) /\
    st_rnorm st2 = st_rnorm st /\ st_log st2 = st_log st.
Proof.
  intros Hcs Hquiet Hrho Hpsi omega1 omega2 r0 a' r1 b' B1 B2.
  pose proof (sor_pass_some comm obj rho_elec radius n 0
                (reset_rnorm_local1 st) B1) as H0.
  set (st1 := sor_halo comm
                (set_omega omega1
                   (sor_sweep obj rho_elec 0 (reset_rnorm_local1 st)))).
  change (sor_pass comm obj rho_elec radius n 0 (reset_rnorm_local1 st)
          = Some st1) in H0.
  assert (E1 : forall p,
             half_sweep obj (st_omega st) 0 (rho_elec p) (st_psi st p, 0)
             = (two_colour (a' p) (b p), 0 + 4 * Rabs (r0 p))).
  { intros p. rewrite Hrho, Hpsi.
    now destruct (small_half_sweep obj (st_omega st) (q p) (a p) (b p) 0
                    Hcs) as [-> _]. }
  assert (Hpsi1 : forall p, st_psi st1 p = two_colour (a' p) (b p)).
  { intros p. unfold st1. cbn [sor_halo st_psi set_omega sor_sweep].
    rewrite Hquiet. cbn [reset_rnorm_local1 st_psi st_omega st_rnorm_local1].
    now rewrite E1. }
  assert (Hn1 : forall p, st_rnorm_local1 st1 p = 0 + 4 * Rabs (r0 p)).
  { intros p. unfold st1.
    cbn [sor_halo st_rnorm_local1 set_omega sor_sweep reset_rnorm_local1
         st_psi st_omega].
    now rewrite E1. }
  assert (Ho1 : st_omega st1 = omega1) by reflexivity.
  assert (B2' : 1 < omega_next radius n 1 (st_omega st1) < 2)
    by (rewrite Ho1; exact B2).
  pose proof (sor_pass_some comm obj rho_elec radius n 1 st1 B2') as H1.
  set (st2 := sor_halo comm
                (set_omega (omega_next radius n 1 (st_omega st1))
                   (sor_sweep obj rho_elec 1 st1))) in *.
  assert (E2 : forall p,
             half_sweep obj (st_omega st1) 1 (rho_elec p)
               (st_psi st1 p, st_rnorm_local1 st1 p)
             = (two_colour (a' p) (b' p),
                0 + 4 * Rabs (r0 p) + 4 * Rabs (r1 p))).
  { intros p. rewrite Hrho, Hpsi1, Hn1, Ho1.
    now destruct (small_half_sweep obj omega1 (q p) (a' p) (b p)
                    (0 + 4 * Rabs (r0 p)) Hcs) as [_ ->]. }
  exists st1, st2. split; [exact H0|]. split; [exact H1|].
  split; [exact Hpsi1|]. split; [|split; [|split; [|split]]].
  - intros p. unfold st2. cbn [sor_halo st_psi set_omega sor_sweep].
    rewrite Hquiet. now rewrite E2.
  - unfold st2. cbn [sor_halo set_omega st_omega]. now rewrite Ho1.
  - intros p. unfold st2.
    cbn [sor_halo st_rnorm_local1 set_omega sor_sweep]. rewrite E2.
    cbn [snd]. ring.
  - reflexivity.
  - reflexivity.
Qed.

(** The same for [psi_sor_vare_poisson] with a permittivity that is
    everywhere the one of the uniform solver: [omega] is the same in both
    passes. *)
Lemma small_vare_passes (comm : comm_t) (obj : psi_t)
    (fepsilon rho_elec : fields) (st : sor_state) (q a b : nat -> R) :
  psi_cs obj = cs_small ->
  (forall psi, psi_halo_psijump comm (psi_halo_psi comm psi) = psi) ->
  (forall p i, fepsilon p i = psi_epsilon obj) ->
  (forall p, rho_elec p = (fun _ => q p)) ->
  (forall p, st_psi st p = two_colour (a p) (b p)) ->
  let r0 := fun p => psi_epsilon obj * (3 * b p - 6 * a p)
                     + psi_unit_charge obj * psi_beta obj * q p in
  let a' := fun p => a p - st_omega st * r0 p / (-6 * psi_epsilon obj) in
  let r1 := fun p => psi_epsilon obj * (3 * a' p - 6 * b p)
                     + psi_unit_charge obj * psi_beta obj * q p in
  let b' := fun p => b p - st_omega st * r1 p / (-6 * psi_epsilon obj) in
  exists st1 st2,
    vare_pass comm obj fepsilon rho_elec 0 (reset_rnorm_local1 st)
    = Some st1 /\
    vare_pass comm obj fepsilon rho_elec 1 st1 = Some st2 /\
    (forall p, st_psi st1 p = two_colour (a' p) (b p)) /\
    (forall p, st_psi st2 p = two_colour (a' p) (b' p)) /\
    st_omega st2 = st_omega st /\
    (forall p, st_rnorm_local1 st2 p = 4 * Rabs (r0 p) + 4 * Rabs (r1 p)) /\
    st_rnorm st2 = st_rnorm st /\ st_log st2 = st_log st.
Proof.
  intros Hcs Hquiet Heps Hrho Hpsi r0 a' r1 b'.
  set (st1 := sor_halo comm
                (vare_sweep obj fepsilon rho_elec 0 (reset_rnorm_local1 st))).
  set (st2 := sor_halo comm (vare_sweep obj fepsilon rho_elec 1 st1)).
  assert (E1 : forall p,
             vare_half_sweep obj (st_omega st) 0 (fepsilon p) (rho_elec p)
               (st_psi st p, 0)
             = (two_colour (a' p) (b p), 0 + 4 * Rabs (r0 p))).
  { intros p. rewrite vare_half_sweep_constant by apply Heps.
    rewrite Hrho, Hpsi.
    now destruct (small_half_sweep obj (st_omega st) (q p) (a p) (b p) 0
                    Hcs) as [-> _]. }
  assert (Hpsi1 : forall p, st_psi st1 p = two_colour (a' p) (b p)).
  { intros p. unfold st1. cbn [sor_halo st_psi vare_sweep].
    rewrite Hquiet. cbn [reset_rnorm_local1 st_psi st_omega st_rnorm_local1].
    now rewrite E1. }
  assert (Hn1 : forall p, st_rnorm_local1 st1 p = 0 + 4 * Rabs (r0 p)).
  { intros p. unfold st1.
    cbn [sor_halo st_rnorm_local1 vare_sweep reset_rnorm_local1
         st_psi st_omega].
    now rewrite E1. }
  assert (Ho1 : st_omega st1 = st_omega st) by reflexivity.
  assert (E2 : forall p,
             vare_half_sweep obj (st_omega st1) 1 (fepsilon p) (rho_elec p)
               (st_psi st1 p, st_rnorm_local1 st1 p)
             = (two_colour (a' p) (b' p),
                0 + 4 * Rabs (r0 p) + 4 * Rabs (r1 p))).
  { intros p. rewrite vare_half_sweep_constant by apply Heps.
    rewrite Hrho, Hpsi1, Hn1, Ho1.
    now destruct (small_half_sweep obj (st_omega st) (q p) (a' p) (b p)
                    (0 + 4 * Rabs (r0 p)) Hcs) as [_ ->]. }
  exists st1, st2. split; [reflexivity|]. split; [reflexivity|].
  split; [exact Hpsi1|]. split; [|split; [|split; [|split]]].
  - intros p. unfold st2. cbn [sor_halo st_psi vare_sweep].
    rewrite Hquiet. now rewrite E2.
  - reflexivity.
  - intros p. unfold st2.
    cbn [sor_halo st_rnorm_local1 vare_sweep]. rewrite E2.
    cbn [snd]. ring.
  - reflexivity.
  - reflexivity.
Qed.

(* ===================================================================== *)
(** * The small system started from rest *)
(* ===================================================================== *)

Lemma PI_le_52_15 : PI <= 52 / 15.
Proof.
  destruct (PI_ineq 1) as [_ H].
  unfold sum_f_R0, tg_alt, PI_tg in H. simpl in H.
  lra.
Qed.

(** On the small system the square of the radius is below 1/3, so that
    the relaxation parameter stays below 6/5. *)
Lemma radius_of_small_square :
  1 / 64 < radius_of cs_small * radius_of cs_small < 1 / 3.
Proof.
  pose proof radius_of_small as [H1 H2].
  assert (H3 : - 51 / 100 < radius_of cs_small).
  { rewrite radius_of_PI.
    replace (Rmax (ltotX cs_small) (ltotZ cs_small)) with 2
      by (unfold cs_small, ltotX, ltotZ; simpl; symmetry; apply Rmax_left;
          lra).
    pose proof PI_le_52_15. pose proof PI_gt_3.
    replace (PI ^ 2 / 2 / 2 ^ 2) with (PI * PI / 8) by field.
    nra. }
  split; nra.
Qed.

Lemma inv_between_tight (d : R) : 5 / 6 < d < 1 -> 1 < 1 / d < 6 / 5.
Proof.
  intros [H1 H2]. assert (Hd : 0 < d) by lra.
  split; apply Rmult_lt_reg_r with d; try exact Hd;
    unfold Rdiv; rewrite Rmult_assoc, Rinv_l by lra; lra.
Qed.

Lemma omega_next_small (n pass : Z) (omega : R) :
  1 <= omega < 6 / 5 ->
  1 < omega_next (radius_of cs_small) n pass omega < 6 / 5.
Proof.
  intros Ho. pose proof radius_of_small_square as Hr.
  set (r := radius_of cs_small) in *.
  unfold omega_next.
  destruct ((n =? 0)%Z && (pass =? 0)%Z); apply inv_between_tight.
  - nra.
  - assert (Hro : 0 < r * r * omega < 2 / 5) by nra. nra.
Qed.

(** The first trip of [psi_sor_poisson] on the small system, from a
    potential at rest and with a charge density uniform on each rank:
    the first pass puts [c/(6 epsilon)] on the sites of colour 1, the
    second [omega1 c/(4 epsilon)] on those of colour 0, where [c] is
    [eunit*beta*rho_elec], and the sweep accumulates [10 |c|]. *)
Lemma small_rest_trip (comm : comm_t) (obj : psi_t) (rho_elec : fields)
    (q : nat -> R) :
  psi_cs obj = cs_small ->
  (forall psi, psi_halo_psijump comm (psi_halo_psi comm psi) = psi) ->
  (forall p, rho_elec p = (fun _ => q p)) ->
  psi_epsilon obj <> 0 ->
  let c := fun p => psi_unit_charge obj * psi_beta obj * q p in
  let omega1 := omega_next (radius_of cs_small) 0 0 1 in
  let omega2 := omega_next (radius_of cs_small) 0 1 omega1 in
  exists st1 st2,
    sor_pass comm obj rho_elec (radius_of cs_small) 0 0
      (reset_rnorm_local1 (sor_initial (uniform_fields 0))) = Some st1 /\
    sor_pass comm obj rho_elec (radius_of cs_small) 0 1 st1 = Some st2 /\
    (forall p, st_psi st1 p = two_colour (c p / (6 * psi_epsilon obj)) 0) /\
    (forall p, st_psi st2 p
               = two_colour (c p / (6 * psi_epsilon obj))
                            (omega1 * c p / (4 * psi_epsilon obj))) /\
    st_omega st2 = omega2 /\
    (forall p, st_rnorm_local1 st2 p = 10 * Rabs (c p)) /\
    st_rnorm st2 = (0, 0) /\ st_log st2 = [].
Proof.
  intros Hcs Hquiet Hrho Heps c omega1 omega2.
  pose proof (omega_next_small 0 0 1 ltac:(lra)) as B1. fold omega1 in B1.
  pose proof (omega_next_small 0 1 omega1 ltac:(lra)) as B2.
  fold omega2 in B2.
  destruct (small_sor_passes comm obj rho_elec (radius_of cs_small) 0
              (sor_initial (uniform_fields 0)) q (fun _ => 0) (fun _ => 0)
              Hcs Hquiet Hrho two_colour_zero)
    as (st1 & st2 & H0 & H1 & Hp1 & Hp2 & Ho & Hn & Hrn & Hlg).
  { cbn [sor_initial st_omega]. fold omega1. lra. }
  { cbn [sor_initial st_omega]. fold omega1 omega2. lra. }
  cbn [sor_initial st_omega st_rnorm st_log] in H0, H1, Hp1, Hp2, Ho, Hn,
    Hrn, Hlg.
  cbv beta in Hp1, Hp2, Hn.
  fold omega1 in H0, H1, Hp1, Hp2, Ho, Hn. fold omega2 in Ho.
  exists st1, st2. split; [exact H0|]. split; [exact H1|].
  split; [|split; [|split; [exact Ho|split; [|auto]]]].
  - intros p. rewrite Hp1. unfold c. f_equal. field. exact Heps.
  - intros p. rewrite Hp2. unfold c. f_equal; field; exact Heps.
  - intros p. rewrite Hn. unfold c.
    set (cp := psi_unit_charge obj * psi_beta obj * q p).
    match goal with
    | |- 4 * Rabs ?x + 4 * Rabs ?y = _ =>
        replace y with (3 / 2 * cp) by (field; exact Heps);
        replace x with cp by ring
    end.
    rewrite Rabs_mult, (Rabs_right (3 / 2)) by lra. lra.
Qed.

(** The same trip of [psi_sor_vare_poisson] when the callback gives the
    permittivity of the uniform solver: [omega] is 1 in both passes, and
    the second pass puts [c/(4 epsilon)] on the sites of colour 0. *)
Lemma small_rest_trip_vare (comm : comm_t) (obj : psi_t)
    (fepsilon rho_elec : fields) (q : nat -> R) :
  psi_cs obj = cs_small ->
  (forall psi, psi_halo_psijump comm (psi_halo_psi comm psi) = psi) ->
  (forall p i, fepsilon p i = psi_epsilon obj) ->
  (forall p, rho_elec p = (fun _ => q p)) ->
  psi_epsilon obj <> 0 ->
  let c := fun p => psi_unit_charge obj * psi_beta obj * q p in
  exists st1 st2,
    vare_pass comm obj fepsilon rho_elec 0
      (reset_rnorm_local1 (sor_initial (uniform_fields 0))) = Some st1 /\
    vare_pass comm obj fepsilon rho_elec 1 st1 = Some st2 /\
    (forall p, st_psi st1 p = two_colour (c p / (6 * psi_epsilon obj)) 0) /\
    (forall p, st_psi st2 p
               = two_colour (c p / (6 * psi_epsilon obj))
                            (c p / (4 * psi_epsilon obj))) /\
    st_omega st2 = 1 /\
    (forall p, st_rnorm_local1 st2 p = 10 * Rabs (c p)) /\
    st_rnorm st2 = (0, 0) /\ st_log st2 = [].
Proof.
  intros Hcs Hquiet Hfe Hrho Heps c.
  destruct (small_vare_passes comm obj fepsilon rho_elec
              (sor_initial (uniform_fields 0)) q (fun _ => 0) (fun _ => 0)
              Hcs Hquiet Hfe Hrho two_colour_zero)
    as (st1 & st2 & H0 & H1 & Hp1 & Hp2 & Ho & Hn & Hrn & Hlg).
  cbn [sor_initial st_omega st_rnorm st_log] in H0, H1, Hp1, Hp2, Ho, Hn,
    Hrn, Hlg.
  cbv beta in Hp1, Hp2, Hn.
  exists st1, st2. split; [exact H0|]. split; [exact H1|].
  split; [|split; [|split; [exact Ho|split; [|auto]]]].
  - intros p. rewrite Hp1. unfold c. f_equal. field. exact Heps.
  - intros p. rewrite Hp2. unfold c. f_equal; field; exact Heps.
  - intros p. rewrite Hn. unfold c.
    set (cp := psi_unit_charge obj * psi_beta obj * q p).
    match goal with
    | |- 4 * Rabs ?x + 4 * Rabs ?y = _ =>
        replace y with (3 / 2 * cp) by (field; exact Heps);
        replace x with cp by ring
    end.
    rewrite Rabs_mult, (Rabs_right (3 / 2)) by lra. lra.
Qed.

(** The initial norm of the small system at rest. *)
Lemma small_rest_norm (obj : psi_t) (rho_elec : fields) (q : nat -> R)
    (p : nat) :
  psi_cs obj = cs_small ->
  (forall p, rho_elec p = (fun _ => q p)) ->
  rnorm_local0 obj (rho_elec p) (uniform_fields 0 p)
  = 8 * Rabs (psi_unit_charge obj * psi_beta obj * q p).
Proof.
  intros Hcs Hrho. rewrite Hrho, two_colour_zero, small_rnorm_local0 by
    exact Hcs.
  replace (psi_epsilon obj * (3 * 0 - 6 * 0)
           + psi_unit_charge obj * psi_beta obj * q p)
    with (psi_unit_charge obj * psi_beta obj * q p) by ring.
  ring.
Qed.

(** ** Runs on the small system *)

Section SmallRuns.

Variables (comm : comm_t) (obj : psi_t) (rho_elec : fields) (q : nat -> R).
Variable its : Z.

Hypothesis Hcs : psi_cs obj = cs_small.
Hypothesis Hquiet :
  forall psi, psi_halo_psijump comm (psi_halo_psi comm psi) = psi.
Hypothesis Hrho : forall p, rho_elec p = (fun _ => q p).
Hypothesis Heps : psi_epsilon obj <> 0.

Let c := fun p => psi_unit_charge obj * psi_beta obj * q p.
Let initial := sum_ranks (nranks comm) (fun p => 8 * Rabs (c p)).
Let total := sum_ranks (nranks comm) (fun p => 10 * Rabs (c p)).
Let omega1 := omega_next (radius_of cs_small) 0 0 1.
Let omega2 := omega_next (radius_of cs_small) 0 1 omega1.
Let rnl0 := fun p => rnorm_local0 obj (rho_elec p) (uniform_fields 0 p).

Lemma small_initial_norm : mpi_allreduce_sum comm rnl0 = initial.
Proof.
  apply sum_ranks_ext. intros p. unfold rnl0.
  now rewrite (small_rest_norm obj rho_elec q p Hcs Hrho).
Qed.

(** The first trip leaves the loop when the norm [total] of its sweep is
    below the absolute tolerance. *)
Lemma small_rest_breaks :
  psi_nfreq obj <> 0%Z -> total < psi_abstol obj ->
  exists st,
    sor_iteration comm obj rho_elec rnl0 (radius_of cs_small) its 0
      (sor_initial (uniform_fields 0)) = Break ConvergedAbsolute st /\
    (forall p, st_psi st p
               = two_colour (c p / (6 * psi_epsilon obj))
                            (omega1 * c p / (4 * psi_epsilon obj))) /\
    st_rnorm st = (initial, total).
Proof.
  intros Hfreq Hlt.
  destruct (small_rest_trip comm obj rho_elec q Hcs Hquiet Hrho Heps)
    as (st1 & st2 & H0 & H1 & _ & Hp2 & _ & Hn & _).
  assert (Hsum : mpi_allreduce_sum comm (st_rnorm_local1 st2) = total)
    by (apply sum_ranks_ext; exact Hn).
  unfold sor_iteration. rewrite for_pass_unfold, H0, H1.
  change (Z.rem 0 ncheck_poisson =? 0)%Z with true. cbv iota.
  unfold sor_check, report_and_break. cbn [fst snd].
  rewrite Hsum, small_initial_norm.
  replace (Rltb total (psi_abstol obj)) with true
    by (symmetry; now apply Rltb_true).
  destruct (Z.eqb_spec (psi_nfreq obj) 0) as [|_]; [contradiction|].
  eexists. split; [reflexivity|].
  match goal with |- context [log_if ?b ?m ?s] =>
    destruct (log_if_fields b m s) as (-> & _ & _ & ->) end.
  split; [exact Hp2|reflexivity].
Qed.

(** It goes on when the norm meets neither tolerance. *)
Lemma small_rest_goes_on :
  ~ total < psi_abstol obj -> ~ total < psi_reltol obj * initial ->
  exists st1 s1,
    sor_pass comm obj rho_elec (radius_of cs_small) 0 0
      (reset_rnorm_local1 (sor_initial (uniform_fields 0))) = Some st1 /\
    sor_iteration comm obj rho_elec rnl0 (radius_of cs_small) its 0
      (sor_initial (uniform_fields 0)) = Continue s1 /\
    (forall p, st_psi st1 p = two_colour (c p / (6 * psi_epsilon obj)) 0) /\
    (forall p, st_psi s1 p
               = two_colour (c p / (6 * psi_epsilon obj))
                            (omega1 * c p / (4 * psi_epsilon obj))) /\
    st_omega s1 = omega2 /\
    st_rnorm s1 = (initial, total) /\
    st_log s1 = if (0 =? psi_maxits obj - 1)%Z
                then [info_exceeded 1 initial total] else [].
Proof.
  intros Ha Hr.
  destruct (small_rest_trip comm obj rho_elec q Hcs Hquiet Hrho Heps)
    as (st1 & st2 & H0 & H1 & Hp1 & Hp2 & Ho & Hn & _).
  assert (Hsum : mpi_allreduce_sum comm (st_rnorm_local1 st2) = total)
    by (apply sum_ranks_ext; exact Hn).
  exists st1,
    (mk_state (st_psi st2) (st_omega st2) (st_rnorm_local1 st2)
       (initial, total)
       ([] ++ (if (0 =? psi_maxits obj - 1)%Z
               then [info_exceeded (0 + 1) initial total] else []))).
  split; [exact H0|]. split; [|cbn [st_psi st_omega st_rnorm st_log]; auto].
  apply sor_iteration_goes_on. exists st1, st2.
  split; [exact H0|]. split; [exact H1|].
  rewrite Hsum, small_initial_norm. split; [auto|].
  change (Z.rem 0 5 =? 0)%Z with true. cbv iota zeta. reflexivity.
Qed.

(** With a limit of at least one iteration the run then returns at the
    first residual check. *)
Lemma small_rest_converges :
  (1 <= psi_maxits obj)%Z -> psi_nfreq obj <> 0%Z ->
  total < psi_abstol obj ->
  exists st,
    psi_sor_poisson comm obj rho_elec (uniform_fields 0) its
    = Returned ConvergedAbsolute st /\
    (forall p, st_psi st p
               = two_colour (c p / (6 * psi_epsilon obj))
                            (omega1 * c p / (4 * psi_epsilon obj))) /\
    st_rnorm st = (initial, total).
Proof.
  intros Hm Hfreq Hlt.
  destruct (small_rest_breaks Hfreq Hlt) as (st & Hb & Hpsi & Hrn).
  exists st. split; [|auto].
  unfold psi_sor_poisson. rewrite Hcs.
  change (negb (1 <=? nhalo cs_small)%Z) with false.
  change (negb (nlocal_even cs_small)) with false. cbv iota.
  fold rnl0.
  apply (sor_loop_break
           (sor_iteration comm obj rho_elec rnl0 (radius_of cs_small) its)).
  - intros k s s'. apply sor_iteration_no_max.
  - exists 0%Z, (sor_initial (uniform_fields 0)).
    split; [constructor|]. split; [lia|exact Hb].
Qed.

Variable fepsilon : fields.
Hypothesis Hfe : forall p i, fepsilon p i = psi_epsilon obj.

Let vnl0 := fun p =>
  vare_rnorm_local0 obj (fepsilon p) (rho_elec p) (uniform_fields 0 p).

Lemma small_initial_norm_vare : mpi_allreduce_sum comm vnl0 = initial.
Proof.
  rewrite <- small_initial_norm. apply sum_ranks_ext. intros p.
  unfold vnl0, rnl0. apply vare_rnorm_local0_constant. apply Hfe.
Qed.

(** [psi_sor_vare_poisson] returns at the same check, the sites of colour
    0 having been relaxed with [omega = 1]. *)
Lemma small_rest_converges_vare :
  (1 <= psi_maxits obj)%Z -> psi_nfreq obj <> 0%Z ->
  total < psi_abstol obj ->
  exists st,
    psi_sor_vare_poisson comm obj fepsilon rho_elec (uniform_fields 0) its
    = Returned ConvergedAbsolute st /\
    (forall p, st_psi st p
               = two_colour (c p / (6 * psi_epsilon obj))
                            (c p / (4 * psi_epsilon obj))) /\
    st_rnorm st = (initial, total).
Proof.
  intros Hm Hfreq Hlt.
  destruct (small_rest_trip_vare comm obj fepsilon rho_elec q Hcs Hquiet Hfe
              Hrho Heps)
    as (st1 & st2 & H0 & H1 & _ & Hp2 & _ & Hn & _).
  assert (Hsum : mpi_allreduce_sum comm (st_rnorm_local1 st2) = total)
    by (apply sum_ranks_ext; exact Hn).
  assert (Hb : exists st,
             vare_iteration comm obj fepsilon rho_elec vnl0
               (radius_of cs_small) its 0 (sor_initial (uniform_fields 0))
             = Break ConvergedAbsolute st /\
             st_psi st = st_psi st2 /\ st_rnorm st = (initial, total)).
  { unfold vare_iteration. rewrite for_pass_unfold, H0, H1.
    change (Z.rem 0 ncheck_vare =? 0)%Z with true. cbv iota.
    unfold vare_check, report_and_break. cbn [fst snd].
    change (st_rnorm_local1 (vare_recompute (radius_of cs_small) st2))
      with (st_rnorm_local1 st2).
    rewrite Hsum, small_initial_norm_vare.
    replace (Rltb total (psi_abstol obj)) with true
      by (symmetry; now apply Rltb_true).
    destruct (Z.eqb_spec (psi_nfreq obj) 0) as [|_]; [contradiction|].
    eexists. split; [reflexivity|].
    match goal with |- context [log_if ?b ?m ?s] =>
      destruct (log_if_fields b m s) as (-> & _ & _ & ->) end.
    split; reflexivity. }
  destruct Hb as (st & Hb & Hpsi & Hrn).
  exists st. split; [|split; [|exact Hrn]].
  - unfold psi_sor_vare_poisson. rewrite Hcs.
    change (negb (nlocal_even cs_small)) with false.
    change (negb (stencil_in_bounds cs_small)) with false. cbv iota.
    fold vnl0.
    apply (sor_loop_break
             (vare_iteration comm obj fepsilon rho_elec vnl0
                (radius_of cs_small) its)).
    + intros k s s'. apply vare_iteration_no_max.
    + exists 0%Z, (sor_initial (uniform_fields 0)).
      split; [constructor|]. split; [lia|exact Hb].
  - intros p. rewrite Hpsi. apply Hp2.
Qed.

End SmallRuns.

(** ** Runs on the small system from a potential of two colours *)

Section SmallStart.

Variables (comm : comm_t) (obj : psi_t) (rho_elec : fields).
Variables (q a b : nat -> R) (its : Z).

Hypothesis Hcs : psi_cs obj = cs_small.
Hypothesis Hquiet :
  forall psi, psi_halo_psijump comm (psi_halo_psi comm psi) = psi.
Hypothesis Hrho : forall p, rho_elec p = (fun _ => q p).

Let psi0 : fields := fun p => two_colour (a p) (b p).
Let omega1 := omega_next (radius_of cs_small) 0 0 1.
Let r0 := fun p => psi_epsilon obj * (3 * b p - 6 * a p)
                   + psi_unit_charge obj * psi_beta obj * q p.
Let a' := fun p => a p - 1 * r0 p / (-6 * psi_epsilon obj).
Let r1 := fun p => psi_epsilon obj * (3 * a' p - 6 * b p)
                   + psi_unit_charge obj * psi_beta obj * q p.
Let total := sum_ranks (nranks comm) (fun p => 4 * Rabs (r0 p) + 4 * Rabs (r1 p)).

(** [psi_sor_poisson] returns at its first residual check when the norm
    of the first sweep is below the absolute tolerance: the first pass
    has relaxed the sites of colour 1 with [omega = 1], the second those
    of colour 0 with the seed [omega1]. *)
Lemma small_start_converges :
  (1 <= psi_maxits obj)%Z -> psi_nfreq obj <> 0%Z ->
  total < psi_abstol obj ->
  exists st,
    psi_sor_poisson comm obj rho_elec psi0 its
    = Returned ConvergedAbsolute st /\
    (forall p, st_psi st p
               = two_colour (a' p)
                   (b p - omega1 * r1 p / (-6 * psi_epsilon obj))) /\
    st_rnorm st
    = (mpi_allreduce_sum comm
         (fun p => rnorm_local0 obj (rho_elec p) (psi0 p)), total).
Proof.
  intros Hm Hfreq Hlt.
  pose proof (omega_next_small 0 0 1 ltac:(lra)) as B1. fold omega1 in B1.
  pose proof (omega_next_small 0 1 omega1 ltac:(lra)) as B2.
  destruct (small_sor_passes comm obj rho_elec (radius_of cs_small) 0
              (sor_initial psi0) q a b Hcs Hquiet Hrho (fun p => eq_refl))
    as (st1 & st2 & H0 & H1 & _ & Hp2 & _ & Hn & _).
  { cbn [sor_initial st_omega]. fold omega1. lra. }
  { cbn [sor_initial st_omega]. fold omega1. lra. }
  cbn [sor_initial st_omega] in Hp2, Hn. cbv beta in Hp2, Hn.
  fold omega1 in Hp2.
  assert (Hsum : mpi_allreduce_sum comm (st_rnorm_local1 st2) = total)
    by (apply sum_ranks_ext; exact Hn).
  set (rnl0 := fun p => rnorm_local0 obj (rho_elec p) (psi0 p)).
  assert (Hb : exists st,
             sor_iteration comm obj rho_elec rnl0 (radius_of cs_small) its 0
               (sor_initial psi0) = Break ConvergedAbsolute st /\
             st_psi st = st_psi st2 /\
             st_rnorm st = (mpi_allreduce_sum comm rnl0, total)).
  { unfold sor_iteration. rewrite for_pass_unfold, H0, H1.
    change (Z.rem 0 ncheck_poisson =? 0)%Z with true. cbv iota.
    unfold sor_check, report_and_break. cbn [fst snd].
    rewrite Hsum.
    replace (Rltb total (psi_abstol obj)) with true
      by (symmetry; now apply Rltb_true).
    destruct (Z.eqb_spec (psi_nfreq obj) 0) as [|_]; [contradiction|].
    eexists. split; [reflexivity|].
    match goal with |- context [log_if ?c ?m ?s] =>
      destruct (log_if_fields c m s) as (-> & _ & _ & ->) end.
    split; reflexivity. }
  destruct Hb as (st & Hb & Hpsi & Hrn).
  exists st. split; [|split; [|exact Hrn]].
  - unfold psi_sor_poisson. rewrite Hcs.
    change (negb (1 <=? nhalo cs_small)%Z) with false.
    change (negb (nlocal_even cs_small)) with false. cbv iota.
    fold rnl0.
    apply (sor_loop_break
             (sor_iteration comm obj rho_elec rnl0 (radius_of cs_small) its)).
    + intros k s s'. apply sor_iteration_no_max.
    + exists 0%Z, (sor_initial psi0).
      split; [constructor|]. split; [lia|exact Hb].
  - intros p. rewrite Hpsi. apply Hp2.
Qed.

Variable fepsilon : fields.
Hypothesis Hfe : forall p i, fepsilon p i = psi_epsilon obj.

(** [psi_sor_vare_poisson] returns at the same check, both passes having
    relaxed with [omega = 1]. *)
Lemma small_start_converges_vare :
  (1 <= psi_maxits obj)%Z -> psi_nfreq obj <> 0%Z ->
  total < psi_abstol obj ->
  exists st,
    psi_sor_vare_poisson comm obj fepsilon rho_elec psi0 its
    = Returned ConvergedAbsolute st /\
    (forall p, st_psi st p
               = two_colour (a' p)
                   (b p - 1 * r1 p / (-6 * psi_epsilon obj))) /\
    st_rnorm st
    = (mpi_allreduce_sum comm
         (fun p => rnorm_local0 obj (rho_elec p) (psi0 p)), total).
Proof.
  intros Hm Hfreq Hlt.
  destruct (small_vare_passes comm obj fepsilon rho_elec (sor_initial psi0)
              q a b Hcs Hquiet Hfe Hrho (fun p => eq_refl))
    as (st1 & st2 & H0 & H1 & _ & Hp2 & _ & Hn & _).
  cbn [sor_initial st_omega] in Hp2, Hn. cbv beta in Hp2, Hn.
  assert (Hsum : mpi_allreduce_sum comm (st_rnorm_local1 st2) = total)
    by (apply sum_ranks_ext; exact Hn).
  set (vnl0 := fun p =>
         vare_rnorm_local0 obj (fepsilon p) (rho_elec p) (psi0 p)).
  assert (Hinit : mpi_allreduce_sum comm vnl0
                  = mpi_allreduce_sum comm
                      (fun p => rnorm_local0 obj (rho_elec p) (psi0 p)))
    by (apply sum_ranks_ext; intros p; unfold vnl0;
        apply vare_rnorm_local0_constant; apply Hfe).
  assert (Hb : exists st,
             vare_iteration comm obj fepsilon rho_elec vnl0
               (radius_of cs_small) its 0 (sor_initial psi0)
             = Break ConvergedAbsolute st /\
             st_psi st = st_psi st2 /\
             st_rnorm st = (mpi_allreduce_sum comm vnl0, total)).
  { unfold vare_iteration. rewrite for_pass_unfold, H0, H1.
    change (Z.rem 0 ncheck_vare =? 0)%Z with true. cbv iota.
    unfold vare_check, report_and_break. cbn [fst snd].
    change (st_rnorm_local1 (vare_recompute (radius_of cs_small) st2))
      with (st_rnorm_local1 st2).
    rewrite Hsum.
    replace (Rltb total (psi_abstol obj)) with true
      by (symmetry; now apply Rltb_true).
    destruct (Z.eqb_spec (psi_nfreq obj) 0) as [|_]; [contradiction|].
    eexists. split; [reflexivity|].
    match goal with |- context [log_if ?c ?m ?s] =>
      destruct (log_if_fields c m s) as (-> & _ & _ & ->) end.
    split; reflexivity. }
  destruct Hb as (st & Hb & Hpsi & Hrn).
  exists st. split; [|split].
  - unfold psi_sor_vare_poisson. rewrite Hcs.
    change (negb (nlocal_even cs_small)) with false.
    change (negb (stencil_in_bounds cs_small)) with false. cbv iota.
    fold vnl0.
    apply (sor_loop_break
             (vare_iteration comm obj fepsilon rho_elec vnl0
                (radius_of cs_small) its)).
    + intros k s s'. apply vare_iteration_no_max.
    + exists 0%Z, (sor_initial psi0).
      split; [constructor|]. split; [lia|exact Hb].
  - intros p. rewrite Hpsi. apply Hp2.
  - now rewrite Hrn, Hinit.
Qed.

End SmallStart.

(* ===================================================================== *)
(** * The norms reported at the iteration limit *)
(* ===================================================================== *)

(** In [psi_sor_poisson], from the second trip on, [rnorm] holds what the
    most recent residual check has reduced: the check of the last trip
    before [k] whose index is a multiple of 5. *)
Lemma sor_last_check (comm : comm_t) (obj : psi_t) (rho_elec : fields)
    (rnl0 : nat -> R) (radius : R) (its : Z) (st0 : sor_state) :
  (1 <= nhalo (psi_cs obj))%Z ->
  forall k s,
    reaches (sor_iteration comm obj rho_elec rnl0 radius its) 0 st0 k s ->
    (1 <= k)%Z ->
    exists s' st1,
      reaches (sor_iteration comm obj rho_elec rnl0 radius its) 0 st0
              (5 * ((k - 1) / 5)) s' /\
      sor_pass comm obj rho_elec radius (5 * ((k - 1) / 5)) 0
        (reset_rnorm_local1 s') = Some st1 /\
      st_rnorm s
      = (mpi_allreduce_sum comm rnl0,
         mpi_allreduce_sum comm
           (sweep_norm obj rho_elec (st_psi s') (st_psi st1))).
Proof.
  intros Hh k s Hr.
  induction Hr as [|k s s'' Hr IH Hc]; intros Hk; [lia|].
  pose proof (reaches_le _ _ _ _ _ Hr) as Hk0.
  replace (k + 1 - 1)%Z with k by lia.
  apply sor_iteration_goes_on in Hc.
  destruct Hc as (st1 & st2 & H0 & H1 & _ & Hst). cbv zeta in Hst.
  destruct (Z.eqb_spec (Z.rem k 5) 0) as [Hn|Hn].
  - assert (E : (5 * (k / 5))%Z = k) by zdiv.
    rewrite E. exists s, st1. split; [exact Hr|]. split; [exact H0|].
    rewrite Hst. cbn [st_rnorm]. f_equal.
    apply sum_ranks_ext.
    now apply (sor_trip_norm comm obj rho_elec radius k s st1 st2).
  - assert (Hk1 : (1 <= k)%Z).
    { destruct (Z.eq_dec k 0) as [->|]; [|lia]. now contradiction Hn. }
    destruct (IH Hk1) as (s' & st1' & Hr' & H0' & Hrn).
    assert (E : ((k - 1) / 5)%Z = (k / 5)%Z) by zdiv.
    rewrite E in Hr', H0'.
    exists s', st1'. split; [exact Hr'|]. split; [exact H0'|].
    rewrite Hst. cbn [st_rnorm]. exact Hrn.
Qed.

(** A run of [psi_sor_poisson] that stops at the limit [N >= 1] has made
    all its trips; it returns the potential of the second pass of the
    last one, and what it reports as initial and final norm is the
    reduced initial norm and the reduced norm of the sweep of the last
    trip that checked the residual, of index [5*((N-1)/5)]. *)
Lemma psi_sor_poisson_limit (comm : comm_t) (obj : psi_t)
    (rho_elec psi0 : fields) (its : Z) (st : sor_state) :
  let rnl0 := fun p => rnorm_local0 obj (rho_elec p) (psi0 p) in
  let radius := radius_of (psi_cs obj) in
  let body := sor_iteration comm obj rho_elec rnl0 radius its in
  let N := psi_maxits obj in
  (1 <= N)%Z ->
  psi_sor_poisson comm obj rho_elec psi0 its
  = Returned MaxIterationsReached st ->
  exists sl sl2 s st1,
    reaches body 0 (sor_initial psi0) (N - 1) sl /\
    body (N - 1)%Z sl = Continue st /\
    for_pass (sor_pass comm obj rho_elec radius (N - 1))
      (reset_rnorm_local1 sl) = Some sl2 /\
    st_psi st = st_psi sl2 /\
    reaches body 0 (sor_initial psi0) (5 * ((N - 1) / 5)) s /\
    sor_pass comm obj rho_elec radius (5 * ((N - 1) / 5)) 0
      (reset_rnorm_local1 s) = Some st1 /\
    st_rnorm st
    = (mpi_allreduce_sum comm rnl0,
       mpi_allreduce_sum comm
         (sweep_norm obj rho_elec (st_psi s) (st_psi st1))) /\
    st_log st
    = [info_exceeded N (fst (st_rnorm st)) (snd (st_rnorm st))].
Proof.
  intros rnl0 radius body N HN Hrun.
  pose proof (psi_sor_poisson_report comm obj rho_elec psi0 its _ st Hrun)
    as [_ Hlog].
  specialize (Hlog eq_refl).
  replace (1 <=? psi_maxits obj)%Z with true in Hlog
    by (symmetry; apply Z.leb_le; exact HN).
  unfold psi_sor_poisson in Hrun.
  destruct (Z.leb_spec 1 (nhalo (psi_cs obj))) as [Hh|Hh];
    cbn [negb] in Hrun; [|discriminate].
  destruct (negb _); [discriminate|].
  fold rnl0 radius body in Hrun.
  apply sor_loop_exhausts in Hrun;
    [|intros k s s'; apply sor_iteration_no_max].
  fold N in Hrun. rewrite Z2Nat.id in Hrun by lia. cbn [Z.add] in Hrun.
  assert (Hreach : reaches body 0 (sor_initial psi0) (N - 1 + 1) st)
    by (replace (N - 1 + 1)%Z with N by lia; exact Hrun).
  destruct (sor_last_check comm obj rho_elec rnl0 radius its
              (sor_initial psi0) Hh _ _ Hreach ltac:(lia))
    as (s & st1 & Hrs & H0 & Hrn).
  replace (N - 1 + 1 - 1)%Z with (N - 1)%Z in Hrs, H0 by lia.
  apply reaches_last in Hrun; [|lia].
  destruct Hrun as (sl & Hrl & Hc).
  pose proof Hc as Hc'. apply sor_iteration_continue in Hc'.
  destruct Hc' as (sl2 & Hp & Hpsi & _).
  exists sl, sl2, s, st1. auto 10.
Qed.

(** In [psi_sor_vare_poisson] every trip checks the residual: the norm
    reported at the limit is the one of the last sweep. *)
Lemma psi_sor_vare_poisson_limit (comm : comm_t) (obj : psi_t)
    (fepsilon rho_elec psi0 : fields) (its : Z) (st : sor_state) :
  let vnl0 := fun p =>
    vare_rnorm_local0 obj (fepsilon p) (rho_elec p) (psi0 p) in
  let radius := radius_of (psi_cs obj) in
  let body := vare_iteration comm obj fepsilon rho_elec vnl0 radius its in
  let N := psi_maxits obj in
  (1 <= nhalo (psi_cs obj))%Z ->
  (1 <= N)%Z ->
  psi_sor_vare_poisson comm obj fepsilon rho_elec psi0 its
  = Returned MaxIterationsReached st ->
  exists sl st1 sl2,
    reaches body 0 (sor_initial psi0) (N - 1) sl /\
    body (N - 1)%Z sl = Continue st /\
    vare_pass comm obj fepsilon rho_elec 0 (reset_rnorm_local1 sl)
    = Some st1 /\
    vare_pass comm obj fepsilon rho_elec 1 st1 = Some sl2 /\
    st_psi st = st_psi sl2 /\
    st_rnorm st
    = (mpi_allreduce_sum comm vnl0,
       mpi_allreduce_sum comm
         (vare_sweep_norm obj fepsilon rho_elec (st_psi sl) (st_psi st1))) /\
    st_log st
    = [info_vare_exceeded N (fst (st_rnorm st)) (snd (st_rnorm st))].
Proof.
  intros vnl0 radius body N Hh HN Hrun.
  pose proof (psi_sor_vare_poisson_report comm obj fepsilon rho_elec psi0 its
                _ st Hrun) as [_ Hlog].
  specialize (Hlog eq_refl).
  replace (1 <=? psi_maxits obj)%Z with true in Hlog
    by (symmetry; apply Z.leb_le; exact HN).
  unfold psi_sor_vare_poisson in Hrun.
  destruct (negb _); [discriminate|]. destruct (negb _); [discriminate|].
  fold vnl0 radius body in Hrun.
  apply sor_loop_exhausts in Hrun;
    [|intros k s s'; apply vare_iteration_no_max].
  fold N in Hrun. rewrite Z2Nat.id in Hrun by lia. cbn [Z.add] in Hrun.
  apply reaches_last in Hrun; [|lia].
  destruct Hrun as (sl & Hrl & Hc).
  pose proof Hc as Hc'. apply vare_iteration_goes_on in Hc'.
  destruct Hc' as (st1 & sl2 & H0 & H1 & _ & Hst). cbv zeta in Hst.
  exists sl, st1, sl2.
  split; [exact Hrl|]. split; [exact Hc|]. split; [exact H0|].
  split; [exact H1|]. split; [now rewrite Hst|]. split; [|exact Hlog].
  rewrite Hst. cbn [st_rnorm]. f_equal.
  apply sum_ranks_ext.
  now apply (vare_trip_norm comm obj fepsilon rho_elec sl st1 sl2).
Qed.

(* ===================================================================== *)
(** * Runs that do not return *)
(* ===================================================================== *)

(** A run of [psi_sor_poisson] fails at an assertion, at the entry or on
    a recomputed [omega], or at the remainder by a zero [nfreq], taken
    when a residual check has found a tolerance met. *)
Lemma psi_sor_poisson_fails (comm : comm_t) (obj : psi_t)
    (rho_elec psi0 : fields) (its : Z) (f : failure) :
  let rnl0 := fun p => rnorm_local0 obj (rho_elec p) (psi0 p) in
  let radius := radius_of (psi_cs obj) in
  let body := sor_iteration comm obj rho_elec rnl0 radius its in
  psi_sor_poisson comm obj rho_elec psi0 its = Failed f ->
  (f = FailedAssertion /\
   ((nhalo (psi_cs obj) < 1)%Z \/ nlocal_even (psi_cs obj) = false \/
    exists k stk,
      reaches body 0 (sor_initial psi0) k stk /\
      (0 <= k < psi_maxits obj)%Z /\
      ~ (1 < omega_next radius k 0 (st_omega stk) < 2 /\
         1 < omega_next radius k 1
               (omega_next radius k 0 (st_omega stk)) < 2))) \/
  (f = DivisionByZero /\ psi_nfreq obj = 0%Z /\
   exists k stk st1 st2,
     reaches body 0 (sor_initial psi0) k stk /\
     (0 <= k < psi_maxits obj)%Z /\ Z.rem k 5 = 0%Z /\
     sor_pass comm obj rho_elec radius k 0 (reset_rnorm_local1 stk)
     = Some st1 /\
     sor_pass comm obj rho_elec radius k 1 st1 = Some st2 /\
     let r1 := mpi_allreduce_sum comm
                 (sweep_norm obj rho_elec (st_psi stk) (st_psi st1)) in
     r1 < psi_abstol obj \/
     r1 < psi_reltol obj * mpi_allreduce_sum comm rnl0).
Proof.
  intros rnl0 radius body. unfold psi_sor_poisson.
  destruct (Z.leb_spec 1 (nhalo (psi_cs obj))) as [Hh|Hh]; cbn [negb].
  2: { intros [= <-]. left. split; [reflexivity|]. left. lia. }
  destruct (nlocal_even (psi_cs obj)); cbn [negb].
  2: { intros [= <-]. left. auto. }
  fold rnl0 radius body. intros Hrun.
  apply sor_loop_fails in Hrun. destruct Hrun as (k & stk & Hr & Hk & Hf).
  assert (Hk' : (0 <= k < psi_maxits obj)%Z) by lia.
  destruct (sor_iteration_fails _ _ _ _ _ _ _ _ _ Hf) as [->|(-> & Hz & Hn)].
  - left. split; [reflexivity|]. right. right. exists k, stk.
    split; [exact Hr|]. split; [exact Hk'|].
    now apply sor_iteration_omega in Hf.
  - right. split; [reflexivity|]. split; [exact Hz|].
    pose proof Hf as Hf'. unfold body, sor_iteration in Hf'.
    rewrite for_pass_unfold in Hf'.
    destruct (sor_pass comm obj rho_elec radius k 0 (reset_rnorm_local1 stk))
      as [st1|] eqn:H0; [|discriminate].
    destruct (sor_pass comm obj rho_elec radius k 1 st1) as [st2|] eqn:H1;
      [|discriminate].
    exists k, stk, st1, st2.
    split; [exact Hr|]. split; [exact Hk'|]. split; [exact Hn|].
    split; [exact H0|]. split; [exact H1|].
    destruct (sor_trip_leaves comm obj rho_elec rnl0 radius its k stk st1 st2
                Hh H0 H1) as [_ Htrap].
    now destruct (proj1 Htrap Hf) as ((_ & Hmet) & _).
Qed.

(** With a halo of one layer or more, [psi_sor_vare_poisson] fails at the
    assertions on the local extents or at the same remainder. *)
Lemma psi_sor_vare_poisson_fails (comm : comm_t) (obj : psi_t)
    (fepsilon rho_elec psi0 : fields) (its : Z) (f : failure) :
  let vnl0 := fun p =>
    vare_rnorm_local0 obj (fepsilon p) (rho_elec p) (psi0 p) in
  let radius := radius_of (psi_cs obj) in
  let body := vare_iteration comm obj fepsilon rho_elec vnl0 radius its in
  (1 <= nhalo (psi_cs obj))%Z ->
  psi_sor_vare_poisson comm obj fepsilon rho_elec psi0 its = Failed f ->
  (f = FailedAssertion /\ nlocal_even (psi_cs obj) = false) \/
  (f = DivisionByZero /\ psi_nfreq obj = 0%Z /\
   exists k stk st1 st2,
     reaches body 0 (sor_initial psi0) k stk /\
     (0 <= k < psi_maxits obj)%Z /\
     vare_pass comm obj fepsilon rho_elec 0 (reset_rnorm_local1 stk)
     = Some st1 /\
     vare_pass comm obj fepsilon rho_elec 1 st1 = Some st2 /\
     let r1 := mpi_allreduce_sum comm
                 (vare_sweep_norm obj fepsilon rho_elec (st_psi stk)
                    (st_psi st1)) in
     r1 < psi_abstol obj \/
     r1 < psi_reltol obj * mpi_allreduce_sum comm vnl0).
Proof.
  intros vnl0 radius body Hh. unfold psi_sor_vare_poisson.
  destruct (nlocal_even (psi_cs obj)); cbn [negb].
  2: { intros [= <-]. left. auto. }
  rewrite (stencil_in_bounds_halo _ Hh). cbn [negb].
  fold vnl0 radius body. intros Hrun.
  apply sor_loop_fails in Hrun. destruct Hrun as (k & stk & Hr & Hk & Hf).
  assert (Hk' : (0 <= k < psi_maxits obj)%Z) by lia.
  destruct (vare_iteration_fails _ _ _ _ _ _ _ _ _ _ Hf) as (-> & Hz).
  right. split; [reflexivity|]. split; [exact Hz|].
  set (st1 := sor_halo comm
                (vare_sweep obj fepsilon rho_elec 0
                   (reset_rnorm_local1 stk))).
  set (st2 := sor_halo comm (vare_sweep obj fepsilon rho_elec 1 st1)).
  exists k, stk, st1, st2.
  split; [exact Hr|]. split; [exact Hk'|].
  split; [reflexivity|]. split; [reflexivity|].
  destruct (vare_trip_leaves comm obj fepsilon rho_elec vnl0 radius its k stk
              st1 st2 Hh eq_refl eq_refl) as [_ Htrap].
  now destruct (proj1 Htrap Hf) as ((_ & Hmet) & _).
Qed.

(** ** A limit of two iterations on the small system *)

(** With a limit of two iterations and tolerances of zero, the uniform
    charge 1 and the potential at rest: [psi_sor_poisson] makes its two
    trips and reports 8 as initial and 10 as final norm.  10 is the norm
    of the sweep of the first trip, the only one that checked the
    residual; the sweep of the second and last trip has a norm below 6. *)
Lemma small_stale_run :
  let obj := obj_small 0 0 2 in
  let rho := uniform_fields 1 in
  let rnl0 := fun p => rnorm_local0 obj (rho p) (uniform_fields 0 p) in
  let body := sor_iteration comm_small obj rho rnl0 (radius_of cs_small) 0 in
  exists st sl st1,
    psi_sor_poisson comm_small obj rho (uniform_fields 0) 0
    = Returned MaxIterationsReached st /\
    st_log st = [info_exceeded 2 8 10] /\
    reaches body 0 (sor_initial (uniform_fields 0)) 1 sl /\
    sor_pass comm_small obj rho (radius_of cs_small) 1 0
      (reset_rnorm_local1 sl) = Some st1 /\
    mpi_allreduce_sum comm_small
      (sweep_norm obj rho (st_psi sl) (st_psi st1)) < 6.
Proof.
  intros obj rho rnl0 body.
  assert (Hcs : psi_cs obj = cs_small) by reflexivity.
  assert (Hquiet : forall psi,
             psi_halo_psijump comm_small (psi_halo_psi comm_small psi) = psi)
    by reflexivity.
  assert (Hrho : forall p, rho p = (fun _ => (fun _ : nat => 1) p))
    by reflexivity.
  assert (Heps : psi_epsilon obj <> 0) by (simpl; lra).
  set (omega1 := omega_next (radius_of cs_small) 0 0 1).
  set (omega2 := omega_next (radius_of cs_small) 0 1 omega1).
  pose proof (omega_next_small 0 0 1 ltac:(lra)) as B1. fold omega1 in B1.
  pose proof (omega_next_small 0 1 omega1 ltac:(lra)) as B2.
  fold omega2 in B2.
  (* the first trip *)
  destruct (small_rest_goes_on comm_small obj rho (fun _ => 1) 0 Hcs Hquiet
              Hrho Heps)
    as (st1 & s1 & _ & Hc1 & _ & Hpsi1 & Ho1 & Hrn1 & Hlog1).
  { cbn. rewrite Rabs_right by lra. lra. }
  { cbn. rewrite Rabs_right by lra. lra. }
  fold rnl0 body omega1 in Hc1, Hpsi1. fold omega1 omega2 in Ho1.
  cbn [psi_unit_charge psi_beta psi_epsilon obj obj_small] in Hpsi1.
  assert (Hrn1' : st_rnorm s1 = (8, 10)).
  { rewrite Hrn1. cbn. rewrite Rabs_right by lra. f_equal; lra. }
  change (0 =? psi_maxits obj - 1)%Z with false in Hlog1.
  (* the second trip *)
  pose proof (omega_next_small 1 0 omega2 ltac:(lra)) as B3.
  set (omega3 := omega_next (radius_of cs_small) 1 0 omega2) in *.
  pose proof (omega_next_small 1 1 omega3 ltac:(lra)) as B4.
  destruct (small_sor_passes comm_small obj rho (radius_of cs_small) 1 s1
              (fun _ => 1)
              (fun _ => 1 * 1 * 1 / (6 * 1))
              (fun _ => omega1 * (1 * 1 * 1) / (4 * 1))
              Hcs Hquiet Hrho Hpsi1)
    as (st1' & st2' & H0 & H1 & Hp1 & _).
  { rewrite Ho1. fold omega3. lra. }
  { rewrite Ho1. fold omega3. lra. }
  cbv beta in Hp1. rewrite Ho1 in Hp1.
  cbn [psi_unit_charge psi_beta psi_epsilon obj obj_small] in Hp1.
  set (s2 := mk_state (st_psi st2') (st_omega st2') (st_rnorm_local1 st2')
               (st_rnorm s1)
               (st_log s1
                ++ [info_exceeded (1 + 1) (fst (st_rnorm s1))
                      (snd (st_rnorm s1))])).
  assert (Hc2 : body 1%Z s1 = Continue s2).
  { apply sor_iteration_goes_on. exists st1', st2'.
    split; [exact H0|]. split; [exact H1|].
    split; [intros H; vm_compute in H; discriminate|reflexivity]. }
  assert (Hr1 : reaches body 0 (sor_initial (uniform_fields 0)) 1 s1).
  { apply (reaches_next body 0 _ 0%Z (sor_initial (uniform_fields 0)) s1);
      [constructor|exact Hc1]. }
  exists s2, s1, st1'. split; [|split; [|split; [exact Hr1|split]]].
  - unfold psi_sor_poisson.
    change (negb (1 <=? nhalo (psi_cs obj))%Z) with false.
    change (negb (nlocal_even (psi_cs obj))) with false. cbv iota.
    change (radius_of (psi_cs obj)) with (radius_of cs_small).
    fold rnl0 body.
    apply (sor_loop_limit body 2 (sor_initial (uniform_fields 0)) s1 s2);
      [|exact Hr1|exact Hc2].
    intros k x y. apply sor_iteration_no_max.
  - unfold s2. cbn [st_log]. rewrite Hlog1, Hrn1'. reflexivity.
  - exact H0.
  - unfold mpi_allreduce_sum. cbn [comm_small nranks sum_ranks].
    rewrite (small_sweep_norm obj rho (st_psi s1) (st_psi st1') 0 _ _ _ _ _
               Hcs (Hrho 0%nat) (Hpsi1 0%nat) (Hp1 0%nat)).
    cbn [psi_unit_charge psi_beta psi_epsilon obj obj_small].
    assert (H12 : 1 < omega1 * omega2 < 36 / 25) by nra.
    set (x := 1 * (3 * (omega1 * (1 * 1 * 1) / (4 * 1))
                   - 6 * (1 * 1 * 1 / (6 * 1))) + 1 * 1 * 1).
    assert (Hx : x = 3 / 4 * omega1) by (unfold x; field).
    match goal with |- 0 + (4 * Rabs x + 4 * Rabs ?t) < 6 => set (y := t) end.
    assert (Hy : y = 3 / 2 + 3 / 8 * (omega1 * omega2) - 3 / 2 * omega1)
      by (unfold y; fold x; rewrite Hx; field).
    assert (Ax : Rabs x < 9 / 10)
      by (rewrite Hx; apply Rabs_def1; lra).
    assert (Ay : Rabs y < 27 / 50)
      by (rewrite Hy; apply Rabs_def1; lra).
    lra.
Qed.



(* ===================================================================== *)
(** * The runs and the tolerances *)
(* ===================================================================== *)



(** ** The initial norm and its reduction *)

Lemma sum_over_snoc (A : Type) (f : A -> R) (l : list A) (x : A) :
  sum_over f (l ++ [x]) = sum_over f l + f x.
Proof.
  induction l as [|y l IH]; simpl; [lra|]. rewrite IH. lra.
Qed.

(** The reduction adds up the values of the ranks [0 .. n-1]. *)
Lemma sum_ranks_seq (n : nat) (f : nat -> R) :
  sum_ranks n f = sum_over f (seq 0 n).
Proof.
  induction n as [|n IH]; [reflexivity|].
  rewrite seq_S, sum_over_snoc. cbn [sum_ranks plus]. now rewrite IH.
Qed.

(** With a limit of zero iterations or fewer the loop is not entered:
    the state returned is the one the solver starts from. *)
Lemma psi_sor_poisson_no_trip (comm : comm_t) (obj : psi_t)
    (rho_elec psi0 : fields) (its : Z) :
  (psi_maxits obj <= 0)%Z ->
  (1 <= nhalo (psi_cs obj))%Z -> nlocal_even (psi_cs obj) = true ->
  psi_sor_poisson comm obj rho_elec psi0 its
  = Returned MaxIterationsReached (sor_initial psi0).
Proof.
  intros Hm Hh He. unfold psi_sor_poisson.
  apply Z.leb_le in Hh. rewrite Hh, He. cbn [negb].
  replace (Z.to_nat (psi_maxits obj)) with 0%nat by lia. reflexivity.
Qed.

(** C6.  [rnorm_local[0]] of [psi_sor_poisson] is computed before the
    iteration and is, on each rank, the sum over the owned sites
    [1 <= ic <= nlocal[X]], [1 <= jc <= nlocal[Y]],
    [1 <= kc <= nlocal[Z]], each counted once, of the absolute value of
    [epsilon] times the 6-point Laplacian of the potential given to the
    solver plus [eunit*beta*rho_elec] at the site.  The sums of the ranks
    are added up into [rnorm[0]] by the reduction of the residual check,
    inside the loop: a trip [n] with [n % 5 == 0] that does not fail
    leaves in [rnorm[0]] the sum over the ranks [0 .. nranks-1]; so does
    every run that returns, when the limit is of one iteration or more.
    With a limit of zero or less no reduction is made: the solver
    returns with the state it started from. *)
Theorem C6_initial_residual_norm (comm : comm_t) (obj : psi_t)
    (rho_elec psi0 : fields) (its : Z) :
  let rnl0 := fun p => rnorm_local0 obj (rho_elec p) (psi0 p) in
  (forall p l,
     NoDup l -> (forall c, In c l <-> interior (psi_cs obj) c) ->
     rnl0 p
     = sum_over (fun c => Rabs (poisson_residual obj (rho_elec p) (psi0 p) c))
                l) /\
  (forall radius n st,
     Z.rem n 5 = 0%Z ->
     outcome_holds
       (fun st' => fst (st_rnorm st') = sum_over rnl0 (seq 0 (nranks comm)))
       (sor_iteration comm obj rho_elec rnl0 radius its n st)) /\
  (forall e st,
     (1 <= psi_maxits obj)%Z ->
     psi_sor_poisson comm obj rho_elec psi0 its = Returned e st ->
     fst (st_rnorm st) = sum_over rnl0 (seq 0 (nranks comm))) /\
  ((psi_maxits obj <= 0)%Z ->
   (1 <= nhalo (psi_cs obj))%Z -> nlocal_even (psi_cs obj) = true ->
   psi_sor_poisson comm obj rho_elec psi0 its
   = Returned MaxIterationsReached (sor_initial psi0)).
Proof.
  intros rnl0. split; [|split; [|split]].
  - intros p l. apply rnorm_local0_sum.
  - intros radius n st Hn.
    pose proof (sor_iteration_rnorm0 comm obj rho_elec rnl0 radius its n st)
      as H.
    rewrite <- sum_ranks_seq.
    destruct (sor_iteration comm obj rho_elec rnl0 radius its n st);
      simpl in *; auto.
  - intros e st Hm Hrun.
    pose proof (psi_sor_poisson_rnorm0 comm obj rho_elec psi0 its Hm) as H.
    rewrite Hrun in H. rewrite <- sum_ranks_seq. exact H.
  - apply psi_sor_poisson_no_trip.
Qed.

(** On two ranks with charge densities 1 and 2 and the potential at
    rest, the local sums are 8 and 16 and [rnorm[0]] is returned as 24. *)
Lemma C6_initial_residual_norm_witness :
  exists st,
    psi_sor_poisson comm_two (obj_small 0 31 1) rho_two (uniform_fields 0) 0
    = Returned ConvergedAbsolute st /\
    rnorm_local0 (obj_small 0 31 1) (rho_two 0%nat) (uniform_fields 0 0%nat)
    = 8 /\
    rnorm_local0 (obj_small 0 31 1) (rho_two 1%nat) (uniform_fields 0 1%nat)
    = 16 /\
    fst (st_rnorm st) = 24.
Proof.
  assert (Hm : (1 <= psi_maxits (obj_small 0 31 1))%Z) by (simpl; lia).
  assert (Habs : forall x, 0 <= x -> Rabs (1 * 1 * x) = x)
    by (intros x Hx; rewrite !Rmult_1_l; now apply Rabs_pos_eq).
  assert (Hl : forall p,
             rnorm_local0 (obj_small 0 31 1) (rho_two p)
               (uniform_fields 0 p) = 8 * (INR p + 1)).
  { intros p.
    rewrite (small_rest_norm (obj_small 0 31 1) rho_two
               (fun p => INR p + 1) p eq_refl (fun p => eq_refl)).
    cbn [psi_unit_charge psi_beta obj_small].
    rewrite Habs; [reflexivity|]. pose proof (pos_INR p). lra. }
  destruct (small_rest_converges comm_two (obj_small 0 31 1) rho_two
              (fun p => INR p + 1) 0 eq_refl (fun psi => eq_refl)
              (fun p => eq_refl) R1_neq_R0)
    as (st & Hrun & _ & _).
  - exact Hm.
  - simpl; discriminate.
  - cbn [nranks comm_two sum_ranks psi_unit_charge psi_beta psi_abstol
         obj_small INR].
    rewrite !Habs; lra.
  - exists st. split; [exact Hrun|].
    split; [rewrite Hl; simpl; lra|]. split; [rewrite Hl; simpl; lra|].
    destruct (C6_initial_residual_norm comm_two (obj_small 0 31 1) rho_two
                (uniform_fields 0) 0) as (_ & _ & Hred & _).
    rewrite (Hred ConvergedAbsolute st Hm Hrun).
    unfold sum_over. cbn [nranks comm_two seq fold_right]. cbv beta.
    rewrite !Hl. simpl. lra.
Defined.

(** C6 as specified fails with a limit of zero iterations: the local sum
    is 8 on the one rank, and the solver returns without having reduced
    it, with the content [rnorm[0]] had at the entry. *)
Lemma C6_initial_residual_norm_counterexample :
  let obj := obj_small 0 0 0 in
  let rnl0 := fun p =>
    rnorm_local0 obj (uniform_fields 1 p) (uniform_fields 0 p) in
  exists st,
    psi_sor_poisson comm_small obj (uniform_fields 1) (uniform_fields 0) 0
    = Returned MaxIterationsReached st /\
    st = sor_initial (uniform_fields 0) /\
    mpi_allreduce_sum comm_small rnl0 = 8 /\
    fst (st_rnorm st) <> mpi_allreduce_sum comm_small rnl0.
Proof.
  intros obj rnl0.
  assert (Hsum : mpi_allreduce_sum comm_small rnl0 = 8).
  { unfold mpi_allreduce_sum. cbn [nranks comm_small sum_ranks].
    unfold rnl0.
    rewrite (small_rest_norm obj (uniform_fields 1) (fun _ => 1) 0%nat
               eq_refl (fun p => eq_refl)).
    cbn [psi_unit_charge psi_beta obj obj_small].
    rewrite !Rmult_1_l, Rabs_R1. lra. }
  exists (sor_initial (uniform_fields 0)).
  split; [reflexivity|]. split; [reflexivity|]. split; [exact Hsum|].
  rewrite Hsum. cbn [sor_initial st_rnorm fst]. lra.
Qed.

(** ** A constant permittivity: the two solvers side by side *)

Lemma vare_sweep_norm_constant (obj : psi_t)
    (fepsilon rho_elec psi psi1 : fields) (p : nat) :
  (forall q a, fepsilon q a = psi_epsilon obj) ->
  vare_sweep_norm obj fepsilon rho_elec psi psi1 p
  = sweep_norm obj rho_elec psi psi1 p.
Proof.
  intros H. unfold vare_sweep_norm, sweep_norm.
  f_equal; apply sum_over_ext_in; intros c _;
    now rewrite vare_residual_at_constant.
Qed.

(** The seed of the relaxation parameter on the small system. *)
Lemma omega1_small : 128 / 127 < omega_next (radius_of cs_small) 0 0 1.
Proof.
  pose proof radius_of_small_square as Hr.
  set (r := radius_of cs_small) in *.
  unfold omega_next. cbn [Z.eqb andb].
  assert (Hd : 5 / 6 < 1 - 1 / 2 * r * r < 127 / 128) by nra.
  set (d := 1 - 1 / 2 * r * r) in *.
  apply Rmult_lt_reg_r with d; [lra|].
  unfold Rdiv at 2. rewrite Rmult_1_l, Rinv_l by lra. lra.
Qed.

(** C7.  When the callback returns the uniform permittivity at every
    site, [psi_sor_vare_poisson] computes at every site the residual of
    [psi_sor_poisson], so that the update of a site, a pass made with the
    same [omega] on every rank and the initial norm of the residual are
    those of [psi_sor_poisson].  With a halo of one layer or more, a run
    of [psi_sor_vare_poisson] that returns having converged has stopped
    on the test of [psi_sor_poisson]: the residual of the uniform scheme,
    summed over the sweep just made and over the ranks, is below the
    absolute tolerance or below the relative tolerance times the initial
    norm of the uniform scheme. *)
Theorem C7_constant_permittivity (comm : comm_t) (obj : psi_t)
    (fepsilon rho_elec psi0 : fields) (its : Z) :
  (forall p a, fepsilon p a = psi_epsilon obj) ->
  (forall p psi index,
     vare_residual_at obj (fepsilon p) (rho_elec p) psi index
     = residual_at obj (rho_elec p) psi index) /\
  (forall p omega acc index,
     vare_site obj omega (fepsilon p) (rho_elec p) acc index
     = sor_site obj omega (rho_elec p) acc index) /\
  (forall pass st p,
     st_psi (vare_sweep obj fepsilon rho_elec pass st) p
     = st_psi (sor_sweep obj rho_elec pass st) p /\
     st_rnorm_local1 (vare_sweep obj fepsilon rho_elec pass st) p
     = st_rnorm_local1 (sor_sweep obj rho_elec pass st) p) /\
  (forall p psi,
     vare_rnorm_local0 obj (fepsilon p) (rho_elec p) psi
     = rnorm_local0 obj (rho_elec p) psi) /\
  (forall e st,
     (1 <= nhalo (psi_cs obj))%Z ->
     psi_sor_vare_poisson comm obj fepsilon rho_elec psi0 its
     = Returned e st ->
     e <> MaxIterationsReached ->
     exists k s st1,
       reaches (vare_iteration comm obj fepsilon rho_elec
                  (fun p => vare_rnorm_local0 obj (fepsilon p) (rho_elec p)
                              (psi0 p))
                  (radius_of (psi_cs obj)) its)
               0 (sor_initial psi0) k s /\
       vare_pass comm obj fepsilon rho_elec 0 (reset_rnorm_local1 s)
       = Some st1 /\
       st_rnorm st
       = (mpi_allreduce_sum comm
            (fun p => rnorm_local0 obj (rho_elec p) (psi0 p)),
          mpi_allreduce_sum comm
            (sweep_norm obj rho_elec (st_psi s) (st_psi st1))) /\
       (snd (st_rnorm st) < psi_abstol obj \/
        snd (st_rnorm st) < psi_reltol obj * fst (st_rnorm st))).
Proof.
  intros H. split; [|split; [|split; [|split]]].
  - intros p psi index. now apply vare_residual_at_constant.
  - intros p omega acc index. now apply vare_site_constant.
  - intros pass st p. cbn [vare_sweep sor_sweep st_psi st_rnorm_local1].
    now rewrite vare_half_sweep_constant.
  - intros p psi. now apply vare_rnorm_local0_constant.
  - intros e st Hh Hrun He.
    destruct (psi_sor_vare_poisson_converged_at comm obj fepsilon rho_elec
                psi0 its e st Hh Hrun He)
      as (k & s & st1 & st2 & _ & _ & Hr & H0 & _ & _ & Hnorm & Hlt).
    exists k, s, st1. split; [exact Hr|]. split; [exact H0|].
    split; [|exact Hlt].
    rewrite Hnorm. f_equal; apply sum_ranks_ext; intros p.
    + now apply vare_rnorm_local0_constant.
    + now apply vare_sweep_norm_constant.
Qed.

(** The small system with the permittivity 1/40000, the uniform charge
    -15, an absolute tolerance of 200 and a potential that starts at 0
    on the sites of colour 1 and at -280000 on those of colour 0: the
    initial norm is 252, [psi_sor_vare_poisson] returns converged at its
    first check, and the residual of the uniform scheme over its sweep
    is 180. *)
Lemma C7_constant_permittivity_witness :
  let obj := obj_eps (1/40000) 0 200 1000 in
  let rho := uniform_fields (-15) in
  let psi0 : fields := fun _ => two_colour 0 (-280000) in
  exists st s st1,
    psi_sor_vare_poisson comm_small obj (uniform_fields (1/40000)) rho psi0 0
    = Returned ConvergedAbsolute st /\
    vare_pass comm_small obj (uniform_fields (1/40000)) rho 0
      (reset_rnorm_local1 s) = Some st1 /\
    mpi_allreduce_sum comm_small
      (sweep_norm obj rho (st_psi s) (st_psi st1)) = 180 /\
    st_rnorm st = (252, 180) /\
    snd (st_rnorm st) < psi_abstol obj <= fst (st_rnorm st).
Proof.
  intros obj rho psi0.
  assert (Hm : (1 <= psi_maxits obj)%Z) by (simpl; lia).
  assert (Hf : psi_nfreq obj <> 0%Z) by (simpl; discriminate).
  assert (Hr0 : 1 / 40000 * (3 * -280000 - 6 * 0) + 1 * 1 * -15 = -36)
    by lra.
  assert (Ha : 0 - 1 * -36 / (-6 * (1 / 40000)) = -240000) by (field; lra).
  assert (Hr1 : 1 / 40000 * (3 * -240000 - 6 * -280000) + 1 * 1 * -15 = 9)
    by lra.
  assert (Htot : sum_ranks (nranks comm_small)
                   (fun p =>
                      4 * Rabs (psi_epsilon obj * (3 * -280000 - 6 * 0)
                                + psi_unit_charge obj * psi_beta obj * -15)
                      + 4 * Rabs
                            (psi_epsilon obj
                             * (3 * (0 - 1 * (psi_epsilon obj
                                               * (3 * -280000 - 6 * 0)
                                               + psi_unit_charge obj
                                                 * psi_beta obj * -15)
                                     / (-6 * psi_epsilon obj))
                                - 6 * -280000)
                             + psi_unit_charge obj * psi_beta obj * -15))
                 < psi_abstol obj).
  { cbn [nranks comm_small sum_ranks psi_unit_charge psi_beta psi_abstol
         psi_epsilon obj obj_eps].
    rewrite Hr0, Ha, Hr1.
    rewrite (Rabs_left (-36)), (Rabs_right 9) by lra. lra. }
  destruct (small_start_converges_vare comm_small obj rho (fun _ => -15)
              (fun _ => 0) (fun _ => -280000) 0 eq_refl (fun psi => eq_refl)
              (fun p => eq_refl) (uniform_fields (1/40000))
              (fun p i => eq_refl) Hm Hf Htot)
    as (st & Hrun & _ & Hrn).
  assert (Hval : st_rnorm st = (252, 180)).
  { rewrite Hrn. unfold mpi_allreduce_sum.
    cbn [nranks comm_small sum_ranks].
    unfold rho, uniform_fields.
    rewrite (small_rnorm_local0 obj (-15) 0 (-280000) eq_refl).
    cbn [psi_unit_charge psi_beta psi_abstol psi_epsilon obj obj_eps].
    rewrite Hr0, Ha, Hr1.
    replace (1 / 40000 * (3 * 0 - 6 * -280000) + 1 * 1 * -15) with 27
      by lra.
    rewrite (Rabs_left (-36)), (Rabs_right 27), (Rabs_right 9) by lra.
    f_equal; lra. }
  destruct (C7_constant_permittivity comm_small obj
              (uniform_fields (1/40000)) rho psi0 0 (fun p i => eq_refl))
    as (_ & _ & _ & _ & Hconv).
  destruct (Hconv ConvergedAbsolute st ltac:(simpl; lia) Hrun
              ltac:(discriminate))
    as (k & s & st1 & _ & H0 & Hnorm & _).
  exists st, s, st1. split; [exact Hrun|]. split; [exact H0|].
  rewrite Hval in Hnorm. injection Hnorm as _ Hn.
  split; [now symmetry|]. split; [exact Hval|].
  rewrite Hval. simpl. lra.
Defined.

(** C7 as specified fails.  On the small system with the permittivity
    1/40000 in both solvers, the uniform charge -15, an absolute
    tolerance of 200 and a potential that starts at 0 on the sites of
    colour 1 and at -280000 on those of colour 0, the initial norm, 252,
    is above the tolerance and both solvers return converged at their
    first check.  The potentials they return agree at the site (1,1,1)
    and differ at the site (1,1,2) by more than 400: whatever constant
    is added to one of them, they differ at one of the two sites by more
    than the tolerance. *)
Lemma C7_constant_permittivity_counterexample :
  let obj := obj_eps (1/40000) 0 200 1000 in
  let rho := uniform_fields (-15) in
  let psi0 : fields := fun _ => two_colour 0 (-280000) in
  exists st1 st2,
    (forall p a, uniform_fields (1/40000) p a = psi_epsilon obj) /\
    psi_abstol obj
    <= mpi_allreduce_sum comm_small
         (fun p => rnorm_local0 obj (rho p) (psi0 p)) /\
    psi_sor_poisson comm_small obj rho psi0 0
    = Returned ConvergedAbsolute st1 /\
    psi_sor_vare_poisson comm_small obj (uniform_fields (1/40000)) rho psi0 0
    = Returned ConvergedAbsolute st2 /\
    interior cs_small (1, 1, 1)%Z /\ interior cs_small (1, 1, 2)%Z /\
    forall shift : R,
      psi_abstol obj
      < Rabs (at_site cs_small (st_psi st2 0%nat) (1, 1, 1)%Z + shift
              - at_site cs_small (st_psi st1 0%nat) (1, 1, 1)%Z) \/
      psi_abstol obj
      < Rabs (at_site cs_small (st_psi st2 0%nat) (1, 1, 2)%Z + shift
              - at_site cs_small (st_psi st1 0%nat) (1, 1, 2)%Z).
Proof.
  intros obj rho psi0.
  assert (Hm : (1 <= psi_maxits obj)%Z) by (simpl; lia).
  assert (Hf : psi_nfreq obj <> 0%Z) by (simpl; discriminate).
  assert (Hr0 : 1 / 40000 * (3 * -280000 - 6 * 0) + 1 * 1 * -15 = -36)
    by lra.
  assert (Ha : 0 - 1 * -36 / (-6 * (1 / 40000)) = -240000) by (field; lra).
  assert (Hr1 : 1 / 40000 * (3 * -240000 - 6 * -280000) + 1 * 1 * -15 = 9)
    by lra.
  assert (Htot : sum_ranks (nranks comm_small)
                   (fun p =>
                      4 * Rabs (psi_epsilon obj * (3 * -280000 - 6 * 0)
                                + psi_unit_charge obj * psi_beta obj * -15)
                      + 4 * Rabs
                            (psi_epsilon obj
                             * (3 * (0 - 1 * (psi_epsilon obj
                                               * (3 * -280000 - 6 * 0)
                                               + psi_unit_charge obj
                                                 * psi_beta obj * -15)
                                     / (-6 * psi_epsilon obj))
                                - 6 * -280000)
                             + psi_unit_charge obj * psi_beta obj * -15))
                 < psi_abstol obj).
  { cbn [nranks comm_small sum_ranks psi_unit_charge psi_beta psi_abstol
         psi_epsilon obj obj_eps].
    rewrite Hr0, Ha, Hr1.
    rewrite (Rabs_left (-36)), (Rabs_right 9) by lra. lra. }
  destruct (small_start_converges comm_small obj rho (fun _ => -15)
              (fun _ => 0) (fun _ => -280000) 0 eq_refl (fun psi => eq_refl)
              (fun p => eq_refl) Hm Hf Htot)
    as (st1 & Hrun1 & Hpsi1 & _).
  destruct (small_start_converges_vare comm_small obj rho (fun _ => -15)
              (fun _ => 0) (fun _ => -280000) 0 eq_refl (fun psi => eq_refl)
              (fun p => eq_refl) (uniform_fields (1/40000))
              (fun p i => eq_refl) Hm Hf Htot)
    as (st2 & Hrun2 & Hpsi2 & _).
  exists st1, st2.
  split; [reflexivity|]. split.
  { unfold mpi_allreduce_sum. cbn [nranks comm_small sum_ranks].
    unfold rho, psi0, uniform_fields.
    rewrite (small_rnorm_local0 obj (-15) 0 (-280000) eq_refl).
    cbn [psi_unit_charge psi_beta psi_abstol psi_epsilon obj obj_eps].
    rewrite Hr0.
    replace (1 / 40000 * (3 * 0 - 6 * -280000) + 1 * 1 * -15) with 27
      by lra.
    rewrite (Rabs_left (-36)), (Rabs_right 27) by lra. lra. }
  split; [exact Hrun1|]. split; [exact Hrun2|].
  split; [vm_compute; intuition discriminate|].
  split; [vm_compute; intuition discriminate|].
  intros shift. rewrite (Hpsi1 0%nat), (Hpsi2 0%nat).
  pose proof omega1_small as Ho.
  set (omega1 := omega_next (radius_of cs_small) 0 0 1) in *.
  cbn [psi_unit_charge psi_beta psi_epsilon psi_abstol obj obj_eps].
  rewrite Hr0, Ha, Hr1.
  repeat match goal with
  | |- context [at_site cs_small (two_colour ?x ?y) (1, 1, 1)%Z] =>
      change (at_site cs_small (two_colour x y) (1, 1, 1)%Z) with x
  | |- context [at_site cs_small (two_colour ?x ?y) (1, 1, 2)%Z] =>
      change (at_site cs_small (two_colour x y) (1, 1, 2)%Z) with y
  end.
  replace (-280000 - 1 * 9 / (-6 * (1 / 40000))) with (-220000)
    by (field; lra).
  replace (-280000 - omega1 * 9 / (-6 * (1 / 40000)))
    with (-280000 + 60000 * omega1) by (field; lra).
  destruct (Rle_or_lt shift 200) as [Hs|Hs].
  - right. unfold Rabs. destruct (Rcase_abs _); lra.
  - left. unfold Rabs. destruct (Rcase_abs _); lra.
Qed.

(** ** The iteration limit *)

(** C8.  With a halo of one layer or more and a limit [N >= 1]: a run
    that meets neither tolerance stops at the limit and returns normally.
    It has then made its [N] trips, the potential returned is the one
    left by the second pass of the last trip, and the only thing it
    reports is the limit with [rnorm[0]], the reduced initial norm, and
    [rnorm[1]], the reduced norm of the sweep of the last trip that
    checked the residual: the last trip in [psi_sor_vare_poisson], the
    trip of index [5*((N-1)/5)] in [psi_sor_poisson], up to four sweeps
    before the last.  Conversely, when the last trip allowed is reached
    and goes on, the solver returns at the limit.  A run that does not
    return has failed an assertion, at the entry or on [omega], or has
    trapped on a zero [nfreq] at a residual check that found a tolerance
    met: the limit itself never ends a run in failure. *)
Theorem C8_max_iterations (comm : comm_t) (obj : psi_t)
    (fepsilon rho_elec psi0 : fields) (its : Z) :
  let rnl0 := fun p => rnorm_local0 obj (rho_elec p) (psi0 p) in
  let vnl0 := fun p =>
    vare_rnorm_local0 obj (fepsilon p) (rho_elec p) (psi0 p) in
  let radius := radius_of (psi_cs obj) in
  let body := sor_iteration comm obj rho_elec rnl0 radius its in
  let vbody := vare_iteration comm obj fepsilon rho_elec vnl0 radius its in
  let N := psi_maxits obj in
  (1 <= nhalo (psi_cs obj))%Z -> (1 <= N)%Z ->
  (forall st,
     psi_sor_poisson comm obj rho_elec psi0 its
     = Returned MaxIterationsReached st ->
     exists sl sl2 s st1,
       reaches body 0 (sor_initial psi0) (N - 1) sl /\
       body (N - 1)%Z sl = Continue st /\
       for_pass (sor_pass comm obj rho_elec radius (N - 1))
         (reset_rnorm_local1 sl) = Some sl2 /\
       st_psi st = st_psi sl2 /\
       reaches body 0 (sor_initial psi0) (5 * ((N - 1) / 5)) s /\
       sor_pass comm obj rho_elec radius (5 * ((N - 1) / 5)) 0
         (reset_rnorm_local1 s) = Some st1 /\
       st_rnorm st
       = (mpi_allreduce_sum comm rnl0,
          mpi_allreduce_sum comm
            (sweep_norm obj rho_elec (st_psi s) (st_psi st1))) /\
       st_log st
       = [info_exceeded N (fst (st_rnorm st)) (snd (st_rnorm st))]) /\
  (forall st,
     psi_sor_vare_poisson comm obj fepsilon rho_elec psi0 its
     = Returned MaxIterationsReached st ->
     exists sl st1 sl2,
       reaches vbody 0 (sor_initial psi0) (N - 1) sl /\
       vbody (N - 1)%Z sl = Continue st /\
       vare_pass comm obj fepsilon rho_elec 0 (reset_rnorm_local1 sl)
       = Some st1 /\
       vare_pass comm obj fepsilon rho_elec 1 st1 = Some sl2 /\
       st_psi st = st_psi sl2 /\
       st_rnorm st
       = (mpi_allreduce_sum comm vnl0,
          mpi_allreduce_sum comm
            (vare_sweep_norm obj fepsilon rho_elec (st_psi sl)
               (st_psi st1))) /\
       st_log st
       = [info_vare_exceeded N (fst (st_rnorm st)) (snd (st_rnorm st))]) /\
  (forall sl st,
     nlocal_even (psi_cs obj) = true ->
     reaches body 0 (sor_initial psi0) (N - 1) sl ->
     body (N - 1)%Z sl = Continue st ->
     psi_sor_poisson comm obj rho_elec psi0 its
     = Returned MaxIterationsReached st) /\
  (forall sl st,
     nlocal_even (psi_cs obj) = true ->
     reaches vbody 0 (sor_initial psi0) (N - 1) sl ->
     vbody (N - 1)%Z sl = Continue st ->
     psi_sor_vare_poisson comm obj fepsilon rho_elec psi0 its
     = Returned MaxIterationsReached st) /\
  (forall f,
     psi_sor_poisson comm obj rho_elec psi0 its = Failed f ->
     (f = FailedAssertion /\
      (nlocal_even (psi_cs obj) = false \/
       exists k stk,
         reaches body 0 (sor_initial psi0) k stk /\ (0 <= k < N)%Z /\
         ~ (1 < omega_next radius k 0 (st_omega stk) < 2 /\
            1 < omega_next radius k 1
                  (omega_next radius k 0 (st_omega stk)) < 2))) \/
     (f = DivisionByZero /\ psi_nfreq obj = 0%Z /\
      exists k stk st1 st2,
        reaches body 0 (sor_initial psi0) k stk /\ (0 <= k < N)%Z /\
        Z.rem k 5 = 0%Z /\
        sor_pass comm obj rho_elec radius k 0 (reset_rnorm_local1 stk)
        = Some st1 /\
        sor_pass comm obj rho_elec radius k 1 st1 = Some st2 /\
        let r1 := mpi_allreduce_sum comm
                    (sweep_norm obj rho_elec (st_psi stk) (st_psi st1)) in
        r1 < psi_abstol obj \/
        r1 < psi_reltol obj * mpi_allreduce_sum comm rnl0)) /\
  (forall f,
     psi_sor_vare_poisson comm obj fepsilon rho_elec psi0 its = Failed f ->
     (f = FailedAssertion /\ nlocal_even (psi_cs obj) = false) \/
     (f = DivisionByZero /\ psi_nfreq obj = 0%Z /\
      exists k stk st1 st2,
        reaches vbody 0 (sor_initial psi0) k stk /\ (0 <= k < N)%Z /\
        vare_pass comm obj fepsilon rho_elec 0 (reset_rnorm_local1 stk)
        = Some st1 /\
        vare_pass comm obj fepsilon rho_elec 1 st1 = Some st2 /\
        let r1 := mpi_allreduce_sum comm
                    (vare_sweep_norm obj fepsilon rho_elec (st_psi stk)
                       (st_psi st1)) in
        r1 < psi_abstol obj \/
        r1 < psi_reltol obj * mpi_allreduce_sum comm vnl0)).
Proof.
  intros rnl0 vnl0 radius body vbody N Hh HN.
  split; [|split; [|split; [|split; [|split]]]].
  - intros st. now apply psi_sor_poisson_limit.
  - intros st. now apply psi_sor_vare_poisson_limit.
  - intros sl st Heven Hr Hc. unfold psi_sor_poisson.
    apply Z.leb_le in Hh. rewrite Hh, Heven. cbn [negb].
    apply sor_loop_limit with (s := sl); [|exact Hr|exact Hc].
    intros k s1 s2. apply sor_iteration_no_max.
  - intros sl st Heven Hr Hc. unfold psi_sor_vare_poisson.
    rewrite Heven, (stencil_in_bounds_halo _ Hh). cbn [negb].
    apply sor_loop_limit with (s := sl); [|exact Hr|exact Hc].
    intros k s1 s2. apply vare_iteration_no_max.
  - intros f Hrun.
    destruct (psi_sor_poisson_fails comm obj rho_elec psi0 its f Hrun)
      as [(-> & [H|[H|H]])|H]; [lia| | |]; auto.
  - intros f Hrun.
    now apply (psi_sor_vare_poisson_fails comm obj fepsilon rho_elec psi0
                 its f Hh).
Qed.

(** The run of two trips on the small system: it reports its limit, and
    the final norm it reports is that of the sweep of trip 0. *)
Lemma C8_max_iterations_witness :
  exists st s st1,
    psi_sor_poisson comm_small (obj_small 0 0 2) (uniform_fields 1)
      (uniform_fields 0) 0 = Returned MaxIterationsReached st /\
    reaches (sor_iteration comm_small (obj_small 0 0 2) (uniform_fields 1)
               (fun p => rnorm_local0 (obj_small 0 0 2) (uniform_fields 1 p)
                           (uniform_fields 0 p))
               (radius_of cs_small) 0)
            0 (sor_initial (uniform_fields 0)) 0 s /\
    sor_pass comm_small (obj_small 0 0 2) (uniform_fields 1)
      (radius_of cs_small) 0 0 (reset_rnorm_local1 s) = Some st1 /\
    snd (st_rnorm st)
    = mpi_allreduce_sum comm_small
        (sweep_norm (obj_small 0 0 2) (uniform_fields 1) (st_psi s)
           (st_psi st1)) /\
    st_log st = [info_exceeded 2 (fst (st_rnorm st)) (snd (st_rnorm st))].
Proof.
  destruct small_stale_run as (st & _ & _ & Hrun & _).
  assert (Hh : (1 <= nhalo (psi_cs (obj_small 0 0 2)))%Z) by (simpl; lia).
  assert (HN : (1 <= psi_maxits (obj_small 0 0 2))%Z) by (simpl; lia).
  destruct (C8_max_iterations comm_small (obj_small 0 0 2)
              (uniform_fields 1) (uniform_fields 1) (uniform_fields 0) 0
              Hh HN) as (Hlim & _).
  destruct (Hlim st Hrun)
    as (_ & _ & s & st1 & _ & _ & _ & _ & Hrs & H0 & Hrn & Hlog).
  exists st, s, st1. split; [exact Hrun|]. split; [exact Hrs|].
  split; [exact H0|]. split; [now rewrite Hrn|exact Hlog].
Defined.

(** C8 as specified fails for [psi_sor_poisson]: what it reports as
    final norm at the limit is not the norm of its final sweep.  With a
    limit of two iterations on the small system the report reads 10, the
    norm of the first sweep; the second and last sweep, made from the
    state [sl], has a norm below 6.  With a limit of zero iterations the
    solver returns at once and reports nothing. *)
Lemma C8_max_iterations_counterexample :
  (exists st sl st1,
     psi_sor_poisson comm_small (obj_small 0 0 2) (uniform_fields 1)
       (uniform_fields 0) 0 = Returned MaxIterationsReached st /\
     st_log st = [info_exceeded 2 8 10] /\
     reaches (sor_iteration comm_small (obj_small 0 0 2) (uniform_fields 1)
                (fun p => rnorm_local0 (obj_small 0 0 2) (uniform_fields 1 p)
                            (uniform_fields 0 p))
                (radius_of cs_small) 0)
             0 (sor_initial (uniform_fields 0))
             (psi_maxits (obj_small 0 0 2) - 1) sl /\
     sor_pass comm_small (obj_small 0 0 2) (uniform_fields 1)
       (radius_of cs_small) (psi_maxits (obj_small 0 0 2) - 1) 0
       (reset_rnorm_local1 sl) = Some st1 /\
     let final :=
       mpi_allreduce_sum comm_small
         (sweep_norm (obj_small 0 0 2) (uniform_fields 1) (st_psi sl)
            (st_psi st1)) in
     final < 6 /\ st_log st <> [info_exceeded 2 8 final]) /\
  (exists st,
     psi_sor_poisson comm_small (obj_small 0 0 0) (uniform_fields 1)
       (uniform_fields 0) 0 = Returned MaxIterationsReached st /\
     st_psi st = uniform_fields 0 /\ st_log st = []).
Proof.
  split.
  - destruct small_stale_run
      as (st & sl & st1 & Hrun & Hlog & Hr & H0 & Hlt).
    exists st, sl, st1.
    split; [exact Hrun|]. split; [exact Hlog|]. split; [exact Hr|].
    split; [exact H0|]. cbv zeta. split; [exact Hlt|].
    rewrite Hlog. intros [= E]. rewrite <- E in Hlt. lra.
  - exists (sor_initial (uniform_fields 0)).
    split; [reflexivity|]. split; reflexivity.
Qed.

(** ** The assertions on the relaxation parameter *)


(** X17.  When the larger of the global extents along X and Z is an
    integer of at least 2, the square of the radius lies strictly
    between 0 and 1, and [omega] lies strictly between 1 and 2 after
    every recomputation of either solver: a trip started with
    [1 <= omega < 2] fails no assertion and ends with [1 < omega < 2].
    With [nfreq] not zero, a halo of one layer or more and even local
    extents, both solvers then return, with [omega] within the bounds. *)
Theorem omega_within_bounds (comm : comm_t) (obj : psi_t)
    (fepsilon rho_elec psi0 : fields) (its : Z) (m : Z) :
  (2 <= m)%Z ->
  dmax (ltotX (psi_cs obj)) (ltotZ (psi_cs obj)) = IZR m ->
  0 < radius_of (psi_cs obj) * radius_of (psi_cs obj) < 1 /\
  (forall rnl0 n st,
     1 <= st_omega st < 2 ->
     sor_iteration comm obj rho_elec rnl0 (radius_of (psi_cs obj)) its n st
     <> AssertFails /\
     outcome_holds (fun st' => 1 < st_omega st' < 2)
       (sor_iteration comm obj rho_elec rnl0 (radius_of (psi_cs obj))
          its n st) /\
     outcome_holds (fun st' => 1 < st_omega st' < 2)
       (vare_iteration comm obj fepsilon rho_elec rnl0
          (radius_of (psi_cs obj)) its n st)) /\
  ((1 <= nhalo (psi_cs obj))%Z -> nlocal_even (psi_cs obj) = true ->
   psi_nfreq obj <> 0%Z ->
   (exists e st,
      psi_sor_poisson comm obj rho_elec psi0 its = Returned e st /\
      1 <= st_omega st < 2) /\
   (exists e st,
      psi_sor_vare_poisson comm obj fepsilon rho_elec psi0 its
      = Returned e st /\
      1 <= st_omega st < 2)).
Proof.
  intros Hm HL.
  pose proof (radius_of_square (psi_cs obj) m Hm HL) as Hr.
  split; [exact Hr|]. split.
  - intros rnl0 n st Ho.
    destruct (sor_iteration_admissible comm obj rho_elec rnl0
                (radius_of (psi_cs obj)) its n st Hr Ho) as [H1 H2].
    split; [exact H1|]. split; [exact H2|].
    now apply vare_iteration_admissible.
  - intros Hh Heven Hf. split.
    + now apply psi_sor_poisson_returns with (m := m).
    + destruct (psi_sor_vare_poisson_returns comm obj fepsilon rho_elec psi0
                  its Heven (stencil_in_bounds_halo _ Hh) Hf)
        as (e & st & Hrun).
      exists e, st. split; [exact Hrun|].
      pose proof (psi_sor_vare_poisson_omega comm obj fepsilon rho_elec psi0
                    its m Hm HL) as H.
      rewrite Hrun in H. exact H.
Qed.

Lemma omega_within_bounds_witness :
  (exists e st,
     psi_sor_poisson comm_small (obj_small 0 0 3) (uniform_fields 1)
       (uniform_fields 0) 0 = Returned e st /\
     1 <= st_omega st < 2) /\
  (exists e st,
     psi_sor_vare_poisson comm_small (obj_small 0 0 3) (uniform_fields 1)
       (uniform_fields 1) (uniform_fields 0) 0 = Returned e st /\
     1 <= st_omega st < 2).
Proof.
  destruct (omega_within_bounds comm_small (obj_small 0 0 3)
              (uniform_fields 1) (uniform_fields 1) (uniform_fields 0) 0 2
              ltac:(lia) dmax_small)
    as (_ & _ & Hrun).
  apply Hrun; [simpl; lia | reflexivity | simpl; discriminate].
Defined.

(** ** The assertions at the entry *)




(* ===================================================================== *)
(** * The force from the divergence of the stress *)
(* ===================================================================== *)

Module PhiForceFacts.
Import PhiForce.

Open Scope R_scope.
















End PhiForceFacts.
